(** * The storage engine of [absl::InlinedVector]

    A shallow embedding of
    [absl/container/internal/inlined_vector.h]: the capacity policy, the
    element primitives ([DestroyElements], [ConstructElements],
    [AssignElements]), the two transaction guards and the mutating
    operations of [Storage<T, N, A>], followed by the properties of the
    engine that the specification states. *)

From stdpp Require Import base numbers option list gmap.

Local Open Scope Z_scope.

(** ** [SizeType<A>]: an unsigned 64-bit integer

    Values are integers in [[0, SizeType_modulus)]; every arithmetic
    operation of the source is written with its wrap-around. *)

Definition SizeType_bits : Z := 64.
Definition SizeType_modulus : Z := 2 ^ SizeType_bits.
Definition SizeType_max : Z := SizeType_modulus - 1.

Definition wrap (z : Z) : Z := z mod SizeType_modulus.

Definition sz_add (a b : Z) : Z := wrap (a + b).
Definition sz_sub (a b : Z) : Z := wrap (a - b).
Definition sz_mul (a b : Z) : Z := wrap (a * b).
Definition sz_shl (a k : Z) : Z := wrap (Z.shiftl a k).
Definition sz_shr (a k : Z) : Z := Z.shiftr a k.

(** ** Capacity policy *)

(** [Storage::NextCapacity] *)
Definition NextCapacity (current_capacity : Z) : Z :=
  sz_mul current_capacity 2.

(** [Storage::ComputeCapacity] *)
Definition ComputeCapacity (current_capacity requested_capacity : Z) : Z :=
  Z.max (NextCapacity current_capacity) requested_capacity.

(** ** Buffers indexed by integers

    An index computed in [SizeType] or by pointer arithmetic is an integer;
    only an index inside the list designates a slot. *)

Definition zlen {A} (l : list A) : Z := Z.of_nat (length l).

Definition zlookup {A} (l : list A) (i : Z) : option A :=
  if bool_decide (0 ≤ i) then l !! Z.to_nat i else None.

Definition zinsert {A} (i : Z) (x : A) (l : list A) : list A :=
  if bool_decide (0 ≤ i) then <[Z.to_nat i := x]> l else l.

(** [zupdate f l] overrides the slots of [l] where [f] is defined;
    [on_range off n g] is defined on the [n] indices from [off]. *)
Definition zupdate {A} (f : Z → option A) (l : list A) : list A :=
  imap (λ i x, default x (f (Z.of_nat i))) l.

Definition on_range {A} (off n : Z) (g : Z → A) : Z → option A :=
  λ j, if decide (off ≤ j < off + n) then Some (g j) else None.

(** ** Parameters of the instantiation

    [ValueType] is what the engine needs to know of the element type [T]:
    the value a default construction yields, the state a move (construction
    or assignment) leaves in its source, and the state of an element after it
    is move-assigned to itself. Copies and moves transfer the value as it
    is. *)

Class ValueType (T : Type) := {
  value_initialized : T;
  moved_from : T → T;
  self_moved : T → T
}.

(** [Environment] fixes the template parameter [N], the allocator's
    [max_size], the trait [IsMemcpyOk<A>::value], and which of the
    operations that can throw do throw: [faults k] tells whether the [k]-th
    such operation of a run (an allocation, or a construction, assignment or
    swap of elements) throws. *)

Class Environment := {
  N : Z;
  max_size : Z;
  IsMemcpyOk : bool;
  faults : nat → bool
}.

(** ** Objects, pointers and memory *)

(** The two [Storage] objects of a run: [*this] and, for [Swap], the other
    one. *)
Inductive Who := This | Other.

(** A pointer designates a slot of the inlined region of a [Storage], or a
    slot of a block of the heap, or is null. Pointer arithmetic moves the
    index; only an access checks it. *)
Inductive Base := InlinedOf (w : Who) | HeapBlock (a : nat).
Inductive Pointer := nullptr | Ptr (b : Base) (i : Z).

#[global] Instance Who_eq_dec : EqDecision Who.
Proof. solve_decision. Defined.
#[global] Instance Base_eq_dec : EqDecision Base.
Proof. solve_decision. Defined.
#[global] Instance Pointer_eq_dec : EqDecision Pointer.
Proof. solve_decision. Defined.

Definition ptr_add (p : Pointer) (n : Z) : Pointer :=
  match p with nullptr => nullptr | Ptr b i => Ptr b (i + n) end.

Definition ptr_lt (p q : Pointer) : bool :=
  match p, q with
  | Ptr b i, Ptr b' j => bool_decide (b = b') && (i <? j)
  | _, _ => false
  end.

Definition is_null (p : Pointer) : bool :=
  match p with nullptr => true | Ptr _ _ => false end.

Inductive Exception := bad_alloc | element_exception.

(** [StorageView<A>] *)
Record StorageView := {
  view_data : Pointer;
  view_size : Z;
  view_capacity : Z
}.

(** [absl::Span<ValueType<A>>], as the engine uses it: a pointer and a
    length. *)
Record Span := { span_data : Pointer; span_size : Z }.

(** The state of an [AllocationTransaction] and of a
    [ConstructionTransaction]. *)
Record AllocationTransaction := {
  allocation_tx_data : Pointer;
  allocation_tx_capacity : Z
}.
Record ConstructionTransaction := {
  construction_tx_data : Pointer;
  construction_tx_size : Z
}.

Section Engine.
Context {T : Type} {VT : ValueType T} {Env : Environment}.

(** A slot of a buffer holds a live element ([Some v]) or is raw storage
    ([None]). *)
Record Allocated := {
  allocated_data : Pointer;
  allocated_capacity : Z
}.

(** [union Data]: writing one member clobbers the other. *)
Inductive Data :=
| DataAllocated (allocated : Allocated)
| DataInlined (inlined_data : list (option T)).

(** [Storage<T, N, A>]: [metadata_] (the allocator and the packed word
    [size << 1 | is_allocated]) and [data_]. All allocators of type [A]
    allocate from the one heap; the field only carries their identity. *)
Record Storage := {
  metadata_allocator : nat;
  metadata_size_and_is_allocated : Z;
  data_ : Data
}.

Record Memory := {
  this_storage : Storage;
  other_storage : Storage;
  heap : gmap nat (list (option T))
}.

Inductive Event :=
| EvAllocate (a : nat) (capacity : Z)
| EvDeallocate (a : nat) (capacity : Z)
| EvConstruct (p : Pointer) (v : T)
| EvMoveConstruct (p src : Pointer)
| EvAssign (p : Pointer) (v : T)
| EvMoveAssign (p src : Pointer)
| EvSwap (p q : Pointer)
| EvDestroy (p : Pointer)
| EvThrow (e : Exception).

(** The state of a run: the memory, the transaction guards that are alive
    (the innermost last), the trace of what the allocator and the element
    type were asked to do (an [EvThrow] follows the call that threw), and
    the number of operations that could have thrown so far. *)
Record State := {
  mem : Memory;
  allocation_txs : list AllocationTransaction;
  construction_txs : list ConstructionTransaction;
  trace : list Event;
  tick : nat
}.

Definition with_mem (f : Memory → Memory) (s : State) : State :=
  {| mem := f (mem s); allocation_txs := allocation_txs s;
     construction_txs := construction_txs s; trace := trace s;
     tick := tick s |}.

Definition with_allocation_txs
    (f : list AllocationTransaction → list AllocationTransaction)
    (s : State) : State :=
  {| mem := mem s; allocation_txs := f (allocation_txs s);
     construction_txs := construction_txs s; trace := trace s;
     tick := tick s |}.

Definition with_construction_txs
    (f : list ConstructionTransaction → list ConstructionTransaction)
    (s : State) : State :=
  {| mem := mem s; allocation_txs := allocation_txs s;
     construction_txs := f (construction_txs s); trace := trace s;
     tick := tick s |}.

Definition with_event (e : Event) (s : State) : State :=
  {| mem := mem s; allocation_txs := allocation_txs s;
     construction_txs := construction_txs s; trace := trace s ++ [e];
     tick := tick s |}.

Definition with_tick (s : State) : State :=
  {| mem := mem s; allocation_txs := allocation_txs s;
     construction_txs := construction_txs s; trace := trace s;
     tick := S (tick s) |}.

Definition storage_of (w : Who) (m : Memory) : Storage :=
  match w with This => this_storage m | Other => other_storage m end.

Definition set_storage (w : Who) (st : Storage) (m : Memory) : Memory :=
  match w with
  | This => {| this_storage := st; other_storage := other_storage m;
               heap := heap m |}
  | Other => {| this_storage := this_storage m; other_storage := st;
                heap := heap m |}
  end.

Definition with_storage (w : Who) (f : Storage → Storage) (m : Memory)
    : Memory :=
  set_storage w (f (storage_of w m)) m.

Definition set_heap (h : gmap nat (list (option T))) (m : Memory) : Memory :=
  {| this_storage := this_storage m; other_storage := other_storage m;
     heap := h |}.

Definition raw_buffer (n : Z) : list (option T) :=
  replicate (Z.to_nat n) None.

(** The buffer behind a base. While the [allocated] member of the union is
    the live one, the inlined region is raw storage. *)
Definition get_buf (b : Base) (m : Memory) : option (list (option T)) :=
  match b with
  | InlinedOf w =>
      match data_ (storage_of w m) with
      | DataInlined l => Some l
      | DataAllocated _ => Some (raw_buffer N)
      end
  | HeapBlock a => heap m !! a
  end.

Definition set_buf (b : Base) (l : list (option T)) (m : Memory) : Memory :=
  match b with
  | InlinedOf w =>
      let st := storage_of w m in
      set_storage w
        {| metadata_allocator := metadata_allocator st;
           metadata_size_and_is_allocated := metadata_size_and_is_allocated st;
           data_ := DataInlined l |} m
  | HeapBlock a => set_heap (<[a := l]> (heap m)) m
  end.

Definition slot_at (p : Pointer) (m : Memory) : option (option T) :=
  match p with
  | nullptr => None
  | Ptr b i =>
      match get_buf b m with
      | Some l => zlookup l i
      | None => None
      end
  end.

Definition write_slot (p : Pointer) (x : option T) (m : Memory) : Memory :=
  match p with
  | nullptr => m
  | Ptr b i =>
      match get_buf b m with
      | Some l => set_buf b (zinsert i x l) m
      | None => m
      end
  end.

(** ** Computations

    A computation returns a value, throws (the state is the one the unwinding
    reaches the handler with), or has no defined behaviour: an access outside
    a buffer or to the wrong kind of slot, a failed [assert]. *)

Inductive Result (A : Type) :=
| Ok (a : A) (s : State)
| Throw (e : Exception) (s : State)
| Undefined.
Arguments Ok {A} a s.
Arguments Throw {A} e s.
Arguments Undefined {A}.

Definition M (A : Type) : Type := State → Result A.

#[global] Instance M_ret : MRet M := λ A a s, Ok a s.
#[global] Instance M_bind : MBind M := λ A B f m s,
  match m s with
  | Ok a s' => f a s'
  | Throw e s' => Throw e s'
  | Undefined => Undefined
  end.

Definition undefined {A} : M A := λ _, Undefined.
Definition throw {A} (e : Exception) : M A := λ s, Throw e s.
Definition assert (b : bool) : M unit := if b then mret tt else undefined.
Definition log (e : Event) : M unit := λ s, Ok tt (with_event e s).
Definition read_mem : M Memory := λ s, Ok (mem s) s.
Definition update_mem (f : Memory → Memory) : M unit :=
  λ s, Ok tt (with_mem f s).

(** An operation that can throw consults [faults] at the current tick. *)
Definition fallible (e : Exception) : M unit := λ s,
  if faults (tick s) then Throw e (with_event (EvThrow e) (with_tick s))
  else Ok tt (with_tick s).

(** [ABSL_INTERNAL_TRY { m } ABSL_INTERNAL_CATCH_ANY { h; ABSL_INTERNAL_RETHROW; }] *)
Definition catch_any {A} (m : M A) (h : M unit) : M A := λ s,
  match m s with
  | Throw e s' =>
      match h s' with
      | Ok _ s'' => Throw e s''
      | Throw e' s'' => Throw e' s''
      | Undefined => Undefined
      end
  | r => r
  end.

(** Leaving a scope runs the destructor of its local object, on return and
    on unwinding alike. *)
Definition unwind_protect {A} (m : M A) (cleanup : M unit) : M A := λ s,
  match m s with
  | Ok a s' =>
      match cleanup s' with
      | Ok _ s'' => Ok a s''
      | Throw e s'' => Throw e s''
      | Undefined => Undefined
      end
  | Throw e s' =>
      match cleanup s' with
      | Ok _ s'' => Throw e s''
      | Throw e' s'' => Throw e' s''
      | Undefined => Undefined
      end
  | Undefined => Undefined
  end.

Definition load (p : Pointer) : M (option T) := λ s,
  match slot_at p (mem s) with
  | Some x => Ok x s
  | None => Undefined
  end.

Definition store (p : Pointer) (x : option T) : M unit := λ s,
  match slot_at p (mem s) with
  | Some _ => Ok tt (with_mem (write_slot p x) s)
  | None => Undefined
  end.

Definition load_live (p : Pointer) : M T :=
  x ← load p; match x with Some v => mret v | None => undefined end.

Definition require_raw (p : Pointer) : M unit :=
  x ← load p; match x with Some _ => undefined | None => mret tt end.

(** [std::distance(p, q)], converted to [SizeType<A>]. *)
Definition distance (p q : Pointer) : M Z :=
  match p, q with
  | Ptr b i, Ptr b' j => if bool_decide (b = b') then mret (wrap (j - i)) else undefined
  | _, _ => undefined
  end.

(** ** The allocator and the element type *)

(** [AllocatorTraits<A>::allocate]: throws beyond [max_size] or when the
    allocator has no memory; the new block is raw storage. *)
Definition allocate (capacity : Z) : M Pointer :=
  (if max_size <? capacity then throw bad_alloc else mret tt);;
  fallible bad_alloc;;
  m ← read_mem;
  let a := fresh (dom (heap m)) in
  update_mem (set_heap (<[a := raw_buffer capacity]> (heap m)));;
  log (EvAllocate a capacity);;
  mret (Ptr (HeapBlock a) 0).

(** [AllocatorTraits<A>::deallocate]: of a whole block, with its capacity. *)
Definition deallocate (p : Pointer) (capacity : Z) : M unit :=
  match p with
  | Ptr (HeapBlock a) 0 =>
      m ← read_mem;
      match heap m !! a with
      | Some l =>
          assert (bool_decide (Z.of_nat (length l) = capacity));;
          update_mem (set_heap (delete a (heap m)));;
          log (EvDeallocate a capacity)
      | None => undefined
      end
  | _ => undefined
  end.

(** [AllocatorTraits<A>::construct(allocator, p, v)]: in raw storage. *)
Definition construct (p : Pointer) (v : T) : M unit :=
  require_raw p;;
  log (EvConstruct p v);;
  fallible element_exception;;
  store p (Some v).

(** [AllocatorTraits<A>::construct(allocator, p, std::move( *src))] *)
Definition move_construct (p src : Pointer) : M unit :=
  v ← load_live src;
  require_raw p;;
  log (EvMoveConstruct p src);;
  fallible element_exception;;
  store p (Some v);;
  store src (Some (moved_from v)).

(** [*p = v] *)
Definition assign (p : Pointer) (v : T) : M unit :=
  load_live p;;
  log (EvAssign p v);;
  fallible element_exception;;
  store p (Some v).

(** [*p = std::move( *src)] *)
Definition move_assign (p src : Pointer) : M unit :=
  v ← load_live src;
  load_live p;;
  log (EvMoveAssign p src);;
  fallible element_exception;;
  if bool_decide (p = src) then store p (Some (self_moved v))
  else store p (Some v);; store src (Some (moved_from v)).

(** [swap( *p, *q)] *)
Definition swap_elements (p q : Pointer) : M unit :=
  v ← load_live p;
  w ← load_live q;
  log (EvSwap p q);;
  fallible element_exception;;
  store p (Some w);;
  store q (Some v).

(** [AllocatorTraits<A>::destroy(allocator, p)]: of a live element. *)
Definition destroy (p : Pointer) : M unit :=
  load_live p;;
  log (EvDestroy p);;
  store p None.

(** ** Value adapters *)

(** [IteratorValueAdapter] over a range outside the storage is the list of
    the values the range still yields; over a [MoveIterator] into a buffer it
    is the pointer. [CopyValueAdapter] points to an element outside the
    storage: its value. *)
Inductive ValueAdapter :=
| IteratorValueAdapter (it_ : list T)
| MoveIteratorValueAdapter (it_ : Pointer)
| CopyValueAdapter (v : T)
| DefaultValueAdapter.

Definition ConstructNext (values : ValueAdapter) (construct_at : Pointer)
    : M ValueAdapter :=
  match values with
  | IteratorValueAdapter it_ =>
      match it_ with
      | v :: it_ => construct construct_at v;; mret (IteratorValueAdapter it_)
      | [] => undefined
      end
  | MoveIteratorValueAdapter it_ =>
      move_construct construct_at it_;;
      mret (MoveIteratorValueAdapter (ptr_add it_ 1))
  | CopyValueAdapter v => construct construct_at v;; mret values
  | DefaultValueAdapter =>
      construct construct_at value_initialized;; mret values
  end.

Definition AssignNext (values : ValueAdapter) (assign_at : Pointer)
    : M ValueAdapter :=
  match values with
  | IteratorValueAdapter it_ =>
      match it_ with
      | v :: it_ => assign assign_at v;; mret (IteratorValueAdapter it_)
      | [] => undefined
      end
  | MoveIteratorValueAdapter it_ =>
      move_assign assign_at it_;;
      mret (MoveIteratorValueAdapter (ptr_add it_ 1))
  | CopyValueAdapter v => assign assign_at v;; mret values
  | DefaultValueAdapter => assign assign_at value_initialized;; mret values
  end.

(** ** Element primitives *)

(** The loop of [DestroyElements]: [for (auto i = destroy_size; i != 0;)]. *)
Fixpoint destroy_loop (destroy_first : Pointer) (i : nat) : M unit :=
  match i with
  | O => mret tt
  | S i' =>
      destroy (ptr_add destroy_first (Z.of_nat i'));;
      destroy_loop destroy_first i'
  end.

Definition DestroyElements (destroy_first : Pointer) (destroy_size : Z)
    : M unit :=
  if is_null destroy_first then mret tt
  else destroy_loop destroy_first (Z.to_nat destroy_size).

(** The loop of [ConstructElements], from index [i], [remaining] elements to
    go. *)
Fixpoint construct_loop (construct_first : Pointer) (values : ValueAdapter)
    (i : Z) (remaining : nat) : M ValueAdapter :=
  match remaining with
  | O => mret values
  | S remaining' =>
      values ← catch_any
        (ConstructNext values (ptr_add construct_first i))
        (DestroyElements construct_first i);
      construct_loop construct_first values (i + 1) remaining'
  end.

Definition ConstructElements (construct_first : Pointer)
    (values : ValueAdapter) (construct_size : Z) : M ValueAdapter :=
  construct_loop construct_first values 0 (Z.to_nat construct_size).

Fixpoint assign_loop (assign_first : Pointer) (values : ValueAdapter)
    (i : Z) (remaining : nat) : M ValueAdapter :=
  match remaining with
  | O => mret values
  | S remaining' =>
      values ← AssignNext values (ptr_add assign_first i);
      assign_loop assign_first values (i + 1) remaining'
  end.

Definition AssignElements (assign_first : Pointer) (values : ValueAdapter)
    (assign_size : Z) : M ValueAdapter :=
  assign_loop assign_first values 0 (Z.to_nat assign_size).

(** ** Transaction guards

    A guard is a local object: its constructor puts its state last in the
    list of the live guards and returns its position, its destructor runs
    when the scope is left and removes it. *)

Definition AllocationTransaction_ctor : M nat := λ s,
  Ok (length (allocation_txs s))
     (with_allocation_txs
        (λ l, l ++ [{| allocation_tx_data := nullptr;
                       allocation_tx_capacity := 0 |}]) s).

Definition allocation_tx (h : nat) : M AllocationTransaction := λ s,
  match allocation_txs s !! h with
  | Some tx => Ok tx s
  | None => Undefined
  end.

Definition set_allocation_tx (h : nat) (tx : AllocationTransaction)
    : M unit := λ s,
  Ok tt (with_allocation_txs (λ l, <[h := tx]> l) s).

Definition AllocationTransaction_GetData (h : nat) : M Pointer :=
  tx ← allocation_tx h; mret (allocation_tx_data tx).

Definition AllocationTransaction_GetCapacity (h : nat) : M Z :=
  tx ← allocation_tx h; mret (allocation_tx_capacity tx).

Definition AllocationTransaction_DidAllocate (h : nat) : M bool :=
  data ← AllocationTransaction_GetData h; mret (negb (is_null data)).

Definition AllocationTransaction_Allocate (h : nat) (capacity : Z)
    : M Pointer :=
  data ← allocate capacity;
  set_allocation_tx h {| allocation_tx_data := data;
                         allocation_tx_capacity := capacity |};;
  AllocationTransaction_GetData h.

Definition AllocationTransaction_Reset (h : nat) : M unit :=
  set_allocation_tx h {| allocation_tx_data := nullptr;
                         allocation_tx_capacity := 0 |}.

Definition leave_allocation_tx (h : nat) : M unit := λ s,
  Ok tt (with_allocation_txs (take h) s).

Definition AllocationTransaction_dtor (h : nat) : M unit :=
  did_allocate ← AllocationTransaction_DidAllocate h;
  (if did_allocate : bool then
     data ← AllocationTransaction_GetData h;
     capacity ← AllocationTransaction_GetCapacity h;
     deallocate data capacity
   else mret tt);;
  leave_allocation_tx h.

Definition with_AllocationTransaction {A} (body : nat → M A) : M A :=
  h ← AllocationTransaction_ctor;
  unwind_protect (body h) (AllocationTransaction_dtor h).

Definition ConstructionTransaction_ctor : M nat := λ s,
  Ok (length (construction_txs s))
     (with_construction_txs
        (λ l, l ++ [{| construction_tx_data := nullptr;
                       construction_tx_size := 0 |}]) s).

Definition construction_tx (h : nat) : M ConstructionTransaction := λ s,
  match construction_txs s !! h with
  | Some tx => Ok tx s
  | None => Undefined
  end.

Definition set_construction_tx (h : nat) (tx : ConstructionTransaction)
    : M unit := λ s,
  Ok tt (with_construction_txs (λ l, <[h := tx]> l) s).

Definition ConstructionTransaction_GetData (h : nat) : M Pointer :=
  tx ← construction_tx h; mret (construction_tx_data tx).

Definition ConstructionTransaction_GetSize (h : nat) : M Z :=
  tx ← construction_tx h; mret (construction_tx_size tx).

Definition ConstructionTransaction_DidConstruct (h : nat) : M bool :=
  data ← ConstructionTransaction_GetData h; mret (negb (is_null data)).

Definition ConstructionTransaction_Construct (h : nat) (data : Pointer)
    (values : ValueAdapter) (size : Z) : M ValueAdapter :=
  values ← ConstructElements data values size;
  set_construction_tx h {| construction_tx_data := data;
                           construction_tx_size := size |};;
  mret values.

Definition ConstructionTransaction_Commit (h : nat) : M unit :=
  set_construction_tx h {| construction_tx_data := nullptr;
                           construction_tx_size := 0 |}.

Definition leave_construction_tx (h : nat) : M unit := λ s,
  Ok tt (with_construction_txs (take h) s).

Definition ConstructionTransaction_dtor (h : nat) : M unit :=
  did_construct ← ConstructionTransaction_DidConstruct h;
  (if did_construct : bool then
     data ← ConstructionTransaction_GetData h;
     size ← ConstructionTransaction_GetSize h;
     DestroyElements data size
   else mret tt);;
  leave_construction_tx h.

Definition with_ConstructionTransaction {A} (body : nat → M A) : M A :=
  h ← ConstructionTransaction_ctor;
  unwind_protect (body h) (ConstructionTransaction_dtor h).

(** ** [Storage]: accessors *)

Definition GetSizeAndIsAllocated (st : Storage) : Z :=
  metadata_size_and_is_allocated st.

Definition GetSize (st : Storage) : Z := sz_shr (GetSizeAndIsAllocated st) 1.

Definition GetIsAllocated (st : Storage) : bool :=
  negb (Z.land (GetSizeAndIsAllocated st) 1 =? 0).

(** Reading the member of the union that is not the live one yields
    nothing of use: a null pointer and capacity 0 stand for it. *)
Definition GetAllocatedData (st : Storage) : Pointer :=
  match data_ st with
  | DataAllocated a => allocated_data a
  | DataInlined _ => nullptr
  end.

Definition GetAllocatedCapacity (st : Storage) : Z :=
  match data_ st with
  | DataAllocated a => allocated_capacity a
  | DataInlined _ => 0
  end.

Definition GetInlinedData (self : Who) : Pointer := Ptr (InlinedOf self) 0.

Definition GetInlinedCapacity : Z := N.

Definition MakeStorageView (self : Who) (st : Storage) : StorageView :=
  if GetIsAllocated st
  then {| view_data := GetAllocatedData st; view_size := GetSize st;
          view_capacity := GetAllocatedCapacity st |}
  else {| view_data := GetInlinedData self; view_size := GetSize st;
          view_capacity := GetInlinedCapacity |}.

Definition GetAllocator (st : Storage) : nat := metadata_allocator st.

(** [Storage(const A& allocator)]: the word is 0, [data_] is not
    initialised. *)
Definition Storage_ctor (allocator : nat) : Storage :=
  {| metadata_allocator := allocator;
     metadata_size_and_is_allocated := 0;
     data_ := DataInlined (raw_buffer N) |}.

(** The object [*self]. *)
Definition storage (self : Who) : M Storage :=
  λ s, Ok (storage_of self (mem s)) s.

Definition update_storage (self : Who) (f : Storage → Storage) : M unit :=
  update_mem (with_storage self f).

Definition set_word (w : Z) (st : Storage) : Storage :=
  {| metadata_allocator := metadata_allocator st;
     metadata_size_and_is_allocated := w;
     data_ := data_ st |}.

Definition set_allocator (a : nat) (st : Storage) : Storage :=
  {| metadata_allocator := a;
     metadata_size_and_is_allocated := metadata_size_and_is_allocated st;
     data_ := data_ st |}.

Definition set_data (d : Data) (st : Storage) : Storage :=
  {| metadata_allocator := metadata_allocator st;
     metadata_size_and_is_allocated := metadata_size_and_is_allocated st;
     data_ := d |}.

(** ** [Storage]: mutators *)

Definition SetIsAllocated (self : Who) : M unit :=
  update_storage self
    (λ st, set_word (Z.lor (GetSizeAndIsAllocated st) 1) st).

Definition UnsetIsAllocated (self : Who) : M unit :=
  update_storage self
    (λ st, set_word (Z.land (GetSizeAndIsAllocated st) (SizeType_max - 1)) st).

Definition SetSize (self : Who) (size : Z) : M unit :=
  update_storage self
    (λ st, set_word (Z.lor (sz_shl size 1) (Z.b2z (GetIsAllocated st))) st).

Definition SetAllocatedSize (self : Who) (size : Z) : M unit :=
  update_storage self (λ st, set_word (Z.lor (sz_shl size 1) 1) st).

Definition SetInlinedSize (self : Who) (size : Z) : M unit :=
  update_storage self (λ st, set_word (sz_shl size 1) st).

Definition AddSize (self : Who) (count : Z) : M unit :=
  update_storage self
    (λ st, set_word (sz_add (GetSizeAndIsAllocated st) (sz_shl count 1)) st).

Definition SubtractSize (self : Who) (count : Z) : M unit :=
  st ← storage self;
  assert (count <=? GetSize st);;
  update_storage self
    (λ st, set_word (sz_sub (GetSizeAndIsAllocated st) (sz_shl count 1)) st).

Definition SetAllocatedData (self : Who) (data : Pointer) (capacity : Z)
    : M unit :=
  update_storage self
    (set_data (DataAllocated {| allocated_data := data;
                                allocated_capacity := capacity |})).

Definition AcquireAllocatedData (self : Who) (allocation_tx : nat)
    : M unit :=
  data ← AllocationTransaction_GetData allocation_tx;
  capacity ← AllocationTransaction_GetCapacity allocation_tx;
  SetAllocatedData self data capacity;;
  AllocationTransaction_Reset allocation_tx.

Definition DeallocateIfAllocated (self : Who) : M unit :=
  st ← storage self;
  if GetIsAllocated st
  then deallocate (GetAllocatedData st) (GetAllocatedCapacity st)
  else mret tt.

Definition DestroyContents (self : Who) : M unit :=
  st ← storage self;
  let data :=
    if GetIsAllocated st then GetAllocatedData st else GetInlinedData self in
  DestroyElements data (GetSize st);;
  DeallocateIfAllocated self.

(** [~Storage()] *)
Definition Storage_dtor (self : Who) : M unit :=
  st ← storage self;
  if GetSizeAndIsAllocated st =? 0 then mret tt
  else if IsMemcpyOk then DeallocateIfAllocated self
  else DestroyContents self.

Definition Initialize (self : Who) (values : ValueAdapter) (new_size : Z)
    : M unit :=
  st ← storage self;
  assert (negb (GetIsAllocated st));;
  assert (GetSize st =? 0);;
  construct_data ←
    (if GetInlinedCapacity <? new_size then
       let new_capacity := ComputeCapacity GetInlinedCapacity new_size in
       construct_data ← allocate new_capacity;
       SetAllocatedData self construct_data new_capacity;;
       SetIsAllocated self;;
       mret construct_data
     else mret (GetInlinedData self));
  ConstructElements construct_data values new_size;;
  AddSize self new_size.

Definition Assign (self : Who) (values : ValueAdapter) (new_size : Z)
    : M unit :=
  st ← storage self;
  let storage_view := MakeStorageView self st in
  with_AllocationTransaction (λ allocation_tx,
    let empty := {| span_data := nullptr; span_size := 0 |} in
    '(assign_loop, construct_loop, destroy_loop) ←
      (if view_capacity storage_view <? new_size then
         let new_capacity :=
           ComputeCapacity (view_capacity storage_view) new_size in
         new_data ← AllocationTransaction_Allocate allocation_tx new_capacity;
         mret (empty,
               {| span_data := new_data; span_size := new_size |},
               {| span_data := view_data storage_view;
                  span_size := view_size storage_view |})
       else if view_size storage_view <? new_size then
         mret ({| span_data := view_data storage_view;
                  span_size := view_size storage_view |},
               {| span_data :=
                    ptr_add (view_data storage_view) (view_size storage_view);
                  span_size := sz_sub new_size (view_size storage_view) |},
               empty)
       else
         mret ({| span_data := view_data storage_view;
                  span_size := new_size |},
               empty,
               {| span_data := ptr_add (view_data storage_view) new_size;
                  span_size := sz_sub (view_size storage_view) new_size |}));
    values ← AssignElements (span_data assign_loop) values
               (span_size assign_loop);
    ConstructElements (span_data construct_loop) values
      (span_size construct_loop);;
    DestroyElements (span_data destroy_loop) (span_size destroy_loop);;
    did_allocate ← AllocationTransaction_DidAllocate allocation_tx;
    (if did_allocate : bool then
       DeallocateIfAllocated self;;
       AcquireAllocatedData self allocation_tx;;
       SetIsAllocated self
     else mret tt);;
    SetSize self new_size).

Definition Resize (self : Who) (values : ValueAdapter) (new_size : Z)
    : M unit :=
  st ← storage self;
  let storage_view := MakeStorageView self st in
  let base := view_data storage_view in
  let size := view_size storage_view in
  (if new_size <=? size then
     DestroyElements (ptr_add base new_size) (sz_sub size new_size)
   else if new_size <=? view_capacity storage_view then
     ConstructElements (ptr_add base size) values (sz_sub new_size size);;
     mret tt
   else
     with_AllocationTransaction (λ allocation_tx,
       let new_capacity :=
         ComputeCapacity (view_capacity storage_view) new_size in
       new_data ← AllocationTransaction_Allocate allocation_tx new_capacity;
       with_ConstructionTransaction (λ construction_tx,
         ConstructionTransaction_Construct construction_tx
           (ptr_add new_data size) values (sz_sub new_size size);;
         let move_values := MoveIteratorValueAdapter base in
         ConstructElements new_data move_values size;;
         DestroyElements base size;;
         ConstructionTransaction_Commit construction_tx;;
         DeallocateIfAllocated self;;
         AcquireAllocatedData self allocation_tx;;
         SetIsAllocated self)));;
  SetSize self new_size.

(** The loop of [Insert] that shifts the displaced elements, last first. It
    has no bound of its own: it leaves when [destination] passes
    [last_destination], after as many rounds as the span is long, which is
    the [fuel] it is given. *)
Fixpoint move_backward_loop (fuel : nat)
    (destination last_destination source : Pointer) : M unit :=
  let destination := ptr_add destination (-1) in
  let source := ptr_add source (-1) in
  if ptr_lt destination last_destination then mret tt
  else
    match fuel with
    | O => undefined
    | S fuel' =>
        move_assign destination source;;
        move_backward_loop fuel' destination last_destination source
    end.

Definition Insert (self : Who) (pos : Pointer) (values : ValueAdapter)
    (insert_count : Z) : M Pointer :=
  st ← storage self;
  let storage_view := MakeStorageView self st in
  insert_index ← distance (view_data storage_view) pos;
  let insert_end_index := sz_add insert_index insert_count in
  let new_size := sz_add (view_size storage_view) insert_count in
  if view_capacity storage_view <? new_size then
    with_AllocationTransaction (λ allocation_tx,
    with_ConstructionTransaction (λ construction_tx,
    with_ConstructionTransaction (λ move_construction_tx,
      let move_values := MoveIteratorValueAdapter (view_data storage_view) in
      let new_capacity :=
        ComputeCapacity (view_capacity storage_view) new_size in
      new_data ← AllocationTransaction_Allocate allocation_tx new_capacity;
      ConstructionTransaction_Construct construction_tx
        (ptr_add new_data insert_index) values insert_count;;
      move_values ← ConstructionTransaction_Construct move_construction_tx
        new_data move_values insert_index;
      ConstructElements (ptr_add new_data insert_end_index) move_values
        (sz_sub (view_size storage_view) insert_index);;
      DestroyElements (view_data storage_view) (view_size storage_view);;
      ConstructionTransaction_Commit construction_tx;;
      ConstructionTransaction_Commit move_construction_tx;;
      DeallocateIfAllocated self;;
      AcquireAllocatedData self allocation_tx;;
      SetAllocatedSize self new_size;;
      mret (ptr_add new_data insert_index))))
  else
    let move_construction_destination_index :=
      Z.max insert_end_index (view_size storage_view) in
    with_ConstructionTransaction (λ move_construction_tx,
      let move_construction_values :=
        MoveIteratorValueAdapter
          (ptr_add (view_data storage_view)
             (sz_sub move_construction_destination_index insert_count)) in
      let move_construction :=
        {| span_data :=
             ptr_add (view_data storage_view)
               move_construction_destination_index;
           span_size :=
             sz_sub new_size move_construction_destination_index |} in
      let move_assignment_values :=
        ptr_add (view_data storage_view) insert_index in
      let move_assignment :=
        {| span_data := ptr_add (view_data storage_view) insert_end_index;
           span_size :=
             sz_sub move_construction_destination_index insert_end_index |} in
      let insert_assignment :=
        {| span_data := move_assignment_values;
           span_size := span_size move_construction |} in
      let insert_construction :=
        {| span_data :=
             ptr_add (span_data insert_assignment)
               (span_size insert_assignment);
           span_size := sz_sub insert_count (span_size insert_assignment) |} in
      ConstructionTransaction_Construct move_construction_tx
        (span_data move_construction) move_construction_values
        (span_size move_construction);;
      move_backward_loop (Z.to_nat (span_size move_assignment))
        (ptr_add (span_data move_assignment) (span_size move_assignment))
        (span_data move_assignment)
        (ptr_add move_assignment_values (span_size move_assignment));;
      values ← AssignElements (span_data insert_assignment) values
                 (span_size insert_assignment);
      ConstructElements (span_data insert_construction) values
        (span_size insert_construction);;
      ConstructionTransaction_Commit move_construction_tx;;
      AddSize self insert_count;;
      mret (ptr_add (view_data storage_view) insert_index)).

(** [EmplaceBackSlow]; [v] is the element the arguments construct. *)
Definition EmplaceBackSlow (self : Who) (v : T) : M Pointer :=
  st ← storage self;
  let storage_view := MakeStorageView self st in
  with_AllocationTransaction (λ allocation_tx,
    let move_values := MoveIteratorValueAdapter (view_data storage_view) in
    let new_capacity := NextCapacity (view_capacity storage_view) in
    construct_data ← AllocationTransaction_Allocate allocation_tx new_capacity;
    let last_ptr := ptr_add construct_data (view_size storage_view) in
    construct last_ptr v;;
    catch_any
      (data ← AllocationTransaction_GetData allocation_tx;
       ConstructElements data move_values (view_size storage_view);;
       mret tt)
      (destroy last_ptr);;
    DestroyElements (view_data storage_view) (view_size storage_view);;
    DeallocateIfAllocated self;;
    AcquireAllocatedData self allocation_tx;;
    SetIsAllocated self;;
    AddSize self 1;;
    mret last_ptr).

Definition EmplaceBack (self : Who) (v : T) : M Pointer :=
  st ← storage self;
  let storage_view := MakeStorageView self st in
  let n := view_size storage_view in
  if negb (n =? view_capacity storage_view) then
    let last_ptr := ptr_add (view_data storage_view) n in
    construct last_ptr v;;
    AddSize self 1;;
    mret last_ptr
  else EmplaceBackSlow self v.

Definition Erase (self : Who) (from to : Pointer) : M Pointer :=
  st ← storage self;
  let storage_view := MakeStorageView self st in
  erase_size ← distance from to;
  erase_index ← distance (view_data storage_view) from;
  let erase_end_index := sz_add erase_index erase_size in
  let move_values :=
    MoveIteratorValueAdapter
      (ptr_add (view_data storage_view) erase_end_index) in
  AssignElements (ptr_add (view_data storage_view) erase_index) move_values
    (sz_sub (view_size storage_view) erase_end_index);;
  DestroyElements
    (ptr_add (view_data storage_view)
       (sz_sub (view_size storage_view) erase_size))
    erase_size;;
  SubtractSize self erase_size;;
  mret (ptr_add (view_data storage_view) erase_index).

Definition Reserve (self : Who) (requested_capacity : Z) : M unit :=
  st ← storage self;
  let storage_view := MakeStorageView self st in
  if requested_capacity <=? view_capacity storage_view then mret tt
  else
    with_AllocationTransaction (λ allocation_tx,
      let move_values := MoveIteratorValueAdapter (view_data storage_view) in
      let new_capacity :=
        ComputeCapacity (view_capacity storage_view) requested_capacity in
      new_data ← AllocationTransaction_Allocate allocation_tx new_capacity;
      ConstructElements new_data move_values (view_size storage_view);;
      DestroyElements (view_data storage_view) (view_size storage_view);;
      DeallocateIfAllocated self;;
      AcquireAllocatedData self allocation_tx;;
      SetIsAllocated self).

Definition ShrinkToFit (self : Who) : M unit :=
  st ← storage self;
  assert (GetIsAllocated st);;
  let storage_view :=
    {| view_data := GetAllocatedData st; view_size := GetSize st;
       view_capacity := GetAllocatedCapacity st |} in
  if view_size storage_view =? view_capacity storage_view then mret tt
  else
    with_AllocationTransaction (λ allocation_tx,
      let move_values := MoveIteratorValueAdapter (view_data storage_view) in
      construct_data ←
        (if GetInlinedCapacity <? view_size storage_view then
           let new_capacity := view_size storage_view in
           AllocationTransaction_Allocate allocation_tx new_capacity
         else mret (GetInlinedData self));
      catch_any
        (ConstructElements construct_data move_values
           (view_size storage_view);;
         mret tt)
        (SetAllocatedData self (view_data storage_view)
           (view_capacity storage_view));;
      DestroyElements (view_data storage_view) (view_size storage_view);;
      deallocate (view_data storage_view) (view_capacity storage_view);;
      did_allocate ← AllocationTransaction_DidAllocate allocation_tx;
      if did_allocate : bool then AcquireAllocatedData self allocation_tx
      else UnsetIsAllocated self).

(** The first loop of the inlined case of [Swap]. *)
Fixpoint swap_loop (small_ptr large_ptr : Who) (i : Z) (remaining : nat)
    : M unit :=
  match remaining with
  | O => mret tt
  | S remaining' =>
      swap_elements (ptr_add (GetInlinedData small_ptr) i)
                    (ptr_add (GetInlinedData large_ptr) i);;
      swap_loop small_ptr large_ptr (i + 1) remaining'
  end.

Definition Swap (self other_storage_ptr : Who) : M unit :=
  assert (bool_decide (self ≠ other_storage_ptr));;
  this_st ← storage self;
  other_st ← storage other_storage_ptr;
  (if GetIsAllocated this_st && GetIsAllocated other_st then
     SetAllocatedData self
       (GetAllocatedData other_st) (GetAllocatedCapacity other_st);;
     SetAllocatedData other_storage_ptr
       (GetAllocatedData this_st) (GetAllocatedCapacity this_st)
   else if negb (GetIsAllocated this_st) && negb (GetIsAllocated other_st)
   then
     let '(small_ptr, large_ptr) :=
       if GetSize other_st <? GetSize this_st
       then (other_storage_ptr, self) else (self, other_storage_ptr) in
     small_st ← storage small_ptr;
     large_st ← storage large_ptr;
     swap_loop small_ptr large_ptr 0 (Z.to_nat (GetSize small_st));;
     let move_values :=
       MoveIteratorValueAdapter
         (ptr_add (GetInlinedData large_ptr) (GetSize small_st)) in
     ConstructElements
       (ptr_add (GetInlinedData small_ptr) (GetSize small_st)) move_values
       (sz_sub (GetSize large_st) (GetSize small_st));;
     DestroyElements
       (ptr_add (GetInlinedData large_ptr) (GetSize small_st))
       (sz_sub (GetSize large_st) (GetSize small_st))
   else
     let '(allocated_ptr, inlined_ptr) :=
       if negb (GetIsAllocated this_st)
       then (other_storage_ptr, self) else (self, other_storage_ptr) in
     allocated_st ← storage allocated_ptr;
     inlined_st ← storage inlined_ptr;
     let allocated_storage_view :=
       {| view_data := GetAllocatedData allocated_st;
          view_size := GetSize allocated_st;
          view_capacity := GetAllocatedCapacity allocated_st |} in
     let move_values :=
       MoveIteratorValueAdapter (GetInlinedData inlined_ptr) in
     catch_any
       (ConstructElements (GetInlinedData allocated_ptr) move_values
          (GetSize inlined_st);;
        mret tt)
       (SetAllocatedData allocated_ptr
          (view_data allocated_storage_view)
          (view_capacity allocated_storage_view));;
     DestroyElements (GetInlinedData inlined_ptr) (GetSize inlined_st);;
     SetAllocatedData inlined_ptr
       (view_data allocated_storage_view)
       (view_capacity allocated_storage_view));;
  this_st ← storage self;
  other_st ← storage other_storage_ptr;
  update_storage self (set_word (GetSizeAndIsAllocated other_st));;
  update_storage other_storage_ptr
    (set_word (GetSizeAndIsAllocated this_st));;
  update_storage self (set_allocator (GetAllocator other_st));;
  update_storage other_storage_ptr (set_allocator (GetAllocator this_st)).

(** ** Well-formed storages

    The invariants of the data model, as predicates on the memory. *)

(** What the development assumes of the instantiation: an inlined capacity
    (the [static_assert] of [InlinedVector]), that the allocator can provide,
    and an allocator whose [max_size] can be doubled in [SizeType] (for
    [std::allocator], [max_size] is at most [PTRDIFF_MAX]). *)
Definition env_ok : Prop :=
  0 < N ∧ N ≤ max_size ∧ 2 * max_size < SizeType_modulus.

(** The buffer of capacity [capacity] whose live elements are [l]: the
    elements first, then raw storage. *)
Definition buffer_of (l : list T) (capacity : Z) : list (option T) :=
  (Some <$> l) ++ replicate (Z.to_nat capacity - length l) None.

Inductive Layout := LayoutInlined | LayoutAllocated (a : nat).

(** The base of the buffer of a storage of a given layout. *)
Definition layout_base (w : Who) (y : Layout) : Base :=
  match y with
  | LayoutInlined => InlinedOf w
  | LayoutAllocated a => HeapBlock a
  end.

(** [represents m w l capacity layout]: in the memory [m] the storage [w] is
    well formed, holds the elements [l] in a buffer of capacity [capacity],
    and is inlined or owns the block [a] of the heap. *)
Inductive represents (m : Memory) (w : Who) (l : list T) (capacity : Z)
    : Layout → Prop :=
| represents_inlined :
    metadata_size_and_is_allocated (storage_of w m) = 2 * zlen l →
    get_buf (InlinedOf w) m = Some (buffer_of l N) →
    zlen l ≤ N →
    capacity = N →
    represents m w l capacity LayoutInlined
| represents_allocated a :
    metadata_size_and_is_allocated (storage_of w m) = 2 * zlen l + 1 →
    data_ (storage_of w m) =
      DataAllocated {| allocated_data := Ptr (HeapBlock a) 0;
                       allocated_capacity := capacity |} →
    heap m !! a = Some (buffer_of l capacity) →
    zlen l ≤ capacity →
    N < capacity ≤ max_size →
    represents m w l capacity (LayoutAllocated a).

Definition other_of (w : Who) : Who :=
  match w with This => Other | Other => This end.

(** Both storages are well formed and own different blocks. *)
Definition valid_memory (m : Memory) : Prop :=
  ∃ l1 c1 y1 l2 c2 y2,
    represents m This l1 c1 y1 ∧ represents m Other l2 c2 y2 ∧
    (∀ a, y1 = LayoutAllocated a → y2 ≠ LayoutAllocated a).

(** Between two calls no transaction guard is alive. *)
Definition no_guards (s : State) : Prop :=
  allocation_txs s = [] ∧ construction_txs s = [].

Definition valid_state (s : State) : Prop :=
  valid_memory (mem s) ∧ no_guards s.

(** The buffer that [MakeStorageView] designates, its first [GetSize] slots,
    and the capacity it reports. *)
Definition live_buffer (w : Who) (m : Memory) : list (option T) :=
  match view_data (MakeStorageView w (storage_of w m)) with
  | Ptr b _ => default [] (get_buf b m)
  | nullptr => []
  end.

Definition elements (w : Who) (m : Memory) : list (option T) :=
  take (Z.to_nat (GetSize (storage_of w m))) (live_buffer w m).

Definition capacity_of (w : Who) (m : Memory) : Z :=
  view_capacity (MakeStorageView w (storage_of w m)).

Definition data_of (w : Who) (m : Memory) : Pointer :=
  view_data (MakeStorageView w (storage_of w m)).

(** ** Effects of the loops on the memory *)

(** The content of a slot: [None] also outside the buffer. *)
Definition zget (buf : list (option T)) (j : Z) : option T :=
  default None (zlookup buf j).

Definition update_buf (b : Base) (f : Z → option (option T)) (m : Memory)
    : Memory :=
  match get_buf b m with
  | Some buf => set_buf b (zupdate f buf) m
  | None => m
  end.

(** The effect of a loop over the [n] slots of [b] from [off]: slot [j]
    becomes [g j]. A loop of no round writes nothing. *)
Definition range_update (b : Base) (off n : Z) (g : Z → option T)
    (m : Memory) : Memory :=
  if bool_decide (0 < n) then update_buf b (on_range off n g) m else m.

(** Slots made raw; filled with the values [vs]; filled with what was in
    the source slots ([src j] is the content of slot [j] of the source) from
    [offS]; left moved-from. *)
Definition clear_range (b : Base) (off n : Z) (m : Memory) : Memory :=
  range_update b off n (λ _, None) m.

Definition fill_range (b : Base) (off : Z) (vs : list T) (m : Memory)
    : Memory :=
  range_update b off (zlen vs) (λ j, zlookup vs (j - off)) m.

Definition move_in_range (b : Base) (off n : Z) (src : Z → option T)
    (offS : Z) (m : Memory) : Memory :=
  range_update b off n (λ j, src (j - off + offS)) m.

Definition move_out_range (b : Base) (off n : Z) (src : Z → option T)
    (m : Memory) : Memory :=
  range_update b off n (λ j, moved_from <$> src j) m.

(** The memory without the block [a]. *)
Definition forget (a : nat) (m : Memory) : Memory :=
  set_heap (delete a (heap m)) m.

(** The memory once the owner of the block of a layout has given it up,
    and the call that does it. *)
Definition release_layout (y : Layout) (m : Memory) : Memory :=
  match y with
  | LayoutInlined => m
  | LayoutAllocated a => forget a m
  end.

Definition release_events (y : Layout) (c : Z) : list Event :=
  match y with
  | LayoutInlined => []
  | LayoutAllocated a => [EvDeallocate a c]
  end.

(** The calls the loops make. *)
Definition construct_events (first : Pointer) (vs : list T) : list Event :=
  imap (λ k v, EvConstruct (ptr_add first (Z.of_nat k)) v) vs.

Definition move_construct_events (first src : Pointer) (n : Z)
    : list Event :=
  (λ k, EvMoveConstruct (ptr_add first k) (ptr_add src k)) <$> seqZ 0 n.

Definition destroy_events (first : Pointer) (n : Z) : list Event :=
  (λ k, EvDestroy (ptr_add first k)) <$> reverse (seqZ 0 n).

(** [e] is a construction of the element at [p]. *)
Definition constructs_at (p : Pointer) (e : Event) : Prop :=
  match e with
  | EvConstruct q _ | EvMoveConstruct q _ => q = p
  | _ => False
  end.

Definition assign_events (first : Pointer) (vs : list T) : list Event :=
  imap (λ k v, EvAssign (ptr_add first (Z.of_nat k)) v) vs.

Definition move_assign_events (first src : Pointer) (n : Z) : list Event :=
  (λ k, EvMoveAssign (ptr_add first k) (ptr_add src k)) <$> seqZ 0 n.

Definition swap_events (first second : Pointer) (n : Z) : list Event :=
  (λ k, EvSwap (ptr_add first k) (ptr_add second k)) <$> seqZ 0 n.

(** The next value of an adapter that reads outside the storage, and the
    adapter after it. *)
Definition next_value (values : ValueAdapter) : option (T * ValueAdapter) :=
  match values with
  | IteratorValueAdapter (v :: it_) => Some (v, IteratorValueAdapter it_)
  | IteratorValueAdapter [] => None
  | MoveIteratorValueAdapter _ => None
  | CopyValueAdapter v => Some (v, values)
  | DefaultValueAdapter => Some (value_initialized, values)
  end.

Fixpoint next_values (values : ValueAdapter) (n : nat)
    : option (list T * ValueAdapter) :=
  match n with
  | O => Some ([], values)
  | S n' =>
      '(v, values) ← next_value values;
      '(vs, values) ← next_values values n';
      Some (v :: vs, values)
  end.

(** A value adapter can yield [n] values for the slots of [dst] from
    [off]: a range outside the storage has them; a move iterator points to
    [n] live elements, which lie before the destination if in its buffer. *)
Definition can_yield (values : ValueAdapter) (n : Z) (m : Memory)
    (dst : Base) (off : Z) : Prop :=
  match values with
  | MoveIteratorValueAdapter nullptr => False
  | MoveIteratorValueAdapter (Ptr bS oS) =>
      (dst = bS → oS + n ≤ off) ∧
      ∀ j, oS ≤ j < oS + n → ∃ v, slot_at (Ptr bS j) m = Some (Some v)
  | _ => is_Some (next_values values (Z.to_nat n))
  end.

(** A state reached from [s]: its memory and guards, the events added and
    the ticks taken since [s]. *)
Definition mk_state (s : State) (m : Memory)
    (ats : list AllocationTransaction) (cts : list ConstructionTransaction)
    (evs : list Event) (ticks : nat) : State :=
  {| mem := m; allocation_txs := ats; construction_txs := cts;
     trace := trace s ++ evs; tick := tick s + ticks |}.

(** The state after some calls: the memory they leave, the events they
    add, the ticks they take. *)
Definition state_after (m : Memory) (evs : list Event) (ticks : nat)
    (s : State) : State :=
  mk_state s m (allocation_txs s) (construction_txs s) evs ticks.

Definition no_allocation : AllocationTransaction :=
  {| allocation_tx_data := nullptr; allocation_tx_capacity := 0 |}.

Definition no_construction : ConstructionTransaction :=
  {| construction_tx_data := nullptr; construction_tx_size := 0 |}.

(** The first of the [n] ticks from [t] at which an operation throws. *)
Fixpoint first_fault (t : nat) (n : nat) : option nat :=
  match n with
  | O => None
  | S n' => if faults t then Some O else S <$> first_fault (S t) n'
  end.

(** ** Reasoning about computations

    [faulty t]: some operation from tick [t] on throws. [wp X m s Q]: run
    from [s], the computation [m] returns with [Q], unless an operation
    throws or [X] (a request beyond [max_size]) holds. *)

Definition faulty (t : nat) : Prop := ∃ k, (t ≤ k)%nat ∧ faults k = true.

Definition wp {A} (X : Prop) (m : M A) (s : State) (Q : A → State → Prop)
    : Prop :=
  match m s with
  | Ok a s' => (tick s ≤ tick s')%nat ∧ Q a s'
  | _ => faulty (tick s) ∨ X
  end.

(** [runs X c s a s']: run from [s], the computation [c] returns [a] in the
    state [s'], unless an operation throws or [X] holds. *)
Definition runs {A} (X : Prop) (c : M A) (s : State) (a : A) (s' : State)
    : Prop :=
  wp X c s (λ a' s'', a' = a ∧ s'' = s').

(** ** What an operation does to the memory

    The heap once the owner of the block of a layout gives it up, and once
    the owner of the block of a layout holds a buffer in it. *)
Definition heap_release (y : Layout) (h : gmap nat (list (option T)))
    : gmap nat (list (option T)) :=
  match y with
  | LayoutInlined => h
  | LayoutAllocated a => delete a h
  end.

Definition heap_hold (y : Layout) (buf : list (option T))
    (h : gmap nat (list (option T))) : gmap nat (list (option T)) :=
  match y with
  | LayoutInlined => h
  | LayoutAllocated a => <[a := buf]> h
  end.

(** [updated self y l' c' y' s s']: from [s], where the storage [self] had
    the layout [y], to [s'], where it holds the elements [l'] with the
    capacity [c'] and the layout [y'], nothing else has changed: the other
    storage is as it was, and so are the blocks of the heap but the ones of
    [y] and [y']; no guard is left. *)
Definition updated (self : Who) (y : Layout) (l' : list T) (c' : Z)
    (y' : Layout) (s s' : State) : Prop :=
  represents (mem s') self l' c' y' ∧
  storage_of (other_of self) (mem s') = storage_of (other_of self) (mem s) ∧
  heap (mem s') =
    heap_hold y' (buffer_of l' c') (heap_release y (heap (mem s))) ∧
  no_guards s'.

(** [holds_buffer m w l c y]: the [data_] of the storage [w] designates a
    buffer of the layout [y] and capacity [c] that holds the elements [l]:
    what [represents] says but for the packed word. *)
Definition holds_buffer (m : Memory) (w : Who) (l : list T) (c : Z)
    (y : Layout) : Prop :=
  match y with
  | LayoutInlined =>
      get_buf (InlinedOf w) m = Some (buffer_of l N) ∧ zlen l ≤ N ∧ c = N
  | LayoutAllocated a =>
      data_ (storage_of w m) =
        DataAllocated {| allocated_data := Ptr (HeapBlock a) 0;
                         allocated_capacity := c |} ∧
      heap m !! a = Some (buffer_of l c) ∧ zlen l ≤ c ∧ N < c ≤ max_size
  end.

(** The layout after a reallocation from [s]. *)
Definition fresh_layout (s : State) : Layout :=
  LayoutAllocated (fresh (dom (heap (mem s)))).

(** ** Runs of the engine

    The mutating operations, applied to one of the two storages. [Insert]
    and [Erase] take positions in the sequence; [Swap] exchanges the
    storage with the other one. *)
Inductive Operation :=
| OpInitialize (values : ValueAdapter) (new_size : Z)
| OpAssign (values : ValueAdapter) (new_size : Z)
| OpResize (values : ValueAdapter) (new_size : Z)
| OpInsert (index : Z) (values : ValueAdapter) (insert_count : Z)
| OpErase (from to : Z)
| OpEmplaceBack (v : T)
| OpReserve (requested_capacity : Z)
| OpShrinkToFit
| OpSwap.

Definition run_operation (self : Who) (op : Operation) : M unit :=
  match op with
  | OpInitialize values new_size => Initialize self values new_size
  | OpAssign values new_size => Assign self values new_size
  | OpResize values new_size => Resize self values new_size
  | OpInsert index values insert_count =>
      st ← storage self;
      let data := view_data (MakeStorageView self st) in
      Insert self (ptr_add data index) values insert_count;;
      mret tt
  | OpErase from to =>
      st ← storage self;
      let data := view_data (MakeStorageView self st) in
      Erase self (ptr_add data from) (ptr_add data to);;
      mret tt
  | OpEmplaceBack v => EmplaceBack self v;; mret tt
  | OpReserve requested_capacity => Reserve self requested_capacity
  | OpShrinkToFit => ShrinkToFit self
  | OpSwap => Swap self (other_of self)
  end.

(** What the caller of an operation guarantees: positions inside the
    sequence, and a value source outside the two storages that yields the
    values asked for. (That [Initialize] starts from an empty inlined storage
    and [ShrinkToFit] from an allocated one is asserted by the code.) *)
Definition yields (values : ValueAdapter) (n : Z) : Prop :=
  is_Some (next_values values (Z.to_nat n)).

Definition precondition (self : Who) (op : Operation) (m : Memory) : Prop :=
  let size := GetSize (storage_of self m) in
  match op with
  | OpInitialize values new_size | OpAssign values new_size =>
      0 ≤ new_size ∧ yields values new_size
  | OpResize values new_size =>
      0 ≤ new_size ∧ yields values (new_size - size)
  | OpInsert index values insert_count =>
      0 ≤ index ≤ size ∧ 0 ≤ insert_count ≤ max_size ∧
      yields values insert_count
  | OpErase from to => 0 ≤ from ≤ to ∧ to ≤ size
  | OpEmplaceBack _ | OpReserve _ | OpShrinkToFit | OpSwap => True
  end.

(** The states of a run: at first both storages are as their constructor
    leaves them and own nothing; then each operation that returns leads to
    the next state. *)
Definition initial (s : State) : Prop :=
  (∀ w, storage_of w (mem s) =
        Storage_ctor (metadata_allocator (storage_of w (mem s)))) ∧
  no_guards s.

Inductive reachable : State → Prop :=
| reachable_initial s : initial s → reachable s
| reachable_step s self op s' :
    reachable s → precondition self op (mem s) →
    run_operation self op s = Ok tt s' → reachable s'.

Definition is_allocated_layout (y : Layout) : bool :=
  match y with LayoutInlined => false | LayoutAllocated _ => true end.

(** ** Copies of a storage

    [InitFrom] and [MemcpyFrom] are what the copy and move constructors of
    the vector call on a storage that its constructor has just left. *)

(** The values of the [n] live elements from [src]: what an
    [IteratorValueAdapter<A, ConstPointer<A>>] over them yields. The range
    lies in the other storage, which the constructions do not write. *)
Fixpoint read_values (src : Pointer) (n : nat) : M (list T) :=
  match n with
  | O => mret []
  | S n' =>
      v ← load_live src;
      vs ← read_values (ptr_add src 1) n';
      mret (v :: vs)
  end.

(** [memcpy(dst, src, sizeof(dst[0]) * n)]: the slots are copied as they are,
    and no constructor runs. *)
Fixpoint memcpy_loop (dst src : Pointer) (n : nat) : M unit :=
  match n with
  | O => mret tt
  | S n' =>
      x ← load src;
      store dst x;;
      memcpy_loop (ptr_add dst 1) (ptr_add src 1) n'
  end.

Definition MemcpyIfAllowed (kUseMemcpy : bool) (dst src : Pointer) (n : Z)
    : M unit :=
  if kUseMemcpy then memcpy_loop dst src (Z.to_nat n) else mret tt.

Definition InitFrom (self other : Who) : M unit :=
  other_st ← storage other;
  let n := GetSize other_st in
  assert (0 <? n);;
  '(dst, src) ←
    (if negb (GetIsAllocated other_st) then
       mret (GetInlinedData self, GetInlinedData other)
     else
       let new_capacity := ComputeCapacity GetInlinedCapacity n in
       dst ← allocate new_capacity;
       SetAllocatedData self dst new_capacity;;
       other_st ← storage other;
       mret (dst, GetAllocatedData other_st));
  (if IsMemcpyOk then MemcpyIfAllowed IsMemcpyOk dst src n
   else
     vs ← read_values src (Z.to_nat n);
     ConstructElements dst (IteratorValueAdapter vs) n;;
     mret tt);;
  other_st ← storage other;
  update_storage self (set_word (GetSizeAndIsAllocated other_st)).

Definition MemcpyFrom (self other_storage : Who) : M unit :=
  other_st ← storage other_storage;
  assert (IsMemcpyOk || GetIsAllocated other_st);;
  update_storage self (set_word (GetSizeAndIsAllocated other_st));;
  other_st ← storage other_storage;
  update_storage self (set_data (data_ other_st)).

(** ** Ownership of the blocks

    [owns m w a]: the storage [w] is marked allocated and its [data_]
    designates the block [a]. [leak_free m]: every block of the heap is
    designated by a storage that is marked allocated. *)
Definition owns (m : Memory) (w : Who) (a : nat) : Prop :=
  GetIsAllocated (storage_of w m) = true ∧
  GetAllocatedData (storage_of w m) = Ptr (HeapBlock a) 0.

Definition leak_free (m : Memory) : Prop :=
  ∀ a, is_Some (heap m !! a) → ∃ w, owns m w a.

End Engine.

Arguments Ok {T A} a s.
Arguments Throw {T A} e s.
Arguments Undefined {T A}.

(** * Concrete storages

    Instances of the parameters and states, for the runs at the end. *)

Module Examples.

(** An element type whose moves can be observed: integers, where a moved-from
    element reads [-1] and an element move-assigned to itself reads [-2]. *)
Definition tracked : ValueType Z :=
  {| value_initialized := 0; moved_from := λ _, -1; self_moved := λ _, -2 |}.

(** The operation at tick [k] throws, and no other; or none does. *)
Definition fault_at (k : nat) : nat → bool := λ t, Nat.eqb t k.
Definition no_faults : nat → bool := λ _, false.

(** [N = 2], [max_size = 100], a type that is not trivially copyable. *)
Definition small (f : nat → bool) : Environment :=
  {| N := 2; max_size := 100; IsMemcpyOk := false; faults := f |}.

Definition inlined_storage (allocator : nat) (l : list Z) : Storage (T:=Z) :=
  {| metadata_allocator := allocator;
     metadata_size_and_is_allocated := 2 * zlen l;
     data_ := DataInlined (buffer_of l 2) |}.

Definition allocated_storage (allocator : nat) (l : list Z) (a : nat) (c : Z)
    : Storage (T:=Z) :=
  {| metadata_allocator := allocator;
     metadata_size_and_is_allocated := 2 * zlen l + 1;
     data_ := DataAllocated {| allocated_data := Ptr (HeapBlock a) 0;
                               allocated_capacity := c |} |}.

Definition state_of (this other : Storage (T:=Z))
    (h : gmap nat (list (option Z))) : State (T:=Z) :=
  {| mem := {| this_storage := this; other_storage := other; heap := h |};
     allocation_txs := []; construction_txs := []; trace := []; tick := 0 |}.

(** Two storages as their constructors leave them. *)
Definition fresh_state : State (T:=Z) :=
  state_of (inlined_storage 0 []) (inlined_storage 1 []) ∅.

(** [*this] is inlined and full, [10; 20]; the other storage holds
    [1; 2; 3] in the block 0, of capacity 4. *)
Definition mixed_state : State (T:=Z) :=
  state_of (inlined_storage 0 [10; 20]) (allocated_storage 1 [1; 2; 3] 0 4)
    {[ 0%nat := buffer_of [1; 2; 3] 4 ]}.

(** The state after [Initialize] of five copies of 7 on a fresh storage:
    [*this] holds them in the block 0, of capacity 5. *)
Definition exact_state : State (T:=Z) :=
  match Initialize (VT:=tracked) (Env:=small no_faults) This
          (CopyValueAdapter 7) 5 fresh_state with
  | Ok _ s => s
  | _ => fresh_state
  end.

(** The state after [emplace_back(5)] on a fresh storage. *)
Definition pushed_state : State (T:=Z) :=
  match run_operation (VT:=tracked) (Env:=small no_faults) This
          (OpEmplaceBack 5) fresh_state with
  | Ok _ s => s
  | _ => fresh_state
  end.

(** [*this] is as its constructor leaves it; the other storage holds
    [1; 2; 3] in the block 0, of capacity 4. *)
Definition copy_state : State (T:=Z) :=
  state_of (inlined_storage 0 []) (allocated_storage 1 [1; 2; 3] 0 4)
    {[ 0%nat := buffer_of [1; 2; 3] 4 ]}.

End Examples.

(** * Properties *)

Lemma SizeType_modulus_eq : SizeType_modulus = 18446744073709551616.
Proof. reflexivity. Qed.

Lemma wrap_small z : 0 <= z < SizeType_modulus -> wrap z = z.
Proof. intros. unfold wrap. by rewrite Z.mod_small. Qed.

(** ** The capacity policy *)

Lemma wrap_range z : 0 <= wrap z < SizeType_modulus.
Proof. unfold wrap. apply Z.mod_pos_bound. by rewrite SizeType_modulus_eq. Qed.

Lemma ComputeCapacity_wrapped c r :
  ComputeCapacity c r = Z.max ((c * 2) mod SizeType_modulus) r /\
  r <= ComputeCapacity c r.
Proof. unfold ComputeCapacity, NextCapacity, sz_mul, wrap. lia. Qed.

(** Where doubling wraps around: at the current capacity [2^63] the doubled
    capacity is [0] in [SizeType], so the request alone decides and the
    result is below twice the current capacity. *)
Lemma ComputeCapacity_doubling_wraps :
  0 <= 2 ^ 63 <= SizeType_max /\
  ComputeCapacity (2 ^ 63) 1 = 1 /\
  ComputeCapacity (2 ^ 63) 1 <> Z.max (2 ^ 63 * 2) 1 /\
  ~ (2 ^ 63 * 2 <= ComputeCapacity (2 ^ 63) 1).
Proof. vm_compute. repeat split; congruence. Qed.

(** C3 (amended): for every current capacity [c] whose double is
    representable in [SizeType] and every request [r], the chosen capacity is
    [max (c * 2) r]: at least double the current capacity and at least the
    request. *)
Theorem ComputeCapacity_growth c r :
  0 <= c -> c * 2 <= SizeType_max ->
  ComputeCapacity c r = Z.max (c * 2) r /\
  c * 2 <= ComputeCapacity c r /\
  r <= ComputeCapacity c r.
Proof.
  intros Hc Hd. unfold ComputeCapacity, NextCapacity, sz_mul.
  rewrite wrap_small by (unfold SizeType_max in Hd; lia). lia.
Qed.

Lemma ComputeCapacity_growth_witness :
  ComputeCapacity 4 5 = Z.max (4 * 2) 5 /\
  4 * 2 <= ComputeCapacity 4 5 /\ 5 <= ComputeCapacity 4 5.
Proof. apply (ComputeCapacity_growth 4 5); vm_compute; congruence. Defined.

(** ** Integer-indexed lists *)

Section zlist.
Context {A : Type}.
Implicit Types (l : list A) (i j : Z) (x : A).

Lemma zlookup_Some_range l i x : zlookup l i = Some x → 0 ≤ i < zlen l.
Proof.
  unfold zlookup, zlen. case_bool_decide; [|done].
  intros Hl%lookup_lt_Some. lia.
Qed.

Lemma zlookup_is_Some l i : is_Some (zlookup l i) ↔ 0 ≤ i < zlen l.
Proof.
  split; [intros [x Hx]; by eapply zlookup_Some_range|].
  intros [? ?]. unfold zlookup, zlen in *. rewrite bool_decide_eq_true_2 by done.
  apply lookup_lt_is_Some. lia.
Qed.

Lemma zlookup_None l i : zlookup l i = None ↔ ¬ (0 ≤ i < zlen l).
Proof. rewrite eq_None_not_Some, zlookup_is_Some. done. Qed.

Lemma zlookup_outside l i : ¬ (0 ≤ i < zlen l) → zlookup l i = None.
Proof. apply zlookup_None. Qed.

Lemma zlen_nonneg l : 0 ≤ zlen l.
Proof. unfold zlen. lia. Qed.

Lemma zlen_zinsert l i x : zlen (zinsert i x l) = zlen l.
Proof. unfold zinsert, zlen. case_bool_decide; [|done]. by rewrite length_insert. Qed.

Lemma zlookup_zinsert_eq l i x :
  0 ≤ i < zlen l → zlookup (zinsert i x l) i = Some x.
Proof.
  intros [? ?]. unfold zlookup, zinsert, zlen in *.
  rewrite !bool_decide_eq_true_2 by done.
  apply list_lookup_insert_eq. lia.
Qed.

Lemma zlookup_zinsert_ne l i j x :
  i ≠ j → zlookup (zinsert i x l) j = zlookup l j.
Proof.
  intros Hne. unfold zlookup, zinsert.
  repeat case_bool_decide; try done.
  apply list_lookup_insert_ne. lia.
Qed.

Lemma zlookup_zinsert l i j x :
  zlookup (zinsert i x l) j =
  if decide (j = i ∧ 0 ≤ i < zlen l) then Some x else zlookup l j.
Proof.
  case_decide as H.
  - destruct H as [-> ?]. by apply zlookup_zinsert_eq.
  - destruct (decide (i = j)) as [->|]; [|by apply zlookup_zinsert_ne].
    rewrite !zlookup_outside; [done|lia|rewrite zlen_zinsert; lia].
Qed.

Lemma zlookup_ext l1 l2 : (∀ j, zlookup l1 j = zlookup l2 j) → l1 = l2.
Proof.
  intros H. apply list_eq. intros i. specialize (H (Z.of_nat i)).
  unfold zlookup in H. rewrite bool_decide_eq_true_2 in H by lia.
  by rewrite Nat2Z.id in H.
Qed.

Lemma zlookup_app l1 l2 j :
  zlookup (l1 ++ l2) j =
  if decide (j < zlen l1) then zlookup l1 j else zlookup l2 (j - zlen l1).
Proof.
  unfold zlookup, zlen. case_decide; repeat case_bool_decide; try lia; try done.
  - apply lookup_app_l. lia.
  - rewrite lookup_app_r by lia. f_equal. lia.
Qed.

Lemma zlen_app l1 l2 : zlen (l1 ++ l2) = zlen l1 + zlen l2.
Proof. unfold zlen. rewrite length_app. lia. Qed.

Lemma zlookup_replicate n x j :
  zlookup (replicate n x) j =
  if decide (0 ≤ j < Z.of_nat n) then Some x else None.
Proof.
  case_decide.
  - unfold zlookup. rewrite bool_decide_eq_true_2 by lia.
    apply lookup_replicate_2. lia.
  - apply zlookup_outside. unfold zlen. rewrite length_replicate. done.
Qed.

Lemma zlen_replicate n x : zlen (replicate n x) = Z.of_nat n.
Proof. unfold zlen. by rewrite length_replicate. Qed.

Lemma zlookup_take n l j :
  zlookup (take n l) j = if decide (j < Z.of_nat n) then zlookup l j else None.
Proof.
  unfold zlookup. case_decide; case_bool_decide; try done.
  - apply lookup_take_lt. lia.
  - apply lookup_take_ge. lia.
Qed.

Lemma zlookup_drop n l j :
  zlookup (drop n l) j = if decide (0 ≤ j) then zlookup l (j + Z.of_nat n) else None.
Proof.
  unfold zlookup. case_decide; repeat case_bool_decide; try lia; try done.
  rewrite lookup_drop. f_equal. lia.
Qed.

Lemma zlen_take n l : zlen (take n l) = Z.min (Z.of_nat n) (zlen l).
Proof. unfold zlen. rewrite length_take. lia. Qed.

Lemma zlen_drop n l : zlen (drop n l) = Z.max 0 (zlen l - Z.of_nat n).
Proof. unfold zlen. rewrite length_drop. lia. Qed.

Lemma zlookup_zupdate (f : Z → option A) l j :
  zlookup (zupdate f l) j = (λ x, default x (f j)) <$> zlookup l j.
Proof.
  unfold zlookup, zupdate. case_bool_decide; [|done].
  rewrite list_lookup_imap. by rewrite Z2Nat.id.
Qed.

Lemma zlen_zupdate (f : Z → option A) l : zlen (zupdate f l) = zlen l.
Proof. unfold zlen, zupdate. by rewrite length_imap. Qed.

Lemma zupdate_ext (f g : Z → option A) l :
  (∀ j, 0 ≤ j < zlen l → f j = g j) → zupdate f l = zupdate g l.
Proof.
  intros H. apply zlookup_ext. intros j. rewrite !zlookup_zupdate.
  destruct (zlookup l j) eqn:E; [|done]. simpl.
  by rewrite (H j) by (by eapply zlookup_Some_range).
Qed.

Lemma zinsert_zupdate i x l :
  zinsert i x l = zupdate (λ j, if decide (j = i) then Some x else None) l.
Proof.
  apply zlookup_ext. intros j. rewrite zlookup_zinsert, zlookup_zupdate.
  case_decide as H.
  - destruct H as [-> H]. apply zlookup_is_Some in H as [y ->]. simpl.
    by rewrite decide_True.
  - destruct (zlookup l j) eqn:E; [|done]. simpl.
    case_decide; [|done]. subst. apply zlookup_Some_range in E. tauto.
Qed.

Lemma zupdate_zupdate (f g : Z → option A) l :
  zupdate f (zupdate g l) =
  zupdate (λ j, match f j with Some y => Some y | None => g j end) l.
Proof.
  apply zlookup_ext. intros j. rewrite !zlookup_zupdate.
  destruct (zlookup l j); [|done]. simpl. by destruct (f j), (g j).
Qed.

Lemma zupdate_id (f : Z → option A) l :
  (∀ j y, 0 ≤ j < zlen l → f j = Some y → zlookup l j = Some y) →
  zupdate f l = l.
Proof.
  intros H. apply zlookup_ext. intros j. rewrite zlookup_zupdate.
  destruct (zlookup l j) as [x|] eqn:E; [|done]. simpl.
  destruct (f j) as [y|] eqn:Ef; [|done]. simpl.
  apply H in Ef; [congruence|]. by eapply zlookup_Some_range.
Qed.

Lemma on_range_in (off n : Z) (g : Z → A) j :
  off ≤ j < off + n → on_range off n g j = Some (g j).
Proof. intros. unfold on_range. by rewrite decide_True. Qed.

Lemma on_range_out (off n : Z) (g : Z → A) j :
  ¬ (off ≤ j < off + n) → on_range off n g j = None.
Proof. intros. unfold on_range. by rewrite decide_False. Qed.

End zlist.

Lemma zlookup_fmap {A B} (f : A → B) (l : list A) j :
  zlookup (f <$> l) j = f <$> zlookup l j.
Proof. unfold zlookup. case_bool_decide; [|done]. apply list_lookup_fmap. Qed.

Lemma zlen_fmap {A B} (f : A → B) (l : list A) : zlen (f <$> l) = zlen l.
Proof. unfold zlen. by rewrite length_fmap. Qed.

Section memory.
Context {T : Type} {VT : ValueType T} {Env : Environment}.
Implicit Types (m : Memory (T:=T)) (st : Storage (T:=T)) (s : State (T:=T))
  (buf : list (option T)) (l : list T) (w : Who) (b : Base) (p : Pointer)
  (d : Data (T:=T)).

(** ** The packed word *)

Lemma land_1 x : Z.land x 1 = x mod 2.
Proof. apply (Z.land_ones x 1). lia. Qed.

Lemma GetSize_word st n (bit : bool) :
  metadata_size_and_is_allocated st = 2 * n + Z.b2z bit → GetSize st = n.
Proof.
  intros Hw. unfold GetSize, GetSizeAndIsAllocated, sz_shr. rewrite Hw.
  rewrite Z.shiftr_div_pow2 by lia. change (2 ^ 1) with 2.
  destruct bit; simpl; Z.div_mod_to_equations; lia.
Qed.

Lemma GetIsAllocated_word st n (bit : bool) :
  metadata_size_and_is_allocated st = 2 * n + Z.b2z bit →
  GetIsAllocated st = bit.
Proof.
  intros Hw. unfold GetIsAllocated, GetSizeAndIsAllocated. rewrite Hw, land_1.
  destruct bit; simpl.
  - replace ((2 * n + 1) mod 2) with 1; [done|]. Z.div_mod_to_equations; lia.
  - replace ((2 * n + 0) mod 2) with 0; [done|]. Z.div_mod_to_equations; lia.
Qed.

Lemma GetSize_even st n :
  metadata_size_and_is_allocated st = 2 * n → GetSize st = n.
Proof. intros. apply (GetSize_word st n false). simpl. lia. Qed.

Lemma GetSize_odd st n :
  metadata_size_and_is_allocated st = 2 * n + 1 → GetSize st = n.
Proof. intros. by apply (GetSize_word st n true). Qed.

Lemma GetIsAllocated_even st n :
  metadata_size_and_is_allocated st = 2 * n → GetIsAllocated st = false.
Proof. intros. apply (GetIsAllocated_word st n false). simpl. lia. Qed.

Lemma GetIsAllocated_odd st n :
  metadata_size_and_is_allocated st = 2 * n + 1 → GetIsAllocated st = true.
Proof. intros. by apply (GetIsAllocated_word st n true). Qed.

Lemma lor_bit n (bit : bool) : Z.lor (2 * n) (Z.b2z bit) = 2 * n + Z.b2z bit.
Proof.
  destruct bit; simpl; [|by rewrite Z.lor_0_r, Z.add_0_r].
  rewrite Z.add_nocarry_lxor, Z.lxor_lor; try done.
  - rewrite land_1. Z.div_mod_to_equations; lia.
  - rewrite land_1. Z.div_mod_to_equations; lia.
Qed.

Lemma lor_one_odd n : Z.lor (2 * n + 1) 1 = 2 * n + 1.
Proof.
  pose proof (lor_bit n true) as H1. simpl in H1. rewrite <- H1.
  by rewrite <- Z.lor_assoc, Z.lor_diag.
Qed.

Lemma land_clear_bit n (bit : bool) :
  0 ≤ n → 2 * n + Z.b2z bit < SizeType_modulus →
  Z.land (2 * n + Z.b2z bit) (SizeType_max - 1) = 2 * n.
Proof.
  intros Hn Hr. rewrite <- lor_bit, Z.land_lor_distr_l.
  replace (SizeType_max - 1) with (Z.shiftl (Z.ones 63) 1) by done.
  replace (Z.land (Z.b2z bit) (Z.shiftl (Z.ones 63) 1)) with 0
    by (by destruct bit).
  rewrite Z.lor_0_r. replace (2 * n) with (Z.shiftl n 1) at 1
    by (rewrite Z.shiftl_mul_pow2; lia).
  rewrite <- Z.shiftl_land, Z.land_ones, Z.shiftl_mul_pow2 by lia.
  rewrite Z.mod_small; [lia|].
  rewrite SizeType_modulus_eq in Hr. destruct bit; simpl in *; lia.
Qed.

Lemma sz_shl_1 n : 0 ≤ 2 * n < SizeType_modulus → sz_shl n 1 = 2 * n.
Proof.
  intros. unfold sz_shl. rewrite Z.shiftl_mul_pow2 by lia.
  rewrite wrap_small; change (2 ^ 1) with 2; lia.
Qed.

(** ** Buffers *)

Lemma zlen_buffer_of l c : zlen l ≤ c → zlen (buffer_of l c) = c.
Proof.
  intros. unfold buffer_of. rewrite zlen_app, zlen_fmap, zlen_replicate.
  unfold zlen in *. lia.
Qed.

Lemma zlookup_buffer_of l c j :
  zlookup (buffer_of l c) j =
  match zlookup l j with
  | Some v => Some (Some v)
  | None => if decide (zlen l ≤ j < c) then Some None else None
  end.
Proof.
  unfold buffer_of. rewrite zlookup_app, zlen_fmap, zlookup_fmap, zlookup_replicate.
  case_decide as H1.
  - destruct (zlookup l j) eqn:E; [done|].
    apply zlookup_None in E. simpl. case_decide; [lia|]. done.
  - rewrite zlookup_outside by lia.
    unfold zlen in *. repeat case_decide; try done; lia.
Qed.

Lemma zlookup_raw_buffer c j :
  zlookup (raw_buffer (T:=T) c) j = if decide (0 ≤ j < c) then Some None else None.
Proof.
  unfold raw_buffer. rewrite zlookup_replicate. repeat case_decide; try done; lia.
Qed.

Lemma zlen_raw_buffer c : 0 ≤ c → zlen (raw_buffer (T:=T) c) = c.
Proof. intros. unfold raw_buffer. rewrite zlen_replicate. lia. Qed.

Lemma buffer_of_nil c : buffer_of (T:=T) [] c = raw_buffer c.
Proof. unfold buffer_of, raw_buffer. simpl. f_equal. lia. Qed.

(** ** Memory *)

Lemma storage_of_set_storage_eq w st m : storage_of w (set_storage w st m) = st.
Proof. by destruct w. Qed.

Lemma storage_of_set_storage_ne w w' st m :
  w ≠ w' → storage_of w' (set_storage w st m) = storage_of w' m.
Proof. by destruct w, w'. Qed.

Lemma heap_set_storage w st m : heap (set_storage w st m) = heap m.
Proof. by destruct w. Qed.

Lemma storage_of_set_heap w h m : storage_of w (set_heap h m) = storage_of w m.
Proof. by destruct w. Qed.

Lemma get_buf_set_buf_eq b buf m : get_buf b (set_buf b buf m) = Some buf.
Proof.
  destruct b as [w|a]; simpl.
  - by rewrite storage_of_set_storage_eq.
  - apply lookup_insert_eq.
Qed.

Lemma get_buf_set_buf_ne b b' buf m :
  b ≠ b' → get_buf b' (set_buf b buf m) = get_buf b' m.
Proof.
  intros Hne. destruct b as [w|a], b' as [w'|a']; simpl.
  - rewrite storage_of_set_storage_ne by congruence. done.
  - by rewrite heap_set_storage.
  - by rewrite storage_of_set_heap.
  - apply lookup_insert_ne. congruence.
Qed.

Lemma set_buf_set_buf b buf buf' m :
  set_buf b buf' (set_buf b buf m) = set_buf b buf' m.
Proof.
  destruct b as [w|a]; simpl.
  - rewrite storage_of_set_storage_eq. by destruct w.
  - unfold set_heap. simpl. by rewrite insert_insert_eq.
Qed.

Lemma slot_at_Ptr b i m buf :
  get_buf b m = Some buf → slot_at (Ptr b i) m = zlookup buf i.
Proof. intros H. simpl. by rewrite H. Qed.

Lemma write_slot_Ptr b i x m buf :
  get_buf b m = Some buf → write_slot (Ptr b i) x m = set_buf b (zinsert i x buf) m.
Proof. intros H. simpl. by rewrite H. Qed.

Lemma set_buf_comm b b' buf buf' m :
  b ≠ b' → set_buf b buf (set_buf b' buf' m) = set_buf b' buf' (set_buf b buf m).
Proof.
  intros Hne. destruct b as [w|a], b' as [w'|a']; simpl.
  - destruct w, w'; done.
  - rewrite storage_of_set_heap, heap_set_storage. by destruct w.
  - rewrite storage_of_set_heap, heap_set_storage. by destruct w'.
  - unfold set_heap. simpl. f_equal. apply insert_insert_ne. congruence.
Qed.

Lemma get_buf_update_buf_eq b f m :
  get_buf b (update_buf b f m) = zupdate f <$> get_buf b m.
Proof.
  unfold update_buf. destruct (get_buf b m) eqn:E; simpl; [|done].
  apply get_buf_set_buf_eq.
Qed.

Lemma get_buf_update_buf_ne b b' f m :
  b ≠ b' → get_buf b' (update_buf b f m) = get_buf b' m.
Proof.
  intros. unfold update_buf. destruct (get_buf b m); [|done].
  by apply get_buf_set_buf_ne.
Qed.

Lemma update_buf_Some b f m buf :
  get_buf b m = Some buf → update_buf b f m = set_buf b (zupdate f buf) m.
Proof. intros H. unfold update_buf. by rewrite H. Qed.

Lemma update_buf_update_buf b f g m :
  update_buf b f (update_buf b g m) =
  update_buf b (λ j, match f j with Some y => Some y | None => g j end) m.
Proof.
  unfold update_buf at 1. rewrite get_buf_update_buf_eq.
  unfold update_buf. destruct (get_buf b m); simpl; [|done].
  by rewrite set_buf_set_buf, zupdate_zupdate.
Qed.

Lemma update_buf_comm b b' f g m :
  b ≠ b' →
  update_buf b f (update_buf b' g m) = update_buf b' g (update_buf b f m).
Proof.
  intros Hne. unfold update_buf at 1 3.
  rewrite !get_buf_update_buf_ne by done.
  unfold update_buf. destruct (get_buf b m), (get_buf b' m); try done.
  by apply set_buf_comm.
Qed.

Lemma update_buf_ext b f g m :
  (∀ j, f j = g j) → update_buf b f m = update_buf b g m.
Proof.
  intros H. unfold update_buf. destruct (get_buf b m); [|done].
  f_equal. by apply zupdate_ext.
Qed.

Lemma write_slot_update_buf b i x m :
  write_slot (Ptr b i) x m =
  update_buf b (λ j, if decide (j = i) then Some x else None) m.
Proof.
  unfold update_buf. simpl. destruct (get_buf b m); [|done].
  by rewrite zinsert_zupdate.
Qed.

Lemma slot_at_update_buf_eq b f i m :
  slot_at (Ptr b i) (update_buf b f m) =
  (λ x, default x (f i)) <$> slot_at (Ptr b i) m.
Proof.
  simpl. rewrite get_buf_update_buf_eq. destruct (get_buf b m); [|done].
  simpl. apply zlookup_zupdate.
Qed.

Lemma slot_at_update_buf_ne b b' f i m :
  b ≠ b' → slot_at (Ptr b' i) (update_buf b f m) = slot_at (Ptr b' i) m.
Proof. intros. simpl. by rewrite get_buf_update_buf_ne. Qed.

(** ** Range updates *)

Lemma zupdate_on_empty_range off n (g : Z → option T) buf :
  n ≤ 0 → zupdate (on_range off n g) buf = buf.
Proof.
  intros. apply zupdate_id. intros j y _ Hj. unfold on_range in Hj.
  case_decide; [lia|done].
Qed.

Lemma get_buf_range_update_eq b off n g m :
  get_buf b (range_update b off n g m) =
  zupdate (on_range off n g) <$> get_buf b m.
Proof.
  unfold range_update. case_bool_decide.
  - apply get_buf_update_buf_eq.
  - destruct (get_buf b m); [|done]. simpl.
    by rewrite zupdate_on_empty_range by lia.
Qed.

Lemma get_buf_range_update_ne b b' off n g m :
  b ≠ b' → get_buf b' (range_update b off n g m) = get_buf b' m.
Proof.
  intros. unfold range_update. case_bool_decide; [|done].
  by apply get_buf_update_buf_ne.
Qed.

Lemma range_update_empty b off n g m : n ≤ 0 → range_update b off n g m = m.
Proof. intros. unfold range_update. by rewrite bool_decide_eq_false_2 by lia. Qed.

Lemma range_update_ext b off n g g' m :
  (∀ j, off ≤ j < off + n → g j = g' j) →
  range_update b off n g m = range_update b off n g' m.
Proof.
  intros H. unfold range_update. case_bool_decide; [|done].
  apply update_buf_ext. intros j. unfold on_range.
  case_decide; [|done]. f_equal. by apply H.
Qed.

(** A write commutes with a loop that does not touch the slot. *)
Lemma range_update_write_slot b off n g b' i x m :
  (b = b' → ¬ (off ≤ i < off + n)) →
  range_update b off n g (write_slot (Ptr b' i) x m) =
  write_slot (Ptr b' i) x (range_update b off n g m).
Proof.
  intros Hd. unfold range_update. case_bool_decide; [|done].
  rewrite !write_slot_update_buf. destruct (decide (b = b')) as [->|Hne].
  - rewrite !update_buf_update_buf. apply update_buf_ext. intros j.
    unfold on_range. repeat case_decide; try done. subst. tauto.
  - by apply update_buf_comm.
Qed.

(** One more round, before or after the others. *)
Lemma range_update_write_first b off n g x m :
  0 ≤ n → g off = x →
  range_update b (off + 1) n g (write_slot (Ptr b off) x m) =
  range_update b off (n + 1) g m.
Proof.
  intros Hn <-. unfold range_update.
  rewrite (bool_decide_eq_true_2 (0 < n + 1)) by lia.
  rewrite write_slot_update_buf. case_bool_decide.
  - rewrite update_buf_update_buf. apply update_buf_ext. intros j.
    unfold on_range. repeat case_decide; try done; try lia. by subst.
  - apply update_buf_ext. intros j.
    unfold on_range. repeat case_decide; try done; try lia. by subst.
Qed.

Lemma range_update_write_last b off n g x m :
  0 ≤ n → g (off + n) = x →
  range_update b off n g (write_slot (Ptr b (off + n)) x m) =
  range_update b off (n + 1) g m.
Proof.
  intros Hn <-. unfold range_update.
  rewrite (bool_decide_eq_true_2 (0 < n + 1)) by lia.
  rewrite write_slot_update_buf. case_bool_decide.
  - rewrite update_buf_update_buf. apply update_buf_ext. intros j.
    unfold on_range. repeat case_decide; try done; try lia. by subst.
  - apply update_buf_ext. intros j.
    unfold on_range. repeat case_decide; try done; try lia. by subst.
Qed.

(** A loop over a slot overrides what was written there before. *)
Lemma range_update_absorb_write b off n g i x m :
  off ≤ i < off + n →
  range_update b off n g (write_slot (Ptr b i) x m) = range_update b off n g m.
Proof.
  intros Hi. unfold range_update. rewrite bool_decide_eq_true_2 by lia.
  rewrite write_slot_update_buf, update_buf_update_buf.
  apply update_buf_ext. intros j. unfold on_range.
  repeat case_decide; try done. lia.
Qed.

Lemma range_update_range_update b off n g off' n' g' m :
  0 < n → 0 < n' →
  range_update b off n g (range_update b off' n' g' m) =
  update_buf b (λ j, match on_range off n g j with
                     | Some y => Some y
                     | None => on_range off' n' g' j
                     end) m.
Proof.
  intros. unfold range_update. rewrite !bool_decide_eq_true_2 by done.
  apply update_buf_update_buf.
Qed.

Lemma slot_at_range_update_eq b off n g i m :
  slot_at (Ptr b i) (range_update b off n g m) =
  (λ x, if decide (off ≤ i < off + n) then g i else x) <$> slot_at (Ptr b i) m.
Proof.
  simpl. rewrite get_buf_range_update_eq. destruct (get_buf b m); [|done].
  simpl. rewrite zlookup_zupdate. destruct (zlookup l i); [|done]. simpl.
  unfold on_range. by case_decide.
Qed.

Lemma slot_at_range_update_ne b b' off n g i m :
  b ≠ b' → slot_at (Ptr b' i) (range_update b off n g m) = slot_at (Ptr b' i) m.
Proof. intros. simpl. by rewrite get_buf_range_update_ne. Qed.

End memory.

Section runs.
Context {T : Type} {VT : ValueType T} {Env : Environment}.
Implicit Types (m : Memory (T:=T)) (st : Storage (T:=T)) (s : State (T:=T))
  (buf : list (option T)) (l : list T) (w : Who) (b : Base) (p : Pointer)
  (d : Data (T:=T)).

(** ** Running computations *)

Lemma bind_Ok {A B} (c : M A) (k : A → M B) s a s' :
  c s = Ok a s' → (c ≫= k) s = k a s'.
Proof. intros H. unfold mbind, M_bind. by rewrite H. Qed.

Lemma bind_Throw {A B} (c : M A) (k : A → M B) s e s' :
  c s = Throw e s' → (c ≫= k) s = Throw e s'.
Proof. intros H. unfold mbind, M_bind. by rewrite H. Qed.

Lemma bind_assoc {A B C} (c : M A) (k : A → M B) (k' : B → M C) s :
  ((c ≫= k) ≫= k') s = (c ≫= λ a, k a ≫= k') s.
Proof. unfold mbind, M_bind. by destruct (c s). Qed.

Lemma fresh_block_None (h : gmap nat (list (option T))) :
  h !! fresh (dom h) = None.
Proof. apply not_elem_of_dom, is_fresh. Qed.

Lemma set_heap_id m : set_heap (heap m) m = m.
Proof. by destruct m. Qed.

Lemma state_eq s s' :
  mem s = mem s' → allocation_txs s = allocation_txs s' →
  construction_txs s = construction_txs s' → trace s = trace s' →
  tick s = tick s' → s = s'.
Proof. destruct s, s'. simpl. by intros -> -> -> -> ->. Qed.

Lemma state_after_state_after m1 e1 t1 m2 e2 t2 s :
  state_after m2 e2 t2 (state_after m1 e1 t1 s) =
  state_after m2 (e1 ++ e2) (t1 + t2) s.
Proof.
  apply state_eq; simpl; [done|done|done|by rewrite app_assoc|lia].
Qed.

Lemma state_after_id s : state_after (mem s) [] 0 s = s.
Proof.
  apply state_eq; simpl; [done|done|done|by rewrite app_nil_r|lia].
Qed.

Lemma with_mem_after f s : with_mem f s = state_after (f (mem s)) [] 0 s.
Proof.
  apply state_eq; simpl; [done|done|done|by rewrite app_nil_r|lia].
Qed.

Ltac solve_state :=
  try (f_equal; []);
  apply state_eq; simpl;
  [try done..
  |try done; rewrite <- ?app_assoc, ?app_nil_r; try done
  |try done; lia].

Lemma allocate_run capacity s :
  capacity ≤ max_size →
  let a := fresh (dom (heap (mem s))) in
  allocate capacity s =
    if faults (tick s)
    then Throw bad_alloc (state_after (mem s) [EvThrow bad_alloc] 1 s)
    else Ok (Ptr (HeapBlock a) 0)
           (state_after
              (set_heap (<[a := raw_buffer capacity]> (heap (mem s))) (mem s))
              [EvAllocate a capacity] 1 s).
Proof.
  intros Hc a. unfold allocate.
  destruct (max_size <? capacity) eqn:E; [lia|].
  unfold mbind, M_bind, mret, M_ret, fallible.
  destruct (faults (tick s)); simpl; solve_state.
Qed.

Lemma allocate_too_large capacity s :
  max_size < capacity → allocate capacity s = Throw bad_alloc s.
Proof.
  intros Hc. unfold allocate.
  destruct (max_size <? capacity) eqn:E; [done|lia].
Qed.

Lemma deallocate_run a capacity buf s :
  heap (mem s) !! a = Some buf → zlen buf = capacity →
  deallocate (Ptr (HeapBlock a) 0) capacity s =
    Ok tt (state_after (set_heap (delete a (heap (mem s))) (mem s))
             [EvDeallocate a capacity] 0 s).
Proof.
  intros Hb Hl. unfold deallocate, mbind, M_bind, read_mem. rewrite Hb.
  unfold zlen in Hl. rewrite bool_decide_eq_true_2 by done.
  unfold assert, update_mem, log, mret, M_ret. simpl. solve_state.
Qed.

Lemma construct_run p v s :
  slot_at p (mem s) = Some None →
  construct p v s =
    if faults (tick s)
    then Throw element_exception
           (state_after (mem s) [EvConstruct p v; EvThrow element_exception] 1 s)
    else Ok tt (state_after (write_slot p (Some v) (mem s)) [EvConstruct p v] 1 s).
Proof.
  intros Hp. unfold construct, require_raw, load, mbind, M_bind.
  rewrite Hp. simpl. unfold fallible. simpl.
  destruct (faults (tick s)); [solve_state|]. unfold store. simpl.
  rewrite Hp. solve_state.
Qed.

Lemma slot_at_write_slot_ne p q x m :
  p ≠ q → slot_at q (write_slot p x m) = slot_at q m.
Proof.
  intros Hne. destruct p as [|b i], q as [|b' j]; try done.
  simpl. destruct (get_buf b m) as [buf|] eqn:E; [|done].
  destruct (decide (b = b')) as [->|].
  - rewrite get_buf_set_buf_eq, E. apply zlookup_zinsert_ne. congruence.
  - by rewrite get_buf_set_buf_ne.
Qed.

Lemma slot_at_write_slot_eq p x y m :
  slot_at p m = Some y → slot_at p (write_slot p x m) = Some x.
Proof.
  destruct p as [|b i]; [done|]. simpl.
  destruct (get_buf b m) as [buf|] eqn:E; [|done]. intros Hy.
  rewrite get_buf_set_buf_eq. apply zlookup_zinsert_eq.
  by eapply zlookup_Some_range.
Qed.

Lemma move_construct_run p src v s :
  slot_at src (mem s) = Some (Some v) → slot_at p (mem s) = Some None →
  move_construct p src s =
    if faults (tick s)
    then Throw element_exception
           (state_after (mem s)
              [EvMoveConstruct p src; EvThrow element_exception] 1 s)
    else Ok tt (state_after
                  (write_slot src (Some (moved_from v))
                     (write_slot p (Some v) (mem s)))
                  [EvMoveConstruct p src] 1 s).
Proof.
  intros Hs Hp. assert (p ≠ src) by congruence.
  unfold move_construct, load_live, require_raw, load, mbind, M_bind.
  rewrite Hs. simpl. rewrite Hp. simpl. unfold fallible. simpl.
  destruct (faults (tick s)); [solve_state|]. unfold store. simpl.
  rewrite Hp. simpl. rewrite slot_at_write_slot_ne, Hs by done. solve_state.
Qed.

Lemma assign_run p v v0 s :
  slot_at p (mem s) = Some (Some v0) →
  assign p v s =
    if faults (tick s)
    then Throw element_exception
           (state_after (mem s) [EvAssign p v; EvThrow element_exception] 1 s)
    else Ok tt (state_after (write_slot p (Some v) (mem s)) [EvAssign p v] 1 s).
Proof.
  intros Hp. unfold assign, load_live, load, mbind, M_bind.
  rewrite Hp. simpl. unfold fallible. simpl.
  destruct (faults (tick s)); [solve_state|]. unfold store. simpl.
  rewrite Hp. solve_state.
Qed.

Lemma move_assign_run p src v v0 s :
  slot_at src (mem s) = Some (Some v) → slot_at p (mem s) = Some (Some v0) →
  move_assign p src s =
    if faults (tick s)
    then Throw element_exception
           (state_after (mem s)
              [EvMoveAssign p src; EvThrow element_exception] 1 s)
    else Ok tt (state_after
                  (if bool_decide (p = src)
                   then write_slot p (Some (self_moved v)) (mem s)
                   else write_slot src (Some (moved_from v))
                          (write_slot p (Some v) (mem s)))
                  [EvMoveAssign p src] 1 s).
Proof.
  intros Hs Hp.
  unfold move_assign, load_live, load, mbind, M_bind.
  rewrite Hs. simpl. rewrite Hp. simpl. unfold fallible. simpl.
  destruct (faults (tick s)); [solve_state|]. case_bool_decide.
  - unfold store. simpl. rewrite Hp. solve_state.
  - unfold store. simpl. rewrite Hp. simpl.
    rewrite slot_at_write_slot_ne, Hs by done. solve_state.
Qed.

Lemma swap_elements_run p q (v v' : T) s :
  p ≠ q →
  slot_at p (mem s) = Some (Some v) → slot_at q (mem s) = Some (Some v') →
  swap_elements p q s =
    if faults (tick s)
    then Throw element_exception
           (state_after (mem s) [EvSwap p q; EvThrow element_exception] 1 s)
    else Ok tt (state_after
                  (write_slot q (Some v) (write_slot p (Some v') (mem s)))
                  [EvSwap p q] 1 s).
Proof.
  intros Hne Hp Hq.
  unfold swap_elements, load_live, load, mbind, M_bind.
  rewrite Hp. simpl. rewrite Hq. simpl. unfold fallible. simpl.
  destruct (faults (tick s)); [solve_state|]. unfold store. simpl.
  rewrite Hp. simpl. rewrite slot_at_write_slot_ne, Hq by done. solve_state.
Qed.

Lemma destroy_run p v s :
  slot_at p (mem s) = Some (Some v) →
  destroy p s = Ok tt (state_after (write_slot p None (mem s)) [EvDestroy p] 0 s).
Proof.
  intros Hp. unfold destroy, load_live, load, mbind, M_bind.
  rewrite Hp. simpl. unfold store. simpl. rewrite Hp. solve_state.
Qed.

(** ** The rules of [wp] *)

Lemma faulty_mono t t' : (t ≤ t')%nat → faulty t' → faulty t.
Proof. intros Ht (k & Hk & Hf). exists k. split; [lia|done]. Qed.

Lemma faulty_now t : faults t = true → faulty t.
Proof. intros. by exists t. Qed.

Lemma wp_ret {A} X (a : A) s (Q : A → State → Prop) :
  Q a s → wp X (mret a) s Q.
Proof. intros. unfold wp, mret, M_ret. split; [lia|done]. Qed.

Lemma wp_bind {A B} X (c : M A) (k : A → M B) s (Q : B → State → Prop) :
  wp X c s (λ a s', wp X (k a) s' Q) → wp X (c ≫= k) s Q.
Proof.
  unfold wp at 1 3, mbind, M_bind. destruct (c s) as [a s'|e s'|]; [|done..].
  intros [Ht Hk]. unfold wp in Hk. destruct (k a s') as [b s''|e s''|].
  - destruct Hk. split; [lia|done].
  - destruct Hk as [Hk|]; [left; by eapply faulty_mono|by right].
  - destruct Hk as [Hk|]; [left; by eapply faulty_mono|by right].
Qed.

Lemma wp_mono {A} X (c : M A) s (Q Q' : A → State → Prop) :
  wp X c s Q → (∀ a s', (tick s ≤ tick s')%nat → Q a s' → Q' a s') →
  wp X c s Q'.
Proof.
  unfold wp. destruct (c s); [|done..]. intros [Ht HQ] Himp. split; [done|]. by apply Himp.
Qed.

(** A call that returns. *)
Lemma wp_bind_Ok {A B} X (c : M A) (k : A → M B) s a s'
    (Q : B → State → Prop) :
  c s = Ok a s' → (tick s ≤ tick s')%nat → wp X (k a) s' Q →
  wp X (c ≫= k) s Q.
Proof.
  intros Hc Ht Hk. apply wp_bind. unfold wp at 1. rewrite Hc. done.
Qed.

(** A call that returns unless it throws at the current tick. *)
Lemma wp_bind_fallible {A B} X (c : M A) (k : A → M B) s e s1 a s2
    (Q : B → State → Prop) :
  c s = (if faults (tick s) then Throw e s1 else Ok a s2) →
  (tick s ≤ tick s2)%nat → wp X (k a) s2 Q →
  wp X (c ≫= k) s Q.
Proof.
  intros Hc Ht Hk. apply wp_bind. unfold wp at 1. rewrite Hc.
  destruct (faults (tick s)) eqn:Hf; [|done]. left. by apply faulty_now.
Qed.

Lemma wp_Ok {A} X (c : M A) s a s' (Q : A → State → Prop) :
  c s = Ok a s' → (tick s ≤ tick s')%nat → Q a s' → wp X c s Q.
Proof. intros Hc Ht HQ. unfold wp. by rewrite Hc. Qed.

Lemma wp_catch_any {A} X (c : M A) (h : M unit) s (Q : A → State → Prop) :
  wp X c s Q → wp X (catch_any c h) s Q.
Proof.
  unfold wp, catch_any. destruct (c s) as [a s'|e s'|]; [done| |done].
  intros H. by destruct (h s').
Qed.

Lemma wp_unwind_protect {A} X (c : M A) (cleanup : M unit) s
    (Q : A → State → Prop) :
  wp X c s (λ a s', wp X cleanup s' (λ _ s'', Q a s'')) →
  wp X (unwind_protect c cleanup) s Q.
Proof.
  unfold wp at 1 3, unwind_protect. destruct (c s) as [a s'|e s'|]; [| |done].
  - intros [Ht Hc]. unfold wp in Hc. destruct (cleanup s') as [[] s''|e s''|].
    + destruct Hc. split; [lia|done].
    + destruct Hc as [Hc|]; [left; by eapply faulty_mono|by right].
    + destruct Hc as [Hc|]; [left; by eapply faulty_mono|by right].
  - intros H. by destruct (cleanup s') as [[] s''|e' s''|].
Qed.

(** What [wp] gives. *)
Lemma wp_returns {A} X (c : M A) s (Q : A → State → Prop) :
  wp X c s Q → ¬ faulty (tick s) → ¬ X → ∃ a s', c s = Ok a s' ∧ Q a s'.
Proof.
  unfold wp. destruct (c s) as [a s'|e s'|]; [|intros []; done..].
  intros [_ HQ] _ _. eauto.
Qed.

Lemma wp_returned {A} X (c : M A) s a s' (Q : A → State → Prop) :
  wp X c s Q → c s = Ok a s' → Q a s'.
Proof. unfold wp. intros H Hc. rewrite Hc in H. by destruct H. Qed.

Lemma not_faulty t : (∀ k, (t ≤ k)%nat → faults k = false) → ¬ faulty t.
Proof. intros H (k & Hk & Hf). rewrite H in Hf; done. Qed.

End runs.

Section loops.
Context {T : Type} {VT : ValueType T} {Env : Environment}.
Implicit Types (m : Memory (T:=T)) (st : Storage (T:=T)) (s : State (T:=T))
  (buf : list (option T)) (l : list T) (w : Who) (b : Base) (p : Pointer)
  (d : Data (T:=T)).

(** ** The loops *)

#[local] Arguments write_slot : simpl never.
#[local] Arguments slot_at : simpl never.
#[local] Arguments range_update : simpl never.
#[local] Arguments construct_events : simpl never.
#[local] Arguments move_construct_events : simpl never.
#[local] Arguments destroy_events : simpl never.

Lemma destroy_events_0 p : destroy_events (T:=T) p 0 = [].
Proof. done. Qed.

Lemma destroy_events_S p n :
  destroy_events (T:=T) p (Z.of_nat (S n)) =
  EvDestroy (ptr_add p (Z.of_nat n)) :: destroy_events p (Z.of_nat n).
Proof.
  unfold destroy_events. rewrite seqZ_S, reverse_snoc. simpl. done.
Qed.

Lemma destroy_loop_run b off n s :
  (∀ j, off ≤ j < off + Z.of_nat n →
        ∃ v, slot_at (Ptr b j) (mem s) = Some (Some v)) →
  destroy_loop (Ptr b off) n s =
    Ok tt (state_after (clear_range b off (Z.of_nat n) (mem s))
             (destroy_events (Ptr b off) (Z.of_nat n)) 0 s).
Proof.
  revert s. induction n as [|n IH]; intros s Hlive.
  - simpl. unfold mret, M_ret, clear_range.
    by rewrite range_update_empty, destroy_events_0, state_after_id.
  - destruct (Hlive (off + Z.of_nat n)) as [v Hv]; [lia|].
    cbn [destroy_loop ptr_add].
    erewrite bind_Ok by (by eapply destroy_run). rewrite IH.
    + rewrite state_after_state_after. cbn [mem state_after mk_state].
      unfold clear_range.
      rewrite (range_update_write_last b off (Z.of_nat n) (λ _, None))
        by (done || lia).
      rewrite destroy_events_S. replace (Z.of_nat (S n)) with (Z.of_nat n + 1) by lia.
      done.
    + intros j Hj. cbn [mem state_after mk_state].
      rewrite slot_at_write_slot_ne by (intros [=]; lia). apply Hlive. lia.
Qed.

Lemma DestroyElements_run b off n s :
  0 ≤ n →
  (∀ j, off ≤ j < off + n → ∃ v, slot_at (Ptr b j) (mem s) = Some (Some v)) →
  DestroyElements (Ptr b off) n s =
    Ok tt (state_after (clear_range b off n (mem s))
             (destroy_events (Ptr b off) n) 0 s).
Proof.
  intros Hn Hlive. unfold DestroyElements. cbn [is_null].
  rewrite destroy_loop_run; rewrite Z2Nat.id by done; done.
Qed.

Lemma DestroyElements_null n s : DestroyElements nullptr n s = Ok tt s.
Proof. done. Qed.

Lemma zlookup_cons_0 {A} (x : A) (l : list A) : zlookup (x :: l) 0 = Some x.
Proof. done. Qed.

Lemma zlookup_cons_pos {A} (x : A) (l : list A) j :
  0 < j → zlookup (x :: l) j = zlookup l (j - 1).
Proof.
  intros. unfold zlookup. rewrite !bool_decide_eq_true_2 by lia.
  replace (Z.to_nat j) with (S (Z.to_nat (j - 1))) by lia. done.
Qed.

Lemma zlen_cons {A} (x : A) (l : list A) : zlen (x :: l) = zlen l + 1.
Proof. unfold zlen. simpl. lia. Qed.

Lemma construct_events_cons b i v vs :
  construct_events (T:=T) (Ptr b i) (v :: vs) =
  EvConstruct (Ptr b i) v :: construct_events (Ptr b (i + 1)) vs.
Proof.
  unfold construct_events. rewrite imap_cons. cbn [ptr_add]. f_equal.
  - do 2 f_equal. lia.
  - apply imap_ext. intros k x _. simpl. do 2 f_equal. lia.
Qed.

Lemma ConstructNext_ext values v values' p :
  next_value values = Some (v, values') →
  ConstructNext values p = (construct p v;; mret values').
Proof.
  destruct values as [[|v0 it_]|q|v0|]; simpl; intros [= <- <-]; done.
Qed.

Lemma first_fault_faulty t n k : first_fault t n = Some k → faulty t.
Proof.
  revert t k. induction n as [|n IH]; intros t k; simpl; [done|].
  destruct (faults t) eqn:Hf; [intros _; by apply faulty_now|].
  destruct (first_fault (S t) n) eqn:E; [|done]. intros _.
  eapply faulty_mono; [|by eapply IH]. lia.
Qed.

Lemma construct_loop_ext_run b off i0 n values vs values' s :
  next_values values n = Some (vs, values') →
  0 ≤ i0 →
  (∀ j, off + i0 ≤ j < off + i0 + Z.of_nat n →
        slot_at (Ptr b j) (mem s) = Some None) →
  (∀ j, off ≤ j < off + i0 → ∃ v, slot_at (Ptr b j) (mem s) = Some (Some v)) →
  construct_loop (Ptr b off) values i0 n s =
    match first_fault (tick s) n with
    | None =>
        Ok values'
          (state_after (fill_range b (off + i0) vs (mem s))
             (construct_events (Ptr b (off + i0)) vs) n s)
    | Some k =>
        Throw element_exception
          (state_after (clear_range b off (i0 + Z.of_nat k) (mem s))
             (construct_events (Ptr b (off + i0)) (take (S k) vs) ++
              EvThrow element_exception ::
              destroy_events (Ptr b off) (i0 + Z.of_nat k))
             (S k) s)
    end.
Proof.
  revert i0 values vs s.
  induction n as [|n IH]; intros i0 values vs s Hvs Hi0 Hraw Hlive.
  - simpl in *. injection Hvs as <- <-. unfold mret, M_ret, fill_range.
    rewrite range_update_empty by done.
    unfold construct_events. simpl. by rewrite state_after_id.
  - simpl in Hvs. destruct (next_value values) as [[v values1]|] eqn:Hnext;
      [|done]. simpl in Hvs.
    destruct (next_values values1 n) as [[vs1 values2]|] eqn:Hrest; [|done].
    simpl in Hvs. injection Hvs as <- <-.
    cbn [construct_loop ptr_add first_fault].
    erewrite ConstructNext_ext by exact Hnext.
    unfold mbind at 1, M_bind at 1, catch_any. unfold mbind at 1, M_bind at 1.
    rewrite construct_run by (apply Hraw; lia).
    destruct (faults (tick s)) eqn:Hf.
    + rewrite DestroyElements_run by done.
      rewrite state_after_state_after. cbn [mem state_after mk_state take].
      rewrite construct_events_cons. unfold construct_events at 1. simpl.
      replace (i0 + Z.of_nat 0) with i0 by lia. done.
    + unfold mret, M_ret. rewrite (IH (i0 + 1) values1 vs1); [|done|lia|..].
      * cbn [tick state_after mk_state mem]. rewrite Nat.add_1_r.
        destruct (first_fault (S (tick s)) n) as [k|] eqn:Hk;
          cbn [fmap option_fmap option_map].
        -- rewrite state_after_state_after. unfold clear_range.
           rewrite range_update_absorb_write by lia.
           rewrite firstn_cons, construct_events_cons.
           replace (i0 + 1 + Z.of_nat k) with (i0 + Z.of_nat (S k)) by lia.
           replace (off + (i0 + 1)) with (off + i0 + 1) by lia. done.
        -- rewrite state_after_state_after. unfold fill_range.
           rewrite construct_events_cons.
           replace (off + (i0 + 1)) with (off + i0 + 1) by lia.
           rewrite (range_update_ext _ _ _ _
                      (λ j, zlookup (v :: vs1) (j - (off + i0))))
             by (intros j Hj; rewrite zlookup_cons_pos by lia; f_equal; lia).
           rewrite range_update_write_first;
             [|apply zlen_nonneg|by rewrite Z.sub_diag].
           by rewrite zlen_cons.
      * intros j Hj. cbn [mem state_after mk_state].
        rewrite slot_at_write_slot_ne by (intros [=]; lia). apply Hraw. lia.
      * intros j Hj. cbn [mem state_after mk_state].
        destruct (decide (j = off + i0)) as [->|].
        -- exists v. eapply slot_at_write_slot_eq. apply Hraw. lia.
        -- rewrite slot_at_write_slot_ne by (intros [=]; lia). apply Hlive. lia.
Qed.

Lemma ConstructElements_ext_run b off n values vs values' s :
  next_values values (Z.to_nat n) = Some (vs, values') →
  (∀ j, off ≤ j < off + n → slot_at (Ptr b j) (mem s) = Some None) →
  ConstructElements (Ptr b off) values n s =
    match first_fault (tick s) (Z.to_nat n) with
    | None =>
        Ok values'
          (state_after (fill_range b off vs (mem s))
             (construct_events (Ptr b off) vs) (Z.to_nat n) s)
    | Some k =>
        Throw element_exception
          (state_after (clear_range b off (Z.of_nat k) (mem s))
             (construct_events (Ptr b off) (take (S k) vs) ++
              EvThrow element_exception ::
              destroy_events (Ptr b off) (Z.of_nat k))
             (S k) s)
    end.
Proof.
  intros Hvs Hraw. unfold ConstructElements.
  rewrite (construct_loop_ext_run b off 0 _ _ vs values'); [|done|lia|..].
  - rewrite Z.add_0_r. destruct (first_fault _ _) as [k|] eqn:Hk; [|done].
    by rewrite Z.add_0_l.
  - intros j Hj. apply Hraw. lia.
  - intros j Hj. lia.
Qed.

(** A loop that writes what is there already, in a buffer that is the live
    member of its union, changes nothing. *)
Lemma range_update_id b off n g buf m :
  get_buf b m = Some buf → set_buf b buf m = m →
  (∀ j, off ≤ j < off + n → 0 ≤ j < zlen buf → zlookup buf j = Some (g j)) →
  range_update b off n g m = m.
Proof.
  intros Hb Hm Hg. unfold range_update. case_bool_decide; [|done].
  rewrite (update_buf_Some _ _ _ _ Hb). rewrite zupdate_id; [done|].
  intros j y Hj Hy. unfold on_range in Hy. case_decide; [|done].
  injection Hy as <-. by apply Hg.
Qed.

Lemma move_construct_events_0 p q : move_construct_events (T:=T) p q 0 = [].
Proof. done. Qed.

Lemma move_construct_events_cons b i b' i' n :
  0 ≤ n →
  move_construct_events (T:=T) (Ptr b i) (Ptr b' i') (n + 1) =
  EvMoveConstruct (Ptr b i) (Ptr b' i') ::
  move_construct_events (Ptr b (i + 1)) (Ptr b' (i' + 1)) n.
Proof.
  intros. unfold move_construct_events. rewrite seqZ_cons by lia.
  replace (Z.pred (n + 1)) with n by lia. cbn [fmap list_fmap ptr_add].
  rewrite !Z.add_0_r. f_equal.
  change (Z.succ 0) with (1 + 0). rewrite <- fmap_add_seqZ, <- list_fmap_compose.
  apply list_fmap_ext. intros k x _. simpl. by rewrite !Z.add_assoc.
Qed.

Ltac ptr_ne Hdisj :=
  let H := fresh in
  intros H; injection H; intros; subst;
  try (specialize (Hdisj eq_refl)); lia.

Lemma construct_loop_move_run bD off i0 bS oS n (src : Z → option T) s :
  (bD = bS → oS + Z.of_nat n ≤ off) →
  0 ≤ i0 →
  (∀ j, oS ≤ j < oS + Z.of_nat n →
        slot_at (Ptr bS j) (mem s) = Some (src j) ∧ is_Some (src j)) →
  (∀ j, off + i0 ≤ j < off + i0 + Z.of_nat n →
        slot_at (Ptr bD j) (mem s) = Some None) →
  (∀ j, off ≤ j < off + i0 →
        ∃ v, slot_at (Ptr bD j) (mem s) = Some (Some v)) →
  construct_loop (Ptr bD off) (MoveIteratorValueAdapter (Ptr bS oS)) i0 n s =
    match first_fault (tick s) n with
    | None =>
        Ok (MoveIteratorValueAdapter (Ptr bS (oS + Z.of_nat n)))
          (state_after
             (move_out_range bS oS (Z.of_nat n) src
                (move_in_range bD (off + i0) (Z.of_nat n) src oS (mem s)))
             (move_construct_events (Ptr bD (off + i0)) (Ptr bS oS)
                (Z.of_nat n))
             n s)
    | Some k =>
        Throw element_exception
          (state_after
             (move_out_range bS oS (Z.of_nat k) src
                (clear_range bD off (i0 + Z.of_nat k) (mem s)))
             (move_construct_events (Ptr bD (off + i0)) (Ptr bS oS)
                (Z.of_nat (S k)) ++
              EvThrow element_exception ::
              destroy_events (Ptr bD off) (i0 + Z.of_nat k))
             (S k) s)
    end.
Proof.
  revert i0 oS s.
  induction n as [|n IH]; intros i0 oS s Hdisj Hi0 Hsrc Hraw Hlive.
  - cbn [construct_loop first_fault]. unfold mret, M_ret.
    unfold move_out_range, move_in_range.
    rewrite !range_update_empty by done.
    by rewrite Z.add_0_r, move_construct_events_0, state_after_id.
  - destruct (Hsrc oS) as [Hs [v Hv]]; [lia|]. rewrite Hv in Hs.
    cbn [construct_loop ptr_add first_fault ConstructNext].
    unfold mbind at 1, M_bind at 1, catch_any. unfold mbind at 1, M_bind at 1.
    erewrite move_construct_run by (done || apply Hraw; lia).
    destruct (faults (tick s)) eqn:Hf.
    + rewrite DestroyElements_run by done.
      rewrite state_after_state_after. cbn [mem state_after mk_state].
      unfold move_out_range. rewrite range_update_empty by done.
      change (Z.of_nat 1) with (0 + 1).
      rewrite move_construct_events_cons, move_construct_events_0 by done.
      by rewrite Z.add_0_r.
    + unfold mret, M_ret. cbn [ptr_add].
      rewrite (IH (i0 + 1) (oS + 1));
        [|intros Heq; specialize (Hdisj Heq); lia|lia|..].
      * cbn [tick state_after mk_state mem]. rewrite Nat.add_1_r.
        destruct (first_fault (S (tick s)) n) as [k|] eqn:Hk;
          cbn [fmap option_fmap option_map].
        -- rewrite state_after_state_after.
           unfold clear_range, move_out_range.
           rewrite range_update_write_slot
             by (intros Heq; specialize (Hdisj Heq); lia).
           rewrite (range_update_absorb_write bD off) by lia.
           rewrite range_update_write_first; [|lia|by rewrite Hv].
           replace (Z.of_nat (S (S k))) with (Z.of_nat (S k) + 1) by lia.
           rewrite move_construct_events_cons by lia.
           replace (i0 + 1 + Z.of_nat k) with (i0 + Z.of_nat (S k)) by lia.
           replace (off + (i0 + 1)) with (off + i0 + 1) by lia.
           replace (Z.of_nat k + 1) with (Z.of_nat (S k)) by lia. done.
        -- rewrite state_after_state_after.
           unfold move_in_range, move_out_range.
           rewrite range_update_write_slot
             by (intros Heq; specialize (Hdisj Heq); lia).
           replace (off + (i0 + 1)) with (off + i0 + 1) by lia.
           rewrite (range_update_ext bD _ _ _
                      (λ j, src (j - (off + i0) + oS)))
             by (intros j Hj; f_equal; lia).
           rewrite (range_update_write_first bD (off + i0));
             [|lia|by rewrite Z.sub_diag, Z.add_0_l, Hv].
           rewrite (range_update_write_first bS oS); [|lia|by rewrite Hv].
           replace (Z.of_nat (S n)) with (Z.of_nat n + 1) by lia.
           rewrite move_construct_events_cons by lia.
           replace (oS + 1 + Z.of_nat n) with (oS + (Z.of_nat n + 1)) by lia.
           replace (1 + n)%nat with (S n) by lia.
           done.
      * intros j Hj. cbn [mem state_after mk_state].
        rewrite !slot_at_write_slot_ne by ptr_ne Hdisj.
        apply Hsrc. lia.
      * intros j Hj. cbn [mem state_after mk_state].
        rewrite !slot_at_write_slot_ne by ptr_ne Hdisj.
        apply Hraw. lia.
      * intros j Hj. cbn [mem state_after mk_state].
        assert (Ptr bS oS ≠ Ptr bD j) by ptr_ne Hdisj.
        rewrite slot_at_write_slot_ne by done.
        destruct (decide (j = off + i0)) as [->|].
        -- exists v. eapply slot_at_write_slot_eq. apply Hraw. lia.
        -- rewrite slot_at_write_slot_ne by (intros [=]; lia). apply Hlive. lia.
Qed.

End loops.

Section observe.
Context {T : Type} {VT : ValueType T} {Env : Environment}.
Implicit Types (m : Memory (T:=T)) (st : Storage (T:=T)) (s : State (T:=T))
  (buf : list (option T)) (l : list T) (w : Who) (b : Base) (p : Pointer)
  (d : Data (T:=T)) (h : gmap nat (list (option T)))
  (f : Storage (T:=T) → Storage (T:=T)) (g : Z → option T).

#[local] Arguments write_slot : simpl never.
#[local] Arguments slot_at : simpl never.
#[local] Arguments range_update : simpl never.

(** ** Observing a memory *)

Lemma storage_of_forget w a m : storage_of w (forget a m) = storage_of w m.
Proof. apply storage_of_set_heap. Qed.

Lemma storage_of_with_storage_eq w f m :
  storage_of w (with_storage w f m) = f (storage_of w m).
Proof. apply storage_of_set_storage_eq. Qed.

Lemma storage_of_with_storage_ne w w' f m :
  w ≠ w' → storage_of w' (with_storage w f m) = storage_of w' m.
Proof. apply storage_of_set_storage_ne. Qed.

Lemma storage_of_set_buf_heap w a buf m :
  storage_of w (set_buf (HeapBlock a) buf m) = storage_of w m.
Proof. apply storage_of_set_heap. Qed.

Lemma storage_of_set_buf_ne w w' buf m :
  w ≠ w' → storage_of w' (set_buf (InlinedOf w) buf m) = storage_of w' m.
Proof. intros. simpl. by apply storage_of_set_storage_ne. Qed.

Lemma storage_of_update_buf w b fz m :
  b ≠ InlinedOf w → storage_of w (update_buf b fz m) = storage_of w m.
Proof.
  intros Hb. unfold update_buf. destruct (get_buf b m); [|done].
  destruct b as [w'|a]; [apply storage_of_set_buf_ne; congruence|].
  apply storage_of_set_buf_heap.
Qed.

Lemma storage_of_range_update w b off n g m :
  b ≠ InlinedOf w → storage_of w (range_update b off n g m) = storage_of w m.
Proof.
  intros. unfold range_update. case_bool_decide; [|done].
  by apply storage_of_update_buf.
Qed.

Lemma storage_of_write_slot w b i x m :
  b ≠ InlinedOf w → storage_of w (write_slot (Ptr b i) x m) = storage_of w m.
Proof. intros. rewrite write_slot_update_buf. by apply storage_of_update_buf. Qed.

Lemma word_set_buf w b buf m :
  metadata_size_and_is_allocated (storage_of w (set_buf b buf m)) =
  metadata_size_and_is_allocated (storage_of w m).
Proof.
  destruct b as [w'|a]; [|by rewrite storage_of_set_buf_heap]. simpl.
  destruct (decide (w' = w)) as [->|].
  - by rewrite storage_of_set_storage_eq.
  - by rewrite storage_of_set_storage_ne.
Qed.

Lemma word_range_update w b off n g m :
  metadata_size_and_is_allocated (storage_of w (range_update b off n g m)) =
  metadata_size_and_is_allocated (storage_of w m).
Proof.
  unfold range_update. case_bool_decide; [|done]. unfold update_buf.
  destruct (get_buf b m); [|done]. apply word_set_buf.
Qed.

Lemma word_write_slot w b i x m :
  metadata_size_and_is_allocated (storage_of w (write_slot (Ptr b i) x m)) =
  metadata_size_and_is_allocated (storage_of w m).
Proof.
  rewrite write_slot_update_buf. unfold update_buf.
  destruct (get_buf b m); [|done]. apply word_set_buf.
Qed.

Lemma heap_forget a m : heap (forget a m) = delete a (heap m).
Proof. done. Qed.

Lemma heap_with_storage w f m : heap (with_storage w f m) = heap m.
Proof. apply heap_set_storage. Qed.

Lemma get_buf_heap a m : get_buf (HeapBlock a) m = heap m !! a.
Proof. done. Qed.

Lemma get_buf_set_heap_heap a h m : get_buf (HeapBlock a) (set_heap h m) = h !! a.
Proof. done. Qed.

Lemma get_buf_set_heap_inlined w h m :
  get_buf (InlinedOf w) (set_heap h m) = get_buf (InlinedOf w) m.
Proof. simpl. by rewrite storage_of_set_heap. Qed.

Lemma get_buf_forget_inlined w a m :
  get_buf (InlinedOf w) (forget a m) = get_buf (InlinedOf w) m.
Proof. apply get_buf_set_heap_inlined. Qed.

Lemma get_buf_forget_ne a a' m :
  a ≠ a' → get_buf (HeapBlock a') (forget a m) = get_buf (HeapBlock a') m.
Proof. intros. simpl. by apply lookup_delete_ne. Qed.

Lemma get_buf_with_storage_heap a w f m :
  get_buf (HeapBlock a) (with_storage w f m) = get_buf (HeapBlock a) m.
Proof. simpl. by rewrite heap_with_storage. Qed.

Lemma get_buf_with_storage_ne w w' f m :
  w ≠ w' → get_buf (InlinedOf w') (with_storage w f m) = get_buf (InlinedOf w') m.
Proof. intros. simpl. by rewrite storage_of_with_storage_ne. Qed.

Lemma get_buf_with_storage_data w f m :
  (∀ st, data_ (f st) = data_ st) →
  get_buf (InlinedOf w) (with_storage w f m) = get_buf (InlinedOf w) m.
Proof. intros Hf. simpl. by rewrite storage_of_with_storage_eq, Hf. Qed.

Lemma get_buf_write_slot_eq b i x m :
  get_buf b (write_slot (Ptr b i) x m) = zinsert i x <$> get_buf b m.
Proof.
  unfold write_slot. destruct (get_buf b m) eqn:E; simpl; [|done].
  apply get_buf_set_buf_eq.
Qed.

Lemma get_buf_write_slot_ne b b' i x m :
  b ≠ b' → get_buf b' (write_slot (Ptr b i) x m) = get_buf b' m.
Proof.
  intros. unfold write_slot. destruct (get_buf b m) eqn:E; simpl; [|done].
  by apply get_buf_set_buf_ne.
Qed.

Lemma slot_at_get_buf b i m : slot_at (Ptr b i) m = get_buf b m ≫= λ buf, zlookup buf i.
Proof. unfold slot_at. by destruct (get_buf b m). Qed.

(** ** Forgetting a block *)

Lemma forget_allocated a buf m :
  heap m !! a = None → forget a (set_heap (<[a := buf]> (heap m)) m) = m.
Proof.
  intros Ha. unfold forget, set_heap. simpl.
  rewrite delete_insert_eq, delete_id by done. by destruct m.
Qed.

Lemma forget_set_buf a buf m : forget a (set_buf (HeapBlock a) buf m) = forget a m.
Proof. unfold forget, set_heap. simpl. by rewrite delete_insert_eq. Qed.

Lemma forget_set_buf_ne a b buf m :
  b ≠ HeapBlock a → forget a (set_buf b buf m) = set_buf b buf (forget a m).
Proof.
  intros Hb. destruct b as [w|a']; unfold forget, set_heap; simpl.
  - rewrite !heap_set_storage. by destruct w.
  - rewrite delete_insert_ne by congruence. done.
Qed.

Lemma forget_update_buf a fz m :
  forget a (update_buf (HeapBlock a) fz m) = forget a m.
Proof.
  unfold update_buf. destruct (get_buf _ m); [|done]. apply forget_set_buf.
Qed.

Lemma forget_update_buf_ne a b fz m :
  b ≠ HeapBlock a → forget a (update_buf b fz m) = update_buf b fz (forget a m).
Proof.
  intros Hb. unfold update_buf.
  assert (get_buf b (forget a m) = get_buf b m) as ->.
  { destruct b as [w|a']; [apply get_buf_forget_inlined|].
    apply get_buf_forget_ne. congruence. }
  destruct (get_buf b m); [|done]. by apply forget_set_buf_ne.
Qed.

Lemma forget_range_update a off n g m :
  forget a (range_update (HeapBlock a) off n g m) = forget a m.
Proof.
  unfold range_update. case_bool_decide; [|done]. apply forget_update_buf.
Qed.

Lemma forget_range_update_ne a b off n g m :
  b ≠ HeapBlock a →
  forget a (range_update b off n g m) = range_update b off n g (forget a m).
Proof.
  intros. unfold range_update. case_bool_decide; [|done].
  by apply forget_update_buf_ne.
Qed.

Lemma forget_write_slot a i x m :
  forget a (write_slot (Ptr (HeapBlock a) i) x m) = forget a m.
Proof. rewrite write_slot_update_buf. apply forget_update_buf. Qed.

Lemma forget_with_storage a w f m :
  forget a (with_storage w f m) = with_storage w f (forget a m).
Proof.
  unfold forget, with_storage. rewrite heap_set_storage, storage_of_set_heap.
  by destruct w.
Qed.

End observe.

Section guards.
Context {T : Type} {VT : ValueType T} {Env : Environment}.
Implicit Types (m : Memory (T:=T)) (st : Storage (T:=T)) (s : State (T:=T))
  (buf : list (option T)) (l : list T) (w : Who) (b : Base) (p : Pointer)
  (d : Data (T:=T)) (h : gmap nat (list (option T)))
  (f : Storage (T:=T) → Storage (T:=T)) (g : Z → option T)
  (ats : list AllocationTransaction) (cts : list ConstructionTransaction)
  (evs : list (Event (T:=T))).

#[local] Arguments write_slot : simpl never.
#[local] Arguments slot_at : simpl never.
#[local] Arguments range_update : simpl never.

(** ** States *)

Lemma mk_state_id s :
  s = mk_state s (mem s) (allocation_txs s) (construction_txs s) [] 0.
Proof.
  apply state_eq; simpl; [done|done|done|by rewrite app_nil_r|lia].
Qed.

Lemma run_from {A} (c : M A) s :
  c s = c (mk_state s (mem s) (allocation_txs s) (construction_txs s) [] 0).
Proof. by rewrite <- mk_state_id. Qed.

Lemma state_after_mk_state s m ats cts evs t m' evs' t' :
  state_after m' evs' t' (mk_state s m ats cts evs t) =
  mk_state s m' ats cts (evs ++ evs') (t + t').
Proof.
  apply state_eq; simpl; [done|done|done|by rewrite app_assoc|lia].
Qed.

Lemma with_mem_mk_state s m ats cts evs t (F : Memory → Memory) :
  with_mem F (mk_state s m ats cts evs t) = mk_state s (F m) ats cts evs t.
Proof. done. Qed.

Lemma tick_mk_state_le s m ats cts evs t m' ats' cts' evs' t' :
  (t ≤ t')%nat →
  (tick (mk_state s m ats cts evs t) ≤ tick (mk_state s m' ats' cts' evs' t'))%nat.
Proof. simpl. lia. Qed.

(** ** Guards *)

Lemma with_AllocationTransaction_run {A} (body : nat → M A) s m cts evs t :
  with_AllocationTransaction body (mk_state s m [] cts evs t) =
  unwind_protect (body 0%nat) (AllocationTransaction_dtor 0)
    (mk_state s m [no_allocation] cts evs t).
Proof. done. Qed.

Lemma with_ConstructionTransaction_run {A} (body : nat → M A) s m ats cts
    evs t :
  with_ConstructionTransaction body (mk_state s m ats cts evs t) =
  unwind_protect (body (length cts)) (ConstructionTransaction_dtor (length cts))
    (mk_state s m ats (cts ++ [no_construction]) evs t).
Proof. done. Qed.

Lemma AllocationTransaction_Allocate_run capacity s m tx cts evs t :
  capacity ≤ max_size →
  let a := fresh (dom (heap m)) in
  AllocationTransaction_Allocate 0 capacity (mk_state s m [tx] cts evs t) =
    if faults (tick s + t)
    then Throw bad_alloc
           (mk_state s m [tx] cts (evs ++ [EvThrow bad_alloc]) (t + 1))
    else Ok (Ptr (HeapBlock a) 0)
           (mk_state s (set_heap (<[a := raw_buffer capacity]> (heap m)) m)
              [{| allocation_tx_data := Ptr (HeapBlock a) 0;
                  allocation_tx_capacity := capacity |}]
              cts (evs ++ [EvAllocate a capacity]) (t + 1)).
Proof.
  intros Hc a. unfold AllocationTransaction_Allocate.
  unfold mbind at 1, M_bind at 1. rewrite allocate_run by done.
  cbn [tick mk_state]. destruct (faults (tick s + t)).
  - by rewrite state_after_mk_state.
  - by rewrite state_after_mk_state.
Qed.

Lemma AllocationTransaction_GetData_run s m tx cts evs t :
  AllocationTransaction_GetData 0 (mk_state s m [tx] cts evs t) =
  Ok (allocation_tx_data tx) (mk_state s m [tx] cts evs t).
Proof. done. Qed.

Lemma AllocationTransaction_DidAllocate_run s m tx cts evs t :
  AllocationTransaction_DidAllocate 0 (mk_state s m [tx] cts evs t) =
  Ok (negb (is_null (allocation_tx_data tx))) (mk_state s m [tx] cts evs t).
Proof. done. Qed.

Lemma AcquireAllocatedData_run self s m tx cts evs t :
  AcquireAllocatedData self 0 (mk_state s m [tx] cts evs t) =
  Ok tt (mk_state s
           (with_storage self
              (set_data (DataAllocated
                 {| allocated_data := allocation_tx_data tx;
                    allocated_capacity := allocation_tx_capacity tx |})) m)
           [no_allocation] cts evs t).
Proof. done. Qed.

Lemma AllocationTransaction_dtor_idle s m cts evs t :
  AllocationTransaction_dtor 0 (mk_state s m [no_allocation] cts evs t) =
  Ok tt (mk_state s m [] cts evs t).
Proof. done. Qed.

Lemma AllocationTransaction_dtor_armed a capacity buf s m cts evs t :
  heap m !! a = Some buf → zlen buf = capacity →
  AllocationTransaction_dtor 0
    (mk_state s m [{| allocation_tx_data := Ptr (HeapBlock a) 0;
                      allocation_tx_capacity := capacity |}] cts evs t) =
  Ok tt (mk_state s (forget a m) [] cts
           (evs ++ [EvDeallocate a capacity]) t).
Proof.
  intros Hb Hl. unfold AllocationTransaction_dtor.
  unfold mbind at 1, M_bind at 1. rewrite AllocationTransaction_DidAllocate_run.
  cbn [allocation_tx_data is_null negb].
  unfold mbind at 1, M_bind at 1. unfold mbind at 1, M_bind at 1.
  rewrite AllocationTransaction_GetData_run. cbn [allocation_tx_data].
  unfold mbind at 1, M_bind at 1.
  change (AllocationTransaction_GetCapacity 0 ?s0) with
    (Ok (T:=T) capacity s0).
  cbv beta iota.
  erewrite deallocate_run by done. rewrite state_after_mk_state.
  cbn [mem mk_state]. unfold leave_allocation_tx. simpl.
  f_equal. apply state_eq; simpl; try done. lia.
Qed.

End guards.

Section failure_paths.
Context {T : Type} {VT : ValueType T} {Env : Environment}.
Implicit Types (m : Memory (T:=T)) (st : Storage (T:=T)) (s : State (T:=T))
  (buf : list (option T)) (l : list T) (w : Who) (b : Base) (p : Pointer)
  (d : Data (T:=T)) (h : gmap nat (list (option T)))
  (f : Storage (T:=T) → Storage (T:=T)) (g : Z → option T)
  (ats : list AllocationTransaction) (cts : list ConstructionTransaction)
  (evs : list (Event (T:=T))).

#[local] Arguments write_slot : simpl never.
#[local] Arguments slot_at : simpl never.
#[local] Arguments range_update : simpl never.

(** ** What a well-formed storage shows *)

Lemma view_of_represents m w l c y :
  represents m w l c y →
  MakeStorageView w (storage_of w m) =
    {| view_data := Ptr (layout_base w y) 0;
       view_size := zlen l; view_capacity := c |}.
Proof.
  intros [Hw Hb Hl ->|a Hw Hd Hh Hl Hc]; unfold MakeStorageView.
  - by rewrite (GetIsAllocated_even _ _ Hw), (GetSize_even _ _ Hw).
  - rewrite (GetIsAllocated_odd _ _ Hw), (GetSize_odd _ _ Hw).
    unfold GetAllocatedData, GetAllocatedCapacity. by rewrite Hd.
Qed.

Lemma represents_buffer m w l c y :
  represents m w l c y → get_buf (layout_base w y) m = Some (buffer_of l c).
Proof. by intros [Hw Hb Hl ->|a Hw Hd Hh Hl Hc]. Qed.

Lemma represents_bounds m w l c y :
  env_ok → represents m w l c y → zlen l ≤ c ∧ N ≤ c ≤ max_size.
Proof. intros (? & ? & ?) [Hw Hb Hl ->|a Hw Hd Hh Hl Hc]; lia. Qed.

Lemma storage_run w s : storage w s = Ok (storage_of w (mem s)) s.
Proof. done. Qed.

Lemma NextCapacity_double c :
  0 ≤ c → 2 * c < SizeType_modulus → NextCapacity c = 2 * c.
Proof. intros. unfold NextCapacity, sz_mul. rewrite wrap_small; lia. Qed.

(** C2: when the size equals the capacity, [EmplaceBack] is
    [EmplaceBackSlow]; if the new buffer is allocated and the construction
    of the new element in it throws, the exception propagates with the
    memory exactly as before the call (size, capacity, layout and elements
    of the storage, and no block of the heap added), after these calls and
    no other: the allocation, the construction, the deallocation. No element
    was moved. *)
Theorem EmplaceBack_construct_failure self v s l c y :
  env_ok → represents (mem s) self l c y → zlen l = c → no_guards s →
  2 * c ≤ max_size →
  faults (tick s) = false → faults (tick s + 1) = true →
  let a := fresh (dom (heap (mem s))) in
  EmplaceBack self v s = EmplaceBackSlow self v s ∧
  ∃ s', EmplaceBack self v s = Throw element_exception s' ∧
    mem s' = mem s ∧ no_guards s' ∧
    trace s' = trace s ++
      [EvAllocate a (2 * c); EvConstruct (Ptr (HeapBlock a) c) v;
       EvThrow element_exception; EvDeallocate a (2 * c)].
Proof.
  intros Henv Hr Hlc [Hat Hct] Hc2 Hf0 Hf1 a.
  pose proof (view_of_represents _ _ _ _ _ Hr) as Hv.
  destruct (represents_bounds _ _ _ _ _ Henv Hr) as [_ [HNc _]].
  destruct Henv as (HN & HNm & Hmax).
  assert (EmplaceBack self v s = EmplaceBackSlow self v s) as Heq.
  { unfold EmplaceBack. erewrite bind_Ok by apply storage_run.
    cbv zeta. rewrite Hv. cbn [view_size view_capacity].
    by rewrite Hlc, Z.eqb_refl. }
  split; [done|]. rewrite Heq.
  unfold EmplaceBackSlow. erewrite bind_Ok by apply storage_run.
  cbv zeta. rewrite Hv. cbn [view_size view_capacity view_data].
  rewrite (mk_state_id s), Hat, Hct. rewrite with_AllocationTransaction_run.
  unfold unwind_protect. rewrite NextCapacity_double by lia.
  unfold mbind at 1, M_bind at 1.
  rewrite AllocationTransaction_Allocate_run by lia.
  rewrite Nat.add_0_r, Hf0. fold a. cbn [ptr_add]. rewrite Z.add_0_l.
  unfold mbind at 1, M_bind at 1. rewrite construct_run; cycle 1.
  { cbn [mem mk_state]. rewrite slot_at_get_buf, get_buf_set_heap_heap.
    rewrite lookup_insert_eq. simpl. rewrite zlookup_raw_buffer.
    rewrite decide_True by lia. done. }
  cbn [tick mk_state]. rewrite Nat.add_0_l, Hf1.
  rewrite state_after_mk_state. cbn [mem mk_state].
  erewrite AllocationTransaction_dtor_armed; cycle 1.
  { simpl. apply lookup_insert_eq. }
  { apply zlen_raw_buffer. lia. }
  eexists. split; [done|]. cbn [mem mk_state trace app].
  rewrite forget_allocated by apply fresh_block_None.
  split; [done|]. split; [done|]. by rewrite app_nil_r, Hlc.
Qed.

Lemma next_values_length values n vs values' :
  next_values values n = Some (vs, values') → length vs = n.
Proof.
  revert values vs. induction n as [|n IH]; intros values vs; simpl.
  - by intros [= <- <-].
  - destruct (next_value values) as [[v values1]|]; [|done]. simpl.
    destruct (next_values values1 n) as [[vs1 values2]|] eqn:E; [|done].
    simpl. intros [= <- <-]. simpl. f_equal. by eapply IH.
Qed.

Lemma ConstructElements_move_run bD off bS oS n (src : Z → option T) s :
  0 ≤ n →
  (bD = bS → oS + n ≤ off) →
  (∀ j, oS ≤ j < oS + n →
        slot_at (Ptr bS j) (mem s) = Some (src j) ∧ is_Some (src j)) →
  (∀ j, off ≤ j < off + n → slot_at (Ptr bD j) (mem s) = Some None) →
  ConstructElements (Ptr bD off) (MoveIteratorValueAdapter (Ptr bS oS)) n s =
    match first_fault (tick s) (Z.to_nat n) with
    | None =>
        Ok (MoveIteratorValueAdapter (Ptr bS (oS + n)))
          (state_after
             (move_out_range bS oS n src (move_in_range bD off n src oS (mem s)))
             (move_construct_events (Ptr bD off) (Ptr bS oS) n)
             (Z.to_nat n) s)
    | Some k =>
        Throw element_exception
          (state_after
             (move_out_range bS oS (Z.of_nat k) src
                (clear_range bD off (Z.of_nat k) (mem s)))
             (move_construct_events (Ptr bD off) (Ptr bS oS) (Z.of_nat (S k)) ++
              EvThrow element_exception ::
              destroy_events (Ptr bD off) (Z.of_nat k))
             (S k) s)
    end.
Proof.
  intros Hn Hdisj Hsrc Hraw. unfold ConstructElements.
  rewrite (construct_loop_move_run bD off 0 bS oS _ src).
  - rewrite Z2Nat.id, Z.add_0_r by done.
    destruct (first_fault _ _) as [k|]; [|done]. by rewrite Z.add_0_l.
  - by rewrite Z2Nat.id.
  - done.
  - by rewrite Z2Nat.id.
  - by rewrite Z2Nat.id, Z.add_0_r.
  - intros j Hj. lia.
Qed.

Lemma first_fault_lt t n k : first_fault t n = Some k → (k < n)%nat.
Proof.
  revert t k. induction n as [|n IH]; intros t k; simpl; [done|].
  destruct (faults t); [intros [= <-]; lia|].
  destruct (first_fault (S t) n) as [k'|] eqn:E; [|done].
  intros [= <-]. apply IH in E. lia.
Qed.

(** C4: if the construction of element [i] is the first to throw,
    [ConstructElements] throws after destroying the elements it had
    constructed, the last one first; no slot of the destination range holds a
    live element, as when it started. Before the [EvThrow], the events are
    the constructions of the elements 0 to [i]; after it, the destructions
    of the elements [i - 1] down to 0. *)
Theorem ConstructElements_failure b off values n i s :
  0 ≤ i < n →
  (∀ j, off ≤ j < off + n → slot_at (Ptr b j) (mem s) = Some None) →
  can_yield values n (mem s) b off →
  first_fault (tick s) (Z.to_nat n) = Some (Z.to_nat i) →
  ∃ s' evs,
    ConstructElements (Ptr b off) values n s = Throw element_exception s' ∧
    (∀ j, off ≤ j < off + n → slot_at (Ptr b j) (mem s') = Some None) ∧
    trace s' =
      trace s ++ evs ++
      EvThrow element_exception :: destroy_events (Ptr b off) i ∧
    length evs = S (Z.to_nat i) ∧
    ∀ k e, evs !! k = Some e →
           constructs_at (ptr_add (Ptr b off) (Z.of_nat k)) e.
Proof.
  intros Hi Hraw Hy Hff.
  assert (∀ values vs values',
    next_values values (Z.to_nat n) = Some (vs, values') →
    ∃ s' evs,
      ConstructElements (Ptr b off) values n s = Throw element_exception s' ∧
      (∀ j, off ≤ j < off + n → slot_at (Ptr b j) (mem s') = Some None) ∧
      trace s' =
        trace s ++ evs ++
        EvThrow element_exception :: destroy_events (Ptr b off) i ∧
      length evs = S (Z.to_nat i) ∧
      ∀ k e, evs !! k = Some e →
             constructs_at (ptr_add (Ptr b off) (Z.of_nat k)) e) as Hext.
  { intros values0 vs values' Hvs.
    rewrite (ConstructElements_ext_run _ _ _ _ _ _ _ Hvs Hraw), Hff.
    rewrite Z2Nat.id by lia.
    eexists _, _. split; [done|]. cbn [mem trace state_after mk_state].
    split; [|split; [done|split]].
    - intros j Hj. unfold clear_range. rewrite slot_at_range_update_eq.
      rewrite Hraw by done. simpl. by case_decide.
    - unfold construct_events. rewrite length_imap, length_take.
      apply next_values_length in Hvs. lia.
    - intros k e. unfold construct_events. rewrite list_lookup_imap.
      destruct (take _ vs !! k); [|done]. by intros [= <-]. }
  destruct values as [it_|[|bS oS]|v|]; simpl in Hy;
    try (destruct Hy as [[vs values'] Hvs]; by eapply Hext); [done|].
  destruct Hy as [Hdisj Hlive].
  rewrite (ConstructElements_move_run b off bS oS n
             (λ j, default None (slot_at (Ptr bS j) (mem s))));
    [|lia|done| |done].
  - rewrite Hff, Z2Nat.id by lia.
    eexists _, _. split; [done|]. cbn [mem trace state_after mk_state].
    split; [|split; [done|split]].
    + intros j Hj. unfold move_out_range, clear_range.
      destruct (decide (bS = b)) as [->|Hne].
      * rewrite !slot_at_range_update_eq, Hraw by done. simpl.
        rewrite decide_False by (specialize (Hdisj eq_refl); lia).
        by case_decide.
      * rewrite slot_at_range_update_ne by done.
        rewrite slot_at_range_update_eq, Hraw by done. simpl. by case_decide.
    + unfold move_construct_events. rewrite length_fmap, length_seqZ. lia.
    + intros k e. unfold move_construct_events. rewrite list_lookup_fmap.
      destruct (seqZ 0 _ !! k) as [z|] eqn:E; [|done].
      apply lookup_seqZ in E as [-> _]. by intros [= <-].
  - intros j Hj. destruct (Hlive j Hj) as [v Hv]. rewrite Hv. eauto.
Qed.

Lemma heap_range_update_inlined w off n g m :
  heap (range_update (InlinedOf w) off n g m) = heap m.
Proof.
  unfold range_update. case_bool_decide; [|done]. unfold update_buf.
  destruct (get_buf _ m); [|done]. simpl. apply heap_set_storage.
Qed.

Lemma update_storage_run w f s m ats cts evs t :
  update_storage w f (mk_state s m ats cts evs t) =
  Ok tt (mk_state s (with_storage w f m) ats cts evs t).
Proof. done. Qed.

Lemma raw_buffer_cleared b off n m c :
  get_buf b m = Some (raw_buffer c) → set_buf b (raw_buffer c) m = m →
  clear_range b off n m = m.
Proof.
  intros Hb Hm. eapply range_update_id; [done..|].
  intros j _ Hj. rewrite zlookup_raw_buffer, decide_True; [done|].
  rewrite zlen_raw_buffer in Hj; [done|].
  destruct (decide (0 ≤ c)); [done|]. unfold raw_buffer, zlen in Hj.
  rewrite length_replicate in Hj. lia.
Qed.

Lemma set_buf_heap_id a buf m :
  heap m !! a = Some buf → set_buf (HeapBlock a) buf m = m.
Proof. intros. simpl. rewrite insert_id by done. apply set_heap_id. Qed.

Lemma ComputeCapacity_ge c r : r ≤ ComputeCapacity c r.
Proof. unfold ComputeCapacity. lia. Qed.

Lemma DeallocateIfAllocated_run self a c buf s n :
  metadata_size_and_is_allocated (storage_of self (mem s)) = 2 * n + 1 →
  data_ (storage_of self (mem s)) =
    DataAllocated {| allocated_data := Ptr (HeapBlock a) 0;
                     allocated_capacity := c |} →
  heap (mem s) !! a = Some buf → zlen buf = c →
  DeallocateIfAllocated self s =
    Ok tt (state_after (forget a (mem s)) [EvDeallocate a c] 0 s).
Proof.
  intros Hw Hd Hh Hl. unfold DeallocateIfAllocated.
  erewrite bind_Ok by apply storage_run.
  rewrite (GetIsAllocated_odd _ _ Hw).
  unfold GetAllocatedData, GetAllocatedCapacity. rewrite Hd.
  cbn [allocated_data allocated_capacity]. by erewrite deallocate_run.
Qed.

Lemma DeallocateIfAllocated_inlined self s n :
  metadata_size_and_is_allocated (storage_of self (mem s)) = 2 * n →
  DeallocateIfAllocated self s = Ok tt s.
Proof.
  intros Hw. unfold DeallocateIfAllocated.
  erewrite bind_Ok by apply storage_run.
  by rewrite (GetIsAllocated_even _ _ Hw).
Qed.

(** The destructor of a storage that is allocated and empty. *)
Lemma Storage_dtor_empty_allocated self a c buf s h :
  metadata_size_and_is_allocated (storage_of self (mem s)) = 2 * 0 + 1 →
  data_ (storage_of self (mem s)) =
    DataAllocated {| allocated_data := Ptr (HeapBlock a) 0;
                     allocated_capacity := c |} →
  heap (mem s) !! a = Some buf → zlen buf = c →
  h = heap (mem s) →
  ∃ s'', Storage_dtor self s = Ok tt s'' ∧ heap (mem s'') = delete a h.
Proof.
  intros Hw Hd Hh Hl ->.
  assert (∀ c1 c2 : M (T:=T) unit,
    (if GetSizeAndIsAllocated (storage_of self (mem s)) =? 0
     then c1 else c2) = c2) as Hnz.
  { intros. unfold GetSizeAndIsAllocated. by rewrite Hw. }
  destruct IsMemcpyOk eqn:Hmc; eexists; unfold Storage_dtor;
    (erewrite bind_Ok by apply storage_run); rewrite Hnz, Hmc.
  - erewrite DeallocateIfAllocated_run by done. split; [done|]. done.
  - unfold DestroyContents. erewrite bind_Ok by apply storage_run.
    rewrite (GetSize_odd _ 0 Hw), (GetIsAllocated_odd _ 0 Hw).
    unfold GetAllocatedData. rewrite Hd. cbn [allocated_data].
    unfold mbind at 1, M_bind at 1.
    rewrite DestroyElements_run; [|done|intros j Hj; lia].
    unfold clear_range. rewrite range_update_empty by done.
    erewrite DeallocateIfAllocated_run;
      [|exact Hw|exact Hd|exact Hh|exact Hl]. split; [done|]. done.
Qed.

(** C1 (amended): if the construction of element [i] is the first call of
    [Initialize] on a fresh storage to throw, the exception propagates with
    size 0. With [new_size ≤ N] the storage is inlined and its region raw, the
    heap as before. With [new_size > N] the storage is marked allocated and
    holds the new block, raw, of capacity [ComputeCapacity N new_size]; the
    destructor of the storage then releases it. The guards are as before the
    call: [Initialize] uses none. *)
Theorem Initialize_failure self values new_size i s :
  env_ok →
  metadata_size_and_is_allocated (storage_of self (mem s)) = 0 →
  get_buf (InlinedOf self) (mem s) = Some (raw_buffer N) →
  is_Some (next_values values (Z.to_nat new_size)) →
  0 ≤ i < new_size →
  ComputeCapacity N new_size ≤ max_size →
  (N < new_size → faults (tick s) = false) →
  first_fault (if bool_decide (N < new_size) then S (tick s) else tick s)
    (Z.to_nat new_size) = Some (Z.to_nat i) →
  ∃ s', Initialize self values new_size s = Throw element_exception s' ∧
    GetSize (storage_of self (mem s')) = 0 ∧
    allocation_txs s' = allocation_txs s ∧
    construction_txs s' = construction_txs s ∧
    if bool_decide (N < new_size) then
      let a := fresh (dom (heap (mem s))) in
      let c := ComputeCapacity N new_size in
      GetIsAllocated (storage_of self (mem s')) = true ∧
      data_ (storage_of self (mem s')) =
        DataAllocated {| allocated_data := Ptr (HeapBlock a) 0;
                         allocated_capacity := c |} ∧
      heap (mem s') = <[a := raw_buffer c]> (heap (mem s)) ∧
      ∃ s'', Storage_dtor self s' = Ok tt s'' ∧ heap (mem s'') = heap (mem s)
    else
      GetIsAllocated (storage_of self (mem s')) = false ∧
      heap (mem s') = heap (mem s) ∧
      get_buf (InlinedOf self) (mem s') = Some (raw_buffer N).
Proof.
  intros (HN & HNm & Hmax) Hw Hb [[vs values'] Hvs] Hi Hcap Halloc Hff.
  set (a := fresh (dom (heap (mem s)))).
  set (c := ComputeCapacity N new_size).
  case_bool_decide as Hbig;
    (eexists; rewrite (run_from (Initialize self values new_size));
     unfold Initialize; (erewrite bind_Ok by apply storage_run);
     cbn [mem mk_state];
     rewrite (GetIsAllocated_even _ 0 Hw), (GetSize_even _ 0 Hw);
     cbn [negb assert Z.eqb]; unfold mbind at 1, M_bind at 1;
     cbn [mret M_ret]; unfold mbind at 1, M_bind at 1; cbn [mret M_ret];
     unfold GetInlinedCapacity, GetInlinedData).
  - rewrite (proj2 (Z.ltb_lt _ _)) by done. fold c.
    assert (0 ≤ c) by (pose proof (ComputeCapacity_ge N new_size); lia).
    unfold mbind at 1, M_bind at 1. unfold mbind at 1, M_bind at 1.
    rewrite allocate_run by done. cbn [tick mem mk_state].
    rewrite Nat.add_0_r, (Halloc Hbig). fold a c.
    rewrite state_after_mk_state.
    unfold SetAllocatedData, SetIsAllocated.
    unfold mbind at 1, M_bind at 1. rewrite update_storage_run.
    unfold mbind at 1, M_bind at 1. rewrite update_storage_run.
    cbn [mret M_ret]. unfold mbind at 1, M_bind at 1.
    erewrite ConstructElements_ext_run; [|done|]; cycle 1.
    { intros j Hj. cbn [mem mk_state].
      rewrite slot_at_get_buf, !get_buf_with_storage_heap.
      rewrite get_buf_set_heap_heap, lookup_insert_eq. simpl.
      rewrite zlookup_raw_buffer, decide_True; [done|].
      pose proof (ComputeCapacity_ge N new_size). lia. }
    cbn [tick mk_state]. rewrite Nat.add_0_l, Nat.add_1_r, Hff.
    rewrite state_after_mk_state. cbn [mem mk_state].
    erewrite (raw_buffer_cleared _ _ _ _ c); cycle 1.
    { rewrite !get_buf_with_storage_heap, get_buf_set_heap_heap.
      apply lookup_insert_eq. }
    { apply set_buf_heap_id. rewrite !heap_with_storage. simpl.
      apply lookup_insert_eq. }
    split; [done|]. cbn [mem mk_state allocation_txs construction_txs].
    rewrite storage_of_with_storage_eq, storage_of_with_storage_eq.
    rewrite storage_of_set_heap. cbv beta.
    assert (metadata_size_and_is_allocated
              (set_word (Z.lor (GetSizeAndIsAllocated
                 (set_data (DataAllocated
                    {| allocated_data := Ptr (HeapBlock a) 0;
                       allocated_capacity := c |})
                    (storage_of self (mem s)))) 1)
                 (set_data (DataAllocated
                    {| allocated_data := Ptr (HeapBlock a) 0;
                       allocated_capacity := c |})
                    (storage_of self (mem s)))) = 2 * 0 + 1) as Hw1.
    { unfold GetSizeAndIsAllocated. simpl. by rewrite Hw. }
    rewrite (GetSize_odd _ 0 Hw1), (GetIsAllocated_odd _ 0 Hw1).
    split; [done|]. split; [done|]. split; [done|]. cbn zeta.
    split; [done|]. split; [done|].
    rewrite !heap_with_storage. split; [done|].
    match goal with
    | |- ∃ s'', Storage_dtor self ?S = _ ∧ _ =>
        edestruct (Storage_dtor_empty_allocated self a c (raw_buffer c) S)
          as (s'' & Hrun & Hheap); [| | | |reflexivity|]
    end.
    + cbn [mem mk_state].
      rewrite storage_of_with_storage_eq, storage_of_with_storage_eq.
      rewrite storage_of_set_heap. cbv beta. exact Hw1.
    + cbn [mem mk_state].
      rewrite storage_of_with_storage_eq, storage_of_with_storage_eq. done.
    + cbn [mem mk_state]. rewrite !heap_with_storage. simpl.
      apply lookup_insert_eq.
    + by apply zlen_raw_buffer.
    + exists s''. split; [exact Hrun|]. rewrite Hheap. cbn [mem mk_state].
      rewrite !heap_with_storage. simpl.
      apply delete_insert_id, fresh_block_None.
  - rewrite (proj2 (Z.ltb_ge _ _)) by lia. cbn [mret M_ret].
    unfold mbind at 1, M_bind at 1. cbn [mret M_ret].
    unfold mbind at 1, M_bind at 1.
    erewrite ConstructElements_ext_run; [|done|]; cycle 1.
    { intros j Hj. cbn [mem mk_state].
      rewrite slot_at_get_buf, Hb. simpl.
      rewrite zlookup_raw_buffer, decide_True; [done|lia]. }
    cbn [tick mk_state]. rewrite Nat.add_0_r, Hff.
    rewrite state_after_mk_state. cbn [mem mk_state].
    split; [done|]. cbn [mem mk_state allocation_txs construction_txs].
    unfold clear_range.
    assert (metadata_size_and_is_allocated
              (storage_of self
                 (range_update (InlinedOf self) 0 (Z.of_nat (Z.to_nat i))
                    (λ _, None) (mem s))) = 2 * 0) as Hw0
      by (by rewrite word_range_update, Hw).
    rewrite (GetSize_even _ 0 Hw0), (GetIsAllocated_even _ 0 Hw0).
    split; [done|]. split; [done|]. split; [done|]. split; [done|].
    rewrite heap_range_update_inlined. split; [done|].
    rewrite get_buf_range_update_eq, Hb. simpl. f_equal.
    apply zupdate_id. intros j y Hj Hy. unfold on_range in Hy.
    case_decide; [|done]. injection Hy as <-.
    rewrite zlen_raw_buffer in Hj by lia.
    by rewrite zlookup_raw_buffer, decide_True.
Qed.

End failure_paths.

Section move_failure.
Context {T : Type} {VT : ValueType T} {Env : Environment}.
Implicit Types (m : Memory (T:=T)) (st : Storage (T:=T)) (s : State (T:=T))
  (buf : list (option T)) (l : list T) (w : Who) (b : Base) (p : Pointer)
  (d : Data (T:=T)) (h : gmap nat (list (option T)))
  (f : Storage (T:=T) → Storage (T:=T)) (g : Z → option T)
  (ats : list AllocationTransaction) (cts : list ConstructionTransaction)
  (evs : list (Event (T:=T))).

#[local] Arguments write_slot : simpl never.
#[local] Arguments slot_at : simpl never.
#[local] Arguments range_update : simpl never.

(** ** Buffers of well-formed storages *)

Lemma buffer_of_eq buf l c :
  zlen buf = c → zlen l ≤ c →
  (∀ j, 0 ≤ j < c → zlookup buf j = Some (zlookup l j)) →
  buf = buffer_of l c.
Proof.
  intros Hlen Hl Hj. apply zlookup_ext. intros j.
  rewrite zlookup_buffer_of.
  destruct (decide (0 ≤ j < c)) as [Hin|Hout].
  - rewrite Hj by done. destruct (zlookup l j) eqn:E; [done|].
    apply zlookup_None in E. rewrite decide_True by lia. done.
  - rewrite zlookup_outside by lia.
    rewrite zlookup_outside by lia. pose proof (zlen_nonneg l).
    by rewrite decide_False by lia.
Qed.

Lemma zlookup_buffer_of_in l c j :
  zlen l ≤ c → 0 ≤ j < c → zlookup (buffer_of l c) j = Some (zlookup l j).
Proof.
  intros Hl Hj. rewrite zlookup_buffer_of.
  destruct (zlookup l j) eqn:E; [done|]. apply zlookup_None in E.
  by rewrite decide_True by lia.
Qed.

Lemma get_buf_allocated_ne b a buf m :
  b ≠ HeapBlock a →
  get_buf b (set_heap (<[a := buf]> (heap m)) m) = get_buf b m.
Proof. intros. by apply (get_buf_set_buf_ne (HeapBlock a)). Qed.

Lemma layout_base_fresh w y m l c :
  represents m w l c y → layout_base w y ≠ HeapBlock (fresh (dom (heap m))).
Proof.
  intros [Hw Hb Hl ->|a Hw Hd Hh Hl Hc]; simpl; [done|].
  intros [= ->]. by rewrite fresh_block_None in Hh.
Qed.

(** A loop over the buffer of a well-formed storage leaves it well formed,
    with the elements that the slots then hold. *)
Lemma represents_range_update m w l c y off n g l' :
  represents m w l c y → zlen l' = zlen l →
  (∀ j, 0 ≤ j < c →
     (if decide (off ≤ j < off + n) then g j else zlookup l j) = zlookup l' j) →
  represents (range_update (layout_base w y) off n g m) w l' c y.
Proof.
  intros Hr Hlen Hg.
  assert (∀ buf, buf = buffer_of l c → zlen l ≤ c →
            zupdate (on_range off n g) buf = buffer_of l' c) as Hbuf.
  { intros buf -> Hl. apply buffer_of_eq.
    - rewrite zlen_zupdate. by apply zlen_buffer_of.
    - lia.
    - intros j Hj. rewrite zlookup_zupdate, zlookup_buffer_of_in by done.
      simpl. rewrite <- Hg by done. unfold on_range. by case_decide. }
  destruct Hr as [Hw Hb Hl ->|a Hw Hd Hh Hl Hc]; simpl.
  - apply represents_inlined; [|rewrite get_buf_range_update_eq, Hb; simpl|lia|done].
    + by rewrite word_range_update, Hlen.
    + f_equal. by apply Hbuf.
  - apply represents_allocated; [| | |lia|done].
    + by rewrite word_range_update, Hlen.
    + by rewrite storage_of_range_update.
    + rewrite <- get_buf_heap, get_buf_range_update_eq, get_buf_heap, Hh.
      simpl. f_equal. by apply Hbuf.
Qed.

Lemma slot_at_represents m w l c y j :
  represents m w l c y → zlen l ≤ c →
  slot_at (Ptr (layout_base w y) j) m = zlookup (buffer_of l c) j.
Proof.
  intros Hr Hl. rewrite slot_at_get_buf.
  by rewrite (represents_buffer _ _ _ _ _ Hr).
Qed.

Lemma heap_release_layout y m :
  heap (release_layout y m) = heap_release y (heap m).
Proof. by destruct y. Qed.

Lemma storage_of_release_layout w y m :
  storage_of w (release_layout y m) = storage_of w m.
Proof. destruct y; [done|]. apply storage_of_forget. Qed.

Lemma get_buf_forget_eq a m : get_buf (HeapBlock a) (forget a m) = None.
Proof. simpl. apply lookup_delete_eq. Qed.

(** C10 (amended): in [EmplaceBackSlow], if the new buffer is allocated
    and the new element constructed in it, and the move of element [j] of the
    old buffer is the first to throw, the exception propagates after the
    elements moved into the new buffer are destroyed, the new element is
    destroyed and the new buffer is deallocated. The size, the capacity and
    the layout of the storage are as before, and it holds the same buffer;
    the elements [j] and after are as before, but the elements before [j]
    are left in their moved-from state. *)
Theorem EmplaceBackSlow_move_failure self v s l c y j :
  env_ok → represents (mem s) self l c y → no_guards s →
  2 * c ≤ max_size →
  0 ≤ j < zlen l →
  faults (tick s) = false → faults (tick s + 1) = false →
  first_fault (tick s + 2) (Z.to_nat (zlen l)) = Some (Z.to_nat j) →
  let a := fresh (dom (heap (mem s))) in
  let new_data := Ptr (HeapBlock a) 0 in
  let old_data := Ptr (layout_base self y) 0 in
  ∃ s', EmplaceBackSlow self v s = Throw element_exception s' ∧
    mem s' = move_out_range (layout_base self y) 0 j (zlookup l) (mem s) ∧
    represents (mem s') self
      ((moved_from <$> take (Z.to_nat j) l) ++ drop (Z.to_nat j) l) c y ∧
    heap (mem s') !! a = None ∧
    no_guards s' ∧
    trace s' = trace s ++
      [EvAllocate a (2 * c); EvConstruct (ptr_add new_data (zlen l)) v] ++
      move_construct_events new_data old_data (j + 1) ++
      EvThrow element_exception :: destroy_events new_data j ++
      [EvDestroy (ptr_add new_data (zlen l)); EvDeallocate a (2 * c)].
Proof.
  intros Henv Hr [Hat Hct] Hc2 Hj Hf0 Hf1 Hff a new_data old_data.
  pose proof (view_of_represents _ _ _ _ _ Hr) as Hv.
  destruct (represents_bounds _ _ _ _ _ Henv Hr) as [Hlc [HNc _]].
  pose proof (layout_base_fresh _ _ _ _ _ Hr) as Hfresh. fold a in Hfresh.
  destruct Henv as (HN & HNm & Hmax).
  assert (mem_final :
    ∀ s', mem s' = move_out_range (layout_base self y) 0 j (zlookup l) (mem s) →
      represents (mem s') self
        ((moved_from <$> take (Z.to_nat j) l) ++ drop (Z.to_nat j) l) c y ∧
      heap (mem s') !! a = None).
  { intros s' ->. split.
    - apply (represents_range_update _ _ l); [done| |].
      + rewrite zlen_app, zlen_fmap, zlen_take, zlen_drop. lia.
      + intros i Hi. rewrite zlookup_app, zlen_fmap, zlen_take, zlookup_fmap.
        rewrite zlookup_take, zlookup_drop.
        repeat case_decide; try lia; try done.
        f_equal. lia.
    - unfold move_out_range. rewrite <- get_buf_heap.
      rewrite get_buf_range_update_ne by done.
      rewrite get_buf_heap. apply fresh_block_None. }
  unfold EmplaceBackSlow. erewrite bind_Ok by apply storage_run.
  cbv zeta. rewrite Hv. cbn [view_size view_capacity view_data].
  rewrite (run_from (with_AllocationTransaction _)), Hat, Hct.
  rewrite with_AllocationTransaction_run.
  unfold unwind_protect. rewrite NextCapacity_double by lia.
  unfold mbind at 1, M_bind at 1.
  rewrite AllocationTransaction_Allocate_run by lia.
  rewrite Nat.add_0_r, Hf0. fold a. cbn [ptr_add]. rewrite Z.add_0_l.
  unfold mbind at 1, M_bind at 1. rewrite construct_run; cycle 1.
  { cbn [mem mk_state]. rewrite slot_at_get_buf, get_buf_set_heap_heap.
    rewrite lookup_insert_eq. simpl. rewrite zlookup_raw_buffer.
    rewrite decide_True by lia. done. }
  cbn [tick mk_state]. rewrite Nat.add_0_l, Hf1.
  rewrite state_after_mk_state. cbn [mem mk_state].
  unfold mbind at 1, M_bind at 1. unfold catch_any at 1.
  unfold mbind at 1, M_bind at 1.
  rewrite AllocationTransaction_GetData_run. cbn [allocation_tx_data].
  unfold mbind at 1, M_bind at 1.
  rewrite (ConstructElements_move_run (HeapBlock a) 0 (layout_base self y) 0
             (zlen l) (zlookup l)); [|apply zlen_nonneg|done| |]; cycle 1.
  { intros i Hi. cbn [mem mk_state].
    rewrite slot_at_write_slot_ne by congruence.
    rewrite slot_at_get_buf, get_buf_allocated_ne.
    - rewrite (represents_buffer _ _ _ _ _ Hr). simpl.
      rewrite zlookup_buffer_of_in by lia. split; [done|].
      apply zlookup_is_Some. lia.
    - done. }
  { intros i Hi. cbn [mem mk_state].
    rewrite slot_at_write_slot_ne by (intros [=]; lia).
    rewrite slot_at_get_buf, get_buf_set_heap_heap, lookup_insert_eq. simpl.
    rewrite zlookup_raw_buffer, decide_True by lia. done. }
  cbn [tick mk_state].
  change (tick s + (1 + 1))%nat with (tick s + 2)%nat.
  rewrite Hff. rewrite state_after_mk_state. cbn [mem mk_state].
  rewrite Z2Nat.id by lia.
  assert (get_buf (HeapBlock a)
            (set_heap (<[a:=raw_buffer (2 * c)]> (heap (mem s))) (mem s)) =
          Some (raw_buffer (2 * c))) as Hnew
    by (rewrite get_buf_set_heap_heap; apply lookup_insert_eq).
  erewrite (destroy_run _ v); cycle 1.
  { cbn [mem mk_state]. unfold move_out_range, clear_range.
    rewrite slot_at_range_update_ne by done.
    rewrite slot_at_range_update_eq.
    erewrite slot_at_write_slot_eq;
      [simpl; by rewrite decide_False by lia|].
    rewrite slot_at_get_buf, Hnew. simpl.
    rewrite zlookup_raw_buffer, decide_True by lia. done. }
  rewrite state_after_mk_state. cbn [mem mk_state].
  erewrite AllocationTransaction_dtor_armed; cycle 1.
  { rewrite <- get_buf_heap, get_buf_write_slot_eq.
    unfold move_out_range, clear_range.
    rewrite get_buf_range_update_ne by done.
    rewrite get_buf_range_update_eq, get_buf_write_slot_eq, Hnew. done. }
  { rewrite zlen_zinsert, zlen_zupdate, zlen_zinsert.
    apply zlen_raw_buffer. lia. }
  eexists. split; [done|]. cbn [mem mk_state trace].
  assert (forget a
    (write_slot (Ptr (HeapBlock a) (zlen l)) None
       (move_out_range (layout_base self y) 0 j (zlookup l)
          (clear_range (HeapBlock a) 0 j
             (write_slot (Ptr (HeapBlock a) (zlen l)) (Some v)
                (set_heap (<[a:=raw_buffer (2 * c)]> (heap (mem s)))
                   (mem s)))))) =
    move_out_range (layout_base self y) 0 j (zlookup l) (mem s)) as Hmem.
  { rewrite forget_write_slot. unfold move_out_range, clear_range.
    rewrite forget_range_update_ne by done.
    rewrite forget_range_update, forget_write_slot.
    by rewrite forget_allocated by apply fresh_block_None. }
  rewrite Hmem. split; [done|].
  destruct (mem_final
    (mk_state s (move_out_range (layout_base self y) 0 j (zlookup l) (mem s))
       [] [] [] 0) eq_refl) as [Hrep Hheap].
  split; [exact Hrep|]. split; [exact Hheap|]. split; [done|].
  f_equal. subst new_data old_data. cbn [ptr_add app]. rewrite ?Z.add_0_l.
  replace (Z.of_nat (S (Z.to_nat j))) with (j + 1) by lia.
  rewrite <- !app_assoc. cbn [app]. done.
Qed.

End move_failure.

Section returning_loops.
Context {T : Type} {VT : ValueType T} {Env : Environment}.
Implicit Types (m : Memory (T:=T)) (st : Storage (T:=T)) (s : State (T:=T))
  (buf : list (option T)) (l : list T) (w : Who) (b : Base) (p : Pointer)
  (d : Data (T:=T)) (h : gmap nat (list (option T)))
  (f : Storage (T:=T) → Storage (T:=T)) (g : Z → option T)
  (ats : list AllocationTransaction) (cts : list ConstructionTransaction)
  (evs : list (Event (T:=T))).

#[local] Arguments write_slot : simpl never.
#[local] Arguments slot_at : simpl never.
#[local] Arguments range_update : simpl never.
#[local] Arguments construct_events : simpl never.
#[local] Arguments move_construct_events : simpl never.
#[local] Arguments destroy_events : simpl never.
#[local] Arguments assign_events : simpl never.
#[local] Arguments move_assign_events : simpl never.
#[local] Arguments swap_events : simpl never.

(** ** Computations that return *)

Lemma runs_Ok {A} X (c : M A) s a s' :
  c s = Ok a s' → (tick s ≤ tick s')%nat → runs X c s a s'.
Proof. intros Hc Ht. unfold runs, wp. by rewrite Hc. Qed.

Lemma runs_fallible {A} X (c : M A) s e s1 a s2 :
  c s = (if faults (tick s) then Throw e s1 else Ok a s2) →
  (tick s ≤ tick s2)%nat → runs X c s a s2.
Proof.
  intros Hc Ht. unfold runs, wp. rewrite Hc.
  destruct (faults (tick s)) eqn:Hf; [|done]. left. by apply faulty_now.
Qed.

Lemma runs_loop {A} X (c : M A) s n e (s1 : nat → State) a s2 :
  c s = match first_fault (tick s) n with
        | None => Ok a s2
        | Some k => Throw e (s1 k)
        end →
  (tick s ≤ tick s2)%nat → runs X c s a s2.
Proof.
  intros Hc Ht. unfold runs, wp. rewrite Hc.
  destruct (first_fault (tick s) n) eqn:Hf; [|done].
  left. by eapply first_fault_faulty.
Qed.

Lemma wp_runs {A B} X (c : M A) (k : A → M B) s a s'
    (Q : B → State → Prop) :
  runs X c s a s' → wp X (k a) s' Q → wp X (c ≫= k) s Q.
Proof.
  intros Hc Hk. apply wp_bind. eapply wp_mono; [exact Hc|].
  by intros a' s'' _ [-> ->].
Qed.

Lemma runs_bind {A B} X (c : M A) (k : A → M B) s a s' (r : B) s'' :
  runs X c s a s' → runs X (k a) s' r s'' → runs X (c ≫= k) s r s''.
Proof. intros Hc Hk. by eapply wp_runs. Qed.

Lemma runs_ret {A} X (a : A) s : runs X (mret a) s a s.
Proof. by apply wp_ret. Qed.

Lemma runs_wp {A} X (c : M A) s a s' (Q : A → State → Prop) :
  runs X c s a s' → Q a s' → wp X c s Q.
Proof. intros Hc HQ. eapply wp_mono; [exact Hc|]. by intros a' s'' _ [-> ->]. Qed.

Lemma runs_tick {A} X (c : M A) s a s' :
  runs X c s a s' → ¬ faulty (tick s) → ¬ X → (tick s ≤ tick s')%nat.
Proof.
  unfold runs, wp. destruct (c s); [|intros []; done..].
  by intros [? [_ ->]].
Qed.

Lemma runs_catch_any {A} X (c : M A) (hd : M unit) s a s' :
  runs X c s a s' → runs X (catch_any c hd) s a s'.
Proof. apply wp_catch_any. Qed.

(** ** The loops that assign *)

Lemma assign_events_cons b i v vs :
  assign_events (T:=T) (Ptr b i) (v :: vs) =
  EvAssign (Ptr b i) v :: assign_events (Ptr b (i + 1)) vs.
Proof.
  unfold assign_events. rewrite imap_cons. cbn [ptr_add]. f_equal.
  - do 2 f_equal. lia.
  - apply imap_ext. intros k x _. simpl. do 2 f_equal. lia.
Qed.

Lemma AssignNext_ext values v values' p :
  next_value values = Some (v, values') →
  AssignNext values p = (assign p v;; mret values').
Proof.
  destruct values as [[|v0 it_]|q|v0|]; simpl; intros [= <- <-]; done.
Qed.

Lemma assign_loop_ext_runs X b off i0 n values vs values' s :
  next_values values n = Some (vs, values') →
  (∀ j, off + i0 ≤ j < off + i0 + Z.of_nat n →
        ∃ v, slot_at (Ptr b j) (mem s) = Some (Some v)) →
  runs X (assign_loop (Ptr b off) values i0 n) s values'
    (state_after (fill_range b (off + i0) vs (mem s))
       (assign_events (Ptr b (off + i0)) vs) n s).
Proof.
  revert i0 values vs s.
  induction n as [|n IH]; intros i0 values vs s Hvs Hlive.
  - simpl in *. injection Hvs as <- <-. unfold fill_range.
    rewrite range_update_empty by done.
    unfold assign_events. simpl. rewrite state_after_id. apply runs_ret.
  - simpl in Hvs. destruct (next_value values) as [[v values1]|] eqn:Hnext;
      [|done]. simpl in Hvs.
    destruct (next_values values1 n) as [[vs1 values2]|] eqn:Hrest; [|done].
    simpl in Hvs. injection Hvs as <- <-.
    cbn [assign_loop ptr_add].
    erewrite AssignNext_ext by exact Hnext.
    destruct (Hlive (off + i0)) as [v0 Hv0]; [lia|].
    eapply runs_bind.
    { eapply runs_bind; [|apply runs_ret].
      eapply runs_fallible; [by eapply assign_run|]. simpl. lia. }
    specialize (IH (i0 + 1) values1 vs1
      (state_after (write_slot (Ptr b (off + i0)) (Some v) (mem s))
         [EvAssign (Ptr b (off + i0)) v] 1 s) Hrest).
    rewrite state_after_state_after in IH.
    cbn [mem state_after mk_state] in IH.
    unfold fill_range in *. rewrite assign_events_cons.
    replace (off + (i0 + 1)) with (off + i0 + 1) in IH by lia.
    rewrite (range_update_ext _ _ _ _
               (λ j, zlookup (v :: vs1) (j - (off + i0)))) in IH
      by (intros j Hj; rewrite zlookup_cons_pos by lia; f_equal; lia).
    rewrite range_update_write_first in IH;
      [|apply zlen_nonneg|by rewrite Z.sub_diag].
    rewrite zlen_cons. apply IH.
    intros j Hj. destruct (Hlive j) as [vj Hvj]; [lia|].
    rewrite slot_at_write_slot_ne by (intros [=]; lia). eauto.
Qed.

Lemma AssignElements_ext_runs X b off n values vs values' s :
  next_values values (Z.to_nat n) = Some (vs, values') →
  (∀ j, off ≤ j < off + n → ∃ v, slot_at (Ptr b j) (mem s) = Some (Some v)) →
  runs X (AssignElements (Ptr b off) values n) s values'
    (state_after (fill_range b off vs (mem s))
       (assign_events (Ptr b off) vs) (Z.to_nat n) s).
Proof.
  intros Hvs Hlive. unfold AssignElements.
  pose proof (assign_loop_ext_runs X b off 0 _ _ _ _ s Hvs) as H.
  rewrite Z.add_0_r in H. apply H. intros j Hj. apply Hlive. lia.
Qed.

Lemma AssignElements_none_runs X p values s :
  runs X (AssignElements p values 0) s values s.
Proof. apply runs_ret. Qed.

Lemma ConstructElements_none_runs X p values s :
  runs X (ConstructElements p values 0) s values s.
Proof. apply runs_ret. Qed.

(** ** The loops that move elements inside a buffer *)

Lemma move_assign_events_0 p q : move_assign_events (T:=T) p q 0 = [].
Proof. done. Qed.

Lemma move_assign_events_cons b i b' i' n :
  0 ≤ n →
  move_assign_events (T:=T) (Ptr b i) (Ptr b' i') (n + 1) =
  EvMoveAssign (Ptr b i) (Ptr b' i') ::
  move_assign_events (Ptr b (i + 1)) (Ptr b' (i' + 1)) n.
Proof.
  intros. unfold move_assign_events. rewrite seqZ_cons by lia.
  replace (Z.pred (n + 1)) with n by lia. cbn [fmap list_fmap ptr_add].
  rewrite !Z.add_0_r. f_equal.
  change (Z.succ 0) with (1 + 0). rewrite <- fmap_add_seqZ, <- list_fmap_compose.
  apply list_fmap_ext. intros k x _. simpl. by rewrite !Z.add_assoc.
Qed.

Lemma move_assign_events_snoc p q n :
  0 ≤ n →
  move_assign_events (T:=T) p q (n + 1) =
  move_assign_events p q n ++ [EvMoveAssign (ptr_add p n) (ptr_add q n)].
Proof.
  intros. unfold move_assign_events.
  replace (n + 1) with (Z.of_nat (S (Z.to_nat n))) by lia.
  rewrite seqZ_S, fmap_app, !Z2Nat.id by lia. simpl. by rewrite Z.add_0_l.
Qed.

(** The loop of [Erase]: the elements from [oS] move down to [off + i0]. *)
Lemma assign_loop_shift_runs X b off i0 oS n (src : Z → option T) s :
  off + i0 < oS →
  (∀ j, oS ≤ j < oS + Z.of_nat n →
        slot_at (Ptr b j) (mem s) = Some (src j) ∧ is_Some (src j)) →
  (∀ j, off + i0 ≤ j < off + i0 + Z.of_nat n →
        ∃ v, slot_at (Ptr b j) (mem s) = Some (Some v)) →
  runs X
    (assign_loop (Ptr b off) (MoveIteratorValueAdapter (Ptr b oS)) i0 n) s
    (MoveIteratorValueAdapter (Ptr b (oS + Z.of_nat n)))
    (state_after
       (range_update b (off + i0) (Z.of_nat n)
          (λ j, src (j - (off + i0) + oS))
          (move_out_range b oS (Z.of_nat n) src (mem s)))
       (move_assign_events (Ptr b (off + i0)) (Ptr b oS) (Z.of_nat n)) n s).
Proof.
  revert i0 oS s.
  induction n as [|n IH]; intros i0 oS s Hlt Hsrc Hlive.
  - cbn [assign_loop]. unfold move_out_range.
    rewrite !range_update_empty by done.
    rewrite Z.add_0_r, move_assign_events_0, state_after_id. apply runs_ret.
  - destruct (Hsrc oS) as [Hs [v Hv]]; [lia|]. rewrite Hv in Hs.
    destruct (Hlive (off + i0)) as [v0 Hv0]; [lia|].
    cbn [assign_loop ptr_add AssignNext].
    eapply runs_bind.
    { eapply runs_bind; [|apply runs_ret].
      eapply runs_fallible; [by eapply move_assign_run|]. simpl. lia. }
    rewrite bool_decide_eq_false_2 by (intros [=]; lia).
    specialize (IH (i0 + 1) (oS + 1)
      (state_after
         (write_slot (Ptr b oS) (Some (moved_from v))
            (write_slot (Ptr b (off + i0)) (Some v) (mem s)))
         [EvMoveAssign (Ptr b (off + i0)) (Ptr b oS)] 1 s)).
    rewrite state_after_state_after in IH.
    cbn [mem state_after mk_state] in IH.
    unfold move_out_range in *.
    rewrite (range_update_write_first b oS) in IH; [|lia|by rewrite Hv].
    rewrite range_update_write_slot in IH by (intros _; lia).
    replace (off + (i0 + 1)) with (off + i0 + 1) in IH by lia.
    rewrite (range_update_ext b _ _ _ (λ j, src (j - (off + i0) + oS))) in IH
      by (intros j Hj; f_equal; lia).
    rewrite (range_update_write_first b (off + i0)) in IH;
      [|lia|by rewrite Z.sub_diag, Z.add_0_l, Hv].
    replace (Z.of_nat (S n)) with (Z.of_nat n + 1) by lia.
    rewrite move_assign_events_cons by lia.
    replace (oS + (Z.of_nat n + 1)) with (oS + 1 + Z.of_nat n) by lia.
    apply IH; [lia|..].
    + intros j Hj. rewrite !slot_at_write_slot_ne by (intros [=]; lia).
      apply Hsrc. lia.
    + intros j Hj. destruct (decide (j = oS)) as [->|].
      * exists (moved_from v). eapply slot_at_write_slot_eq.
        rewrite slot_at_write_slot_ne by (intros [=]; lia). done.
      * rewrite !slot_at_write_slot_ne by (intros [=]; lia).
        apply Hlive. lia.
Qed.

(** The same loop when nothing is erased: each element is move-assigned to
    itself. *)
Lemma assign_loop_self_runs X b off i0 n (src : Z → option T) s :
  (∀ j, off + i0 ≤ j < off + i0 + Z.of_nat n →
        slot_at (Ptr b j) (mem s) = Some (src j) ∧ is_Some (src j)) →
  runs X
    (assign_loop (Ptr b off) (MoveIteratorValueAdapter (Ptr b (off + i0)))
       i0 n) s
    (MoveIteratorValueAdapter (Ptr b (off + i0 + Z.of_nat n)))
    (state_after
       (range_update b (off + i0) (Z.of_nat n) (λ j, self_moved <$> src j)
          (mem s))
       (move_assign_events (Ptr b (off + i0)) (Ptr b (off + i0)) (Z.of_nat n))
       n s).
Proof.
  revert i0 s.
  induction n as [|n IH]; intros i0 s Hsrc.
  - cbn [assign_loop].
    rewrite !range_update_empty by done.
    rewrite Z.add_0_r, move_assign_events_0, state_after_id. apply runs_ret.
  - destruct (Hsrc (off + i0)) as [Hs [v Hv]]; [lia|]. rewrite Hv in Hs.
    cbn [assign_loop ptr_add AssignNext].
    eapply runs_bind.
    { eapply runs_bind; [|apply runs_ret].
      eapply runs_fallible; [by eapply move_assign_run|]. simpl. lia. }
    rewrite bool_decide_eq_true_2 by done.
    specialize (IH (i0 + 1)
      (state_after
         (write_slot (Ptr b (off + i0)) (Some (self_moved v)) (mem s))
         [EvMoveAssign (Ptr b (off + i0)) (Ptr b (off + i0))] 1 s)).
    rewrite state_after_state_after in IH.
    cbn [mem state_after mk_state] in IH.
    replace (off + (i0 + 1)) with (off + i0 + 1) in IH by lia.
    rewrite (range_update_write_first b (off + i0)) in IH;
      [|lia|by rewrite Hv].
    replace (Z.of_nat (S n)) with (Z.of_nat n + 1) by lia.
    rewrite move_assign_events_cons by lia.
    replace (off + i0 + (Z.of_nat n + 1)) with (off + i0 + 1 + Z.of_nat n)
      by lia.
    apply IH.
    intros j Hj. rewrite !slot_at_write_slot_ne by (intros [=]; lia).
    apply Hsrc. lia.
Qed.

(** The loop of [Insert]: the elements from [sl] move up to [dl], the last
    one first. *)
Lemma move_backward_loop_runs X b dl sl n (src : Z → option T) s :
  sl < dl →
  (∀ j, sl ≤ j < sl + Z.of_nat n →
        slot_at (Ptr b j) (mem s) = Some (src j) ∧ is_Some (src j)) →
  (∀ j, dl ≤ j < dl + Z.of_nat n →
        ∃ v, slot_at (Ptr b j) (mem s) = Some (Some v)) →
  runs X
    (move_backward_loop n (Ptr b (dl + Z.of_nat n)) (Ptr b dl)
       (Ptr b (sl + Z.of_nat n))) s tt
    (state_after
       (range_update b dl (Z.of_nat n) (λ j, src (j - dl + sl))
          (move_out_range b sl (Z.of_nat n) src (mem s)))
       (reverse (move_assign_events (Ptr b dl) (Ptr b sl) (Z.of_nat n))) n s).
Proof.
  revert s.
  induction n as [|n IH]; intros s Hlt Hsrc Hlive.
  - cbn [move_backward_loop ptr_add ptr_lt].
    rewrite bool_decide_eq_true_2 by done.
    rewrite (proj2 (Z.ltb_lt _ _)) by lia. cbn [andb].
    unfold move_out_range. rewrite !range_update_empty by done.
    rewrite move_assign_events_0, ?reverse_nil, state_after_id. apply runs_ret.
  - destruct (Hsrc (sl + Z.of_nat n)) as [Hs [v Hv]]; [lia|]. rewrite Hv in Hs.
    destruct (Hlive (dl + Z.of_nat n)) as [v0 Hv0]; [lia|].
    cbn [move_backward_loop ptr_add ptr_lt].
    rewrite (proj2 (Z.ltb_ge _ _)) by lia. rewrite andb_false_r.
    replace (dl + Z.of_nat (S n) + -1) with (dl + Z.of_nat n) by lia.
    replace (sl + Z.of_nat (S n) + -1) with (sl + Z.of_nat n) by lia.
    eapply runs_bind.
    { eapply runs_fallible; [by eapply move_assign_run|]. simpl. lia. }
    rewrite bool_decide_eq_false_2 by (intros [=]; lia).
    specialize (IH
      (state_after
         (write_slot (Ptr b (sl + Z.of_nat n)) (Some (moved_from v))
            (write_slot (Ptr b (dl + Z.of_nat n)) (Some v) (mem s)))
         [EvMoveAssign (Ptr b (dl + Z.of_nat n)) (Ptr b (sl + Z.of_nat n))]
         1 s)).
    rewrite state_after_state_after in IH.
    cbn [mem state_after mk_state] in IH.
    unfold move_out_range in *.
    rewrite (range_update_write_last b sl) in IH; [|lia|by rewrite Hv].
    rewrite range_update_write_slot in IH by (intros _; lia).
    rewrite (range_update_write_last b dl) in IH;
      [|lia|rewrite <- Hv; f_equal; lia].
    replace (Z.of_nat (S n)) with (Z.of_nat n + 1) by lia.
    rewrite move_assign_events_snoc, reverse_snoc by lia. cbn [ptr_add].
    apply IH; [lia|..].
    + intros j Hj. rewrite !slot_at_write_slot_ne by (intros [=]; lia).
      apply Hsrc. lia.
    + intros j Hj. destruct (decide (j = sl + Z.of_nat n)) as [->|].
      * exists (moved_from v). eapply slot_at_write_slot_eq.
        rewrite slot_at_write_slot_ne by (intros [=]; lia). done.
      * rewrite !slot_at_write_slot_ne by (intros [=]; lia).
        apply Hlive. lia.
Qed.

(** The same loop when nothing is inserted. *)
Lemma move_backward_loop_self_runs X b dl n (src : Z → option T) s :
  (∀ j, dl ≤ j < dl + Z.of_nat n →
        slot_at (Ptr b j) (mem s) = Some (src j) ∧ is_Some (src j)) →
  runs X
    (move_backward_loop n (Ptr b (dl + Z.of_nat n)) (Ptr b dl)
       (Ptr b (dl + Z.of_nat n))) s tt
    (state_after
       (range_update b dl (Z.of_nat n) (λ j, self_moved <$> src j) (mem s))
       (reverse (move_assign_events (Ptr b dl) (Ptr b dl) (Z.of_nat n))) n s).
Proof.
  revert s.
  induction n as [|n IH]; intros s Hsrc.
  - cbn [move_backward_loop ptr_add ptr_lt].
    rewrite bool_decide_eq_true_2 by done.
    rewrite (proj2 (Z.ltb_lt _ _)) by lia. cbn [andb].
    rewrite !range_update_empty by done.
    rewrite move_assign_events_0, ?reverse_nil, state_after_id. apply runs_ret.
  - destruct (Hsrc (dl + Z.of_nat n)) as [Hs [v Hv]]; [lia|]. rewrite Hv in Hs.
    cbn [move_backward_loop ptr_add ptr_lt].
    rewrite (proj2 (Z.ltb_ge _ _)) by lia. rewrite andb_false_r.
    replace (dl + Z.of_nat (S n) + -1) with (dl + Z.of_nat n) by lia.
    eapply runs_bind.
    { eapply runs_fallible; [by eapply move_assign_run|]. simpl. lia. }
    rewrite bool_decide_eq_true_2 by done.
    specialize (IH
      (state_after
         (write_slot (Ptr b (dl + Z.of_nat n)) (Some (self_moved v)) (mem s))
         [EvMoveAssign (Ptr b (dl + Z.of_nat n)) (Ptr b (dl + Z.of_nat n))]
         1 s)).
    rewrite state_after_state_after in IH.
    cbn [mem state_after mk_state] in IH.
    rewrite (range_update_write_last b dl) in IH; [|lia|by rewrite Hv].
    replace (Z.of_nat (S n)) with (Z.of_nat n + 1) by lia.
    rewrite move_assign_events_snoc, reverse_snoc by lia. cbn [ptr_add].
    apply IH.
    intros j Hj. rewrite !slot_at_write_slot_ne by (intros [=]; lia).
    apply Hsrc. lia.
Qed.

(** ** The loop of [Swap] *)

Lemma swap_events_0 p q : swap_events (T:=T) p q 0 = [].
Proof. done. Qed.

Lemma swap_events_cons b i b' i' n :
  0 ≤ n →
  swap_events (T:=T) (Ptr b i) (Ptr b' i') (n + 1) =
  EvSwap (Ptr b i) (Ptr b' i') ::
  swap_events (Ptr b (i + 1)) (Ptr b' (i' + 1)) n.
Proof.
  intros. unfold swap_events. rewrite seqZ_cons by lia.
  replace (Z.pred (n + 1)) with n by lia. cbn [fmap list_fmap ptr_add].
  rewrite !Z.add_0_r. f_equal.
  change (Z.succ 0) with (1 + 0). rewrite <- fmap_add_seqZ, <- list_fmap_compose.
  apply list_fmap_ext. intros k x _. simpl. by rewrite !Z.add_assoc.
Qed.

Lemma swap_loop_runs X small large i n (srcS srcL : Z → option T) s :
  small ≠ large →
  (∀ j, i ≤ j < i + Z.of_nat n →
        slot_at (Ptr (InlinedOf small) j) (mem s) = Some (srcS j) ∧
        is_Some (srcS j)) →
  (∀ j, i ≤ j < i + Z.of_nat n →
        slot_at (Ptr (InlinedOf large) j) (mem s) = Some (srcL j) ∧
        is_Some (srcL j)) →
  runs X (swap_loop small large i n) s tt
    (state_after
       (range_update (InlinedOf large) i (Z.of_nat n) srcS
          (range_update (InlinedOf small) i (Z.of_nat n) srcL (mem s)))
       (swap_events (Ptr (InlinedOf small) i) (Ptr (InlinedOf large) i)
          (Z.of_nat n)) n s).
Proof.
  revert i s.
  induction n as [|n IH]; intros i s Hne HS HL.
  - cbn [swap_loop]. rewrite !range_update_empty by done.
    rewrite swap_events_0, state_after_id. apply runs_ret.
  - destruct (HS i) as [Hs [v Hv]]; [lia|]. rewrite Hv in Hs.
    destruct (HL i) as [Hl [v' Hv']]; [lia|]. rewrite Hv' in Hl.
    cbn [swap_loop ptr_add GetInlinedData]. rewrite Z.add_0_l.
    eapply runs_bind.
    { eapply runs_fallible;
        [by eapply swap_elements_run; [congruence|..]|]. simpl. lia. }
    specialize (IH (i + 1)
      (state_after
         (write_slot (Ptr (InlinedOf large) i) (Some v)
            (write_slot (Ptr (InlinedOf small) i) (Some v') (mem s)))
         [EvSwap (Ptr (InlinedOf small) i) (Ptr (InlinedOf large) i)] 1 s)).
    rewrite state_after_state_after in IH.
    cbn [mem state_after mk_state] in IH.
    rewrite range_update_write_slot in IH by congruence.
    rewrite (range_update_write_first (InlinedOf small) i) in IH;
      [|lia|by rewrite Hv'].
    rewrite (range_update_write_first (InlinedOf large) i) in IH;
      [|lia|by rewrite Hv].
    replace (Z.of_nat (S n)) with (Z.of_nat n + 1) by lia.
    rewrite swap_events_cons by lia.
    apply IH; [done|..].
    + intros j Hj. rewrite slot_at_write_slot_ne by congruence.
      rewrite slot_at_write_slot_ne by (intros [=]; lia). apply HS. lia.
    + intros j Hj. rewrite slot_at_write_slot_ne by (intros [=]; lia).
      rewrite slot_at_write_slot_ne by congruence. apply HL. lia.
Qed.

End returning_loops.

(** Observing a buffer through the layers of a memory. *)
Ltac get_buf_simpl :=
  cbn [layout_base] in *;
  unfold clear_range, fill_range, move_in_range, move_out_range;
  repeat first
    [ rewrite get_buf_with_storage_heap
    | rewrite get_buf_forget_inlined
    | rewrite get_buf_forget_eq
    | rewrite get_buf_forget_ne by congruence
    | rewrite get_buf_range_update_eq
    | rewrite get_buf_range_update_ne by congruence
    | rewrite get_buf_write_slot_eq
    | rewrite get_buf_write_slot_ne by congruence
    | rewrite get_buf_allocated_ne by congruence
    | rewrite get_buf_set_heap_heap
    | rewrite get_buf_set_heap_inlined
    | rewrite get_buf_with_storage_ne by congruence
    | rewrite get_buf_with_storage_data by (intros; reflexivity)
    | rewrite lookup_insert_eq
    | rewrite lookup_insert_ne by congruence
    | rewrite lookup_delete_eq
    | rewrite lookup_delete_ne by congruence ].

Ltac storage_simpl :=
  cbn [layout_base] in *;
  unfold clear_range, fill_range, move_in_range, move_out_range;
  repeat first
    [ rewrite storage_of_with_storage_eq
    | rewrite storage_of_with_storage_ne by congruence
    | rewrite storage_of_forget
    | rewrite storage_of_release_layout
    | rewrite storage_of_set_heap
    | rewrite storage_of_range_update by congruence
    | rewrite storage_of_write_slot by congruence
    | rewrite word_range_update
    | rewrite word_write_slot ].

(** One step of a computation: [tac] shows that its first call returns. *)
Ltac wp_step tac :=
  first [eapply wp_runs; [tac|] | eapply runs_wp; [tac|]].
Tactic Notation "wp_ok" uconstr(lem) :=
  wp_step ltac:(apply runs_Ok; [apply lem|simpl; lia]).

Section reserve.
Context {T : Type} {VT : ValueType T} {Env : Environment}.
Implicit Types (m : Memory (T:=T)) (st : Storage (T:=T)) (s : State (T:=T))
  (buf : list (option T)) (l : list T) (w : Who) (b : Base) (p : Pointer)
  (d : Data (T:=T)) (h : gmap nat (list (option T)))
  (f : Storage (T:=T) → Storage (T:=T)) (g : Z → option T)
  (ats : list AllocationTransaction) (cts : list ConstructionTransaction)
  (evs : list (Event (T:=T))).

#[local] Arguments write_slot : simpl never.
#[local] Arguments slot_at : simpl never.
#[local] Arguments range_update : simpl never.
#[local] Arguments construct_events : simpl never.
#[local] Arguments move_construct_events : simpl never.
#[local] Arguments destroy_events : simpl never.
#[local] Arguments assign_events : simpl never.
#[local] Arguments move_assign_events : simpl never.
#[local] Arguments swap_events : simpl never.

(** ** Starting and leaving an operation *)

Lemma wp_from {A} X (c : M A) s (Q : A → State → Prop) :
  no_guards s → wp X c (mk_state s (mem s) [] [] [] 0) Q → wp X c s Q.
Proof.
  intros [Ha Hc]. rewrite <- Ha, <- Hc at 1. by rewrite <- mk_state_id.
Qed.

Lemma mk_state_no_guards s :
  no_guards s → mk_state s (mem s) [] [] [] 0 = s.
Proof. intros [Ha Hc]. rewrite <- Ha, <- Hc at 1. by rewrite <- mk_state_id. Qed.

Lemma wp_Throw {A} X (c : M A) s e s' (Q : A → State → Prop) :
  c s = Throw e s' → X → wp X c s Q.
Proof. intros Hc HX. unfold wp. rewrite Hc. by right. Qed.

Lemma AllocationTransaction_Allocate_too_large capacity s :
  max_size < capacity →
  AllocationTransaction_Allocate 0 capacity s = Throw bad_alloc s.
Proof.
  intros. unfold AllocationTransaction_Allocate.
  by erewrite bind_Throw by (by apply allocate_too_large).
Qed.

Lemma wp_with_AllocationTransaction {A} X (body : nat → M A) s m cts evs t
    (Q : A → State → Prop) :
  wp X (body 0%nat) (mk_state s m [no_allocation] cts evs t)
    (λ a s', wp X (AllocationTransaction_dtor 0) s' (λ _ s'', Q a s'')) →
  wp X (with_AllocationTransaction body) (mk_state s m [] cts evs t) Q.
Proof.
  intros H. apply wp_unwind_protect in H. unfold wp in *.
  by rewrite with_AllocationTransaction_run.
Qed.

Lemma wp_with_ConstructionTransaction {A} X (body : nat → M A) s m ats cts
    evs t (Q : A → State → Prop) :
  wp X (body (length cts))
    (mk_state s m ats (cts ++ [no_construction]) evs t)
    (λ a s', wp X (ConstructionTransaction_dtor (length cts)) s'
               (λ _ s'', Q a s'')) →
  wp X (with_ConstructionTransaction body) (mk_state s m ats cts evs t) Q.
Proof.
  intros H. apply wp_unwind_protect in H. unfold wp in *.
  by rewrite with_ConstructionTransaction_run.
Qed.

Lemma other_of_ne w : other_of w ≠ w.
Proof. by destruct w. Qed.

Lemma layout_base_other w y : layout_base w y ≠ InlinedOf (other_of w).
Proof. destruct y, w; simpl; congruence. Qed.

Lemma represents_word m w l c y :
  represents m w l c y →
  metadata_size_and_is_allocated (storage_of w m) =
    2 * zlen l + match y with LayoutInlined => 0 | LayoutAllocated _ => 1 end.
Proof. intros [Hw Hb Hl ->|a Hw Hd Hh Hl Hc]; lia. Qed.

Lemma updated_allocated self y s s' l' c' a' :
  metadata_size_and_is_allocated (storage_of self (mem s')) = 2 * zlen l' + 1 →
  data_ (storage_of self (mem s')) =
    DataAllocated {| allocated_data := Ptr (HeapBlock a') 0;
                     allocated_capacity := c' |} →
  (∀ k, heap (mem s') !! k =
        if decide (k = a') then Some (buffer_of l' c')
        else heap_release y (heap (mem s)) !! k) →
  zlen l' ≤ c' → N < c' ≤ max_size →
  storage_of (other_of self) (mem s') = storage_of (other_of self) (mem s) →
  no_guards s' →
  updated self y l' c' (LayoutAllocated a') s s'.
Proof.
  intros Hw Hd Hh Hl Hc Ho Hg. split; [|split; [done|split; [|done]]].
  - apply represents_allocated; try done.
    by rewrite Hh, decide_True.
  - apply map_eq. intros k. rewrite Hh. simpl. case_decide as Hk.
    + subst. by rewrite lookup_insert_eq.
    + by rewrite lookup_insert_ne.
Qed.

Lemma updated_inlined self y s s' l' :
  metadata_size_and_is_allocated (storage_of self (mem s')) = 2 * zlen l' →
  get_buf (InlinedOf self) (mem s') = Some (buffer_of l' N) →
  heap (mem s') = heap_release y (heap (mem s)) →
  zlen l' ≤ N →
  storage_of (other_of self) (mem s') = storage_of (other_of self) (mem s) →
  no_guards s' →
  updated self y l' N LayoutInlined s s'.
Proof.
  intros Hw Hb Hh Hl Ho Hg. split; [|split; [done|split; [done|done]]].
  by apply represents_inlined.
Qed.

Lemma wp_loop {A B} X (c : M A) (k : A → M B) s n e (s1 : nat → State) a s2
    (Q : B → State → Prop) :
  c s = match first_fault (tick s) n with
        | None => Ok a s2
        | Some k => Throw e (s1 k)
        end →
  (tick s ≤ tick s2)%nat → wp X (k a) s2 Q → wp X (c ≫= k) s Q.
Proof. intros Hc Ht. eapply wp_runs. by eapply runs_loop. Qed.

Lemma DeallocateIfAllocated_mk_allocated self a c buf n s m ats cts evs t :
  metadata_size_and_is_allocated (storage_of self m) = 2 * n + 1 →
  data_ (storage_of self m) =
    DataAllocated {| allocated_data := Ptr (HeapBlock a) 0;
                     allocated_capacity := c |} →
  get_buf (HeapBlock a) m = Some buf → zlen buf = c →
  DeallocateIfAllocated self (mk_state s m ats cts evs t) =
    Ok tt (mk_state s (forget a m) ats cts (evs ++ [EvDeallocate a c]) t).
Proof.
  intros Hw Hd Hh Hl.
  erewrite DeallocateIfAllocated_run; [|done|done|done|done].
  rewrite state_after_mk_state. by rewrite Nat.add_0_r.
Qed.

Lemma DeallocateIfAllocated_mk_inlined self n s m ats cts evs t :
  metadata_size_and_is_allocated (storage_of self m) = 2 * n →
  DeallocateIfAllocated self (mk_state s m ats cts evs t) =
    Ok tt (mk_state s m ats cts evs t).
Proof. intros Hw. by erewrite DeallocateIfAllocated_inlined. Qed.

Lemma DeallocateIfAllocated_runs X self y l c m s M ats cts evs t :
  represents m self l c y →
  metadata_size_and_is_allocated (storage_of self M) =
    metadata_size_and_is_allocated (storage_of self m) →
  (∀ a, y = LayoutAllocated a →
        data_ (storage_of self M) = data_ (storage_of self m) ∧
        ∃ buf, get_buf (HeapBlock a) M = Some buf ∧ zlen buf = c) →
  runs X (DeallocateIfAllocated self) (mk_state s M ats cts evs t) tt
    (mk_state s (release_layout y M) ats cts (evs ++ release_events y c) t).
Proof.
  intros [Hw Hb Hl ->|a Hw Hd Hh Hl Hc] Hst Hblock; simpl.
  - rewrite app_nil_r. apply runs_Ok; [|done].
    eapply DeallocateIfAllocated_mk_inlined. by rewrite Hst.
  - destruct (Hblock a eq_refl) as (Hdata & buf & Hbuf & Hlen).
    apply runs_Ok; [|done].
    eapply DeallocateIfAllocated_mk_allocated; [| |done|done].
    + by rewrite Hst.
    + by rewrite Hdata.
Qed.

Lemma word_set_allocated (y : Layout) n :
  Z.lor (2 * n + match y with LayoutInlined => 0 | LayoutAllocated _ => 1 end)
    1 = 2 * n + 1.
Proof.
  destruct y; [|apply lor_one_odd].
  rewrite Z.add_0_r. apply (lor_bit n true).
Qed.

(** The state after a reallocation. *)
Lemma updated_realloc self y l c s l' c' s' a :
  represents (mem s) self l c y →
  a = fresh (dom (heap (mem s))) →
  metadata_size_and_is_allocated (storage_of self (mem s')) = 2 * zlen l' + 1 →
  data_ (storage_of self (mem s')) =
    DataAllocated {| allocated_data := Ptr (HeapBlock a) 0;
                     allocated_capacity := c' |} →
  get_buf (HeapBlock a) (mem s') = Some (buffer_of l' c') →
  (∀ k, k ≠ a → HeapBlock k ≠ layout_base self y →
        get_buf (HeapBlock k) (mem s') = get_buf (HeapBlock k) (mem s)) →
  (∀ a0, y = LayoutAllocated a0 → get_buf (HeapBlock a0) (mem s') = None) →
  storage_of (other_of self) (mem s') = storage_of (other_of self) (mem s) →
  zlen l' ≤ c' → N < c' ≤ max_size → no_guards s' →
  updated self y l' c' (LayoutAllocated a) s s'.
Proof.
  intros Hr -> Hw Hd Hnew Hold Hrel Ho Hl Hc Hg.
  pose proof (layout_base_fresh _ _ _ _ _ Hr) as Hfresh.
  apply updated_allocated; try done.
  intros k. case_decide as Hk.
  - by subst k.
  - destruct y as [|a0]; simpl.
    + by apply Hold.
    + destruct (decide (k = a0)) as [->|].
      * rewrite lookup_delete_eq. by apply Hrel.
      * rewrite !lookup_delete_ne by done. apply Hold; [done|].
        simpl. congruence.
Qed.

Lemma ComputeCapacity_bounds c x :
  0 ≤ c → 2 * c < SizeType_modulus →
  ComputeCapacity c x = Z.max (2 * c) x.
Proof. intros. unfold ComputeCapacity. by rewrite NextCapacity_double. Qed.

(** ** [Reserve] *)

Lemma Reserve_grow_wp self x s l c y :
  env_ok → represents (mem s) self l c y → no_guards s → c < x →
  let c' := ComputeCapacity c x in
  let a := fresh (dom (heap (mem s))) in
  wp (max_size < c') (Reserve self x) s (λ _ s',
    updated self y l c' (LayoutAllocated a) s s' ∧
    trace s' = trace s ++
      EvAllocate a c' ::
      move_construct_events (Ptr (HeapBlock a) 0)
        (Ptr (layout_base self y) 0) (zlen l) ++
      destroy_events (Ptr (layout_base self y) 0) (zlen l) ++
      release_events y c).
Proof.
  intros Henv Hr Hg Hx c' a.
  pose proof (view_of_represents _ _ _ _ _ Hr) as Hv.
  destruct (represents_bounds _ _ _ _ _ Henv Hr) as [Hlc [HNc Hcm]].
  pose proof (layout_base_fresh _ _ _ _ _ Hr) as Hfresh. fold a in Hfresh.
  pose proof (represents_buffer _ _ _ _ _ Hr) as Hbuf.
  pose proof (represents_word _ _ _ _ _ Hr) as Hword.
  pose proof (zlen_nonneg l) as Hl0.
  destruct Henv as (HN & HNm & Hmax).
  assert (c' = Z.max (2 * c) x) as Hc' by (apply ComputeCapacity_bounds; lia).
  apply wp_from; [done|].
  unfold Reserve. eapply wp_runs; [by apply runs_Ok|].
  cbv zeta. cbn [mem mk_state]. rewrite Hv.
  cbn [view_size view_capacity view_data].
  rewrite (proj2 (Z.leb_gt _ _)) by lia.
  apply wp_with_AllocationTransaction. fold c'.
  destruct (decide (c' ≤ max_size)) as [Hfit|Hbig]; cycle 1.
  { eapply wp_Throw; [|lia]. apply bind_Throw.
    apply AllocationTransaction_Allocate_too_large. lia. }
  eapply wp_runs.
  { eapply runs_fallible; [by apply AllocationTransaction_Allocate_run|].
    simpl. lia. }
  cbn [mem mk_state]. fold a.
  eapply wp_loop.
  { apply (ConstructElements_move_run (HeapBlock a) 0 (layout_base self y) 0
             (zlen l) (zlookup l)); [done|done|..].
    - intros j Hj. cbn [mem mk_state].
      rewrite slot_at_get_buf, get_buf_allocated_ne, Hbuf by done. simpl.
      rewrite zlookup_buffer_of_in by lia. split; [done|].
      apply zlookup_is_Some. lia.
    - intros j Hj. cbn [mem mk_state].
      rewrite slot_at_get_buf. get_buf_simpl. simpl.
      rewrite zlookup_raw_buffer, decide_True by lia. done. }
  { simpl. lia. }
  rewrite state_after_mk_state. cbn [mem mk_state].
  eapply wp_runs.
  { apply runs_Ok.
    - apply DestroyElements_run; [done|].
      intros j Hj. cbn [mem mk_state].
      assert (is_Some (zlookup l j)) as [v Hv']
        by (apply zlookup_is_Some; lia).
      exists (moved_from v).
      rewrite slot_at_get_buf. get_buf_simpl. rewrite Hbuf. simpl.
      rewrite zlookup_zupdate, zlookup_buffer_of_in by lia. simpl.
      rewrite on_range_in by lia. by rewrite Hv'.
    - simpl. lia. }
  rewrite state_after_mk_state. cbn [mem mk_state].
  eapply wp_runs.
  { eapply (DeallocateIfAllocated_runs _ self y l c (mem s)); [done|..].
    - by storage_simpl.
    - intros a0 ->. cbn [layout_base] in *. split; [by storage_simpl|].
      eexists. split; [get_buf_simpl; rewrite Hbuf; reflexivity|].
      rewrite !zlen_zupdate. by apply zlen_buffer_of. }
  wp_ok AcquireAllocatedData_run.
  cbn [allocation_tx_data allocation_tx_capacity].
  wp_ok update_storage_run.
  wp_ok AllocationTransaction_dtor_idle.
  split.
  - eapply (updated_realloc self y l c s l c' _ a); [done|done|..];
      cbn [mem mk_state].
    + storage_simpl. cbv beta. unfold GetSizeAndIsAllocated. simpl.
      storage_simpl. rewrite Hword. apply word_set_allocated.
    + by storage_simpl.
    + destruct y; cbn [release_layout] in *; get_buf_simpl; simpl; f_equal;
        (apply buffer_of_eq;
         [rewrite zlen_zupdate; apply zlen_raw_buffer; lia
         |lia
         |intros j Hj; rewrite zlookup_zupdate, zlookup_raw_buffer;
          rewrite decide_True by lia; simpl; unfold on_range;
          case_decide; simpl; [do 2 f_equal; lia|];
          rewrite zlookup_outside; [done|lia]]).
    + intros k Hk1 Hk2.
      destruct y; cbn [release_layout] in *; by get_buf_simpl.
    + intros a0 ->. cbn [release_layout]. by get_buf_simpl.
    + pose proof (other_of_ne self). pose proof (layout_base_other self y).
      by storage_simpl.
    + lia.
    + lia.
    + done.
  - cbn [trace mk_state]. f_equal. rewrite <- !app_assoc. done.
Qed.

Lemma Reserve_noop self x s l c y :
  represents (mem s) self l c y → x ≤ c → Reserve self x s = Ok tt s.
Proof.
  intros Hr Hx. pose proof (view_of_represents _ _ _ _ _ Hr) as Hv.
  unfold Reserve. erewrite bind_Ok by apply storage_run.
  cbv zeta. rewrite Hv. cbn [view_capacity].
  by rewrite (proj2 (Z.leb_le _ _)) by lia.
Qed.

(** ** Operations in place *)

Lemma updated_inplace self y l c s s' l' :
  represents (mem s) self l c y →
  metadata_size_and_is_allocated (storage_of self (mem s')) =
    2 * zlen l' + match y with LayoutInlined => 0 | LayoutAllocated _ => 1 end →
  (∀ a, y = LayoutAllocated a →
        data_ (storage_of self (mem s')) = data_ (storage_of self (mem s))) →
  get_buf (layout_base self y) (mem s') = Some (buffer_of l' c) →
  (∀ k, HeapBlock k ≠ layout_base self y →
        get_buf (HeapBlock k) (mem s') = get_buf (HeapBlock k) (mem s)) →
  storage_of (other_of self) (mem s') = storage_of (other_of self) (mem s) →
  zlen l' ≤ c → no_guards s' →
  updated self y l' c y s s'.
Proof.
  intros [Hw Hb Hl ->|a Hw Hd Hh Hl Hc] Hw' Hd' Hb' Hk Ho Hl' Hg;
    cbn [layout_base] in *.
  - apply updated_inlined; try done; [lia|].
    apply map_eq. intros k. by apply Hk.
  - apply updated_allocated; try done.
    + by rewrite (Hd' a eq_refl).
    + intros k. case_decide as Hka; [by subst|].
      simpl. rewrite lookup_delete_ne by done. apply Hk. congruence.
Qed.

End reserve.

(** The slots of a buffer after the loops that went over it. *)
Ltac slots_simpl :=
  rewrite ?zlookup_zupdate, ?zlookup_zinsert;
  rewrite ?zlookup_buffer_of_in by lia;
  rewrite ?zlookup_raw_buffer;
  rewrite ?decide_True by lia;
  cbn [fmap option_fmap option_map default];
  unfold on_range.

(** Closes the comparison of two slots, by cases on the ranges the index
    is in. *)
Ltac slots_done :=
  repeat case_decide; simpl; try lia;
  repeat match goal with
         | |- context [zlookup ?l ?j] =>
             rewrite (zlookup_outside l j) by (unfold zlen in *; simpl; lia)
         end;
  try done;
  try first [f_equal; lia | do 2 f_equal; lia | do 3 f_equal; lia].

Section shrink_emplace.
Context {T : Type} {VT : ValueType T} {Env : Environment}.
Implicit Types (m : Memory (T:=T)) (st : Storage (T:=T)) (s : State (T:=T))
  (buf : list (option T)) (l : list T) (w : Who) (b : Base) (p : Pointer)
  (d : Data (T:=T)) (h : gmap nat (list (option T)))
  (f : Storage (T:=T) → Storage (T:=T)) (g : Z → option T)
  (ats : list AllocationTransaction) (cts : list ConstructionTransaction)
  (evs : list (Event (T:=T))).

#[local] Arguments write_slot : simpl never.
#[local] Arguments slot_at : simpl never.
#[local] Arguments range_update : simpl never.
#[local] Arguments construct_events : simpl never.
#[local] Arguments move_construct_events : simpl never.
#[local] Arguments destroy_events : simpl never.
#[local] Arguments assign_events : simpl never.
#[local] Arguments move_assign_events : simpl never.
#[local] Arguments swap_events : simpl never.

Lemma deallocate_mk a capacity buf s m ats cts evs t :
  get_buf (HeapBlock a) m = Some buf → zlen buf = capacity →
  deallocate (Ptr (HeapBlock a) 0) capacity (mk_state s m ats cts evs t) =
    Ok tt (mk_state s (forget a m) ats cts (evs ++ [EvDeallocate a capacity]) t).
Proof.
  intros Hb Hl. erewrite deallocate_run by done.
  rewrite state_after_mk_state. by rewrite Nat.add_0_r.
Qed.

Lemma wp_assert {A} X (c : M A) s (Q : A → State → Prop) :
  wp X c s Q → wp X (assert true;; c) s Q.
Proof. done. Qed.

Lemma slot_live_moved l j :
  0 ≤ j < zlen l →
  ∃ v, Some (moved_from <$> zlookup l j) = Some (Some v).
Proof.
  intros Hj. assert (is_Some (zlookup l j)) as [v Hv]
    by (by apply zlookup_is_Some).
  exists (moved_from v). by rewrite Hv.
Qed.

(** ** [ShrinkToFit] *)

Lemma ShrinkToFit_wp self s l c a0 :
  env_ok → represents (mem s) self l c (LayoutAllocated a0) → no_guards s →
  wp False (ShrinkToFit self) s (λ _ s',
    if decide (zlen l = c) then s' = s
    else if decide (zlen l ≤ N)
    then updated self (LayoutAllocated a0) l N LayoutInlined s s'
    else updated self (LayoutAllocated a0) l (zlen l) (fresh_layout s) s s').
Proof.
  intros Henv Hr Hg.
  pose proof (view_of_represents _ _ _ _ _ Hr) as Hv.
  destruct (represents_bounds _ _ _ _ _ Henv Hr) as [Hlc [HNc Hcm]].
  pose proof (layout_base_fresh _ _ _ _ _ Hr) as Hfresh.
  pose proof (represents_buffer _ _ _ _ _ Hr) as Hbuf.
  pose proof (represents_word _ _ _ _ _ Hr) as Hword.
  pose proof (zlen_nonneg l) as Hl0.
  pose proof (other_of_ne self) as Hoth.
  cbn [layout_base] in *.
  set (a := fresh (dom (heap (mem s)))) in *.
  destruct Henv as (HN & HNm & Hmax).
  inversion Hr as [|a1 Hw Hd Hh _ Hc]; subst a1.
  apply wp_from; [done|].
  unfold ShrinkToFit. wp_ok storage_run.
  cbn [mem mk_state].
  rewrite (GetIsAllocated_odd _ _ Hw), (GetSize_odd _ _ Hw).
  unfold GetAllocatedData, GetAllocatedCapacity. rewrite Hd.
  cbn [allocated_data allocated_capacity]. apply wp_assert.
  cbv zeta. cbn [view_size view_capacity view_data].
  case_decide as Hfull.
  { rewrite (proj2 (Z.eqb_eq _ _)) by done. apply wp_ret.
    by apply mk_state_no_guards. }
  rewrite (proj2 (Z.eqb_neq _ _)) by done.
  apply wp_with_AllocationTransaction.
  unfold GetInlinedCapacity, GetInlinedData.
  case_decide as Hsmall.
  - rewrite (proj2 (Z.ltb_ge _ _)) by lia.
    wp_step ltac:(apply runs_ret).
    wp_step ltac:(
      apply runs_catch_any; eapply runs_bind; [|apply runs_ret];
      eapply runs_loop;
      [apply (ConstructElements_move_run (InlinedOf self) 0 (HeapBlock a0) 0
                (zlen l) (zlookup l)); [done|done|..]|simpl; lia]).
    { intros j Hj. cbn [mem mk_state].
      rewrite slot_at_get_buf, Hbuf. simpl.
      rewrite zlookup_buffer_of_in by lia. split; [done|].
      apply zlookup_is_Some. lia. }
    { intros j Hj. cbn [mem mk_state].
      rewrite slot_at_get_buf. unfold get_buf. rewrite Hd. simpl.
      rewrite zlookup_raw_buffer, decide_True by lia. done. }
    rewrite state_after_mk_state. cbn [mem mk_state].
    wp_step ltac:(apply runs_Ok; [apply DestroyElements_run; [done|]|simpl; lia]).
    { intros j Hj. cbn [mem mk_state].
      rewrite slot_at_get_buf. get_buf_simpl. rewrite Hbuf. simpl.
      slots_simpl. rewrite decide_True by lia. simpl.
      by apply slot_live_moved. }
    rewrite state_after_mk_state. cbn [mem mk_state].
    wp_step ltac:(apply runs_Ok; [eapply deallocate_mk|simpl; lia]).
    { get_buf_simpl. rewrite Hbuf. reflexivity. }
    { rewrite !zlen_zupdate. by apply zlen_buffer_of. }
    wp_ok AllocationTransaction_DidAllocate_run.
    cbn [allocation_tx_data no_allocation is_null negb].
    wp_ok update_storage_run.
    wp_ok AllocationTransaction_dtor_idle.
    apply updated_inlined; cbn [mem mk_state]; [| | |done| |done].
    + storage_simpl. cbv beta. unfold GetSizeAndIsAllocated. simpl.
      storage_simpl. rewrite Hw.
      apply (land_clear_bit (zlen l) true); [done|]. simpl.
      rewrite SizeType_modulus_eq in *. lia.
    + get_buf_simpl. unfold get_buf. rewrite Hd. simpl. f_equal.
      apply buffer_of_eq; [|done|].
      * rewrite zlen_zupdate. apply zlen_raw_buffer. lia.
      * intros j Hj. slots_simpl.
        case_decide; simpl; [do 2 f_equal; lia|].
        rewrite zlookup_outside; [done|lia].
    + rewrite heap_with_storage. unfold clear_range, move_out_range.
      rewrite !forget_range_update. unfold move_in_range.
      by rewrite heap_forget, heap_range_update_inlined.
    + by storage_simpl.
  - rewrite (proj2 (Z.ltb_lt _ _)) by lia.
    wp_step ltac:(
      eapply runs_fallible;
      [apply AllocationTransaction_Allocate_run; lia|simpl; lia]).
    cbn [mem mk_state]. fold a.
    wp_step ltac:(
      apply runs_catch_any; eapply runs_bind; [|apply runs_ret];
      eapply runs_loop;
      [apply (ConstructElements_move_run (HeapBlock a) 0 (HeapBlock a0) 0
                (zlen l) (zlookup l)); [done|done|..]|simpl; lia]).
    { intros j Hj. cbn [mem mk_state].
      rewrite slot_at_get_buf. get_buf_simpl. rewrite Hbuf. simpl.
      rewrite zlookup_buffer_of_in by lia. split; [done|].
      apply zlookup_is_Some. lia. }
    { intros j Hj. cbn [mem mk_state].
      rewrite slot_at_get_buf. get_buf_simpl. simpl.
      rewrite zlookup_raw_buffer, decide_True by lia. done. }
    rewrite state_after_mk_state. cbn [mem mk_state].
    wp_step ltac:(apply runs_Ok; [apply DestroyElements_run; [done|]|simpl; lia]).
    { intros j Hj. cbn [mem mk_state].
      rewrite slot_at_get_buf. get_buf_simpl. rewrite Hbuf. simpl.
      slots_simpl. rewrite decide_True by lia. simpl.
      by apply slot_live_moved. }
    rewrite state_after_mk_state. cbn [mem mk_state].
    wp_step ltac:(apply runs_Ok; [eapply deallocate_mk|simpl; lia]).
    { get_buf_simpl. rewrite Hbuf. reflexivity. }
    { rewrite !zlen_zupdate. by apply zlen_buffer_of. }
    wp_ok AllocationTransaction_DidAllocate_run.
    cbn [allocation_tx_data no_allocation is_null negb].
    wp_ok AcquireAllocatedData_run.
    cbn [allocation_tx_data allocation_tx_capacity].
    wp_ok AllocationTransaction_dtor_idle.
    eapply (updated_realloc self (LayoutAllocated a0) l c s l (zlen l) _ a);
      [done|done|..]; cbn [mem mk_state].
    + by storage_simpl.
    + by storage_simpl.
    + get_buf_simpl. simpl. f_equal. apply buffer_of_eq; [|lia|].
      * rewrite zlen_zupdate. apply zlen_raw_buffer. lia.
      * intros j Hj. slots_simpl.
        case_decide; simpl; [do 2 f_equal; lia|lia].
    + intros k Hk1 Hk2. by get_buf_simpl.
    + intros ? [= <-]. by get_buf_simpl.
    + by storage_simpl.
    + lia.
    + lia.
    + done.
Qed.

(** ** [EmplaceBack] *)

Lemma word_add y n k :
  0 ≤ n → 0 ≤ k → 2 * (n + k) + 1 < SizeType_modulus →
  sz_add (2 * n + match y with LayoutInlined => 0 | LayoutAllocated _ => 1 end)
    (sz_shl k 1) =
  2 * (n + k) + match y with LayoutInlined => 0 | LayoutAllocated _ => 1 end.
Proof.
  intros. unfold sz_add. rewrite sz_shl_1 by lia.
  rewrite wrap_small; destruct y; lia.
Qed.

Lemma zlen_snoc l (v : T) : zlen (l ++ [v]) = zlen l + 1.
Proof. rewrite zlen_app. done. Qed.

Lemma zlookup_snoc l (v : T) j :
  zlookup (l ++ [v]) j =
  if decide (j = zlen l) then Some v else zlookup l j.
Proof.
  rewrite zlookup_app. pose proof (zlen_nonneg l).
  repeat case_decide; try lia; try done.
  - subst. by rewrite Z.sub_diag.
  - rewrite (zlookup_outside l) by lia. apply zlookup_outside.
    unfold zlen in *. simpl. lia.
Qed.

Lemma EmplaceBack_wp self v s l c y :
  env_ok → represents (mem s) self l c y → no_guards s →
  let a := fresh (dom (heap (mem s))) in
  wp (zlen l = c ∧ max_size < 2 * c) (EmplaceBack self v) s (λ r s',
    if decide (zlen l = c)
    then updated self y (l ++ [v]) (2 * c) (LayoutAllocated a) s s' ∧
         r = Ptr (HeapBlock a) (zlen l)
    else updated self y (l ++ [v]) c y s s' ∧
         r = Ptr (layout_base self y) (zlen l)).
Proof.
  intros Henv Hr Hg a.
  pose proof (view_of_represents _ _ _ _ _ Hr) as Hv.
  destruct (represents_bounds _ _ _ _ _ Henv Hr) as [Hlc [HNc Hcm]].
  pose proof (layout_base_fresh _ _ _ _ _ Hr) as Hfresh. fold a in Hfresh.
  pose proof (represents_buffer _ _ _ _ _ Hr) as Hbuf.
  pose proof (represents_word _ _ _ _ _ Hr) as Hword.
  pose proof (zlen_nonneg l) as Hl0.
  pose proof (other_of_ne self) as Hoth.
  pose proof (layout_base_other self y) as Hbo.
  destruct Henv as (HN & HNm & Hmax).
  pose proof SizeType_modulus_eq as Hmod.
  apply wp_from; [done|].
  unfold EmplaceBack. wp_ok storage_run.
  cbv zeta. cbn [mem mk_state]. rewrite Hv.
  cbn [view_size view_capacity view_data ptr_add]. rewrite Z.add_0_l.
  case_decide as Hfull.
  - rewrite (proj2 (Z.eqb_eq _ _)) by done. cbn [negb].
    unfold EmplaceBackSlow. wp_ok storage_run.
    cbv zeta. cbn [mem mk_state]. rewrite Hv.
    cbn [view_size view_capacity view_data ptr_add].
    rewrite NextCapacity_double by lia.
    apply wp_with_AllocationTransaction.
    destruct (decide (2 * c ≤ max_size)) as [Hfit|Hbig]; cycle 1.
    { eapply wp_Throw; [|lia]. apply bind_Throw.
      apply AllocationTransaction_Allocate_too_large. lia. }
    wp_step ltac:(
      eapply runs_fallible;
      [apply AllocationTransaction_Allocate_run; lia|simpl; lia]).
    cbn [mem mk_state ptr_add]. fold a. rewrite Z.add_0_l.
    wp_step ltac:(
      eapply runs_fallible; [apply construct_run|simpl; lia]).
    { cbn [mem mk_state]. rewrite slot_at_get_buf. get_buf_simpl. simpl.
      rewrite zlookup_raw_buffer, decide_True by lia. done. }
    rewrite state_after_mk_state. cbn [mem mk_state].
    wp_step ltac:(
      apply runs_catch_any;
      eapply runs_bind;
        [apply runs_Ok; [apply AllocationTransaction_GetData_run|simpl; lia]|];
      cbn [allocation_tx_data];
      eapply runs_bind; [|apply runs_ret];
      eapply runs_loop;
      [apply (ConstructElements_move_run (HeapBlock a) 0 (layout_base self y) 0
                (zlen l) (zlookup l)); [done|done|..]|simpl; lia]).
    { intros j Hj. cbn [mem mk_state].
      rewrite slot_at_get_buf. get_buf_simpl. rewrite Hbuf. simpl.
      rewrite zlookup_buffer_of_in by lia. split; [done|].
      apply zlookup_is_Some. lia. }
    { intros j Hj. cbn [mem mk_state].
      rewrite slot_at_get_buf. get_buf_simpl. simpl. slots_simpl.
      rewrite decide_False by lia. simpl. by rewrite decide_True by lia. }
    rewrite state_after_mk_state. cbn [mem mk_state].
    wp_step ltac:(apply runs_Ok; [apply DestroyElements_run; [done|]|simpl; lia]).
    { intros j Hj. cbn [mem mk_state].
      rewrite slot_at_get_buf. get_buf_simpl. rewrite Hbuf. simpl.
      slots_simpl. rewrite decide_True by lia. simpl.
      by apply slot_live_moved. }
    rewrite state_after_mk_state. cbn [mem mk_state].
    wp_step ltac:(
      eapply (DeallocateIfAllocated_runs _ self y l c (mem s)); [done|..]).
    { by storage_simpl. }
    { intros a0 ->. cbn [layout_base] in *. split; [by storage_simpl|].
      eexists. split; [get_buf_simpl; rewrite Hbuf; reflexivity|].
      rewrite !zlen_zupdate. by apply zlen_buffer_of. }
    wp_ok AcquireAllocatedData_run.
    cbn [allocation_tx_data allocation_tx_capacity].
    wp_ok update_storage_run.
    wp_ok update_storage_run.
    wp_step ltac:(apply runs_ret).
    wp_ok AllocationTransaction_dtor_idle.
    split; [|done].
    eapply (updated_realloc self y l c s (l ++ [v]) (2 * c) _ a);
      [done|done|..]; cbn [mem mk_state].
    + storage_simpl. cbv beta. unfold GetSizeAndIsAllocated. simpl.
      storage_simpl.
      rewrite Hword, word_set_allocated, zlen_snoc.
      apply (word_add (LayoutAllocated 0)); lia.
    + by storage_simpl.
    + destruct y; cbn [release_layout] in *; get_buf_simpl; simpl; f_equal;
        (apply buffer_of_eq;
         [rewrite zlen_zupdate, zlen_zinsert; apply zlen_raw_buffer; lia
         |rewrite zlen_snoc; lia
         |intros j Hj; slots_simpl; rewrite zlen_raw_buffer by lia;
          rewrite zlookup_snoc;
          repeat case_decide; simpl; try lia; try done;
          [do 2 f_equal; lia|rewrite zlookup_outside; [done|lia]]]).
    + intros k Hk1 Hk2.
      destruct y; cbn [release_layout] in *; by get_buf_simpl.
    + intros a0 ->. cbn [release_layout]. by get_buf_simpl.
    + by storage_simpl.
    + rewrite zlen_snoc. lia.
    + lia.
    + done.
  - rewrite (proj2 (Z.eqb_neq _ _)) by done. cbn [negb].
    wp_step ltac:(
      eapply runs_fallible; [apply construct_run|simpl; lia]).
    { cbn [mem mk_state]. rewrite slot_at_get_buf, Hbuf. simpl.
      rewrite zlookup_buffer_of_in, zlookup_outside by lia. done. }
    rewrite state_after_mk_state. cbn [mem mk_state].
    wp_ok update_storage_run.
    wp_step ltac:(apply runs_ret).
    split; [|done].
    apply (updated_inplace self y l c); [done|..]; cbn [mem mk_state].
    + storage_simpl. cbv beta. unfold GetSizeAndIsAllocated. simpl.
      storage_simpl. rewrite Hword, zlen_snoc. apply word_add; lia.
    + intros a0 ->. by storage_simpl.
    + destruct y; get_buf_simpl; rewrite Hbuf; simpl; f_equal;
        (apply buffer_of_eq;
         [rewrite zlen_zinsert; by apply zlen_buffer_of
         |rewrite zlen_snoc; lia
         |intros j Hj; slots_simpl; rewrite zlen_buffer_of by lia;
          rewrite zlookup_snoc; repeat case_decide; try lia; done]).
    + intros k Hk. destruct y; by get_buf_simpl.
    + by storage_simpl.
    + rewrite zlen_snoc. lia.
    + done.
Qed.

End shrink_emplace.

Section initialize_assign_resize.
Context {T : Type} {VT : ValueType T} {Env : Environment}.
Implicit Types (m : Memory (T:=T)) (st : Storage (T:=T)) (s : State (T:=T))
  (buf : list (option T)) (l : list T) (w : Who) (b : Base) (p : Pointer)
  (d : Data (T:=T)) (h : gmap nat (list (option T)))
  (f : Storage (T:=T) → Storage (T:=T)) (g : Z → option T)
  (ats : list AllocationTransaction) (cts : list ConstructionTransaction)
  (evs : list (Event (T:=T))).

#[local] Arguments write_slot : simpl never.
#[local] Arguments slot_at : simpl never.
#[local] Arguments range_update : simpl never.
#[local] Arguments construct_events : simpl never.
#[local] Arguments move_construct_events : simpl never.
#[local] Arguments destroy_events : simpl never.
#[local] Arguments assign_events : simpl never.
#[local] Arguments move_assign_events : simpl never.
#[local] Arguments swap_events : simpl never.

Lemma wp_bind_assoc {A B C} X (c : M A) (k : A → M B) (k' : B → M C) s
    (Q : C → State → Prop) :
  wp X (c ≫= λ a, k a ≫= k') s Q → wp X ((c ≫= k) ≫= k') s Q.
Proof. unfold wp. by rewrite bind_assoc. Qed.

Lemma allocate_mk capacity s m ats cts evs t :
  capacity ≤ max_size →
  let a := fresh (dom (heap m)) in
  allocate capacity (mk_state s m ats cts evs t) =
    if faults (tick (mk_state s m ats cts evs t))
    then Throw bad_alloc
           (mk_state s m ats cts (evs ++ [EvThrow bad_alloc]) (t + 1))
    else Ok (Ptr (HeapBlock a) 0)
           (mk_state s (set_heap (<[a := raw_buffer capacity]> (heap m)) m)
              ats cts (evs ++ [EvAllocate a capacity]) (t + 1)).
Proof.
  intros Hc a. rewrite allocate_run by done. cbn [tick mk_state mem].
  destruct (faults (tick s + t)); by rewrite state_after_mk_state.
Qed.

Lemma word_set_size (y : Layout) st n size :
  metadata_size_and_is_allocated st =
    2 * n + match y with LayoutInlined => 0 | LayoutAllocated _ => 1 end →
  0 ≤ size → 2 * size + 1 < SizeType_modulus →
  Z.lor (sz_shl size 1) (Z.b2z (GetIsAllocated st)) =
    2 * size + match y with LayoutInlined => 0 | LayoutAllocated _ => 1 end.
Proof.
  intros Hw Hs Hm. rewrite sz_shl_1 by lia. destruct y.
  - rewrite (GetIsAllocated_even st n) by lia. apply (lor_bit size false).
  - rewrite (GetIsAllocated_odd st n) by lia. apply (lor_bit size true).
Qed.

Lemma next_values_app values n1 n2 vs values' :
  next_values values (n1 + n2) = Some (vs, values') →
  ∃ vs1 vs2 values1,
    next_values values n1 = Some (vs1, values1) ∧
    next_values values1 n2 = Some (vs2, values') ∧ vs = vs1 ++ vs2.
Proof.
  revert values vs. induction n1 as [|n1 IH]; intros values vs; simpl.
  - intros H. by exists [], vs, values.
  - destruct (next_value values) as [[v values0]|]; [|done]. simpl.
    destruct (next_values values0 (n1 + n2)) as [[vs0 values2]|] eqn:E;
      [|done]. simpl. intros [= <- <-].
    destruct (IH _ _ E) as (vs1 & vs2 & values1 & H1 & H2 & ->).
    exists (v :: vs1), vs2, values1. by rewrite H1.
Qed.

Lemma zlen_next_values values n vs values' :
  next_values values n = Some (vs, values') → zlen vs = Z.of_nat n.
Proof. intros H. unfold zlen. by rewrite (next_values_length _ _ _ _ H). Qed.

(** ** [Initialize] *)

Lemma Initialize_wp self values new_size vs values' s :
  env_ok → represents (mem s) self [] N LayoutInlined → no_guards s →
  0 ≤ new_size →
  next_values values (Z.to_nat new_size) = Some (vs, values') →
  let a := fresh (dom (heap (mem s))) in
  let c' := ComputeCapacity N new_size in
  wp (N < new_size ∧ max_size < c') (Initialize self values new_size) s
    (λ _ s',
       if decide (new_size ≤ N)
       then updated self LayoutInlined vs N LayoutInlined s s'
       else updated self LayoutInlined vs c' (LayoutAllocated a) s s').
Proof.
  intros Henv Hr Hg Hn Hvs a c'.
  pose proof (layout_base_fresh _ _ _ _ _ Hr) as Hfresh. fold a in Hfresh.
  pose proof (represents_buffer _ _ _ _ _ Hr) as Hbuf.
  pose proof (represents_word _ _ _ _ _ Hr) as Hword.
  pose proof (zlen_next_values _ _ _ _ Hvs) as Hlen.
  rewrite Z2Nat.id in Hlen by done.
  pose proof (other_of_ne self) as Hoth.
  cbn [layout_base] in *. change (zlen []) with 0 in Hword.
  rewrite buffer_of_nil in Hbuf.
  destruct Henv as (HN & HNm & Hmax).
  pose proof SizeType_modulus_eq as Hmod.
  assert (c' = Z.max (2 * N) new_size) as Hc'
    by (apply ComputeCapacity_bounds; lia).
  apply wp_from; [done|].
  unfold Initialize. wp_ok storage_run. cbn [mem mk_state].
  rewrite (GetIsAllocated_even _ 0), (GetSize_even _ 0) by done.
  cbn [negb Z.eqb]. apply wp_assert. apply wp_assert.
  unfold GetInlinedCapacity, GetInlinedData.
  case_decide as Hsmall.
  - rewrite (proj2 (Z.ltb_ge _ _)) by lia.
    wp_step ltac:(apply runs_ret).
    wp_step ltac:(
      eapply runs_loop;
      [apply (ConstructElements_ext_run _ _ _ _ vs values'); [done|]
      |simpl; lia]).
    { intros j Hj. cbn [mem mk_state]. rewrite slot_at_get_buf, Hbuf. simpl.
      rewrite zlookup_raw_buffer, decide_True by lia. done. }
    rewrite state_after_mk_state. cbn [mem mk_state].
    wp_ok update_storage_run.
    apply (updated_inplace self LayoutInlined [] N); [done|..];
      cbn [mem mk_state layout_base].
    + storage_simpl. cbv beta. unfold GetSizeAndIsAllocated. simpl.
      storage_simpl. rewrite Hword.
      rewrite (word_add LayoutInlined 0) by lia. simpl. lia.
    + done.
    + get_buf_simpl. rewrite Hbuf. simpl. f_equal.
      apply buffer_of_eq; [|lia|].
      * rewrite zlen_zupdate. apply zlen_raw_buffer. lia.
      * intros j Hj. slots_simpl.
        case_decide; simpl; [do 2 f_equal; lia|].
        rewrite zlookup_outside; [done|lia].
    + intros k Hk. by get_buf_simpl.
    + by storage_simpl.
    + lia.
    + done.
  - rewrite (proj2 (Z.ltb_lt _ _)) by lia. cbv zeta. fold c'.
    apply wp_bind_assoc.
    destruct (decide (c' ≤ max_size)) as [Hfit|Hbig]; cycle 1.
    { eapply wp_Throw; [|lia]. apply bind_Throw.
      apply allocate_too_large. lia. }
    wp_step ltac:(eapply runs_fallible; [by apply allocate_mk|simpl; lia]).
    cbn [mem mk_state]. fold a.
    apply wp_bind_assoc. wp_ok update_storage_run.
    apply wp_bind_assoc. wp_ok update_storage_run.
    wp_step ltac:(apply runs_ret).
    wp_step ltac:(
      eapply runs_loop;
      [apply (ConstructElements_ext_run _ _ _ _ vs values'); [done|]
      |simpl; lia]).
    { intros j Hj. cbn [mem mk_state]. rewrite slot_at_get_buf.
      get_buf_simpl. simpl.
      rewrite zlookup_raw_buffer, decide_True by lia. done. }
    rewrite state_after_mk_state. cbn [mem mk_state].
    wp_ok update_storage_run.
    eapply (updated_realloc self LayoutInlined [] N s vs c' _ a);
      [done|done|..]; cbn [mem mk_state].
    + storage_simpl. cbv beta. unfold GetSizeAndIsAllocated. simpl.
      storage_simpl. rewrite Hword.
      rewrite (word_set_allocated LayoutInlined 0).
      rewrite (word_add (LayoutAllocated 0) 0) by lia. lia.
    + by storage_simpl.
    + get_buf_simpl. simpl. f_equal. apply buffer_of_eq; [|lia|].
      * rewrite zlen_zupdate. apply zlen_raw_buffer. lia.
      * intros j Hj. slots_simpl.
        case_decide; simpl; [do 2 f_equal; lia|].
        rewrite zlookup_outside; [done|lia].
    + intros k Hk1 Hk2. by get_buf_simpl.
    + done.
    + by storage_simpl.
    + lia.
    + lia.
    + done.
Qed.

(** ** [Assign] *)

Lemma sz_sub_small (n k : Z) :
  0 ≤ k ≤ n → n < SizeType_modulus → sz_sub n k = n - k.
Proof. intros. unfold sz_sub. apply wrap_small. lia. Qed.

Lemma Assign_wp self values new_size vs values' s l c y :
  env_ok → represents (mem s) self l c y → no_guards s →
  0 ≤ new_size →
  next_values values (Z.to_nat new_size) = Some (vs, values') →
  let a := fresh (dom (heap (mem s))) in
  let c' := ComputeCapacity c new_size in
  wp (c < new_size ∧ max_size < c') (Assign self values new_size) s
    (λ _ s',
       if decide (new_size ≤ c) then updated self y vs c y s s'
       else updated self y vs c' (LayoutAllocated a) s s').
Proof.
  intros Henv Hr Hg Hn Hvs a c'.
  pose proof (view_of_represents _ _ _ _ _ Hr) as Hv.
  destruct (represents_bounds _ _ _ _ _ Henv Hr) as [Hlc [HNc Hcm]].
  pose proof (layout_base_fresh _ _ _ _ _ Hr) as Hfresh. fold a in Hfresh.
  pose proof (represents_buffer _ _ _ _ _ Hr) as Hbuf.
  pose proof (represents_word _ _ _ _ _ Hr) as Hword.
  pose proof (zlen_nonneg l) as Hl0.
  pose proof (other_of_ne self) as Hoth.
  pose proof (layout_base_other self y) as Hbo.
  pose proof (zlen_next_values _ _ _ _ Hvs) as Hlen.
  rewrite Z2Nat.id in Hlen by done.
  destruct Henv as (HN & HNm & Hmax).
  pose proof SizeType_modulus_eq as Hmod.
  assert (c' = Z.max (2 * c) new_size) as Hc'
    by (apply ComputeCapacity_bounds; lia).
  apply wp_from; [done|].
  unfold Assign. wp_ok storage_run.
  cbv zeta. cbn [mem mk_state]. rewrite Hv.
  cbn [view_size view_capacity view_data ptr_add]. rewrite Z.add_0_l.
  apply wp_with_AllocationTransaction.
  case_decide as Hfits.
  - rewrite (proj2 (Z.ltb_ge _ _)) by lia.
    destruct (decide (zlen l < new_size)) as [Hgrow|Hshrink].
    + rewrite (proj2 (Z.ltb_lt _ _)) by lia.
      wp_step ltac:(apply runs_ret). cbn [span_data span_size].
      rewrite sz_sub_small by lia.
      replace (Z.to_nat new_size)
        with (Z.to_nat (zlen l) + Z.to_nat (new_size - zlen l))%nat
        in Hvs by lia.
      apply next_values_app in Hvs
        as (vs1 & vs2 & values1 & Hvs1 & Hvs2 & ->).
      pose proof (zlen_next_values _ _ _ _ Hvs1) as Hlen1.
      pose proof (zlen_next_values _ _ _ _ Hvs2) as Hlen2.
      rewrite Z2Nat.id in Hlen1, Hlen2 by lia.
      wp_step ltac:(
        apply (AssignElements_ext_runs _ _ _ _ _ vs1 values1); [done|]).
      { intros j Hj. cbn [mem mk_state]. rewrite slot_at_get_buf, Hbuf.
        simpl. rewrite zlookup_buffer_of_in by lia.
        assert (is_Some (zlookup l j)) as [v' Hv']
          by (apply zlookup_is_Some; lia).
        rewrite Hv'. eauto. }
      rewrite state_after_mk_state. cbn [mem mk_state].
      wp_step ltac:(
        eapply runs_loop;
        [apply (ConstructElements_ext_run _ _ _ _ vs2 values'); [done|]
        |simpl; lia]).
      { intros j Hj. cbn [mem mk_state]. rewrite slot_at_get_buf.
        get_buf_simpl. rewrite Hbuf. simpl. slots_simpl.
        rewrite decide_False by lia. simpl.
        rewrite zlookup_outside; [done|lia]. }
      rewrite state_after_mk_state. cbn [mem mk_state].
      wp_ok DestroyElements_null.
      wp_ok AllocationTransaction_DidAllocate_run.
      cbn [allocation_tx_data no_allocation is_null negb].
      wp_step ltac:(apply runs_ret).
      wp_ok update_storage_run.
      wp_ok AllocationTransaction_dtor_idle.
      apply (updated_inplace self y l c); [done|..]; cbn [mem mk_state].
      * storage_simpl. cbv beta. simpl. rewrite zlen_app.
        rewrite (word_set_size y _ (zlen l)); [lia| |lia|lia].
        storage_simpl. exact Hword.
      * intros a0 ->. by storage_simpl.
      * destruct y; get_buf_simpl; rewrite Hbuf; simpl; f_equal;
          (apply buffer_of_eq;
           [rewrite !zlen_zupdate; by apply zlen_buffer_of
           |rewrite zlen_app; lia
           |intros j Hj; slots_simpl; rewrite zlookup_app; slots_done]).
      * intros k Hk. destruct y; by get_buf_simpl.
      * by storage_simpl.
      * rewrite zlen_app. lia.
      * done.
    + rewrite (proj2 (Z.ltb_ge _ _)) by lia.
      wp_step ltac:(apply runs_ret). cbn [span_data span_size].
      rewrite sz_sub_small by lia.
      wp_step ltac:(
        apply (AssignElements_ext_runs _ _ _ _ _ vs values'); [done|]).
      { intros j Hj. cbn [mem mk_state]. rewrite slot_at_get_buf, Hbuf.
        simpl. rewrite zlookup_buffer_of_in by lia.
        assert (is_Some (zlookup l j)) as [v' Hv']
          by (apply zlookup_is_Some; lia).
        rewrite Hv'. eauto. }
      rewrite state_after_mk_state. cbn [mem mk_state].
      wp_step ltac:(apply ConstructElements_none_runs).
      wp_step ltac:(apply runs_Ok; [apply DestroyElements_run; [lia|]|simpl; lia]).
      { intros j Hj. cbn [mem mk_state]. rewrite slot_at_get_buf.
        get_buf_simpl. rewrite Hbuf. simpl. slots_simpl.
        rewrite decide_False by lia. simpl.
        assert (is_Some (zlookup l j)) as [v' Hv']
          by (apply zlookup_is_Some; lia).
        rewrite Hv'. eauto. }
      rewrite state_after_mk_state. cbn [mem mk_state].
      wp_ok AllocationTransaction_DidAllocate_run.
      cbn [allocation_tx_data no_allocation is_null negb].
      wp_step ltac:(apply runs_ret).
      wp_ok update_storage_run.
      wp_ok AllocationTransaction_dtor_idle.
      apply (updated_inplace self y l c); [done|..]; cbn [mem mk_state].
      * storage_simpl. cbv beta. simpl.
        rewrite (word_set_size y _ (zlen l)); [lia| |lia|lia].
        storage_simpl. exact Hword.
      * intros a0 ->. by storage_simpl.
      * destruct y; get_buf_simpl; rewrite Hbuf; simpl; f_equal;
          (apply buffer_of_eq;
           [rewrite !zlen_zupdate; by apply zlen_buffer_of
           |lia
           |intros j Hj; slots_simpl; slots_done]).
      * intros k Hk. destruct y; by get_buf_simpl.
      * by storage_simpl.
      * lia.
      * done.
  - rewrite (proj2 (Z.ltb_lt _ _)) by lia. cbv zeta. fold c'.
    apply wp_bind_assoc.
    destruct (decide (c' ≤ max_size)) as [Hfit|Hbig]; cycle 1.
    { eapply wp_Throw; [|lia]. apply bind_Throw.
      apply AllocationTransaction_Allocate_too_large. lia. }
    wp_step ltac:(
      eapply runs_fallible;
      [apply AllocationTransaction_Allocate_run; lia|simpl; lia]).
    cbn [mem mk_state]. fold a.
    wp_step ltac:(apply runs_ret). cbn [span_data span_size].
    wp_step ltac:(apply AssignElements_none_runs).
    wp_step ltac:(
      eapply runs_loop;
      [apply (ConstructElements_ext_run _ _ _ _ vs values'); [done|]
      |simpl; lia]).
    { intros j Hj. cbn [mem mk_state]. rewrite slot_at_get_buf.
      get_buf_simpl. simpl.
      rewrite zlookup_raw_buffer, decide_True by lia. done. }
    rewrite state_after_mk_state. cbn [mem mk_state].
    wp_step ltac:(apply runs_Ok; [apply DestroyElements_run; [done|]|simpl; lia]).
    { intros j Hj. cbn [mem mk_state]. rewrite slot_at_get_buf.
      get_buf_simpl. rewrite Hbuf. simpl.
      rewrite zlookup_buffer_of_in by lia.
      assert (is_Some (zlookup l j)) as [v' Hv']
        by (apply zlookup_is_Some; lia).
      rewrite Hv'. eauto. }
    rewrite state_after_mk_state. cbn [mem mk_state].
    wp_ok AllocationTransaction_DidAllocate_run.
    cbn [allocation_tx_data is_null negb].
    apply wp_bind_assoc.
    wp_step ltac:(
      eapply (DeallocateIfAllocated_runs _ self y l c (mem s)); [done|..]).
    { by storage_simpl. }
    { intros a0 ->. cbn [layout_base] in *. split; [by storage_simpl|].
      eexists. split; [get_buf_simpl; rewrite Hbuf; reflexivity|].
      rewrite !zlen_zupdate. by apply zlen_buffer_of. }
    apply wp_bind_assoc.
    wp_ok AcquireAllocatedData_run.
    cbn [allocation_tx_data allocation_tx_capacity].
    wp_ok update_storage_run.
    wp_ok update_storage_run.
    wp_ok AllocationTransaction_dtor_idle.
    eapply (updated_realloc self y l c s vs c' _ a);
      [done|done|..]; cbn [mem mk_state].
    + storage_simpl. cbv beta. simpl.
      rewrite (word_set_size (LayoutAllocated 0) _ (zlen l)); [lia| |lia|lia].
      simpl. unfold GetSizeAndIsAllocated. simpl. storage_simpl.
      rewrite Hword. apply word_set_allocated.
    + by storage_simpl.
    + destruct y; cbn [release_layout] in *; get_buf_simpl; simpl; f_equal;
        (apply buffer_of_eq;
         [rewrite zlen_zupdate; apply zlen_raw_buffer; lia
         |lia
         |intros j Hj; slots_simpl;
          case_decide; simpl; [do 2 f_equal; lia|];
          rewrite zlookup_outside; [done|lia]]).
    + intros k Hk1 Hk2.
      destruct y; cbn [release_layout] in *; by get_buf_simpl.
    + intros a0 ->. cbn [release_layout]. by get_buf_simpl.
    + by storage_simpl.
    + lia.
    + lia.
    + done.
Qed.

(** ** Construction guards *)

Lemma set_construction_tx_mk hd tx s m ats cts evs t :
  set_construction_tx hd tx (mk_state s m ats cts evs t) =
  Ok tt (mk_state s m ats (<[hd := tx]> cts) evs t).
Proof. done. Qed.

Lemma ConstructionTransaction_Commit_mk hd s m ats cts evs t :
  ConstructionTransaction_Commit hd (mk_state s m ats cts evs t) =
  Ok tt (mk_state s m ats (<[hd := no_construction]> cts) evs t).
Proof. done. Qed.

Lemma ConstructionTransaction_dtor_idle hd s m ats cts evs t :
  cts !! hd = Some no_construction →
  ConstructionTransaction_dtor hd (mk_state s m ats cts evs t) =
  Ok tt (mk_state s m ats (take hd cts) evs t).
Proof.
  intros Hc. unfold ConstructionTransaction_dtor,
    ConstructionTransaction_DidConstruct, ConstructionTransaction_GetData.
  unfold mbind, M_bind, construction_tx. cbn [construction_txs mk_state].
  by rewrite Hc.
Qed.

Lemma with_construction_txs_mk_state F s m ats cts evs t :
  with_construction_txs F (mk_state s m ats cts evs t) =
  mk_state s m ats (F cts) evs t.
Proof. done. Qed.

Lemma ConstructionTransaction_Construct_runs X hd data values size values'
    s1 s2 :
  runs X (ConstructElements data values size) s1 values' s2 →
  runs X (ConstructionTransaction_Construct hd data values size) s1 values'
    (with_construction_txs
       (λ cts, <[hd := {| construction_tx_data := data;
                          construction_tx_size := size |}]> cts) s2).
Proof.
  intros H. unfold ConstructionTransaction_Construct.
  eapply runs_bind; [exact H|].
  eapply runs_bind; [|apply runs_ret].
  by apply runs_Ok.
Qed.

(** ** [Resize] *)

Lemma Resize_wp self values new_size vs values' s l c y :
  env_ok → represents (mem s) self l c y → no_guards s →
  0 ≤ new_size →
  next_values values (Z.to_nat (new_size - zlen l)) = Some (vs, values') →
  let a := fresh (dom (heap (mem s))) in
  let c' := ComputeCapacity c new_size in
  let l' := take (Z.to_nat new_size) l ++ vs in
  wp (c < new_size ∧ max_size < c') (Resize self values new_size) s
    (λ _ s',
       if decide (new_size ≤ c) then updated self y l' c y s s'
       else updated self y l' c' (LayoutAllocated a) s s').
Proof.
  intros Henv Hr Hg Hn Hvs a c' l'.
  pose proof (view_of_represents _ _ _ _ _ Hr) as Hv.
  destruct (represents_bounds _ _ _ _ _ Henv Hr) as [Hlc [HNc Hcm]].
  pose proof (layout_base_fresh _ _ _ _ _ Hr) as Hfresh. fold a in Hfresh.
  pose proof (represents_buffer _ _ _ _ _ Hr) as Hbuf.
  pose proof (represents_word _ _ _ _ _ Hr) as Hword.
  pose proof (zlen_nonneg l) as Hl0.
  pose proof (other_of_ne self) as Hoth.
  pose proof (layout_base_other self y) as Hbo.
  pose proof (zlen_next_values _ _ _ _ Hvs) as Hlen.
  destruct Henv as (HN & HNm & Hmax).
  pose proof SizeType_modulus_eq as Hmod.
  assert (c' = Z.max (2 * c) new_size) as Hc'
    by (apply ComputeCapacity_bounds; lia).
  assert (zlen l' = new_size) as Hlen'.
  { unfold l'. rewrite zlen_app, zlen_take. lia. }
  assert (∀ j, zlookup l' j =
            if decide (j < new_size)
            then (if decide (j < zlen l) then zlookup l j
                  else zlookup vs (j - zlen l))
            else None) as Hl'.
  { intros j. unfold l'. rewrite zlookup_app, zlen_take, zlookup_take.
    slots_done. }
  clearbody l'.
  apply wp_from; [done|].
  unfold Resize. wp_ok storage_run.
  cbv zeta. cbn [mem mk_state]. rewrite Hv.
  cbn [view_size view_capacity view_data ptr_add]. rewrite !Z.add_0_l.
  apply wp_bind.
  case_decide as Hfits.
  - destruct (decide (new_size ≤ zlen l)) as [Hshrink|Hgrow].
    + rewrite (proj2 (Z.leb_le _ _)) by lia.
      rewrite sz_sub_small by lia.
      wp_step ltac:(apply runs_Ok; [apply DestroyElements_run; [lia|]|simpl; lia]).
      { intros j Hj. cbn [mem mk_state]. rewrite slot_at_get_buf, Hbuf.
        simpl. rewrite zlookup_buffer_of_in by lia.
        assert (is_Some (zlookup l j)) as [v' Hv']
          by (apply zlookup_is_Some; lia).
        rewrite Hv'. eauto. }
      rewrite state_after_mk_state. cbn [mem mk_state].
      wp_ok update_storage_run.
      apply (updated_inplace self y l c); [done|..]; cbn [mem mk_state].
      * storage_simpl. cbv beta. simpl.
        rewrite (word_set_size y _ (zlen l)); [lia| |lia|lia].
        storage_simpl. exact Hword.
      * intros a0 ->. by storage_simpl.
      * destruct y; get_buf_simpl; rewrite Hbuf; simpl; f_equal;
          (apply buffer_of_eq;
           [rewrite !zlen_zupdate; by apply zlen_buffer_of
           |lia
           |intros j Hj; slots_simpl; rewrite Hl'; slots_done]).
      * intros k Hk. destruct y; by get_buf_simpl.
      * by storage_simpl.
      * lia.
      * done.
    + rewrite (proj2 (Z.leb_gt _ _)) by lia.
      rewrite (proj2 (Z.leb_le _ _)) by lia.
      rewrite sz_sub_small by lia.
      wp_step ltac:(
        eapply runs_loop;
        [apply (ConstructElements_ext_run _ _ _ _ vs values'); [done|]
        |simpl; lia]).
      { intros j Hj. cbn [mem mk_state]. rewrite slot_at_get_buf, Hbuf.
        simpl. rewrite zlookup_buffer_of_in by lia.
        rewrite zlookup_outside; [done|lia]. }
      rewrite state_after_mk_state. cbn [mem mk_state].
      wp_step ltac:(apply runs_ret).
      wp_ok update_storage_run.
      apply (updated_inplace self y l c); [done|..]; cbn [mem mk_state].
      * storage_simpl. cbv beta. simpl.
        rewrite (word_set_size y _ (zlen l)); [lia| |lia|lia].
        storage_simpl. exact Hword.
      * intros a0 ->. by storage_simpl.
      * destruct y; get_buf_simpl; rewrite Hbuf; simpl; f_equal;
          (apply buffer_of_eq;
           [rewrite !zlen_zupdate; by apply zlen_buffer_of
           |lia
           |intros j Hj; slots_simpl; rewrite Hl'; slots_done]).
      * intros k Hk. destruct y; by get_buf_simpl.
      * by storage_simpl.
      * lia.
      * done.
  - rewrite (proj2 (Z.leb_gt _ _)) by lia.
    rewrite (proj2 (Z.leb_gt _ _)) by lia. fold c'.
    apply wp_with_AllocationTransaction.
    destruct (decide (c' ≤ max_size)) as [Hfit|Hbig]; cycle 1.
    { eapply wp_Throw; [|lia]. apply bind_Throw.
      apply AllocationTransaction_Allocate_too_large. lia. }
    rewrite sz_sub_small by lia.
    wp_step ltac:(
      eapply runs_fallible;
      [apply AllocationTransaction_Allocate_run; lia|simpl; lia]).
    cbn [mem mk_state ptr_add]. fold a. rewrite Z.add_0_l.
    apply wp_with_ConstructionTransaction. cbn [length app].
    wp_step ltac:(
      apply ConstructionTransaction_Construct_runs;
      eapply runs_loop;
      [apply (ConstructElements_ext_run _ _ _ _ vs values'); [done|]
      |simpl; lia]).
    { intros j Hj. cbn [mem mk_state]. rewrite slot_at_get_buf.
      get_buf_simpl. simpl.
      rewrite zlookup_raw_buffer, decide_True by lia. done. }
    rewrite state_after_mk_state, with_construction_txs_mk_state.
    cbn [mem mk_state insert list_insert].
    wp_step ltac:(
      eapply runs_loop;
      [apply (ConstructElements_move_run (HeapBlock a) 0 (layout_base self y) 0
                (zlen l) (zlookup l)); [done|done|..]|simpl; lia]).
    { intros j Hj. cbn [mem mk_state].
      rewrite slot_at_get_buf. get_buf_simpl. rewrite Hbuf. simpl.
      rewrite zlookup_buffer_of_in by lia. split; [done|].
      apply zlookup_is_Some. lia. }
    { intros j Hj. cbn [mem mk_state].
      rewrite slot_at_get_buf. get_buf_simpl. simpl. slots_simpl.
      by rewrite decide_False by lia. }
    rewrite state_after_mk_state. cbn [mem mk_state].
    wp_step ltac:(apply runs_Ok; [apply DestroyElements_run; [done|]|simpl; lia]).
    { intros j Hj. cbn [mem mk_state].
      rewrite slot_at_get_buf. get_buf_simpl. rewrite Hbuf. simpl.
      slots_simpl. rewrite decide_True by lia. simpl.
      by apply slot_live_moved. }
    rewrite state_after_mk_state. cbn [mem mk_state].
    wp_ok ConstructionTransaction_Commit_mk. cbn [insert list_insert].
    wp_step ltac:(
      eapply (DeallocateIfAllocated_runs _ self y l c (mem s)); [done|..]).
    { by storage_simpl. }
    { intros a0 ->. cbn [layout_base] in *. split; [by storage_simpl|].
      eexists. split; [get_buf_simpl; rewrite Hbuf; reflexivity|].
      rewrite !zlen_zupdate. by apply zlen_buffer_of. }
    wp_ok AcquireAllocatedData_run.
    cbn [allocation_tx_data allocation_tx_capacity].
    wp_ok update_storage_run.
    wp_step ltac:(
      apply runs_Ok; [by apply ConstructionTransaction_dtor_idle|simpl; lia]).
    cbn [take].
    wp_ok AllocationTransaction_dtor_idle.
    wp_ok update_storage_run.
    eapply (updated_realloc self y l c s l' c' _ a);
      [done|done|..]; cbn [mem mk_state].
    + storage_simpl. cbv beta. simpl.
      rewrite (word_set_size (LayoutAllocated 0) _ (zlen l)); [lia| |lia|lia].
      simpl. unfold GetSizeAndIsAllocated. simpl. storage_simpl.
      rewrite Hword. apply word_set_allocated.
    + by storage_simpl.
    + destruct y; cbn [release_layout] in *; get_buf_simpl; simpl; f_equal;
        (apply buffer_of_eq;
         [rewrite !zlen_zupdate; apply zlen_raw_buffer; lia
         |lia
         |intros j Hj; slots_simpl; rewrite Hl'; slots_done]).
    + intros k Hk1 Hk2.
      destruct y; cbn [release_layout] in *; by get_buf_simpl.
    + intros a0 ->. cbn [release_layout]. by get_buf_simpl.
    + by storage_simpl.
    + lia.
    + lia.
    + done.
Qed.

End initialize_assign_resize.

Section liveness.
Context {T : Type} {VT : ValueType T}.

Lemma slot_live (l : list T) j :
  0 ≤ j < zlen l → ∃ v, Some (zlookup l j) = Some (Some v).
Proof.
  intros Hj. assert (is_Some (zlookup l j)) as [v Hv]
    by (by apply zlookup_is_Some).
  exists v. by rewrite Hv.
Qed.

Lemma slot_live_self (l : list T) j :
  0 ≤ j < zlen l → ∃ v, Some (self_moved <$> zlookup l j) = Some (Some v).
Proof.
  intros Hj. assert (is_Some (zlookup l j)) as [v Hv]
    by (by apply zlookup_is_Some).
  exists (self_moved v). by rewrite Hv.
Qed.

Lemma slot_live_value (v : T) : ∃ v', Some (Some v) = Some (Some v').
Proof. by exists v. Qed.

End liveness.

(** Closes the goal that a slot holds a live element, by cases on the
    ranges the index is in. *)
Ltac live_done :=
  repeat case_decide; simpl; try lia;
  first [ apply slot_live_moved; lia
        | apply slot_live; lia
        | apply slot_live_self; lia
        | apply slot_live_value ].

Section insert_erase.
Context {T : Type} {VT : ValueType T} {Env : Environment}.
Implicit Types (m : Memory (T:=T)) (st : Storage (T:=T)) (s : State (T:=T))
  (buf : list (option T)) (l : list T) (w : Who) (b : Base) (p : Pointer)
  (d : Data (T:=T)) (h : gmap nat (list (option T)))
  (f : Storage (T:=T) → Storage (T:=T)) (g : Z → option T)
  (ats : list AllocationTransaction) (cts : list ConstructionTransaction)
  (evs : list (Event (T:=T))).

#[local] Arguments write_slot : simpl never.
#[local] Arguments slot_at : simpl never.
#[local] Arguments range_update : simpl never.
#[local] Arguments construct_events : simpl never.
#[local] Arguments move_construct_events : simpl never.
#[local] Arguments destroy_events : simpl never.
#[local] Arguments assign_events : simpl never.
#[local] Arguments move_assign_events : simpl never.
#[local] Arguments swap_events : simpl never.

Lemma distance_run b i j s :
  0 ≤ j - i < SizeType_modulus →
  distance (Ptr b i) (Ptr b j) s = Ok (j - i) s.
Proof.
  intros. unfold distance. rewrite bool_decide_eq_true_2 by done.
  by rewrite wrap_small.
Qed.

Lemma sz_add_small (n k : Z) :
  0 ≤ n → 0 ≤ k → n + k < SizeType_modulus → sz_add n k = n + k.
Proof. intros. unfold sz_add. apply wrap_small. lia. Qed.

Lemma AssignElements_shift_runs X b off oS n (src : Z → option T) s :
  off < oS → 0 ≤ n →
  (∀ j, oS ≤ j < oS + n →
        slot_at (Ptr b j) (mem s) = Some (src j) ∧ is_Some (src j)) →
  (∀ j, off ≤ j < off + n → ∃ v, slot_at (Ptr b j) (mem s) = Some (Some v)) →
  runs X (AssignElements (Ptr b off) (MoveIteratorValueAdapter (Ptr b oS)) n) s
    (MoveIteratorValueAdapter (Ptr b (oS + n)))
    (state_after
       (range_update b off n (λ j, src (j - off + oS))
          (move_out_range b oS n src (mem s)))
       (move_assign_events (Ptr b off) (Ptr b oS) n) (Z.to_nat n) s).
Proof.
  intros Hlt Hn Hsrc Hlive. unfold AssignElements.
  pose proof (assign_loop_shift_runs X b off 0 oS (Z.to_nat n) src s) as H.
  rewrite Z.add_0_r, Z2Nat.id in H by done. apply H; [lia|done|done].
Qed.

Lemma AssignElements_self_runs X b off n (src : Z → option T) s :
  0 ≤ n →
  (∀ j, off ≤ j < off + n →
        slot_at (Ptr b j) (mem s) = Some (src j) ∧ is_Some (src j)) →
  runs X (AssignElements (Ptr b off) (MoveIteratorValueAdapter (Ptr b off)) n)
    s (MoveIteratorValueAdapter (Ptr b (off + n)))
    (state_after
       (range_update b off n (λ j, self_moved <$> src j) (mem s))
       (move_assign_events (Ptr b off) (Ptr b off) n) (Z.to_nat n) s).
Proof.
  intros Hn Hsrc. unfold AssignElements.
  pose proof (assign_loop_self_runs X b off 0 (Z.to_nat n) src s) as H.
  rewrite Z.add_0_r, Z2Nat.id in H by done. by apply H.
Qed.

Lemma SubtractSize_mk self (y : Layout) n count s m ats cts evs t :
  metadata_size_and_is_allocated (storage_of self m) =
    2 * n + match y with LayoutInlined => 0 | LayoutAllocated _ => 1 end →
  count ≤ n →
  SubtractSize self count (mk_state s m ats cts evs t) =
  Ok tt
    (mk_state s
       (with_storage self
          (λ st, set_word (sz_sub (GetSizeAndIsAllocated st) (sz_shl count 1))
                   st) m)
       ats cts evs t).
Proof.
  intros Hw Hc. unfold SubtractSize.
  erewrite bind_Ok by apply storage_run. cbn [mem mk_state].
  assert (GetSize (storage_of self m) = n) as ->.
  { destruct y; [apply GetSize_even|apply GetSize_odd]; lia. }
  by rewrite (proj2 (Z.leb_le _ _)) by done.
Qed.

Lemma word_sub (y : Layout) n k :
  0 ≤ k ≤ n → 2 * n + 1 < SizeType_modulus →
  sz_sub (2 * n + match y with LayoutInlined => 0 | LayoutAllocated _ => 1 end)
    (sz_shl k 1) =
  2 * (n - k) + match y with LayoutInlined => 0 | LayoutAllocated _ => 1 end.
Proof.
  intros. unfold sz_sub. rewrite sz_shl_1 by lia.
  rewrite wrap_small; destruct y; lia.
Qed.

(** ** [Erase] *)

Lemma Erase_wp self i j s l c y :
  env_ok → represents (mem s) self l c y → no_guards s →
  0 ≤ i ≤ j → j ≤ zlen l →
  let base := layout_base self y in
  let l' :=
    take (Z.to_nat i) l ++
    (if decide (i = j) then self_moved <$> drop (Z.to_nat i) l
     else drop (Z.to_nat j) l) in
  wp False (Erase self (Ptr base i) (Ptr base j)) s (λ r s',
    updated self y l' c y s s' ∧ r = Ptr base i).
Proof.
  intros Henv Hr Hg Hi Hj base l'.
  pose proof (view_of_represents _ _ _ _ _ Hr) as Hv.
  destruct (represents_bounds _ _ _ _ _ Henv Hr) as [Hlc [HNc Hcm]].
  pose proof (represents_buffer _ _ _ _ _ Hr) as Hbuf.
  pose proof (represents_word _ _ _ _ _ Hr) as Hword.
  pose proof (other_of_ne self) as Hoth.
  pose proof (layout_base_other self y) as Hbo.
  destruct Henv as (HN & HNm & Hmax).
  pose proof SizeType_modulus_eq as Hmod.
  fold base in Hv, Hbuf, Hbo.
  assert (zlen l' = zlen l - (j - i)) as Hlen'.
  { unfold l'. rewrite zlen_app, zlen_take.
    case_decide; rewrite ?zlen_fmap, zlen_drop; lia. }
  assert (∀ k, zlookup l' k =
            if decide (k < i) then zlookup l k
            else if decide (i = j) then self_moved <$> zlookup l k
            else zlookup l (k - i + j)) as Hl'.
  { intros k. unfold l'. rewrite zlookup_app, zlen_take, zlookup_take.
    destruct (decide (i = j)); rewrite ?zlookup_fmap, ?zlookup_drop;
      slots_done. }
  clearbody l'.
  apply wp_from; [done|].
  unfold Erase. wp_ok storage_run.
  cbv zeta. cbn [mem mk_state]. rewrite Hv.
  cbn [view_size view_capacity view_data ptr_add].
  wp_step ltac:(apply runs_Ok; [apply distance_run; lia|simpl; lia]).
  wp_step ltac:(apply runs_Ok; [apply distance_run; lia|simpl; lia]).
  rewrite Z.sub_0_r, !Z.add_0_l.
  rewrite (sz_add_small i (j - i)) by lia.
  replace (i + (j - i)) with j by lia.
  rewrite !sz_sub_small by lia.
  destruct (decide (i = j)) as [<-|Hne].
  - wp_step ltac:(
      apply (AssignElements_self_runs _ _ _ _ (zlookup l)); [lia|]).
    { intros k Hk. cbn [mem mk_state]. rewrite slot_at_get_buf, Hbuf. simpl.
      rewrite zlookup_buffer_of_in by lia. split; [done|].
      apply zlookup_is_Some. lia. }
    rewrite state_after_mk_state. cbn [mem mk_state].
    rewrite Z.sub_diag.
    wp_step ltac:(apply runs_Ok; [apply DestroyElements_run; [lia|]|simpl; lia]).
    { intros k Hk. lia. }
    rewrite state_after_mk_state. cbn [mem mk_state].
    wp_step ltac:(
      apply runs_Ok; [apply (SubtractSize_mk self y (zlen l))|simpl; lia]).
    { storage_simpl. exact Hword. }
    { lia. }
    wp_step ltac:(apply runs_ret).
    split; [|done].
    apply (updated_inplace self y l c); [done|..]; cbn [mem mk_state].
    + storage_simpl. cbv beta. unfold GetSizeAndIsAllocated. simpl.
      storage_simpl. rewrite Hword, word_sub by lia. lia.
    + intros a0 ->. subst base. by storage_simpl.
    + subst base. destruct y; get_buf_simpl; rewrite Hbuf; simpl; f_equal;
        (apply buffer_of_eq;
         [rewrite !zlen_zupdate; by apply zlen_buffer_of
         |lia
         |intros k Hk; slots_simpl; rewrite Hl'; slots_done]).
    + intros k Hk. subst base. destruct y; by get_buf_simpl.
    + subst base. by storage_simpl.
    + lia.
    + done.
  - wp_step ltac:(
      apply (AssignElements_shift_runs _ _ _ _ _ (zlookup l)); [lia|lia|..]).
    { intros k Hk. cbn [mem mk_state]. rewrite slot_at_get_buf, Hbuf. simpl.
      rewrite zlookup_buffer_of_in by lia. split; [done|].
      apply zlookup_is_Some. lia. }
    { intros k Hk. cbn [mem mk_state]. rewrite slot_at_get_buf, Hbuf. simpl.
      rewrite zlookup_buffer_of_in by lia. apply slot_live. lia. }
    rewrite state_after_mk_state. cbn [mem mk_state].
    wp_step ltac:(apply runs_Ok; [apply DestroyElements_run; [lia|]|simpl; lia]).
    { intros k Hk. cbn [mem mk_state]. rewrite slot_at_get_buf.
      subst base. get_buf_simpl. rewrite Hbuf. simpl. slots_simpl.
      live_done. }
    rewrite state_after_mk_state. cbn [mem mk_state].
    wp_step ltac:(
      apply runs_Ok; [apply (SubtractSize_mk self y (zlen l))|simpl; lia]).
    { subst base. storage_simpl. exact Hword. }
    { lia. }
    wp_step ltac:(apply runs_ret).
    split; [|done].
    apply (updated_inplace self y l c); [done|..]; cbn [mem mk_state].
    + subst base. storage_simpl. cbv beta. unfold GetSizeAndIsAllocated.
      simpl. storage_simpl. rewrite Hword, word_sub by lia. lia.
    + intros a0 ->. subst base. by storage_simpl.
    + subst base. destruct y; get_buf_simpl; rewrite Hbuf; simpl; f_equal;
        (apply buffer_of_eq;
         [rewrite !zlen_zupdate; by apply zlen_buffer_of
         |lia
         |intros k Hk; slots_simpl; rewrite Hl'; slots_done]).
    + intros k Hk. subst base. destruct y; by get_buf_simpl.
    + subst base. by storage_simpl.
    + lia.
    + done.
Qed.

(** ** [Insert] *)

Lemma move_backward_runs X b dl sl n (src : Z → option T) s :
  sl < dl → 0 ≤ n →
  (∀ j, sl ≤ j < sl + n →
        slot_at (Ptr b j) (mem s) = Some (src j) ∧ is_Some (src j)) →
  (∀ j, dl ≤ j < dl + n → ∃ v, slot_at (Ptr b j) (mem s) = Some (Some v)) →
  runs X
    (move_backward_loop (Z.to_nat n) (Ptr b (dl + n)) (Ptr b dl)
       (Ptr b (sl + n))) s tt
    (state_after
       (range_update b dl n (λ j, src (j - dl + sl))
          (move_out_range b sl n src (mem s)))
       (reverse (move_assign_events (Ptr b dl) (Ptr b sl) n)) (Z.to_nat n) s).
Proof.
  intros Hlt Hn Hsrc Hlive.
  pose proof (move_backward_loop_runs X b dl sl (Z.to_nat n) src s) as H.
  rewrite Z2Nat.id in H by done. by apply H.
Qed.

Lemma move_backward_self_runs X b dl n (src : Z → option T) s :
  0 ≤ n →
  (∀ j, dl ≤ j < dl + n →
        slot_at (Ptr b j) (mem s) = Some (src j) ∧ is_Some (src j)) →
  runs X
    (move_backward_loop (Z.to_nat n) (Ptr b (dl + n)) (Ptr b dl)
       (Ptr b (dl + n))) s tt
    (state_after
       (range_update b dl n (λ j, self_moved <$> src j) (mem s))
       (reverse (move_assign_events (Ptr b dl) (Ptr b dl) n)) (Z.to_nat n) s).
Proof.
  intros Hn Hsrc.
  pose proof (move_backward_loop_self_runs X b dl (Z.to_nat n) src s) as H.
  rewrite Z2Nat.id in H by done. by apply H.
Qed.

Lemma Insert_inplace_wp self i values count vs values' s l c y :
  env_ok → represents (mem s) self l c y → no_guards s →
  0 ≤ i ≤ zlen l → 0 ≤ count → zlen l + count ≤ c →
  next_values values (Z.to_nat count) = Some (vs, values') →
  let base := layout_base self y in
  let l' :=
    take (Z.to_nat i) l ++ vs ++
    (if decide (count = 0) then self_moved <$> drop (Z.to_nat i) l
     else drop (Z.to_nat i) l) in
  wp False (Insert self (Ptr base i) values count) s (λ r s',
    updated self y l' c y s s' ∧ r = Ptr base i).
Proof.
  intros Henv Hr Hg Hi Hcount Hfits Hvs base l'.
  pose proof (view_of_represents _ _ _ _ _ Hr) as Hv.
  destruct (represents_bounds _ _ _ _ _ Henv Hr) as [Hlc [HNc Hcm]].
  pose proof (represents_buffer _ _ _ _ _ Hr) as Hbuf.
  pose proof (represents_word _ _ _ _ _ Hr) as Hword.
  pose proof (other_of_ne self) as Hoth.
  pose proof (layout_base_other self y) as Hbo.
  pose proof (zlen_next_values _ _ _ _ Hvs) as Hlen.
  rewrite Z2Nat.id in Hlen by done.
  destruct Henv as (HN & HNm & Hmax).
  pose proof SizeType_modulus_eq as Hmod.
  fold base in Hv, Hbuf, Hbo.
  assert (zlen l' = zlen l + count) as Hlen'.
  { unfold l'. rewrite !zlen_app, zlen_take.
    case_decide; rewrite ?zlen_fmap, zlen_drop; lia. }
  assert (∀ k, zlookup l' k =
            if decide (k < i) then zlookup l k
            else if decide (k < i + count) then zlookup vs (k - i)
            else if decide (count = 0) then self_moved <$> zlookup l k
            else zlookup l (k - count)) as Hl'.
  { intros k. unfold l'. rewrite !zlookup_app, zlen_take, zlookup_take.
    destruct (decide (count = 0)); rewrite ?zlookup_fmap, ?zlookup_drop;
      slots_done. }
  clearbody l'.
  apply wp_from; [done|].
  unfold Insert. wp_ok storage_run.
  cbv zeta. cbn [mem mk_state]. rewrite Hv.
  cbn [view_size view_capacity view_data ptr_add].
  wp_step ltac:(apply runs_Ok; [apply distance_run; lia|simpl; lia]).
  rewrite Z.sub_0_r.
  rewrite (sz_add_small i count), (sz_add_small (zlen l) count) by lia.
  rewrite (proj2 (Z.ltb_ge _ _)) by lia.
  apply wp_with_ConstructionTransaction.
  cbn [length app span_data span_size ptr_add]. rewrite !Z.add_0_l.
  remember (Z.max (i + count) (zlen l)) as D eqn:HD.
  rewrite !sz_sub_small by lia.
  destruct (decide (count = 0)) as [->|Hpos].
  - injection Hvs as <- <-. change (Z.to_nat 0) with 0%nat in *.
    rewrite Z.add_0_r in *. replace D with (zlen l) in * by lia.
    rewrite Z.sub_0_r, Z.sub_diag. rewrite !Z.add_0_r.
    eapply wp_runs.
    { apply ConstructionTransaction_Construct_runs.
      apply ConstructElements_none_runs. }
    rewrite with_construction_txs_mk_state. cbn [insert list_insert].
    wp_step ltac:(
      apply (move_backward_self_runs _ _ _ _ (zlookup l)); [lia|]).
    { intros k Hk. cbn [mem mk_state]. rewrite slot_at_get_buf, Hbuf. simpl.
      rewrite zlookup_buffer_of_in by lia. split; [done|].
      apply zlookup_is_Some. lia. }
    rewrite state_after_mk_state. cbn [mem mk_state].
    wp_step ltac:(apply AssignElements_none_runs).
    wp_step ltac:(apply ConstructElements_none_runs).
    wp_ok ConstructionTransaction_Commit_mk. cbn [insert list_insert].
    wp_ok update_storage_run.
    wp_step ltac:(apply runs_ret).
    wp_step ltac:(
      apply runs_Ok; [by apply ConstructionTransaction_dtor_idle|simpl; lia]).
    cbn [take]. split; [|done].
    apply (updated_inplace self y l c); [done|..]; cbn [mem mk_state].
    + subst base. storage_simpl. cbv beta. unfold GetSizeAndIsAllocated.
      simpl. storage_simpl. rewrite Hword, word_add by lia. lia.
    + intros a0 ->. subst base. by storage_simpl.
    + subst base. destruct y; get_buf_simpl; rewrite Hbuf; simpl; f_equal;
        (apply buffer_of_eq;
         [rewrite !zlen_zupdate; by apply zlen_buffer_of
         |lia
         |intros k Hk; slots_simpl; rewrite Hl'; slots_done]).
    + intros k Hk. subst base. destruct y; by get_buf_simpl.
    + subst base. by storage_simpl.
    + lia.
    + done.
  - replace (Z.to_nat count)
      with (Z.to_nat (zlen l + count - D) + Z.to_nat (D - zlen l))%nat
      in Hvs by lia.
    apply next_values_app in Hvs
      as (vs1 & vs2 & values1 & Hvs1 & Hvs2 & ->).
    pose proof (zlen_next_values _ _ _ _ Hvs1) as Hlen1.
    pose proof (zlen_next_values _ _ _ _ Hvs2) as Hlen2.
    rewrite Z2Nat.id in Hlen1, Hlen2 by lia.
    replace (count - (zlen l + count - D)) with (D - zlen l) by lia.
    eapply wp_runs.
    { apply ConstructionTransaction_Construct_runs.
      eapply runs_loop;
      [apply (ConstructElements_move_run base D base (D - count)
                (zlen l + count - D) (zlookup l)); [lia|intros _; lia|..]
      |simpl; lia]. 
    { intros k Hk. cbn [mem mk_state]. rewrite slot_at_get_buf, Hbuf. simpl.
      rewrite zlookup_buffer_of_in by lia. split; [done|].
      apply zlookup_is_Some. lia. }
    { intros k Hk. cbn [mem mk_state]. rewrite slot_at_get_buf, Hbuf. simpl.
      rewrite zlookup_buffer_of_in by lia.
      rewrite zlookup_outside; [done|lia]. } }
    rewrite state_after_mk_state, with_construction_txs_mk_state.
    cbn [mem mk_state insert list_insert].
    wp_step ltac:(
      apply (move_backward_runs _ _ _ _ _ (zlookup l)); [lia|lia|..]).
    { intros k Hk. cbn [mem mk_state]. rewrite slot_at_get_buf.
      subst base. get_buf_simpl. rewrite Hbuf. simpl. slots_simpl.
      rewrite !decide_False by lia. simpl. split; [done|].
      apply zlookup_is_Some. lia. }
    { intros k Hk. cbn [mem mk_state]. rewrite slot_at_get_buf.
      subst base. get_buf_simpl. rewrite Hbuf. simpl. slots_simpl.
      live_done. }
    rewrite state_after_mk_state. cbn [mem mk_state].
    wp_step ltac:(
      apply (AssignElements_ext_runs _ _ _ _ _ vs1 values1); [done|]).
    { intros k Hk. cbn [mem mk_state]. rewrite slot_at_get_buf.
      subst base. get_buf_simpl. rewrite Hbuf. simpl. slots_simpl.
      live_done. }
    rewrite state_after_mk_state. cbn [mem mk_state].
    wp_step ltac:(
      eapply runs_loop;
      [apply (ConstructElements_ext_run _ _ _ _ vs2 values'); [done|]
      |simpl; lia]).
    { intros k Hk. cbn [mem mk_state]. rewrite slot_at_get_buf.
      subst base. get_buf_simpl. rewrite Hbuf. simpl. slots_simpl.
      slots_done. }
    rewrite state_after_mk_state. cbn [mem mk_state].
    wp_ok ConstructionTransaction_Commit_mk. cbn [insert list_insert].
    wp_ok update_storage_run.
    wp_step ltac:(apply runs_ret).
    wp_step ltac:(
      apply runs_Ok; [by apply ConstructionTransaction_dtor_idle|simpl; lia]).
    cbn [take]. split; [|done].
    apply (updated_inplace self y l c); [done|..]; cbn [mem mk_state].
    + subst base. storage_simpl. cbv beta. unfold GetSizeAndIsAllocated.
      simpl. storage_simpl. rewrite Hword, word_add by lia. lia.
    + intros a0 ->. subst base. by storage_simpl.
    + subst base. destruct y; get_buf_simpl; rewrite Hbuf; simpl; f_equal;
        (apply buffer_of_eq;
         [rewrite !zlen_zupdate; by apply zlen_buffer_of
         |lia
         |intros k Hk; slots_simpl; rewrite Hl', zlookup_app; slots_done]).
    + intros k Hk. subst base. destruct y; by get_buf_simpl.
    + subst base. by storage_simpl.
    + lia.
    + done.
Qed.

Lemma Insert_realloc_wp self i values count vs values' s l c y :
  env_ok → represents (mem s) self l c y → no_guards s →
  0 ≤ i ≤ zlen l → 0 ≤ count ≤ max_size → c < zlen l + count →
  next_values values (Z.to_nat count) = Some (vs, values') →
  let base := layout_base self y in
  let a := fresh (dom (heap (mem s))) in
  let c' := ComputeCapacity c (zlen l + count) in
  let l' := take (Z.to_nat i) l ++ vs ++ drop (Z.to_nat i) l in
  wp (max_size < c') (Insert self (Ptr base i) values count) s (λ r s',
    updated self y l' c' (LayoutAllocated a) s s' ∧ r = Ptr (HeapBlock a) i).
Proof.
  intros Henv Hr Hg Hi Hcount Hbig Hvs base a c' l'.
  pose proof (view_of_represents _ _ _ _ _ Hr) as Hv.
  destruct (represents_bounds _ _ _ _ _ Henv Hr) as [Hlc [HNc Hcm]].
  pose proof (layout_base_fresh _ _ _ _ _ Hr) as Hfresh. fold a in Hfresh.
  pose proof (represents_buffer _ _ _ _ _ Hr) as Hbuf.
  pose proof (represents_word _ _ _ _ _ Hr) as Hword.
  pose proof (zlen_nonneg l) as Hl0.
  pose proof (other_of_ne self) as Hoth.
  pose proof (layout_base_other self y) as Hbo.
  pose proof (zlen_next_values _ _ _ _ Hvs) as Hlen.
  rewrite Z2Nat.id in Hlen by lia.
  destruct Henv as (HN & HNm & Hmax).
  pose proof SizeType_modulus_eq as Hmod.
  fold base in Hv, Hbuf, Hbo, Hfresh.
  assert (c' = Z.max (2 * c) (zlen l + count)) as Hc'
    by (apply ComputeCapacity_bounds; lia).
  assert (zlen l' = zlen l + count) as Hlen'.
  { unfold l'. rewrite !zlen_app, zlen_take, zlen_drop. lia. }
  assert (∀ k, zlookup l' k =
            if decide (k < i) then zlookup l k
            else if decide (k < i + count) then zlookup vs (k - i)
            else zlookup l (k - count)) as Hl'.
  { intros k. unfold l'. rewrite !zlookup_app, zlen_take, zlookup_take.
    rewrite zlookup_drop. slots_done. }
  clearbody l'.
  apply wp_from; [done|].
  unfold Insert. wp_ok storage_run.
  cbv zeta. cbn [mem mk_state]. rewrite Hv.
  cbn [view_size view_capacity view_data ptr_add].
  wp_step ltac:(apply runs_Ok; [apply distance_run; lia|simpl; lia]).
  rewrite Z.sub_0_r.
  rewrite (sz_add_small i count), (sz_add_small (zlen l) count) by lia.
  rewrite (proj2 (Z.ltb_lt _ _)) by lia. fold c'.
  apply wp_with_AllocationTransaction.
  apply wp_with_ConstructionTransaction. cbn [length app].
  apply wp_with_ConstructionTransaction. cbn [length app].
  destruct (decide (c' ≤ max_size)) as [Hfit|Hbig']; cycle 1.
  { eapply wp_Throw; [|lia]. apply bind_Throw.
    apply AllocationTransaction_Allocate_too_large. lia. }
  rewrite !sz_sub_small by lia.
  wp_step ltac:(
    eapply runs_fallible;
    [apply AllocationTransaction_Allocate_run; lia|simpl; lia]).
  cbn [mem mk_state ptr_add]. fold a. rewrite !Z.add_0_l.
  eapply wp_runs.
  { apply ConstructionTransaction_Construct_runs.
    eapply runs_loop;
      [apply (ConstructElements_ext_run _ _ _ _ vs values'); [done|]
      |simpl; lia].
    intros k Hk. cbn [mem mk_state]. rewrite slot_at_get_buf.
    get_buf_simpl. simpl.
    rewrite zlookup_raw_buffer, decide_True by lia. done. }
  rewrite state_after_mk_state, with_construction_txs_mk_state.
  cbn [mem mk_state insert list_insert].
  eapply wp_runs.
  { apply ConstructionTransaction_Construct_runs.
    eapply runs_loop;
      [apply (ConstructElements_move_run (HeapBlock a) 0 base 0 i
                (zlookup l)); [lia|done|..]
      |simpl; lia].
    - intros k Hk. cbn [mem mk_state]. rewrite slot_at_get_buf.
      subst base. get_buf_simpl. rewrite Hbuf. simpl.
      rewrite zlookup_buffer_of_in by lia. split; [done|].
      apply zlookup_is_Some. lia.
    - intros k Hk. cbn [mem mk_state]. rewrite slot_at_get_buf.
      get_buf_simpl. simpl. slots_simpl.
      by rewrite decide_False by lia. }
  rewrite state_after_mk_state, with_construction_txs_mk_state.
  cbn [mem mk_state insert list_insert].
  wp_step ltac:(
    eapply runs_loop;
    [apply (ConstructElements_move_run (HeapBlock a) (i + count) base (0 + i)
              (zlen l - i) (zlookup l)); [lia|done|..]
    |simpl; lia]).
  { intros k Hk. cbn [mem mk_state]. rewrite slot_at_get_buf.
    subst base. get_buf_simpl. rewrite Hbuf. simpl. slots_simpl.
    rewrite !decide_False by lia. simpl. split; [done|].
    apply zlookup_is_Some. lia. }
  { intros k Hk. cbn [mem mk_state]. rewrite slot_at_get_buf.
    subst base. get_buf_simpl. simpl. slots_simpl.
    by rewrite !decide_False by lia. }
  rewrite state_after_mk_state. cbn [mem mk_state].
  wp_step ltac:(apply runs_Ok; [apply DestroyElements_run; [done|]|simpl; lia]).
  { intros k Hk. cbn [mem mk_state]. rewrite slot_at_get_buf.
    subst base. get_buf_simpl. rewrite Hbuf. simpl. slots_simpl.
    live_done. }
  rewrite state_after_mk_state. cbn [mem mk_state].
  wp_ok ConstructionTransaction_Commit_mk. cbn [insert list_insert].
  wp_ok ConstructionTransaction_Commit_mk. cbn [insert list_insert].
  wp_step ltac:(
    eapply (DeallocateIfAllocated_runs _ self y l c (mem s)); [done|..]).
  { subst base. by storage_simpl. }
  { intros a0 ->. subst base. cbn [layout_base] in *.
    split; [by storage_simpl|].
    eexists. split; [get_buf_simpl; rewrite Hbuf; reflexivity|].
    rewrite !zlen_zupdate. by apply zlen_buffer_of. }
  wp_ok AcquireAllocatedData_run.
  cbn [allocation_tx_data allocation_tx_capacity].
  wp_ok update_storage_run.
  wp_step ltac:(apply runs_ret).
  wp_step ltac:(
    apply runs_Ok; [by apply ConstructionTransaction_dtor_idle|simpl; lia]).
  cbn [take].
  wp_step ltac:(
    apply runs_Ok; [by apply ConstructionTransaction_dtor_idle|simpl; lia]).
  cbn [take].
  wp_ok AllocationTransaction_dtor_idle.
  split; [|done].
  eapply (updated_realloc self y l c s l' c' _ a);
    [done|done|..]; cbn [mem mk_state].
  - subst base. storage_simpl. cbv beta. simpl.
    rewrite sz_shl_1 by lia. rewrite (lor_bit _ true). simpl. lia.
  - subst base. by storage_simpl.
  - subst base.
    destruct y; cbn [release_layout] in *; get_buf_simpl; simpl; f_equal;
      (apply buffer_of_eq;
       [rewrite !zlen_zupdate; apply zlen_raw_buffer; lia
       |lia
       |intros k Hk; slots_simpl; rewrite Hl'; slots_done]).
  - intros k Hk1 Hk2. subst base.
    destruct y; cbn [release_layout] in *; by get_buf_simpl.
  - intros a0 ->. subst base. cbn [release_layout]. by get_buf_simpl.
  - subst base. by storage_simpl.
  - lia.
  - lia.
  - done.
Qed.

End insert_erase.

Section swap.
Context {T : Type} {VT : ValueType T} {Env : Environment}.
Implicit Types (m : Memory (T:=T)) (st : Storage (T:=T)) (s : State (T:=T))
  (buf : list (option T)) (l : list T) (w : Who) (b : Base) (p : Pointer)
  (d : Data (T:=T)) (h : gmap nat (list (option T)))
  (f : Storage (T:=T) → Storage (T:=T)) (g : Z → option T)
  (ats : list AllocationTransaction) (cts : list ConstructionTransaction)
  (evs : list (Event (T:=T))).

#[local] Arguments write_slot : simpl never.
#[local] Arguments slot_at : simpl never.
#[local] Arguments range_update : simpl never.
#[local] Arguments construct_events : simpl never.
#[local] Arguments move_construct_events : simpl never.
#[local] Arguments destroy_events : simpl never.
#[local] Arguments assign_events : simpl never.
#[local] Arguments move_assign_events : simpl never.
#[local] Arguments swap_events : simpl never.

(** ** [Swap] *)

Lemma represents_holds m w l c y :
  represents m w l c y → holds_buffer m w l c y.
Proof. by intros [Hw Hb Hl ->|a Hw Hd Hh Hl Hc]. Qed.

Lemma holds_represents m w l c y :
  holds_buffer m w l c y →
  metadata_size_and_is_allocated (storage_of w m) =
    2 * zlen l + match y with LayoutInlined => 0 | LayoutAllocated _ => 1 end →
  represents m w l c y.
Proof.
  destruct y as [|a]; simpl.
  - intros (Hb & Hl & ->) Hw. apply represents_inlined; try done. lia.
  - intros (Hd & Hh & Hl & Hc) Hw. by apply represents_allocated.
Qed.

Lemma metadata_range_update w b off n g m :
  metadata_allocator (storage_of w (range_update b off n g m)) =
  metadata_allocator (storage_of w m).
Proof.
  unfold range_update. case_bool_decide; [|done]. unfold update_buf.
  destruct (get_buf b m); [|done].
  destruct b as [w'|a]; [|by rewrite storage_of_set_buf_heap]. simpl.
  destruct (decide (w' = w)) as [->|].
  - by rewrite storage_of_set_storage_eq.
  - by rewrite storage_of_set_storage_ne.
Qed.

(** The inlined case, from the smaller storage [S] to the larger [L]. *)
Lemma swap_inlined_wp X S L lS lL s m evs t (Q : unit → State → Prop) :
  S ≠ L →
  represents m S lS N LayoutInlined → represents m L lL N LayoutInlined →
  zlen lS ≤ zlen lL → N < SizeType_modulus →
  (∀ m' evs' t',
     get_buf (InlinedOf S) m' = Some (buffer_of lL N) →
     get_buf (InlinedOf L) m' = Some (buffer_of lS N) →
     heap m' = heap m →
     (∀ w, metadata_size_and_is_allocated (storage_of w m') =
           metadata_size_and_is_allocated (storage_of w m)) →
     (∀ w, metadata_allocator (storage_of w m') =
           metadata_allocator (storage_of w m)) →
     Q tt (mk_state s m' [] [] evs' t')) →
  wp X
    (small_st ← storage S;
     large_st ← storage L;
     swap_loop S L 0 (Z.to_nat (GetSize small_st));;
     let move_values :=
       MoveIteratorValueAdapter
         (ptr_add (GetInlinedData L) (GetSize small_st)) in
     ConstructElements
       (ptr_add (GetInlinedData S) (GetSize small_st)) move_values
       (sz_sub (GetSize large_st) (GetSize small_st));;
     DestroyElements
       (ptr_add (GetInlinedData L) (GetSize small_st))
       (sz_sub (GetSize large_st) (GetSize small_st)))
    (mk_state s m [] [] evs t) Q.
Proof.
  intros Hne HS HL Hle HNmod HQ.
  pose proof (represents_buffer _ _ _ _ _ HS) as HbS.
  pose proof (represents_buffer _ _ _ _ _ HL) as HbL.
  pose proof (represents_word _ _ _ _ _ HS) as HwS.
  pose proof (represents_word _ _ _ _ _ HL) as HwL.
  pose proof (zlen_nonneg lS) as HS0.
  assert (zlen lL ≤ N) as HLN by (by inversion HL).
  cbn [layout_base] in *. rewrite Z.add_0_r in HwS, HwL.
  wp_ok storage_run. wp_ok storage_run. cbn [mem mk_state].
  rewrite (GetSize_even _ _ HwS), (GetSize_even _ _ HwL).
  cbv zeta. unfold GetInlinedData. cbn [ptr_add]. rewrite !Z.add_0_l.
  rewrite sz_sub_small by lia.
  wp_step ltac:(
    pose proof (swap_loop_runs X S L 0 (Z.to_nat (zlen lS))
                  (zlookup lS) (zlookup lL)) as Hrun;
    rewrite Z2Nat.id in Hrun by done; apply Hrun; [done|..]).
  { intros j Hj. cbn [mem mk_state]. rewrite slot_at_get_buf, HbS. simpl.
    rewrite zlookup_buffer_of_in by lia. split; [done|].
    apply zlookup_is_Some. lia. }
  { intros j Hj. cbn [mem mk_state]. rewrite slot_at_get_buf, HbL. simpl.
    rewrite zlookup_buffer_of_in by lia. split; [done|].
    apply zlookup_is_Some. lia. }
  rewrite state_after_mk_state. cbn [mem mk_state].
  wp_step ltac:(
    eapply runs_loop;
    [apply (ConstructElements_move_run (InlinedOf S) (zlen lS)
              (InlinedOf L) (zlen lS) (zlen lL - zlen lS) (zlookup lL));
     [lia|congruence|..]
    |simpl; lia]).
  { intros j Hj. cbn [mem mk_state]. rewrite slot_at_get_buf.
    get_buf_simpl. rewrite HbL. simpl. slots_simpl.
    rewrite decide_False by lia. simpl. split; [done|].
    apply zlookup_is_Some. lia. }
  { intros j Hj. cbn [mem mk_state]. rewrite slot_at_get_buf.
    get_buf_simpl. rewrite HbS. simpl. slots_simpl.
    rewrite decide_False by lia. simpl.
    rewrite zlookup_outside; [done|lia]. }
  rewrite state_after_mk_state. cbn [mem mk_state].
  wp_step ltac:(apply runs_Ok; [apply DestroyElements_run; [lia|]|simpl; lia]).
  { intros j Hj. cbn [mem mk_state]. rewrite slot_at_get_buf.
    get_buf_simpl. rewrite HbL. simpl. slots_simpl. live_done. }
  rewrite state_after_mk_state. cbn [mem mk_state].
  apply HQ.
  - get_buf_simpl. rewrite HbS. simpl. f_equal.
    apply buffer_of_eq;
      [rewrite !zlen_zupdate; apply zlen_buffer_of; lia|done|].
    intros j Hj. slots_simpl. slots_done.
  - get_buf_simpl. rewrite HbL. simpl. f_equal.
    apply buffer_of_eq;
      [rewrite !zlen_zupdate; apply zlen_buffer_of; lia|lia|].
    intros j Hj. slots_simpl. slots_done.
  - unfold clear_range, move_out_range, move_in_range.
    by rewrite !heap_range_update_inlined.
  - intros w. by storage_simpl.
  - intros w. unfold clear_range, move_out_range, move_in_range.
    by rewrite !metadata_range_update.
Qed.

(** The mixed case: [A] is allocated, [I] is inlined. *)
Lemma swap_mixed_wp X A I lA cA a lI s m evs t (Q : unit → State → Prop) :
  A ≠ I →
  represents m A lA cA (LayoutAllocated a) →
  represents m I lI N LayoutInlined →
  (∀ m' evs' t',
     holds_buffer m' A lI N LayoutInlined →
     holds_buffer m' I lA cA (LayoutAllocated a) →
     heap m' = heap m →
     (∀ w, metadata_size_and_is_allocated (storage_of w m') =
           metadata_size_and_is_allocated (storage_of w m)) →
     (∀ w, metadata_allocator (storage_of w m') =
           metadata_allocator (storage_of w m)) →
     Q tt (mk_state s m' [] [] evs' t')) →
  wp X
    (allocated_st ← storage A;
     inlined_st ← storage I;
     let allocated_storage_view :=
       {| view_data := GetAllocatedData allocated_st;
          view_size := GetSize allocated_st;
          view_capacity := GetAllocatedCapacity allocated_st |} in
     let move_values :=
       MoveIteratorValueAdapter (GetInlinedData I) in
     catch_any
       (ConstructElements (GetInlinedData A) move_values
          (GetSize inlined_st);;
        mret tt)
       (SetAllocatedData A
          (view_data allocated_storage_view)
          (view_capacity allocated_storage_view));;
     DestroyElements (GetInlinedData I) (GetSize inlined_st);;
     SetAllocatedData I
       (view_data allocated_storage_view)
       (view_capacity allocated_storage_view))
    (mk_state s m [] [] evs t) Q.
Proof.
  intros Hne HA HI HQ.
  pose proof (represents_buffer _ _ _ _ _ HI) as HbI.
  pose proof (represents_word _ _ _ _ _ HI) as HwI.
  pose proof (zlen_nonneg lI) as HI0.
  inversion HA as [|a1 HwA HdA HhA HlA HcA]; subst a1.
  assert (zlen lI ≤ N) as HIN by (by inversion HI).
  cbn [layout_base] in *. rewrite Z.add_0_r in HwI.
  wp_ok storage_run. wp_ok storage_run. cbn [mem mk_state].
  rewrite (GetSize_even _ _ HwI).
  cbv zeta. unfold GetInlinedData, GetAllocatedData, GetAllocatedCapacity.
  rewrite HdA. cbn [view_data view_capacity allocated_data allocated_capacity].
  wp_step ltac:(
    apply runs_catch_any; eapply runs_bind; [|apply runs_ret];
    eapply runs_loop;
    [apply (ConstructElements_move_run (InlinedOf A) 0 (InlinedOf I) 0
              (zlen lI) (zlookup lI)); [done|congruence|..]
    |simpl; lia]).
  { intros j Hj. cbn [mem mk_state]. rewrite slot_at_get_buf, HbI. simpl.
    rewrite zlookup_buffer_of_in by lia. split; [done|].
    apply zlookup_is_Some. lia. }
  { intros j Hj. cbn [mem mk_state].
    rewrite slot_at_get_buf. unfold get_buf. rewrite HdA. simpl.
    rewrite zlookup_raw_buffer, decide_True by lia. done. }
  rewrite state_after_mk_state. cbn [mem mk_state].
  wp_step ltac:(apply runs_Ok; [apply DestroyElements_run; [done|]|simpl; lia]).
  { intros j Hj. cbn [mem mk_state]. rewrite slot_at_get_buf.
    get_buf_simpl. rewrite HbI. simpl. slots_simpl. live_done. }
  rewrite state_after_mk_state. cbn [mem mk_state].
  wp_ok update_storage_run.
  apply HQ.
  - split; [|done]. get_buf_simpl. unfold get_buf. rewrite HdA. simpl.
    f_equal. apply buffer_of_eq; [|done|].
    + rewrite zlen_zupdate. apply zlen_raw_buffer. lia.
    + intros j Hj. slots_simpl. slots_done.
  - split; [by storage_simpl|]. split; [|done].
    rewrite heap_with_storage. unfold clear_range, move_out_range,
      move_in_range. by rewrite !heap_range_update_inlined.
  - rewrite heap_with_storage. unfold clear_range, move_out_range,
      move_in_range. by rewrite !heap_range_update_inlined.
  - intros w. destruct (decide (w = I)) as [->|]; storage_simpl; simpl;
      by storage_simpl.
  - intros w. unfold clear_range, move_out_range, move_in_range.
    destruct (decide (w = I)) as [->|]; storage_simpl; simpl;
      by rewrite !metadata_range_update.
Qed.

Lemma holds_buffer_with_storage w' f m w l c y :
  (∀ st, data_ (f st) = data_ st) →
  holds_buffer m w l c y → holds_buffer (with_storage w' f m) w l c y.
Proof.
  intros Hf. destruct y as [|a]; simpl.
  - intros (Hb & ?). split; [|done]. rewrite <- Hb.
    destruct (decide (w' = w)) as [->|].
    + rewrite storage_of_with_storage_eq. by rewrite Hf.
    + by rewrite storage_of_with_storage_ne.
  - intros (Hd & Hh & ?). split; [|split; [|done]].
    + destruct (decide (w' = w)) as [->|].
      * rewrite storage_of_with_storage_eq. by rewrite Hf.
      * by rewrite storage_of_with_storage_ne.
    + by rewrite heap_with_storage.
Qed.

(** What [Swap] has to do after the buffers are exchanged. *)
Lemma swap_tail_wp X self other s m evs t l1 c1 y1 l2 c2 y2 m0 :
  self ≠ other →
  holds_buffer m self l2 c2 y2 → holds_buffer m other l1 c1 y1 →
  represents m0 self l1 c1 y1 → represents m0 other l2 c2 y2 →
  heap m = heap m0 →
  (∀ w, metadata_size_and_is_allocated (storage_of w m) =
        metadata_size_and_is_allocated (storage_of w m0)) →
  (∀ w, metadata_allocator (storage_of w m) =
        metadata_allocator (storage_of w m0)) →
  wp X
    (this_st ← storage self;
     other_st ← storage other;
     update_storage self (set_word (GetSizeAndIsAllocated other_st));;
     update_storage other (set_word (GetSizeAndIsAllocated this_st));;
     update_storage self (set_allocator (GetAllocator other_st));;
     update_storage other (set_allocator (GetAllocator this_st)))
    (mk_state s m [] [] evs t)
    (λ _ s',
       represents (mem s') self l2 c2 y2 ∧
       represents (mem s') other l1 c1 y1 ∧
       heap (mem s') = heap m0 ∧ no_guards s' ∧
       metadata_allocator (storage_of self (mem s')) =
         metadata_allocator (storage_of other m0) ∧
       metadata_allocator (storage_of other (mem s')) =
         metadata_allocator (storage_of self m0)).
Proof.
  intros Hne H2 H1 Hr1 Hr2 Hheap Hwords Hallocs.
  pose proof (represents_word _ _ _ _ _ Hr1) as Hw1.
  pose proof (represents_word _ _ _ _ _ Hr2) as Hw2.
  wp_ok storage_run. wp_ok storage_run. cbn [mem mk_state].
  wp_ok update_storage_run. wp_ok update_storage_run.
  wp_ok update_storage_run. wp_ok update_storage_run.
  cbn [mem mk_state]. repeat split.
  - apply holds_represents.
    + by repeat (apply holds_buffer_with_storage; [done|]).
    + storage_simpl. simpl. storage_simpl. unfold GetSizeAndIsAllocated.
      by rewrite Hwords.
  - apply holds_represents.
    + by repeat (apply holds_buffer_with_storage; [done|]).
    + storage_simpl. simpl. unfold GetSizeAndIsAllocated.
      by rewrite Hwords.
  - by rewrite !heap_with_storage.
  - storage_simpl. simpl. unfold GetAllocator. by rewrite Hallocs.
  - storage_simpl. simpl. unfold GetAllocator. by rewrite Hallocs.
Qed.

Lemma Swap_wp self s l1 c1 y1 l2 c2 y2 :
  env_ok →
  represents (mem s) self l1 c1 y1 →
  represents (mem s) (other_of self) l2 c2 y2 →
  no_guards s →
  wp False (Swap self (other_of self)) s (λ _ s',
    represents (mem s') self l2 c2 y2 ∧
    represents (mem s') (other_of self) l1 c1 y1 ∧
    heap (mem s') = heap (mem s) ∧ no_guards s' ∧
    metadata_allocator (storage_of self (mem s')) =
      metadata_allocator (storage_of (other_of self) (mem s)) ∧
    metadata_allocator (storage_of (other_of self) (mem s')) =
      metadata_allocator (storage_of self (mem s))).
Proof.
  intros Henv Hr1 Hr2 Hg.
  pose proof (other_of_ne self) as Hoth.
  assert (self ≠ other_of self) as Hne by congruence.
  pose proof (represents_word _ _ _ _ _ Hr1) as Hw1.
  pose proof (represents_word _ _ _ _ _ Hr2) as Hw2.
  destruct Henv as (HN & HNm & Hmax).
  pose proof SizeType_modulus_eq as Hmod.
  apply wp_from; [done|].
  unfold Swap. rewrite bool_decide_eq_true_2 by done. apply wp_assert.
  wp_ok storage_run. wp_ok storage_run. cbn [mem mk_state].
  apply wp_bind.
  destruct y1 as [|a1], y2 as [|a2]; cbv beta iota in Hw1, Hw2.
  - rewrite (GetIsAllocated_even (storage_of self (mem s)) (zlen l1)),
      (GetIsAllocated_even (storage_of (other_of self) (mem s)) (zlen l2))
      by lia.
    rewrite (GetSize_even (storage_of self (mem s)) (zlen l1)),
      (GetSize_even (storage_of (other_of self) (mem s)) (zlen l2)) by lia.
    cbn [andb negb].
    assert (c1 = N) as -> by (by inversion Hr1).
    assert (c2 = N) as -> by (by inversion Hr2).
    assert (zlen l1 ≤ N) by (by inversion Hr1).
    assert (zlen l2 ≤ N) by (by inversion Hr2).
    destruct (zlen l2 <? zlen l1) eqn:Hlt.
    + apply Z.ltb_lt in Hlt.
      apply (swap_inlined_wp _ (other_of self) self l2 l1);
        [done|done|done|lia|lia|].
      intros m' evs' t' HbS HbL Hheap Hwords Hallocs.
      by apply (swap_tail_wp _ self (other_of self) _ _ _ _ l1 N
                  LayoutInlined l2 N LayoutInlined (mem s)).
    + apply Z.ltb_ge in Hlt.
      apply (swap_inlined_wp _ self (other_of self) l1 l2);
        [done|done|done|lia|lia|].
      intros m' evs' t' HbS HbL Hheap Hwords Hallocs.
      by apply (swap_tail_wp _ self (other_of self) _ _ _ _ l1 N
                  LayoutInlined l2 N LayoutInlined (mem s)).
  - rewrite (GetIsAllocated_even (storage_of self (mem s)) (zlen l1)),
      (GetIsAllocated_odd (storage_of (other_of self) (mem s)) (zlen l2))
      by lia.
    cbn [andb negb].
    assert (c1 = N) as -> by (by inversion Hr1).
    apply (swap_mixed_wp _ (other_of self) self l2 c2 a2 l1);
      [done|done|done|].
    intros m' evs' t' HbA HbI Hheap Hwords Hallocs.
    by apply (swap_tail_wp _ self (other_of self) _ _ _ _ l1 N
                LayoutInlined l2 c2 (LayoutAllocated a2) (mem s)).
  - rewrite (GetIsAllocated_odd (storage_of self (mem s)) (zlen l1)),
      (GetIsAllocated_even (storage_of (other_of self) (mem s)) (zlen l2))
      by lia.
    cbn [andb negb].
    assert (c2 = N) as -> by (by inversion Hr2).
    apply (swap_mixed_wp _ self (other_of self) l1 c1 a1 l2);
      [done|done|done|].
    intros m' evs' t' HbA HbI Hheap Hwords Hallocs.
    by apply (swap_tail_wp _ self (other_of self) _ _ _ _ l1 c1
                (LayoutAllocated a1) l2 N LayoutInlined (mem s)).
  - rewrite (GetIsAllocated_odd (storage_of self (mem s)) (zlen l1)),
      (GetIsAllocated_odd (storage_of (other_of self) (mem s)) (zlen l2))
      by lia.
    cbn [andb negb].
    inversion Hr1 as [|? _ Hd1 Hh1 Hl1 Hc1]; subst.
    inversion Hr2 as [|? _ Hd2 Hh2 Hl2 Hc2]; subst.
    unfold GetAllocatedData, GetAllocatedCapacity. rewrite Hd1, Hd2.
    cbn [allocated_data allocated_capacity].
    wp_ok update_storage_run. wp_ok update_storage_run.
    apply (swap_tail_wp _ self (other_of self) _ _ _ _ l1 c1
             (LayoutAllocated a1) l2 c2 (LayoutAllocated a2) (mem s));
      try done.
    + split; [by storage_simpl|]. by rewrite !heap_with_storage.
    + split; [by storage_simpl|]. by rewrite !heap_with_storage.
    + by rewrite !heap_with_storage.
    + intros w. destruct (decide (w = self)) as [->|];
        [|destruct (decide (w = other_of self)) as [->|]]; by storage_simpl.
    + intros w. destruct (decide (w = self)) as [->|];
        [|destruct (decide (w = other_of self)) as [->|]]; by storage_simpl.
Qed.

End swap.

Section properties.
Context {T : Type} {VT : ValueType T} {Env : Environment}.
Implicit Types (m : Memory (T:=T)) (st : Storage (T:=T)) (s : State (T:=T))
  (buf : list (option T)) (l : list T) (w : Who) (b : Base) (p : Pointer)
  (d : Data (T:=T)) (h : gmap nat (list (option T)))
  (f : Storage (T:=T) → Storage (T:=T)) (g : Z → option T)
  (ats : list AllocationTransaction) (cts : list ConstructionTransaction)
  (evs : list (Event (T:=T))).

Lemma wp_returns_tick {A} X (c : M A) s (Q : A → State → Prop) :
  wp X c s Q → ¬ faulty (tick s) → ¬ X →
  ∃ a s', c s = Ok a s' ∧ (tick s ≤ tick s')%nat ∧ Q a s'.
Proof.
  unfold wp. destruct (c s) as [a s'|e s'|]; [|intros []; done..].
  intros [Ht HQ] _ _. eauto.
Qed.

Lemma ComputeCapacity_max c x :
  env_ok → N ≤ c ≤ max_size → ComputeCapacity c x = Z.max (2 * c) x.
Proof. intros (? & ? & ?) ?. apply ComputeCapacity_bounds; lia. Qed.

(** C8: [Reserve] with a request that the capacity covers returns in
    the state it was called in: the capacity, the elements and the trace are
    unchanged, so nothing was allocated, deallocated or moved. With a larger
    request, if no operation throws and the new capacity
    [max (2 * capacity) requested] is within [max_size], it returns with the
    elements in a new block of that capacity, after these calls and no other:
    the allocation, the move constructions of all the elements into the new
    block, the destructions of the elements of the old buffer, the
    deallocation of the old block when there was one. *)
Theorem Reserve_spec self x s l c y :
  env_ok → represents (mem s) self l c y → no_guards s →
  let c' := ComputeCapacity c x in
  let a := fresh (dom (heap (mem s))) in
  (x ≤ c → Reserve self x s = Ok tt s) ∧
  (c < x → ¬ faulty (tick s) → c' ≤ max_size →
   c' = Z.max (2 * c) x ∧
   ∃ s', Reserve self x s = Ok tt s' ∧
     updated self y l c' (LayoutAllocated a) s s' ∧
     trace s' = trace s ++
       EvAllocate a c' ::
       move_construct_events (Ptr (HeapBlock a) 0)
         (Ptr (layout_base self y) 0) (zlen l) ++
       destroy_events (Ptr (layout_base self y) 0) (zlen l) ++
       release_events y c).
Proof.
  intros Henv Hr Hg c' a. split.
  - intros Hx. by eapply Reserve_noop.
  - intros Hx Hnf Hfit.
    destruct (represents_bounds _ _ _ _ _ Henv Hr) as [_ Hc].
    split; [by apply ComputeCapacity_max|].
    destruct (wp_returns _ _ _ _
                (Reserve_grow_wp self x s l c y Henv Hr Hg Hx) Hnf)
      as ([] & s' & Hrun & Hpost); [fold c'; lia|].
    by exists s'.
Qed.

(** C5 (amended): [ShrinkToFit] on an allocated storage, if no
    operation throws, returns with the same elements in the same order. If
    they fit in the inlined region ([size ≤ N]) the storage is inlined and
    its block is released. If not, and the size is less than the capacity,
    the storage holds a new block whose capacity is exactly the size, and the
    old one is released. But if the size equals the capacity the call returns
    at once, in the state it was called in: nothing is reallocated. *)
Theorem ShrinkToFit_spec self s l c a0 :
  env_ok → represents (mem s) self l c (LayoutAllocated a0) → no_guards s →
  ¬ faulty (tick s) →
  ∃ s', ShrinkToFit self s = Ok tt s' ∧
    (zlen l ≤ N →
     updated self (LayoutAllocated a0) l N LayoutInlined s s' ∧
     heap (mem s') = delete a0 (heap (mem s))) ∧
    (N < zlen l < c →
     updated self (LayoutAllocated a0) l (zlen l) (fresh_layout s) s s' ∧
     heap (mem s') !! a0 = None) ∧
    (zlen l = c → s' = s).
Proof.
  intros Henv Hr Hg Hnf.
  destruct (represents_bounds _ _ _ _ _ Henv Hr) as [Hlc _].
  assert (N < c) as HNc by (inversion Hr; lia).
  pose proof (layout_base_fresh _ _ _ _ _ Hr) as Hfresh.
  destruct (wp_returns _ _ _ _ (ShrinkToFit_wp self s l c a0 Henv Hr Hg) Hnf)
    as ([] & s' & Hrun & Hpost); [tauto|].
  exists s'. split; [done|]. split; [|split].
  - intros Hsmall. rewrite decide_False, decide_True in Hpost by lia.
    split; [done|]. by destruct Hpost as (_ & _ & -> & _).
  - intros Hmid. rewrite !decide_False in Hpost by lia.
    split; [done|]. destruct Hpost as (_ & _ & -> & _). simpl.
    rewrite lookup_insert_ne by (simpl in Hfresh; congruence).
    apply lookup_delete_eq.
  - intros Hfull. by rewrite decide_True in Hpost.
Qed.

(** C7: [a.swap(b)] then [b.swap(a)], if no operation throws, returns
    with both storages as they were: each holds the elements it held, in the
    same order, with the same capacity and the same layout (inlined, or
    allocated with the same block), the same packed word and allocator; the
    heap is as it was. In between each storage holds what the other held. *)
Theorem Swap_twice self s l1 c1 y1 l2 c2 y2 :
  env_ok →
  represents (mem s) self l1 c1 y1 →
  represents (mem s) (other_of self) l2 c2 y2 →
  no_guards s → ¬ faulty (tick s) →
  ∃ s1 s2,
    Swap self (other_of self) s = Ok tt s1 ∧
    Swap (other_of self) self s1 = Ok tt s2 ∧
    represents (mem s1) self l2 c2 y2 ∧
    represents (mem s1) (other_of self) l1 c1 y1 ∧
    represents (mem s2) self l1 c1 y1 ∧
    represents (mem s2) (other_of self) l2 c2 y2 ∧
    heap (mem s2) = heap (mem s) ∧ no_guards s2 ∧
    ∀ w,
      MakeStorageView w (storage_of w (mem s2)) =
        MakeStorageView w (storage_of w (mem s)) ∧
      metadata_size_and_is_allocated (storage_of w (mem s2)) =
        metadata_size_and_is_allocated (storage_of w (mem s)) ∧
      metadata_allocator (storage_of w (mem s2)) =
        metadata_allocator (storage_of w (mem s)).
Proof.
  intros Henv Hr1 Hr2 Hg Hnf.
  assert (other_of (other_of self) = self) as Hoo by (by destruct self).
  destruct (wp_returns_tick _ _ _ _
              (Swap_wp self s l1 c1 y1 l2 c2 y2 Henv Hr1 Hr2 Hg) Hnf)
    as ([] & s1 & Hrun1 & Ht1 & Hs1 & Ho1 & Hh1 & Hg1 & Ha1 & Ha1');
    [tauto|].
  assert (¬ faulty (tick s1)) as Hnf1
    by (intros Hf; apply Hnf; by eapply faulty_mono).
  pose proof (Swap_wp (other_of self) s1 l1 c1 y1 l2 c2 y2 Henv Ho1) as H2.
  rewrite Hoo in H2. specialize (H2 Hs1 Hg1).
  destruct (wp_returns _ _ _ _ H2 Hnf1)
    as ([] & s2 & Hrun2 & Ho2 & Hs2 & Hh2 & Hg2 & Ha2 & Ha2'); [tauto|].
  exists s1, s2. repeat (split; [done|]). split; [congruence|].
  split; [done|]. intros w.
  assert (w = self ∨ w = other_of self) as [->| ->]
    by (destruct w, self; simpl; tauto).
  - rewrite (view_of_represents _ _ _ _ _ Hs2),
      (view_of_represents _ _ _ _ _ Hr1).
    rewrite (represents_word _ _ _ _ _ Hs2), (represents_word _ _ _ _ _ Hr1).
    by rewrite Ha2', Ha1'.
  - rewrite (view_of_represents _ _ _ _ _ Ho2),
      (view_of_represents _ _ _ _ _ Hr2).
    rewrite (represents_word _ _ _ _ _ Ho2), (represents_word _ _ _ _ _ Hr2).
    by rewrite Ha2, Ha1.
Qed.

Lemma fmap_self_moved_id l :
  (∀ v : T, self_moved v = v) → self_moved <$> l = l.
Proof.
  intros Hid. induction l as [|v l IH]; [done|].
  by rewrite fmap_cons, Hid, IH.
Qed.

(** C6 (amended): inserting [count] elements at the index [i] and
    then erasing the range from [i] to [i + count], if no operation throws
    (and the allocator can provide the capacity, should the insertion
    reallocate), returns with the elements the storage held before, in the
    same order, provided that [count] is positive, or that an element
    move-assigned to itself keeps its value. After the insertion the storage
    holds the elements before [i], the inserted ones, and the elements from
    [i] on; it keeps its buffer if [size + count] is within the capacity and
    is reallocated if not; the erasure keeps the buffer. *)
Theorem Insert_Erase self i values count vs values' s l c y :
  env_ok → represents (mem s) self l c y → no_guards s →
  0 ≤ i ≤ zlen l → 0 ≤ count ≤ max_size →
  next_values values (Z.to_nat count) = Some (vs, values') →
  0 < count ∨ (∀ v : T, self_moved v = v) →
  ¬ faulty (tick s) →
  (c < zlen l + count → ComputeCapacity c (zlen l + count) ≤ max_size) →
  ∃ p s1 s2 c' y',
    Insert self (Ptr (layout_base self y) i) values count s = Ok p s1 ∧
    p = Ptr (layout_base self y') i ∧
    represents (mem s1) self
      (take (Z.to_nat i) l ++ vs ++ drop (Z.to_nat i) l) c' y' ∧
    Erase self p (ptr_add p count) s1 = Ok p s2 ∧
    represents (mem s2) self l c' y' ∧
    (c', y') =
      if decide (zlen l + count ≤ c) then (c, y)
      else (ComputeCapacity c (zlen l + count), fresh_layout s).
Proof.
  intros Henv Hr Hg Hi Hcount Hvs Hself Hnf Hfit.
  pose proof (zlen_next_values _ _ _ _ Hvs) as Hlen.
  rewrite Z2Nat.id in Hlen by lia.
  set (l1 := take (Z.to_nat i) l ++ vs ++ drop (Z.to_nat i) l).
  assert (zlen l1 = zlen l + count) as Hlen1.
  { unfold l1. rewrite !zlen_app, zlen_take, zlen_drop. lia. }
  assert ((if decide (count = 0) then self_moved <$> drop (Z.to_nat i) l
           else drop (Z.to_nat i) l) = drop (Z.to_nat i) l) as Hins.
  { case_decide; [|done]. destruct Hself as [?|Hid]; [lia|].
    by apply fmap_self_moved_id. }
  assert (take (Z.to_nat i) l1 ++
          (if decide (i = i + count) then self_moved <$> drop (Z.to_nat i) l1
           else drop (Z.to_nat (i + count)) l1) = l) as Hera.
  { assert (length (take (Z.to_nat i) l) = Z.to_nat i) as Htk
      by (rewrite length_take; unfold zlen in *; lia).
    assert (take (Z.to_nat i) l1 = take (Z.to_nat i) l) as ->
      by (unfold l1; by rewrite take_app_length').
    destruct (decide (i = i + count)) as [Hc|Hc].
    - assert (count = 0) as -> by lia.
      destruct vs; [|unfold zlen in Hlen; simpl in Hlen; lia].
      destruct Hself as [?|Hid]; [lia|]. unfold l1. simpl.
      rewrite drop_app_length' by done.
      rewrite fmap_self_moved_id by done. apply take_drop.
    - unfold l1. rewrite app_assoc. rewrite drop_app_length'.
      + apply take_drop.
      + rewrite length_app, Htk. unfold zlen in *. lia. }
  destruct (decide (zlen l + count ≤ c)) as [Hin|Hout].
  - pose proof (Insert_inplace_wp self i values count vs values' s l c y
                  Henv Hr Hg Hi (proj1 Hcount) Hin Hvs) as Hwp.
    cbv zeta in Hwp. rewrite Hins in Hwp. fold l1 in Hwp.
    destruct (wp_returns_tick _ _ _ _ Hwp Hnf) as (p & s1 & Hrun1 & Ht1 &
      Hup1 & ->); [tauto|].
    destruct Hup1 as (Hr1 & _ & _ & Hg1).
    assert (¬ faulty (tick s1)) as Hnf1
      by (intros Hf; apply Hnf; by eapply faulty_mono).
    pose proof (Erase_wp self i (i + count) s1 l1 c y Henv Hr1 Hg1) as Hwp2.
    cbv zeta in Hwp2. rewrite Hera in Hwp2.
    destruct (wp_returns _ _ _ _ (Hwp2 ltac:(lia) ltac:(lia)) Hnf1)
      as (q & s2 & Hrun2 & Hup2 & ->); [tauto|].
    destruct Hup2 as (Hr2 & _).
    by exists (Ptr (layout_base self y) i), s1, s2, c, y.
  - pose proof (Insert_realloc_wp self i values count vs values' s l c y
                  Henv Hr Hg Hi Hcount ltac:(lia) Hvs) as Hwp.
    cbv zeta in Hwp. fold l1 in Hwp.
    destruct (wp_returns_tick _ _ _ _ Hwp Hnf) as (p & s1 & Hrun1 & Ht1 &
      Hup1 & ->); [specialize (Hfit ltac:(lia)); lia|].
    destruct Hup1 as (Hr1 & _ & _ & Hg1).
    assert (¬ faulty (tick s1)) as Hnf1
      by (intros Hf; apply Hnf; by eapply faulty_mono).
    pose proof (Erase_wp self i (i + count) s1 l1 _ _ Henv Hr1 Hg1) as Hwp2.
    cbv zeta in Hwp2. rewrite Hera in Hwp2.
    destruct (wp_returns _ _ _ _ (Hwp2 ltac:(lia) ltac:(lia)) Hnf1)
      as (q & s2 & Hrun2 & Hup2 & ->); [tauto|].
    destruct Hup2 as (Hr2 & _).
    by exists (Ptr (HeapBlock (fresh (dom (heap (mem s))))) i), s1, s2,
      (ComputeCapacity c (zlen l + count)), (fresh_layout s).
Qed.

End properties.

Section invariant.
Context {T : Type} {VT : ValueType T} {Env : Environment}.
Implicit Types (m : Memory (T:=T)) (st : Storage (T:=T)) (s : State (T:=T))
  (buf : list (option T)) (l : list T) (w : Who) (b : Base) (p : Pointer)
  (d : Data (T:=T)) (h : gmap nat (list (option T)))
  (f : Storage (T:=T) → Storage (T:=T)) (g : Z → option T)
  (ats : list AllocationTransaction) (cts : list ConstructionTransaction)
  (evs : list (Event (T:=T))).

(** ** The invariant of the runs *)

Lemma other_of_other w : other_of (other_of w) = w.
Proof. by destruct w. Qed.

Lemma valid_memory_pair m self :
  valid_memory m ↔
  ∃ l c y l2 c2 y2,
    represents m self l c y ∧ represents m (other_of self) l2 c2 y2 ∧
    (∀ a, y = LayoutAllocated a → y2 ≠ LayoutAllocated a).
Proof.
  unfold valid_memory. destruct self; simpl; [done|]. split.
  - intros (l1 & c1 & y1 & l2 & c2 & y2 & H1 & H2 & Hd).
    exists l2, c2, y2, l1, c1, y1. repeat split; try done.
    intros a -> ->. by eapply Hd.
  - intros (l1 & c1 & y1 & l2 & c2 & y2 & H1 & H2 & Hd).
    exists l2, c2, y2, l1, c1, y1. repeat split; try done.
    intros a -> ->. by eapply Hd.
Qed.

Lemma represents_other_frame m m' w l c y :
  represents m w l c y →
  storage_of w m' = storage_of w m →
  (∀ a, y = LayoutAllocated a → heap m' !! a = heap m !! a) →
  represents m' w l c y.
Proof.
  intros [Hw Hb Hl ->|a Hw Hd Hh Hl Hc] Hst Hheap.
  - apply represents_inlined; try done; [by rewrite Hst|].
    rewrite <- Hb. unfold get_buf. by rewrite Hst.
  - apply represents_allocated; try done; [by rewrite Hst|by rewrite Hst|].
    by rewrite (Hheap a eq_refl).
Qed.

Lemma updated_valid s s' self l c y l2 c2 y2 l' c' y' :
  represents (mem s) self l c y →
  represents (mem s) (other_of self) l2 c2 y2 →
  (∀ a, y = LayoutAllocated a → y2 ≠ LayoutAllocated a) →
  updated self y l' c' y' s s' →
  y' = y ∨ y' = LayoutInlined ∨ y' = fresh_layout s →
  valid_state s'.
Proof.
  intros Hr Hr2 Hd (Hr' & Ho & Hh & Hg) Hy'. split; [|done].
  apply (valid_memory_pair _ self).
  exists l', c', y', l2, c2, y2.
  assert (∀ a, y2 = LayoutAllocated a → y' ≠ LayoutAllocated a) as Hd'.
  { intros a -> ->. destruct Hy' as [<-|[?|Hy']]; [by eapply Hd|done|].
    injection Hy' as ->. inversion Hr2 as [|? _ _ Hha _ _]; subst.
    by rewrite fresh_block_None in Hha. }
  split; [done|]. split; [|intros a -> ->; by eapply Hd'].
  eapply represents_other_frame; [done|done|].
  intros a ->. rewrite Hh.
  assert (heap_release y (heap (mem s)) !! a = heap (mem s) !! a) as <-.
  { destruct y as [|a0]; simpl; [done|].
    apply lookup_delete_ne. intros ->. by eapply Hd. }
  destruct y' as [|a']; simpl; [done|].
  apply lookup_insert_ne. intros ->. by eapply Hd'.
Qed.

Lemma swapped_valid s s' self l1 c1 y1 l2 c2 y2 :
  (∀ a, y1 = LayoutAllocated a → y2 ≠ LayoutAllocated a) →
  represents (mem s') self l2 c2 y2 →
  represents (mem s') (other_of self) l1 c1 y1 →
  no_guards s' → valid_state s'.
Proof.
  intros Hd H2 H1 Hg. split; [|done]. apply (valid_memory_pair _ self).
  exists l2, c2, y2, l1, c1, y1. repeat split; try done.
  intros a -> ->. by eapply Hd.
Qed.

Lemma initial_valid s : env_ok → initial s → valid_state s.
Proof.
  intros (HN & _ & _) [Hst Hg]. split; [|done].
  assert (∀ w, represents (mem s) w [] N LayoutInlined) as Hr.
  { intros w. apply represents_inlined; [| |unfold zlen; simpl; lia|done].
    - by rewrite Hst.
    - unfold get_buf. rewrite Hst. simpl. by rewrite buffer_of_nil. }
  exists [], N, LayoutInlined, [], N, LayoutInlined. by repeat split.
Qed.

Lemma bind_mret_Ok {A} (c : M A) s s' :
  (c;; mret tt) s = Ok tt s' → ∃ r, c s = Ok r s'.
Proof.
  unfold mbind, M_bind, mret, M_ret. destruct (c s) as [r s1|e s1|]; [|done..].
  intros [= <-]. eauto.
Qed.

Lemma Initialize_Ok_empty self values new_size s r s' :
  Initialize self values new_size s = Ok r s' →
  GetIsAllocated (storage_of self (mem s)) = false ∧
  GetSize (storage_of self (mem s)) = 0.
Proof.
  unfold Initialize. erewrite bind_Ok by apply storage_run.
  destruct (GetIsAllocated (storage_of self (mem s))); [done|].
  destruct (GetSize (storage_of self (mem s)) =? 0) eqn:E; [|done].
  intros _. split; [done|]. by apply Z.eqb_eq.
Qed.

Lemma ShrinkToFit_Ok_allocated self s r s' :
  ShrinkToFit self s = Ok r s' →
  GetIsAllocated (storage_of self (mem s)) = true.
Proof.
  unfold ShrinkToFit. erewrite bind_Ok by apply storage_run.
  by destruct (GetIsAllocated (storage_of self (mem s))).
Qed.

Lemma represents_size m w l c y :
  represents m w l c y →
  GetSize (storage_of w m) = zlen l ∧
  GetIsAllocated (storage_of w m) = is_allocated_layout y.
Proof.
  intros [Hw Hb Hl ->|a Hw Hd Hh Hl Hc]; simpl.
  - by rewrite (GetSize_even _ _ Hw), (GetIsAllocated_even _ _ Hw).
  - by rewrite (GetSize_odd _ _ Hw), (GetIsAllocated_odd _ _ Hw).
Qed.

Lemma zlen_0_nil {A} (l : list A) : zlen l = 0 → l = [].
Proof. destruct l; [done|]. unfold zlen. simpl. lia. Qed.

Ltac valid_by H :=
  match goal with
  | Hr : represents (mem ?s) ?self _ _ _,
    Hr2 : represents (mem ?s) (other_of ?self) _ _ _,
    Hd : ∀ a, _ = LayoutAllocated a → _ ≠ LayoutAllocated a |- _ =>
      eapply (updated_valid _ _ self);
        [exact Hr|exact Hr2|exact Hd|exact H
        |first [by left|by right; left|by right; right]]
  end.

(** An operation that returns leaves the state well formed. *)
Lemma step_valid s self op s' :
  env_ok → valid_state s → precondition self op (mem s) →
  run_operation self op s = Ok tt s' → valid_state s'.
Proof.
  intros Henv [Hm Hg] Hpre Hrun.
  apply (valid_memory_pair _ self) in Hm
    as (l & c & y & l2 & c2 & y2 & Hr & Hr2 & Hd).
  destruct (represents_size _ _ _ _ _ Hr) as [Hsize Halloc].
  destruct (represents_bounds _ _ _ _ _ Henv Hr) as [Hlc [HNc Hcm]].
  pose proof (view_of_represents _ _ _ _ _ Hr) as Hv.
  pose proof (zlen_nonneg l) as Hl0.
  destruct op as [values n|values n|values n|i values n|i j|v|x| |];
    cbn [run_operation precondition] in Hrun, Hpre; rewrite ?Hsize in Hpre.
  - destruct Hpre as [Hn [[vs values'] Hvs]].
    destruct (Initialize_Ok_empty _ _ _ _ _ _ Hrun) as [Hna Hz].
    rewrite Halloc in Hna. rewrite Hsize in Hz.
    destruct y; [|done]. apply zlen_0_nil in Hz as ->.
    assert (c = N) as -> by (by inversion Hr).
    pose proof (Initialize_wp self values n vs values' s Henv Hr Hg Hn Hvs)
      as Hwp.
    pose proof (wp_returned _ _ _ _ _ _ Hwp Hrun) as Hpost.
    cbv beta zeta in Hpost. case_decide.
    + valid_by Hpost.
    + valid_by Hpost.
  - destruct Hpre as [Hn [[vs values'] Hvs]].
    pose proof (Assign_wp self values n vs values' s l c y Henv Hr Hg Hn Hvs)
      as Hwp.
    pose proof (wp_returned _ _ _ _ _ _ Hwp Hrun) as Hpost.
    cbv beta zeta in Hpost. case_decide.
    + valid_by Hpost.
    + valid_by Hpost.
  - destruct Hpre as [Hn [[vs values'] Hvs]].
    pose proof (Resize_wp self values n vs values' s l c y Henv Hr Hg Hn Hvs)
      as Hwp.
    pose proof (wp_returned _ _ _ _ _ _ Hwp Hrun) as Hpost.
    cbv beta zeta in Hpost. case_decide.
    + valid_by Hpost.
    + valid_by Hpost.
  - destruct Hpre as (Hi & Hn & [[vs values'] Hvs]).
    erewrite bind_Ok in Hrun by apply storage_run.
    cbv zeta in Hrun. rewrite Hv in Hrun.
    cbn [view_data ptr_add] in Hrun. rewrite Z.add_0_l in Hrun.
    apply bind_mret_Ok in Hrun as [r Hrun].
    destruct (decide (zlen l + n ≤ c)) as [Hin|Hout].
    + pose proof (Insert_inplace_wp self i values n vs values' s l c y
                    Henv Hr Hg Hi (proj1 Hn) Hin Hvs) as Hwp.
      destruct (wp_returned _ _ _ _ _ _ Hwp Hrun) as [Hpost _].
      valid_by Hpost.
    + pose proof (Insert_realloc_wp self i values n vs values' s l c y
                    Henv Hr Hg Hi Hn ltac:(lia) Hvs) as Hwp.
      destruct (wp_returned _ _ _ _ _ _ Hwp Hrun) as [Hpost _].
      valid_by Hpost.
  - destruct Hpre as (Hi & Hj).
    erewrite bind_Ok in Hrun by apply storage_run.
    cbv zeta in Hrun. rewrite Hv in Hrun.
    cbn [view_data ptr_add] in Hrun. rewrite !Z.add_0_l in Hrun.
    apply bind_mret_Ok in Hrun as [r Hrun].
    pose proof (Erase_wp self i j s l c y Henv Hr Hg Hi Hj) as Hwp.
    destruct (wp_returned _ _ _ _ _ _ Hwp Hrun) as [Hpost _].
    valid_by Hpost.
  - apply bind_mret_Ok in Hrun as [r Hrun].
    pose proof (EmplaceBack_wp self v s l c y Henv Hr Hg) as Hwp.
    pose proof (wp_returned _ _ _ _ _ _ Hwp Hrun) as Hpost.
    cbv beta zeta in Hpost. case_decide.
    + destruct Hpost as [Hpost _]. valid_by Hpost.
    + destruct Hpost as [Hpost _]. valid_by Hpost.
  - destruct (decide (x ≤ c)) as [Hle|Hgt].
    + rewrite (Reserve_noop _ _ _ _ _ _ Hr Hle) in Hrun.
      injection Hrun as <-. split; [|done].
      apply (valid_memory_pair _ self). naive_solver.
    + pose proof (Reserve_grow_wp self x s l c y Henv Hr Hg ltac:(lia))
        as Hwp.
      destruct (wp_returned _ _ _ _ _ _ Hwp Hrun) as [Hpost _].
      valid_by Hpost.
  - pose proof (ShrinkToFit_Ok_allocated _ _ _ _ Hrun) as Ha.
    rewrite Halloc in Ha. destruct y as [|a0]; [done|].
    pose proof (ShrinkToFit_wp self s l c a0 Henv Hr Hg) as Hwp.
    pose proof (wp_returned _ _ _ _ _ _ Hwp Hrun) as Hpost.
    cbv beta in Hpost. repeat case_decide.
    + subst s'. split; [|done].
      apply (valid_memory_pair _ self). naive_solver.
    + valid_by Hpost.
    + valid_by Hpost.
  - pose proof (Swap_wp self s l c y l2 c2 y2 Henv Hr Hr2 Hg) as Hwp.
    destruct (wp_returned _ _ _ _ _ _ Hwp Hrun)
      as (H2 & H1 & _ & Hg' & _).
    by eapply swapped_valid.
Qed.

Lemma reachable_valid s : env_ok → reachable s → valid_state s.
Proof.
  intros Henv. induction 1 as [s Hinit|s self op s' _ IH Hpre Hrun].
  - by apply initial_valid.
  - by eapply step_valid.
Qed.

(** C9: in every state reached from two freshly constructed storages
    by operations that return, each storage is well formed: it holds [size]
    elements in the buffer that its discriminator designates, the first
    [size] slots of it are live and the others raw; [0 ≤ size ≤ capacity];
    if the discriminator is unset the capacity is [N] and the buffer is the
    inlined region; if it is set, [data_] holds the allocated member, which
    points to a block of the heap of that capacity. *)
Theorem reachable_invariant s w :
  env_ok → reachable s →
  ∃ l c y,
    represents (mem s) w l c y ∧
    GetSize (storage_of w (mem s)) = zlen l ∧
    capacity_of w (mem s) = c ∧
    data_of w (mem s) = Ptr (layout_base w y) 0 ∧
    0 ≤ GetSize (storage_of w (mem s)) ≤ capacity_of w (mem s) ∧
    GetIsAllocated (storage_of w (mem s)) = is_allocated_layout y ∧
    (GetIsAllocated (storage_of w (mem s)) = false →
     capacity_of w (mem s) = N) ∧
    (GetIsAllocated (storage_of w (mem s)) = true →
     ∃ a, data_ (storage_of w (mem s)) =
            DataAllocated {| allocated_data := Ptr (HeapBlock a) 0;
                             allocated_capacity := c |} ∧
          heap (mem s) !! a = Some (buffer_of l c)).
Proof.
  intros Henv Hreach.
  destruct (reachable_valid s Henv Hreach) as [Hm _].
  apply (valid_memory_pair _ w) in Hm as (l & c & y & _ & _ & _ & Hr & _).
  destruct (represents_size _ _ _ _ _ Hr) as [Hsize Halloc].
  destruct (represents_bounds _ _ _ _ _ Henv Hr) as [Hlc [HNc Hcm]].
  pose proof (view_of_represents _ _ _ _ _ Hr) as Hv.
  pose proof (zlen_nonneg l) as Hl0.
  exists l, c, y. unfold capacity_of, data_of. rewrite Hv, Hsize, Halloc.
  cbn [view_capacity view_data]. repeat split; try done; try lia.
  - intros Hf. destruct y; [|done]. by inversion Hr.
  - intros Ht. destruct y as [|a]; [done|]. exists a. by inversion Hr.
Qed.

End invariant.

Section returning.
Context {T : Type} {VT : ValueType T} {Env : Environment}.
Implicit Types (m : Memory (T:=T)) (st : Storage (T:=T)) (s : State (T:=T))
  (buf : list (option T)) (l : list T) (w : Who) (b : Base) (p : Pointer)
  (d : Data (T:=T)) (h : gmap nat (list (option T)))
  (f : Storage (T:=T) → Storage (T:=T)) (g : Z → option T)
  (ats : list AllocationTransaction) (cts : list ConstructionTransaction)
  (evs : list (Event (T:=T))).

(** ** What the operations return with *)

(** X1: [Initialize] on a fresh storage, if no operation throws (and the
    allocator can provide the capacity), returns with the storage holding
    the [new_size] values of the source, in their order: inlined when
    [new_size ≤ N], in a new block of capacity
    [ComputeCapacity N new_size] otherwise. *)
Theorem Initialize_returns self values new_size vs values' s :
  env_ok → represents (mem s) self [] N LayoutInlined → no_guards s →
  0 ≤ new_size →
  next_values values (Z.to_nat new_size) = Some (vs, values') →
  ¬ faulty (tick s) →
  (N < new_size → ComputeCapacity N new_size ≤ max_size) →
  ∃ s', Initialize self values new_size s = Ok tt s' ∧
    zlen vs = new_size ∧
    if decide (new_size ≤ N)
    then updated self LayoutInlined vs N LayoutInlined s s'
    else updated self LayoutInlined vs (ComputeCapacity N new_size)
           (fresh_layout s) s s'.
Proof.
  intros Henv Hr Hg Hn Hvs Hnf Hfit.
  destruct (wp_returns _ _ _ _
              (Initialize_wp self values new_size vs values' s Henv Hr Hg Hn
                 Hvs) Hnf) as ([] & s' & Hrun & Hpost); [lia|].
  exists s'. split; [done|]. split; [|done].
  rewrite (zlen_next_values _ _ _ _ Hvs). lia.
Qed.

(** X2: [Assign], if no operation throws, returns with the storage holding
    exactly the [new_size] values of the source. It keeps its buffer, so its
    capacity and layout, when [new_size] is within the capacity; otherwise
    it holds a new block of capacity [ComputeCapacity capacity new_size] and
    has released the old one. The other storage is as it was. *)
Theorem Assign_returns self values new_size vs values' s l c y :
  env_ok → represents (mem s) self l c y → no_guards s →
  0 ≤ new_size →
  next_values values (Z.to_nat new_size) = Some (vs, values') →
  ¬ faulty (tick s) →
  (c < new_size → ComputeCapacity c new_size ≤ max_size) →
  ∃ s', Assign self values new_size s = Ok tt s' ∧
    zlen vs = new_size ∧
    if decide (new_size ≤ c) then updated self y vs c y s s'
    else updated self y vs (ComputeCapacity c new_size) (fresh_layout s) s s'.
Proof.
  intros Henv Hr Hg Hn Hvs Hnf Hfit.
  destruct (wp_returns _ _ _ _
              (Assign_wp self values new_size vs values' s l c y Henv Hr Hg Hn
                 Hvs) Hnf) as ([] & s' & Hrun & Hpost); [lia|].
  exists s'. split; [done|]. split; [|done].
  rewrite (zlen_next_values _ _ _ _ Hvs). lia.
Qed.

(** X3: [Resize], if no operation throws, returns with the first
    [new_size] elements of the storage when [new_size] is at most the size,
    and with all of them followed by [new_size - size] values of the source
    otherwise. The buffer is kept when [new_size] is within the capacity, and
    replaced by a new block of capacity [ComputeCapacity capacity new_size]
    when it is not. *)
Theorem Resize_returns self values new_size vs values' s l c y :
  env_ok → represents (mem s) self l c y → no_guards s →
  0 ≤ new_size →
  next_values values (Z.to_nat (new_size - zlen l)) = Some (vs, values') →
  ¬ faulty (tick s) →
  (c < new_size → ComputeCapacity c new_size ≤ max_size) →
  let l' := take (Z.to_nat new_size) l ++ vs in
  ∃ s', Resize self values new_size s = Ok tt s' ∧
    zlen l' = new_size ∧
    (new_size ≤ zlen l → l' = take (Z.to_nat new_size) l) ∧
    (zlen l ≤ new_size → l' = l ++ vs) ∧
    if decide (new_size ≤ c) then updated self y l' c y s s'
    else updated self y l' (ComputeCapacity c new_size) (fresh_layout s) s s'.
Proof.
  intros Henv Hr Hg Hn Hvs Hnf Hfit l'.
  destruct (wp_returns _ _ _ _
              (Resize_wp self values new_size vs values' s l c y Henv Hr Hg Hn
                 Hvs) Hnf) as ([] & s' & Hrun & Hpost); [lia|].
  pose proof (zlen_next_values _ _ _ _ Hvs) as Hlen.
  pose proof (zlen_nonneg l) as Hl0.
  exists s'. split; [done|]. subst l'. repeat split.
  - rewrite zlen_app, zlen_take, Hlen. lia.
  - intros Hle. replace (Z.to_nat (new_size - zlen l)) with 0%nat in Hvs by lia.
    injection Hvs as <- _. by rewrite app_nil_r.
  - intros Hle. rewrite take_ge; [done|]. unfold zlen in Hle. lia.
  - done.
Qed.

(** X4: [EmplaceBack], if no operation throws, returns a pointer to the new
    last element, with the storage holding the elements it held followed by
    the new one. With room left the buffer is kept; with the storage full it
    holds a new block of twice the capacity and has released the old one. *)
Theorem EmplaceBack_returns self v s l c y :
  env_ok → represents (mem s) self l c y → no_guards s →
  ¬ faulty (tick s) →
  (zlen l = c → 2 * c ≤ max_size) →
  ∃ r s', EmplaceBack self v s = Ok r s' ∧
    if decide (zlen l = c)
    then updated self y (l ++ [v]) (2 * c) (fresh_layout s) s s' ∧
         r = Ptr (layout_base self (fresh_layout s)) (zlen l)
    else updated self y (l ++ [v]) c y s s' ∧
         r = Ptr (layout_base self y) (zlen l).
Proof.
  intros Henv Hr Hg Hnf Hfit.
  destruct (wp_returns _ _ _ _ (EmplaceBack_wp self v s l c y Henv Hr Hg) Hnf)
    as (r & s' & Hrun & Hpost); [lia|].
  by exists r, s'.
Qed.

(** X5: [Erase] of the elements at the indices from [i] to [j], whenever
    it returns, leaves the elements before [i] followed by the elements from
    [j] on, in the same buffer with the same capacity, and its result is the
    pointer to the index [i]; and it returns if no operation throws. Of an
    empty range it move-assigns each element from [i] on to itself. *)
Theorem Erase_returns self i j s l c y :
  env_ok → represents (mem s) self l c y → no_guards s →
  0 ≤ i ≤ j → j ≤ zlen l →
  let base := layout_base self y in
  let l' :=
    take (Z.to_nat i) l ++
    (if decide (i = j) then self_moved <$> drop (Z.to_nat i) l
     else drop (Z.to_nat j) l) in
  zlen l' = zlen l - (j - i) ∧
  (∀ r s', Erase self (Ptr base i) (Ptr base j) s = Ok r s' →
           updated self y l' c y s s' ∧ r = Ptr base i) ∧
  (¬ faulty (tick s) →
   ∃ s', Erase self (Ptr base i) (Ptr base j) s = Ok (Ptr base i) s').
Proof.
  intros Henv Hr Hg Hi Hj base l'.
  pose proof (Erase_wp self i j s l c y Henv Hr Hg Hi Hj) as Hwp.
  cbv zeta in Hwp. fold base l' in Hwp. split; [|split].
  - subst l'. rewrite zlen_app, zlen_take.
    case_decide; rewrite ?zlen_fmap, zlen_drop; lia.
  - intros r s' Hrun. exact (wp_returned _ _ _ _ _ _ Hwp Hrun).
  - intros Hnf.
    destruct (wp_returns _ _ _ _ Hwp Hnf) as (r & s' & Hrun & _ & ->);
      [tauto|].
    by exists s'.
Qed.

(** X6: [Insert] of [count] values at the index [i], if no operation
    throws, returns the pointer to the index [i] of the buffer it leaves,
    which holds the elements before [i], the values, and the elements from
    [i] on. The buffer is kept when [size + count] is within the capacity,
    and replaced by a new block of capacity
    [ComputeCapacity capacity (size + count)] when it is not. With
    [count = 0] each element from [i] on is move-assigned to itself. *)
Theorem Insert_returns self i values count vs values' s l c y :
  env_ok → represents (mem s) self l c y → no_guards s →
  0 ≤ i ≤ zlen l → 0 ≤ count ≤ max_size →
  next_values values (Z.to_nat count) = Some (vs, values') →
  ¬ faulty (tick s) →
  (c < zlen l + count → ComputeCapacity c (zlen l + count) ≤ max_size) →
  let l' :=
    take (Z.to_nat i) l ++ vs ++
    (if decide (count = 0) then self_moved <$> drop (Z.to_nat i) l
     else drop (Z.to_nat i) l) in
  let y' := if decide (zlen l + count ≤ c) then y else fresh_layout s in
  let c' :=
    if decide (zlen l + count ≤ c) then c
    else ComputeCapacity c (zlen l + count) in
  ∃ s', Insert self (Ptr (layout_base self y) i) values count s =
          Ok (Ptr (layout_base self y') i) s' ∧
    zlen l' = zlen l + count ∧
    updated self y l' c' y' s s'.
Proof.
  intros Henv Hr Hg Hi Hc Hvs Hnf Hfit l' y' c'.
  pose proof (zlen_next_values _ _ _ _ Hvs) as Hlen.
  assert (zlen l' = zlen l + count) as Hl'.
  { subst l'. rewrite !zlen_app, zlen_take.
    case_decide; rewrite ?zlen_fmap, zlen_drop; lia. }
  subst y' c'. destruct (decide (zlen l + count ≤ c)) as [Hin|Hout].
  - destruct (wp_returns _ _ _ _
                (Insert_inplace_wp self i values count vs values' s l c y
                   Henv Hr Hg Hi (proj1 Hc) Hin Hvs) Hnf)
      as (r & s' & Hrun & Hup & ->); [tauto|].
    by exists s'.
  - destruct (wp_returns _ _ _ _
                (Insert_realloc_wp self i values count vs values' s l c y
                   Henv Hr Hg Hi Hc ltac:(lia) Hvs) Hnf)
      as (r & s' & Hrun & Hup & ->); [lia|].
    exists s'. split; [done|]. split; [done|].
    subst l'. rewrite decide_False; [done|].
    destruct (represents_bounds _ _ _ _ _ Henv Hr) as [Hlc _]. lia.
Qed.

End returning.

Section ownership.
Context {T : Type} {VT : ValueType T} {Env : Environment}.
Implicit Types (m : Memory (T:=T)) (st : Storage (T:=T)) (s : State (T:=T))
  (buf : list (option T)) (l : list T) (w : Who) (b : Base) (p : Pointer)
  (d : Data (T:=T)) (h : gmap nat (list (option T)))
  (f : Storage (T:=T) → Storage (T:=T)) (g : Z → option T)
  (ats : list AllocationTransaction) (cts : list ConstructionTransaction)
  (evs : list (Event (T:=T))).

(** ** What an operation leaves alone *)

Lemma updated_refl self s l c y :
  represents (mem s) self l c y → no_guards s → updated self y l c y s s.
Proof.
  intros Hr Hg. split; [done|]. split; [done|]. split; [|done].
  destruct Hr as [| a _ _ Hh _ _]; simpl; [done|].
  symmetry. by apply insert_delete_id.
Qed.

(** An operation on one storage that returns has updated that storage, to
    the layout it had, to the inlined one, or to a new block. *)
Lemma step_updated s self op s' l c y :
  env_ok → represents (mem s) self l c y → no_guards s →
  precondition self op (mem s) → op ≠ OpSwap →
  run_operation self op s = Ok tt s' →
  ∃ l' c' y',
    updated self y l' c' y' s s' ∧
    (y' = y ∨ y' = LayoutInlined ∨ y' = fresh_layout s).
Proof.
  intros Henv Hr Hg Hpre Hop Hrun.
  destruct (represents_size _ _ _ _ _ Hr) as [Hsize Halloc].
  destruct (represents_bounds _ _ _ _ _ Henv Hr) as [Hlc [HNc Hcm]].
  pose proof (view_of_represents _ _ _ _ _ Hr) as Hv.
  pose proof (zlen_nonneg l) as Hl0.
  destruct op as [values n|values n|values n|i values n|i j|v|x| |];
    cbn [run_operation precondition] in Hrun, Hpre; rewrite ?Hsize in Hpre;
    [| | | | | | | |done].
  - destruct Hpre as [Hn [[vs values'] Hvs]].
    destruct (Initialize_Ok_empty _ _ _ _ _ _ Hrun) as [Hna Hz].
    rewrite Halloc in Hna. rewrite Hsize in Hz.
    destruct y; [|done]. apply zlen_0_nil in Hz as ->.
    assert (c = N) as -> by (by inversion Hr).
    pose proof (Initialize_wp self values n vs values' s Henv Hr Hg Hn Hvs)
      as Hwp.
    pose proof (wp_returned _ _ _ _ _ _ Hwp Hrun) as Hpost.
    cbv beta zeta in Hpost. case_decide; eauto 10.
  - destruct Hpre as [Hn [[vs values'] Hvs]].
    pose proof (Assign_wp self values n vs values' s l c y Henv Hr Hg Hn Hvs)
      as Hwp.
    pose proof (wp_returned _ _ _ _ _ _ Hwp Hrun) as Hpost.
    cbv beta zeta in Hpost. case_decide; eauto 10.
  - destruct Hpre as [Hn [[vs values'] Hvs]].
    pose proof (Resize_wp self values n vs values' s l c y Henv Hr Hg Hn Hvs)
      as Hwp.
    pose proof (wp_returned _ _ _ _ _ _ Hwp Hrun) as Hpost.
    cbv beta zeta in Hpost. case_decide; eauto 10.
  - destruct Hpre as (Hi & Hn & [[vs values'] Hvs]).
    erewrite bind_Ok in Hrun by apply storage_run.
    cbv zeta in Hrun. rewrite Hv in Hrun.
    cbn [view_data ptr_add] in Hrun. rewrite Z.add_0_l in Hrun.
    apply bind_mret_Ok in Hrun as [r Hrun].
    destruct (decide (zlen l + n ≤ c)) as [Hin|Hout].
    + pose proof (Insert_inplace_wp self i values n vs values' s l c y
                    Henv Hr Hg Hi (proj1 Hn) Hin Hvs) as Hwp.
      destruct (wp_returned _ _ _ _ _ _ Hwp Hrun) as [Hpost _]. eauto 10.
    + pose proof (Insert_realloc_wp self i values n vs values' s l c y
                    Henv Hr Hg Hi Hn ltac:(lia) Hvs) as Hwp.
      destruct (wp_returned _ _ _ _ _ _ Hwp Hrun) as [Hpost _]. eauto 10.
  - destruct Hpre as (Hi & Hj).
    erewrite bind_Ok in Hrun by apply storage_run.
    cbv zeta in Hrun. rewrite Hv in Hrun.
    cbn [view_data ptr_add] in Hrun. rewrite !Z.add_0_l in Hrun.
    apply bind_mret_Ok in Hrun as [r Hrun].
    pose proof (Erase_wp self i j s l c y Henv Hr Hg Hi Hj) as Hwp.
    destruct (wp_returned _ _ _ _ _ _ Hwp Hrun) as [Hpost _]. eauto 10.
  - apply bind_mret_Ok in Hrun as [r Hrun].
    pose proof (EmplaceBack_wp self v s l c y Henv Hr Hg) as Hwp.
    pose proof (wp_returned _ _ _ _ _ _ Hwp Hrun) as Hpost.
    cbv beta zeta in Hpost. case_decide; destruct Hpost as [Hpost _];
      eauto 10.
  - destruct (decide (x ≤ c)) as [Hle|Hgt].
    + rewrite (Reserve_noop _ _ _ _ _ _ Hr Hle) in Hrun.
      injection Hrun as <-. exists l, c, y. split; [|by left].
      by apply updated_refl.
    + pose proof (Reserve_grow_wp self x s l c y Henv Hr Hg ltac:(lia))
        as Hwp.
      destruct (wp_returned _ _ _ _ _ _ Hwp Hrun) as [Hpost _]. eauto 10.
  - pose proof (ShrinkToFit_Ok_allocated _ _ _ _ Hrun) as Ha.
    rewrite Halloc in Ha. destruct y as [|a0]; [done|].
    pose proof (ShrinkToFit_wp self s l c a0 Henv Hr Hg) as Hwp.
    pose proof (wp_returned _ _ _ _ _ _ Hwp Hrun) as Hpost.
    cbv beta in Hpost. repeat case_decide.
    + subst s'. exists l, c, (LayoutAllocated a0). split; [|by left].
      by apply updated_refl.
    + eauto 10.
    + eauto 10.
Qed.

Lemma updated_other s s' self l c y l2 c2 y2 l' c' y' :
  represents (mem s) self l c y →
  represents (mem s) (other_of self) l2 c2 y2 →
  (∀ a, y = LayoutAllocated a → y2 ≠ LayoutAllocated a) →
  updated self y l' c' y' s s' →
  y' = y ∨ y' = LayoutInlined ∨ y' = fresh_layout s →
  represents (mem s') (other_of self) l2 c2 y2.
Proof.
  intros Hr Hr2 Hd (Hr' & Ho & Hh & Hg) Hy'.
  assert (∀ a, y2 = LayoutAllocated a → y' ≠ LayoutAllocated a) as Hd'.
  { intros a -> ->. destruct Hy' as [<-|[?|Hy']]; [by eapply Hd|done|].
    injection Hy' as ->. inversion Hr2 as [|? _ _ Hha _ _]; subst.
    by rewrite fresh_block_None in Hha. }
  eapply represents_other_frame; [done|done|].
  intros a ->. rewrite Hh.
  assert (heap_release y (heap (mem s)) !! a = heap (mem s) !! a) as <-.
  { destruct y as [|a0]; simpl; [done|].
    apply lookup_delete_ne. intros ->. by eapply Hd. }
  destruct y' as [|a']; simpl; [done|].
  apply lookup_insert_ne. intros ->. by eapply Hd'.
Qed.

(** X7: an operation other than [Swap] on one storage, if it returns,
    leaves the other storage as it was: the same object (allocator, packed
    word and [data_]), holding the same elements with the same capacity in
    the same buffer. *)
Theorem other_storage_untouched s self op s' l2 c2 y2 :
  env_ok → valid_state s → precondition self op (mem s) → op ≠ OpSwap →
  represents (mem s) (other_of self) l2 c2 y2 →
  run_operation self op s = Ok tt s' →
  storage_of (other_of self) (mem s') = storage_of (other_of self) (mem s) ∧
  represents (mem s') (other_of self) l2 c2 y2.
Proof.
  intros Henv [Hm Hg] Hpre Hop Hr2 Hrun.
  apply (valid_memory_pair _ self) in Hm
    as (l & c & y & l2' & c2' & y2' & Hr & Hr2' & Hd).
  destruct (step_updated s self op s' l c y Henv Hr Hg Hpre Hop Hrun)
    as (l' & c' & y' & Hup & Hy').
  split; [apply Hup|].
  assert (y2' = y2) as ->.
  { destruct (represents_size _ _ _ _ _ Hr2) as [_ Ha].
    destruct (represents_size _ _ _ _ _ Hr2') as [_ Ha'].
    rewrite Ha in Ha'.
    destruct Hr2 as [|a ? Hdat]; destruct Hr2' as [|a' ? Hdat']; try done.
    rewrite Hdat in Hdat'. by injection Hdat' as ->. }
  by eapply updated_other.
Qed.

(** ** Blocks and their owners *)

Lemma owns_represents m w l c y a :
  represents m w l c y → owns m w a ↔ y = LayoutAllocated a.
Proof.
  intros Hr. destruct (represents_size _ _ _ _ _ Hr) as [_ Ha].
  unfold owns. rewrite Ha.
  destruct Hr as [|a' ? Hdat]; simpl.
  - split; [by intros []|done].
  - unfold GetAllocatedData. rewrite Hdat. simpl.
    split; [by intros [_ [= ->]]|by intros [= ->]].
Qed.

(** X8: no operation that returns leaks a block, and none releases a
    block that a storage still designates: if before the call every block of
    the heap is owned by one of the two storages, so it is after the call;
    and each storage that is marked allocated after the call designates a
    block of the heap. *)
Theorem operations_leak_free s self op s' :
  env_ok → valid_state s → leak_free (mem s) →
  precondition self op (mem s) →
  run_operation self op s = Ok tt s' →
  leak_free (mem s') ∧
  ∀ w a, owns (mem s') w a → is_Some (heap (mem s') !! a).
Proof.
  intros Henv Hv Hleak Hpre Hrun.
  pose proof (step_valid s self op s' Henv Hv Hpre Hrun) as [Hm' _].
  split; cycle 1.
  { intros w a Ho.
    destruct (proj1 (valid_memory_pair _ w) Hm')
      as (l & c & y & _ & _ & _ & Hr & _).
    apply (owns_represents _ _ _ _ _ _ Hr) in Ho as ->.
    inversion Hr as [|? _ _ Hh _ _]; subst. by rewrite Hh. }
  destruct Hv as [Hm Hg].
  apply (valid_memory_pair _ self) in Hm
    as (l & c & y & l2 & c2 & y2 & Hr & Hr2 & Hd).
  assert (op = OpSwap ∨ op ≠ OpSwap) as [->|Hop]
    by (destruct op; auto).
  - cbn [run_operation] in Hrun.
    pose proof (Swap_wp self s l c y l2 c2 y2 Henv Hr Hr2 Hg) as Hwp.
    destruct (wp_returned _ _ _ _ _ _ Hwp Hrun) as (H2 & H1 & Hh & _).
    intros a Ha. rewrite Hh in Ha. destruct (Hleak a Ha) as [w Ho].
    destruct (decide (w = self)) as [->|Hw].
    + apply (owns_represents _ _ _ _ _ _ Hr) in Ho as ->.
      exists (other_of self). by apply (owns_represents _ _ _ _ _ _ H1).
    + assert (w = other_of self) as -> by (by destruct w, self).
      apply (owns_represents _ _ _ _ _ _ Hr2) in Ho as ->.
      exists self. by apply (owns_represents _ _ _ _ _ _ H2).
  - destruct (step_updated s self op s' l c y Henv Hr Hg Hpre Hop Hrun)
      as (l' & c' & y' & Hup & Hy').
    pose proof (updated_other _ _ _ _ _ _ _ _ _ _ _ _ Hr Hr2 Hd Hup Hy')
      as Hr2'.
    destruct Hup as (Hr' & Ho' & Hh & _).
    intros a Ha.
    assert (y' = LayoutAllocated a ∨ y' ≠ LayoutAllocated a) as [->|Hy'a].
    { destruct y' as [|a']; [by right|].
      destruct (decide (a' = a)) as [->|]; [by left|right; congruence]. }
    { exists self. by apply (owns_represents _ _ _ _ _ _ Hr'). }
    assert (is_Some (heap_release y (heap (mem s)) !! a)) as Ha'.
    { rewrite Hh in Ha. destruct y' as [|a']; simpl in Ha; [done|].
      rewrite lookup_insert_ne in Ha by congruence. done. }
    assert (y ≠ LayoutAllocated a ∧ is_Some (heap (mem s) !! a))
      as [Hya Has].
    { destruct y as [|a0]; simpl in Ha'; [done|].
      destruct (decide (a0 = a)) as [->|Hne].
      - rewrite lookup_delete_eq in Ha'. by destruct Ha'.
      - rewrite lookup_delete_ne in Ha' by done. split; [congruence|done]. }
    destruct (Hleak a Has) as [w Ho].
    destruct (decide (w = self)) as [->|Hw].
    + by apply (owns_represents _ _ _ _ _ _ Hr) in Ho.
    + assert (w = other_of self) as -> by (by destruct w, self).
      apply (owns_represents _ _ _ _ _ _ Hr2) in Ho as ->.
      exists (other_of self). by apply (owns_represents _ _ _ _ _ _ Hr2').
Qed.

(** ** [Reserve] undone by [ShrinkToFit] *)

(** X9: on an inlined storage, [Reserve] beyond the inlined capacity and
    then [ShrinkToFit], if no operation throws, return with the storage
    inlined again, holding the elements it held in their order, and with the
    heap as it was before the two calls. *)
Theorem Reserve_ShrinkToFit self x s l :
  env_ok → represents (mem s) self l N LayoutInlined → no_guards s →
  N < x → ComputeCapacity N x ≤ max_size → ¬ faulty (tick s) →
  ∃ s1 s2,
    Reserve self x s = Ok tt s1 ∧
    represents (mem s1) self l (ComputeCapacity N x) (fresh_layout s) ∧
    ShrinkToFit self s1 = Ok tt s2 ∧
    represents (mem s2) self l N LayoutInlined ∧
    heap (mem s2) = heap (mem s) ∧
    storage_of (other_of self) (mem s2) = storage_of (other_of self) (mem s) ∧
    no_guards s2.
Proof.
  intros Henv Hr Hg Hx Hfit Hnf.
  destruct (represents_bounds _ _ _ _ _ Henv Hr) as [Hlc _].
  destruct (wp_returns_tick _ _ _ _
              (Reserve_grow_wp self x s l N LayoutInlined Henv Hr Hg Hx) Hnf)
    as ([] & s1 & Hrun1 & Ht1 & (Hr1 & Ho1 & Hh1 & Hg1) & _); [lia|].
  assert (¬ faulty (tick s1)) as Hnf1
    by (intros Hf; apply Hnf; by eapply faulty_mono).
  set (a := fresh (dom (heap (mem s)))) in *.
  destruct (wp_returns _ _ _ _
              (ShrinkToFit_wp self s1 l _ a Henv Hr1 Hg1) Hnf1)
    as ([] & s2 & Hrun2 & Hpost); [tauto|].
  assert (N < ComputeCapacity N x) as Hgrow.
  { pose proof (ComputeCapacity_ge N x) as Hge. lia. }
  rewrite decide_False in Hpost by lia.
  rewrite decide_True in Hpost by lia.
  destruct Hpost as (Hr2 & Ho2 & Hh2 & Hg2).
  exists s1, s2. repeat split; try done.
  - rewrite Hh2, Hh1. simpl. rewrite delete_insert_id; [done|].
    apply fresh_block_None.
  - by rewrite Ho2.
  - apply Hg2.
  - apply Hg2.
Qed.

End ownership.

Section teardown.
Context {T : Type} {VT : ValueType T} {Env : Environment}.
Implicit Types (m : Memory (T:=T)) (st : Storage (T:=T)) (s : State (T:=T))
  (buf : list (option T)) (l : list T) (w : Who) (b : Base) (p : Pointer)
  (d : Data (T:=T)) (h : gmap nat (list (option T)))
  (f : Storage (T:=T) → Storage (T:=T)) (g : Z → option T)
  (ats : list AllocationTransaction) (cts : list ConstructionTransaction)
  (evs : list (Event (T:=T))).

#[local] Arguments write_slot : simpl never.
#[local] Arguments slot_at : simpl never.
#[local] Arguments range_update : simpl never.
#[local] Arguments destroy_events : simpl never.

(** ** The destructor *)

Lemma represents_live m w l c y j :
  represents m w l c y → zlen l ≤ c → 0 ≤ j < zlen l →
  ∃ v, slot_at (Ptr (layout_base w y) j) m = Some (Some v).
Proof.
  intros Hr Hlc Hj. rewrite (slot_at_represents _ _ _ _ _ _ Hr Hlc).
  rewrite zlookup_buffer_of_in by lia.
  destruct (proj2 (zlookup_is_Some l j) Hj) as [v Hv]. rewrite Hv. eauto.
Qed.

Lemma heap_release_clear_range w y off n m :
  heap (release_layout y (clear_range (layout_base w y) off n m)) =
  heap_release y (heap m).
Proof.
  destruct y as [|a]; cbn [layout_base release_layout heap_release].
  - apply heap_range_update_inlined.
  - unfold clear_range. by rewrite forget_range_update.
Qed.

(** X10: the destructor of a well-formed storage returns, whatever the
    element type throws elsewhere: it calls no operation that can throw. If
    the elements need their destructors ([IsMemcpyOk] is false) it destroys
    each of them once, the last one first, and then deallocates the block if
    the storage is allocated; if they do not, it only deallocates. The heap
    is left without the block of the storage, and the other storage is
    untouched. *)
Theorem Storage_dtor_releases self s l c y :
  env_ok → represents (mem s) self l c y →
  let contents :=
    if IsMemcpyOk then mem s
    else clear_range (layout_base self y) 0 (zlen l) (mem s) in
  let destructions :=
    if IsMemcpyOk then []
    else destroy_events (Ptr (layout_base self y) 0) (zlen l) in
  Storage_dtor self s =
    Ok tt (state_after (release_layout y contents)
             (destructions ++ release_events y c) 0 s) ∧
  heap (release_layout y contents) = heap_release y (heap (mem s)) ∧
  storage_of (other_of self) (release_layout y contents) =
    storage_of (other_of self) (mem s).
Proof.
  intros Henv Hr contents destructions.
  destruct (represents_bounds _ _ _ _ _ Henv Hr) as [Hlc [HNc Hcm]].
  pose proof (represents_word _ _ _ _ _ Hr) as Hw.
  pose proof (view_of_represents _ _ _ _ _ Hr) as Hv.
  pose proof (zlen_nonneg l) as Hl0.
  pose proof (other_of_ne self) as Hoth.
  split; [|split].
  - unfold Storage_dtor. erewrite bind_Ok by apply storage_run.
    unfold GetSizeAndIsAllocated. rewrite Hw.
    assert ((zlen l = 0 ∧ y = LayoutInlined) ∨
            ¬ (zlen l = 0 ∧ y = LayoutInlined)) as [[Hz ->]|Hnz].
    { destruct y; [|by right; intros [_ ?]].
      destruct (decide (zlen l = 0)); [by left|right; by intros [? _]]. }
    { rewrite Hz. simpl. subst contents destructions. rewrite Hz.
      unfold clear_range. rewrite range_update_empty by done.
      rewrite destroy_events_0. f_equal. symmetry.
      destruct IsMemcpyOk; apply state_after_id. }
    assert ((2 * zlen l +
             match y with LayoutInlined => 0 | LayoutAllocated _ => 1 end
             =? 0) = false) as ->.
    { apply Z.eqb_neq. destruct y; [|lia].
      intros ?. apply Hnz. split; [lia|done]. }
    subst contents destructions. destruct IsMemcpyOk eqn:Hmc.
    + destruct Hr as [Hw' Hb Hl ->|a Hw' Hd Hh Hl Hc]; simpl.
      * erewrite DeallocateIfAllocated_inlined by done.
        by rewrite state_after_id.
      * erewrite DeallocateIfAllocated_run; [done|done|done|done|].
        apply zlen_buffer_of. lia.
    + unfold DestroyContents. erewrite bind_Ok by apply storage_run.
      assert ((if GetIsAllocated (storage_of self (mem s))
               then GetAllocatedData (storage_of self (mem s))
               else GetInlinedData self) = Ptr (layout_base self y) 0) as ->.
      { apply (f_equal view_data) in Hv. unfold MakeStorageView in Hv.
        by destruct (GetIsAllocated (storage_of self (mem s))). }
      assert (GetSize (storage_of self (mem s)) = zlen l) as ->.
      { apply (f_equal view_size) in Hv. unfold MakeStorageView in Hv.
        by destruct (GetIsAllocated (storage_of self (mem s))). }
      cbv zeta. unfold mbind at 1, M_bind at 1.
      rewrite DestroyElements_run; [|done|]; cycle 1.
      { intros j Hj. eapply represents_live; [done|lia|lia]. }
      destruct Hr as [Hw' Hb Hl ->|a Hw' Hd Hh Hl Hc]; cbn [layout_base].
      * erewrite DeallocateIfAllocated_inlined; cycle 1.
        { cbn [mem state_after mk_state]. unfold clear_range.
          rewrite word_range_update. exact Hw'. }
        simpl. by rewrite app_nil_r.
      * erewrite DeallocateIfAllocated_run; cycle 1.
        { cbn [mem state_after mk_state]. unfold clear_range.
          rewrite word_range_update. exact Hw'. }
        { cbn [mem state_after mk_state]. unfold clear_range.
          rewrite storage_of_range_update by done. exact Hd. }
        { cbn [mem state_after mk_state]. unfold clear_range.
          rewrite <- get_buf_heap, get_buf_range_update_eq, get_buf_heap, Hh.
          done. }
        { rewrite zlen_zupdate. apply zlen_buffer_of. lia. }
        rewrite state_after_state_after. done.
  - subst contents. destruct IsMemcpyOk.
    + apply heap_release_layout.
    + apply heap_release_clear_range.
  - subst contents. rewrite storage_of_release_layout.
    destruct IsMemcpyOk; [done|]. unfold clear_range.
    destruct y; cbn [layout_base].
    + apply storage_of_range_update. congruence.
    + by apply storage_of_range_update.
Qed.

End teardown.

Section size_word.
Context {T : Type} {VT : ValueType T} {Env : Environment}.
Implicit Types (m : Memory (T:=T)) (st : Storage (T:=T)) (s : State (T:=T))
  (w : Who).

(** ** The packed word [size << 1 | is_allocated] *)

Lemma word_decompose st :
  metadata_size_and_is_allocated st =
  2 * GetSize st + Z.b2z (GetIsAllocated st).
Proof.
  unfold GetSize, GetIsAllocated, GetSizeAndIsAllocated, sz_shr.
  set (x := metadata_size_and_is_allocated st).
  rewrite land_1, Z.shiftr_div_pow2 by done. change (2 ^ 1) with 2.
  pose proof (Z.div_mod x 2 ltac:(done)) as Hdm.
  pose proof (Z.mod_pos_bound x 2 ltac:(done)) as Hb.
  destruct (x `mod` 2 =? 0) eqn:E; simpl.
  - apply Z.eqb_eq in E. lia.
  - apply Z.eqb_neq in E. lia.
Qed.

Lemma GetSize_nonneg st :
  0 ≤ metadata_size_and_is_allocated st → 0 ≤ GetSize st.
Proof.
  intros. unfold GetSize, GetSizeAndIsAllocated, sz_shr.
  by apply Z.shiftr_nonneg.
Qed.

Lemma storage_after_update self f s :
  ∃ s', update_storage self f s = Ok tt s' ∧
    storage_of self (mem s') = f (storage_of self (mem s)).
Proof.
  eexists. split; [done|]. simpl. apply storage_of_with_storage_eq.
Qed.

(** X11: for every size below [2^63], [SetSize], [SetAllocatedSize] and
    [SetInlinedSize] store a word from which [GetSize] reads the size back;
    [SetSize] keeps the discriminator, [SetAllocatedSize] sets it and
    [SetInlinedSize] clears it. *)
Theorem size_word_set self size s :
  0 ≤ size < 2 ^ 63 →
  ∃ s1 s2 s3,
    SetSize self size s = Ok tt s1 ∧
    SetAllocatedSize self size s = Ok tt s2 ∧
    SetInlinedSize self size s = Ok tt s3 ∧
    GetSize (storage_of self (mem s1)) = size ∧
    GetIsAllocated (storage_of self (mem s1)) =
      GetIsAllocated (storage_of self (mem s)) ∧
    GetSize (storage_of self (mem s2)) = size ∧
    GetIsAllocated (storage_of self (mem s2)) = true ∧
    GetSize (storage_of self (mem s3)) = size ∧
    GetIsAllocated (storage_of self (mem s3)) = false.
Proof.
  intros Hs. pose proof SizeType_modulus_eq as Hmod.
  assert (sz_shl size 1 = 2 * size) as Hshl by (apply sz_shl_1; lia).
  unfold SetSize, SetAllocatedSize, SetInlinedSize.
  destruct (storage_after_update self
    (λ st, set_word (Z.lor (sz_shl size 1) (Z.b2z (GetIsAllocated st))) st) s)
    as (s1 & -> & H1).
  destruct (storage_after_update self
    (λ st, set_word (Z.lor (sz_shl size 1) 1) st) s) as (s2 & -> & H2).
  destruct (storage_after_update self
    (λ st, set_word (sz_shl size 1) st) s) as (s3 & -> & H3).
  exists s1, s2, s3. rewrite H1, H2, H3, !Hshl.
  repeat split.
  - eapply GetSize_word. simpl. apply lor_bit.
  - eapply GetIsAllocated_word. simpl. apply lor_bit.
  - eapply (GetSize_word _ _ true). simpl. apply (lor_bit size true).
  - eapply (GetIsAllocated_word _ _ true). simpl. apply (lor_bit size true).
  - by eapply GetSize_even.
  - by eapply GetIsAllocated_even.
Qed.

(** X12: on a storage whose word is a [SizeType] value, [AddSize] and
    [SubtractSize] change the size by [count] and keep the discriminator, as
    long as the new size is below [2^63], respectively [count] is at most
    the size; [SetIsAllocated] and [UnsetIsAllocated] set and clear the
    discriminator and keep the size. None of them touches [data_] or the
    allocator. *)
Theorem size_word_update self count s :
  let st := storage_of self (mem s) in
  0 ≤ metadata_size_and_is_allocated st < SizeType_modulus → 0 ≤ count →
  (GetSize st + count < 2 ^ 63 →
   ∃ s', AddSize self count s = Ok tt s' ∧
     GetSize (storage_of self (mem s')) = GetSize st + count ∧
     GetIsAllocated (storage_of self (mem s')) = GetIsAllocated st ∧
     data_ (storage_of self (mem s')) = data_ st) ∧
  (count ≤ GetSize st →
   ∃ s', SubtractSize self count s = Ok tt s' ∧
     GetSize (storage_of self (mem s')) = GetSize st - count ∧
     GetIsAllocated (storage_of self (mem s')) = GetIsAllocated st ∧
     data_ (storage_of self (mem s')) = data_ st) ∧
  (∃ s', SetIsAllocated self s = Ok tt s' ∧
     GetSize (storage_of self (mem s')) = GetSize st ∧
     GetIsAllocated (storage_of self (mem s')) = true ∧
     data_ (storage_of self (mem s')) = data_ st) ∧
  (∃ s', UnsetIsAllocated self s = Ok tt s' ∧
     GetSize (storage_of self (mem s')) = GetSize st ∧
     GetIsAllocated (storage_of self (mem s')) = false ∧
     data_ (storage_of self (mem s')) = data_ st).
Proof.
  intros st Hw Hc. pose proof SizeType_modulus_eq as Hmod.
  pose proof (word_decompose st) as Hd.
  pose proof (GetSize_nonneg st (proj1 Hw)) as Hn.
  set (n := GetSize st) in *. set (bit := GetIsAllocated st) in *.
  assert (0 ≤ Z.b2z bit ≤ 1) as Hbit by (destruct bit; simpl; lia).
  split; [|split; [|split]].
  - intros Hsum. unfold AddSize.
    destruct (storage_after_update self
      (λ st, set_word (sz_add (GetSizeAndIsAllocated st) (sz_shl count 1)) st)
      s) as (s' & -> & H'). exists s'. split; [done|]. rewrite H'.
    fold st. unfold GetSizeAndIsAllocated. rewrite Hd.
    rewrite sz_shl_1 by lia. rewrite sz_add_small by lia.
    assert (2 * n + Z.b2z bit + 2 * count = 2 * (n + count) + Z.b2z bit)
      as Heq by lia.
    split; [|split; [|done]].
    + by eapply GetSize_word.
    + by eapply GetIsAllocated_word.
  - intros Hle. unfold SubtractSize.
    erewrite bind_Ok by apply storage_run. fold st n.
    assert ((count <=? n) = true) as -> by (by apply Z.leb_le).
    unfold assert. unfold mbind at 1, M_bind at 1, mret, M_ret.
    destruct (storage_after_update self
      (λ st, set_word (sz_sub (GetSizeAndIsAllocated st) (sz_shl count 1)) st)
      s) as (s' & -> & H'). exists s'. split; [done|]. rewrite H'.
    fold st. unfold GetSizeAndIsAllocated. rewrite Hd.
    rewrite sz_shl_1 by lia. rewrite sz_sub_small by lia.
    assert (2 * n + Z.b2z bit - 2 * count = 2 * (n - count) + Z.b2z bit)
      as Heq by lia.
    split; [|split; [|done]].
    + by eapply GetSize_word.
    + by eapply GetIsAllocated_word.
  - unfold SetIsAllocated.
    destruct (storage_after_update self
      (λ st, set_word (Z.lor (GetSizeAndIsAllocated st) 1) st) s)
      as (s' & -> & H'). exists s'. split; [done|]. rewrite H'.
    fold st. unfold GetSizeAndIsAllocated. rewrite Hd.
    assert (Z.lor (2 * n + Z.b2z bit) 1 = 2 * n + 1) as Heq.
    { destruct bit; simpl; [apply lor_one_odd|].
      rewrite Z.add_0_r. apply (lor_bit n true). }
    split; [|split; [|done]].
    + by eapply GetSize_odd.
    + by eapply GetIsAllocated_odd.
  - unfold UnsetIsAllocated.
    destruct (storage_after_update self
      (λ st, set_word
               (Z.land (GetSizeAndIsAllocated st) (SizeType_max - 1)) st) s)
      as (s' & -> & H'). exists s'. split; [done|]. rewrite H'.
    fold st. unfold GetSizeAndIsAllocated. rewrite Hd.
    assert (Z.land (2 * n + Z.b2z bit) (SizeType_max - 1) = 2 * n) as Heq
      by (apply land_clear_bit; lia).
    split; [|split; [|done]].
    + by eapply GetSize_even.
    + by eapply GetIsAllocated_even.
Qed.

End size_word.

Section scopes.
Context {T : Type} {VT : ValueType T} {Env : Environment}.
Implicit Types (m : Memory (T:=T)) (st : Storage (T:=T)) (s : State (T:=T))
  (buf : list (option T)) (l : list T) (w : Who) (b : Base) (p : Pointer)
  (ats : list AllocationTransaction) (cts : list ConstructionTransaction)
  (evs : list (Event (T:=T))).

#[local] Arguments write_slot : simpl never.
#[local] Arguments slot_at : simpl never.
#[local] Arguments range_update : simpl never.
#[local] Arguments destroy_events : simpl never.
#[local] Arguments construct_events : simpl never.

(** ** The scopes of the transaction guards *)

Lemma state_after_no_guards m evs t s :
  no_guards s → state_after m evs t s = mk_state s m [] [] evs t.
Proof. intros [Ha Hc]. unfold state_after. by rewrite Ha, Hc. Qed.

(** X13: what an [AllocationTransaction] allocated is deallocated when its
    scope is left, by a return or by an exception alike, and the memory is
    then as it was before the allocation; but once a storage has taken the
    block with [AcquireAllocatedData], the scope leaves the block in the
    heap, designated by the [data_] of the storage. *)
Theorem AllocationTransaction_scope self capacity s :
  no_guards s → 0 ≤ capacity ≤ max_size → faults (tick s) = false →
  let a := fresh (dom (heap (mem s))) in
  let allocated :=
    set_heap (<[a := raw_buffer capacity]> (heap (mem s))) (mem s) in
  with_AllocationTransaction
    (λ tx, AllocationTransaction_Allocate tx capacity;; mret tt) s =
    Ok tt (state_after (mem s)
             [EvAllocate a capacity; EvDeallocate a capacity] 1 s) ∧
  (∀ e,
     with_AllocationTransaction
       (λ tx, AllocationTransaction_Allocate tx capacity;; throw (A:=unit) e)
       s =
     Throw e (state_after (mem s)
                [EvAllocate a capacity; EvDeallocate a capacity] 1 s)) ∧
  with_AllocationTransaction
    (λ tx, AllocationTransaction_Allocate tx capacity;;
           AcquireAllocatedData self tx) s =
    Ok tt (state_after
             (with_storage self
                (set_data (DataAllocated
                   {| allocated_data := Ptr (HeapBlock a) 0;
                      allocated_capacity := capacity |})) allocated)
             [EvAllocate a capacity] 1 s).
Proof.
  intros Hg Hc Hf a allocated.
  assert (∀ {A} (c : M A), c s = c (mk_state s (mem s) [] [] [] 0)) as Hfrom.
  { intros A c. destruct Hg as [Ha Hct]. rewrite (run_from c).
    by rewrite Ha, Hct. }
  assert (heap allocated !! a = Some (raw_buffer capacity)) as Hblock
    by apply lookup_insert_eq.
  assert (forget a allocated = mem s) as Hforget
    by apply forget_allocated, fresh_block_None.
  rewrite !state_after_no_guards by done.
  split; [|split; [intros e|]].
  - rewrite Hfrom, with_AllocationTransaction_run. unfold unwind_protect.
    unfold mbind at 1, M_bind at 1.
    rewrite AllocationTransaction_Allocate_run by lia.
    rewrite Nat.add_0_r, Hf. fold a allocated.
    unfold mret at 1, M_ret at 1.
    erewrite AllocationTransaction_dtor_armed;
      [|exact Hblock|apply zlen_raw_buffer; lia].
    by rewrite Hforget.
  - rewrite Hfrom, with_AllocationTransaction_run. unfold unwind_protect.
    unfold mbind at 1, M_bind at 1.
    rewrite AllocationTransaction_Allocate_run by lia.
    rewrite Nat.add_0_r, Hf. fold a allocated.
    unfold throw at 1.
    erewrite AllocationTransaction_dtor_armed;
      [|exact Hblock|apply zlen_raw_buffer; lia].
    by rewrite Hforget.
  - rewrite Hfrom, with_AllocationTransaction_run. unfold unwind_protect.
    unfold mbind at 1, M_bind at 1.
    rewrite AllocationTransaction_Allocate_run by lia.
    rewrite Nat.add_0_r, Hf. fold a allocated.
    rewrite AcquireAllocatedData_run.
    cbn [allocation_tx_data allocation_tx_capacity].
    by rewrite AllocationTransaction_dtor_idle.
Qed.

Lemma ConstructionTransaction_dtor_armed b off n s m ats evs t :
  0 ≤ n →
  (∀ j, off ≤ j < off + n → ∃ v, slot_at (Ptr b j) m = Some (Some v)) →
  ConstructionTransaction_dtor 0
    (mk_state s m ats
       [{| construction_tx_data := Ptr b off; construction_tx_size := n |}]
       evs t) =
  Ok tt (mk_state s (clear_range b off n m) ats []
           (evs ++ destroy_events (Ptr b off) n) t).
Proof.
  intros Hn Hlive. unfold ConstructionTransaction_dtor,
    ConstructionTransaction_DidConstruct, ConstructionTransaction_GetData,
    ConstructionTransaction_GetSize.
  unfold mbind, M_bind, construction_tx, mret, M_ret.
  cbn [construction_txs mk_state lookup list_lookup construction_tx_data
       construction_tx_size is_null negb].
  rewrite DestroyElements_run by done.
  rewrite state_after_mk_state. unfold leave_construction_tx.
  rewrite with_construction_txs_mk_state. simpl.
  f_equal. apply state_eq; simpl; try done. lia.
Qed.

(** X14: the elements that a [ConstructionTransaction] constructed are
    destroyed, the last one first, when its scope is left by an exception
    before [Commit]: every slot of the range is raw again. After [Commit]
    the scope leaves them as they are. *)
Theorem ConstructionTransaction_scope b off values n vs values' s :
  no_guards s → 0 ≤ n →
  next_values values (Z.to_nat n) = Some (vs, values') →
  (∀ j, off ≤ j < off + n → slot_at (Ptr b j) (mem s) = Some None) →
  first_fault (tick s) (Z.to_nat n) = None →
  with_ConstructionTransaction
    (λ tx, ConstructionTransaction_Construct tx (Ptr b off) values n;;
           ConstructionTransaction_Commit tx) s =
    Ok tt (state_after (fill_range b off vs (mem s))
             (construct_events (Ptr b off) vs) (Z.to_nat n) s) ∧
  ∀ e,
    with_ConstructionTransaction
      (λ tx, ConstructionTransaction_Construct tx (Ptr b off) values n;;
             throw (A:=unit) e) s =
    Throw e (state_after
               (clear_range b off n (fill_range b off vs (mem s)))
               (construct_events (Ptr b off) vs ++
                destroy_events (Ptr b off) n)
               (Z.to_nat n) s) ∧
    ∀ j, off ≤ j < off + n →
         slot_at (Ptr b j)
           (clear_range b off n (fill_range b off vs (mem s))) = Some None.
Proof.
  intros Hg Hn Hvs Hraw Hff.
  assert (∀ {A} (c : M A), c s = c (mk_state s (mem s) [] [] [] 0)) as Hfrom.
  { intros A c. destruct Hg as [Ha Hct]. rewrite (run_from c).
    by rewrite Ha, Hct. }
  pose proof (zlen_next_values _ _ _ _ Hvs) as Hlen.
  rewrite Z2Nat.id in Hlen by done.
  assert (ConstructionTransaction_Construct 0 (Ptr b off) values n
            (mk_state s (mem s) [] [no_construction] [] 0) =
          Ok values'
            (mk_state s (fill_range b off vs (mem s)) []
               [{| construction_tx_data := Ptr b off;
                   construction_tx_size := n |}]
               (construct_events (Ptr b off) vs) (Z.to_nat n))) as Hrun.
  { unfold ConstructionTransaction_Construct.
    unfold mbind at 1, M_bind at 1.
    rewrite (ConstructElements_ext_run b off n values vs values') by done.
    cbn [tick mk_state]. rewrite Nat.add_0_r, Hff.
    rewrite state_after_mk_state. cbn [mem mk_state].
    unfold mbind at 1, M_bind at 1. rewrite set_construction_tx_mk.
    done. }
  rewrite !state_after_no_guards by done.
  split; [|intros e; split].
  - rewrite Hfrom, with_ConstructionTransaction_run. unfold unwind_protect.
    cbn [length app]. unfold mbind at 1, M_bind at 1. rewrite Hrun.
    rewrite ConstructionTransaction_Commit_mk.
    by rewrite ConstructionTransaction_dtor_idle.
  - rewrite Hfrom, with_ConstructionTransaction_run. unfold unwind_protect.
    cbn [length app]. unfold mbind at 1, M_bind at 1. rewrite Hrun.
    unfold throw at 1.
    rewrite ConstructionTransaction_dtor_armed; [done|done|].
    intros j Hj. unfold fill_range.
    rewrite slot_at_range_update_eq, Hraw by done. simpl.
    rewrite decide_True by lia.
    destruct (proj2 (zlookup_is_Some vs (j - off)) ltac:(lia)) as [v Hv].
    rewrite Hv. eauto.
  - intros j Hj. unfold clear_range, fill_range.
    rewrite !slot_at_range_update_eq, Hraw by done. simpl.
    by rewrite decide_True by lia.
Qed.

End scopes.

Section exceptions.
Context {T : Type} {VT : ValueType T} {Env : Environment}.
Implicit Types (m : Memory (T:=T)) (st : Storage (T:=T)) (s : State (T:=T))
  (buf : list (option T)) (l : list T) (w : Who) (b : Base) (p : Pointer)
  (d : Data (T:=T)) (h : gmap nat (list (option T)))
  (f : Storage (T:=T) → Storage (T:=T)) (g : Z → option T)
  (ats : list AllocationTransaction) (cts : list ConstructionTransaction)
  (evs : list (Event (T:=T))).

#[local] Arguments write_slot : simpl never.
#[local] Arguments slot_at : simpl never.
#[local] Arguments range_update : simpl never.
#[local] Arguments construct_events : simpl never.
#[local] Arguments move_construct_events : simpl never.
#[local] Arguments destroy_events : simpl never.

(** ** When the allocator throws *)

Lemma Allocate_refused capacity s m cts evs t :
  faults (tick s + t) = true ∨ max_size < capacity →
  ∃ evs' t',
    AllocationTransaction_Allocate 0 capacity
      (mk_state s m [no_allocation] cts evs t) =
    Throw bad_alloc (mk_state s m [no_allocation] cts evs' t').
Proof.
  intros Href. destruct (decide (max_size < capacity)) as [Hbig|Hfit].
  - exists evs, t. by apply AllocationTransaction_Allocate_too_large.
  - destruct Href as [Hf|]; [|done].
    eexists _, _. rewrite AllocationTransaction_Allocate_run by lia.
    by rewrite Hf.
Qed.

(** A scope whose body throws with the guard idle. *)
Lemma with_AllocationTransaction_Throw {A} (body : nat → M A) s e m evs t :
  no_guards s →
  body 0%nat (mk_state s (mem s) [no_allocation] [] [] 0) =
    Throw e (mk_state s m [no_allocation] [] evs t) →
  with_AllocationTransaction body s = Throw e (mk_state s m [] [] evs t).
Proof.
  intros [Ha Hc] Hrun.
  rewrite (run_from (with_AllocationTransaction _)), Ha, Hc.
  rewrite with_AllocationTransaction_run. unfold unwind_protect.
  rewrite Hrun. by rewrite AllocationTransaction_dtor_idle.
Qed.

Lemma with_AllocationTransaction_refused {A} capacity
    (k : nat → Pointer → M A) s :
  no_guards s → faults (tick s) = true ∨ max_size < capacity →
  ∃ s', with_AllocationTransaction
          (λ tx, AllocationTransaction_Allocate tx capacity ≫= k tx) s =
        Throw bad_alloc s' ∧
    mem s' = mem s ∧ no_guards s'.
Proof.
  intros Hg Href.
  destruct (Allocate_refused capacity s (mem s) [] [] 0) as (evs' & t' & Hrun).
  { by rewrite Nat.add_0_r. }
  eexists. split.
  - apply with_AllocationTransaction_Throw; [done|].
    by erewrite bind_Throw by exact Hrun.
  - by split.
Qed.

(** X15: when the allocator throws (it has no memory for the request, or
    the request is beyond [max_size]) in [Reserve], [EmplaceBack] on a full
    storage, [ShrinkToFit] to a smaller block, or [Initialize] beyond the
    inlined capacity, the exception propagates with the memory exactly as
    it was before the call and no guard left: the storage holds the same
    elements in the same buffer. *)
Theorem bad_alloc_keeps_storage self s l c y :
  env_ok → represents (mem s) self l c y → no_guards s →
  (∀ x, c < x →
     faults (tick s) = true ∨ max_size < ComputeCapacity c x →
     ∃ s', Reserve self x s = Throw bad_alloc s' ∧
       mem s' = mem s ∧ no_guards s') ∧
  (∀ v, zlen l = c →
     faults (tick s) = true ∨ max_size < 2 * c →
     ∃ s', EmplaceBack self v s = Throw bad_alloc s' ∧
       mem s' = mem s ∧ no_guards s') ∧
  (is_allocated_layout y = true → N < zlen l < c →
     faults (tick s) = true →
     ∃ s', ShrinkToFit self s = Throw bad_alloc s' ∧
       mem s' = mem s ∧ no_guards s') ∧
  (∀ values new_size, l = [] → y = LayoutInlined → N < new_size →
     faults (tick s) = true ∨ max_size < ComputeCapacity N new_size →
     ∃ s', Initialize self values new_size s = Throw bad_alloc s' ∧
       mem s' = mem s ∧ no_guards s').
Proof.
  intros Henv Hr Hg.
  pose proof (view_of_represents _ _ _ _ _ Hr) as Hv.
  destruct (represents_bounds _ _ _ _ _ Henv Hr) as [Hlc [HNc Hcm]].
  destruct (represents_size _ _ _ _ _ Hr) as [Hsize Halloc].
  pose proof (zlen_nonneg l) as Hl0.
  pose proof Henv as (HN & HNm & Hmax).
  split; [|split; [|split]].
  - intros x Hx Href. unfold Reserve.
    erewrite bind_Ok by apply storage_run. cbv zeta. rewrite Hv.
    cbn [view_size view_capacity view_data].
    rewrite (proj2 (Z.leb_gt x c)) by lia.
    by apply with_AllocationTransaction_refused.
  - intros v Hfull Href. unfold EmplaceBack.
    erewrite bind_Ok by apply storage_run. cbv zeta. rewrite Hv.
    cbn [view_size view_capacity view_data].
    rewrite Hfull, Z.eqb_refl. cbn [negb]. unfold EmplaceBackSlow.
    erewrite bind_Ok by apply storage_run. cbv zeta. rewrite Hv.
    cbn [view_size view_capacity view_data].
    apply with_AllocationTransaction_refused; [done|].
    rewrite NextCapacity_double by lia. done.
  - intros Hy Hsz Hf. destruct y as [|a0]; [done|]. unfold ShrinkToFit.
    erewrite bind_Ok by apply storage_run. rewrite Halloc. cbn [assert].
    unfold mbind at 1, M_bind at 1, mret at 1, M_ret at 1. cbv zeta.
    cbn [view_size view_capacity view_data]. rewrite Hsize.
    assert (GetAllocatedCapacity (storage_of self (mem s)) = c) as ->.
    { apply (f_equal view_capacity) in Hv. unfold MakeStorageView in Hv.
      by rewrite Halloc in Hv. }
    rewrite (proj2 (Z.eqb_neq (zlen l) c)) by lia.
    unfold GetInlinedCapacity. rewrite (proj2 (Z.ltb_lt N (zlen l))) by lia.
    apply with_AllocationTransaction_refused; [done|]. by left.
  - intros values new_size -> -> Hn Href. unfold Initialize.
    erewrite bind_Ok by apply storage_run. rewrite Halloc, Hsize.
    cbn [negb assert is_allocated_layout]. change (zlen [] =? 0) with true.
    cbn [assert]. unfold mbind at 1, M_bind at 1, mret at 1, M_ret at 1.
    unfold mbind at 1, M_bind at 1, mret at 1, M_ret at 1.
    unfold GetInlinedCapacity. rewrite (proj2 (Z.ltb_lt N new_size)) by lia.
    cbv zeta.
    assert (∃ s', allocate (ComputeCapacity N new_size) s =
                    Throw bad_alloc s' ∧ mem s' = mem s ∧ no_guards s')
      as (s' & Hrun & Hm & Hg').
    { destruct (decide (max_size < ComputeCapacity N new_size)).
      - exists s. by rewrite allocate_too_large.
      - destruct Href as [Hf|]; [|done]. eexists.
        rewrite allocate_run by lia. rewrite Hf. split; [done|].
        split; [done|]. exact Hg. }
    exists s'. split; [|done].
    do 2 (erewrite bind_Throw; [done|]). exact Hrun.
Qed.

(** X16: when the allocator throws in [Assign], [Resize] or [Insert]
    beyond the capacity, the exception propagates with the memory exactly as
    it was before the call and no guard left: nothing was assigned,
    constructed or moved. *)
Theorem bad_alloc_keeps_elements self s l c y :
  env_ok → represents (mem s) self l c y → no_guards s →
  (∀ values new_size, c < new_size →
     faults (tick s) = true ∨ max_size < ComputeCapacity c new_size →
     (∃ s', Assign self values new_size s = Throw bad_alloc s' ∧
        mem s' = mem s ∧ no_guards s') ∧
     (∃ s', Resize self values new_size s = Throw bad_alloc s' ∧
        mem s' = mem s ∧ no_guards s')) ∧
  (∀ i values count, 0 ≤ i ≤ zlen l → 0 ≤ count ≤ max_size →
     c < zlen l + count →
     faults (tick s) = true ∨
       max_size < ComputeCapacity c (zlen l + count) →
     ∃ s', Insert self (Ptr (layout_base self y) i) values count s =
             Throw bad_alloc s' ∧
       mem s' = mem s ∧ no_guards s').
Proof.
  intros Henv Hr Hg.
  pose proof (view_of_represents _ _ _ _ _ Hr) as Hv.
  destruct (represents_bounds _ _ _ _ _ Henv Hr) as [Hlc [HNc Hcm]].
  pose proof (zlen_nonneg l) as Hl0.
  pose proof Henv as (HN & HNm & Hmax).
  pose proof SizeType_modulus_eq as Hmod.
  split; [intros values new_size Hn Href; split|].
  - unfold Assign. erewrite bind_Ok by apply storage_run. cbv zeta.
    rewrite Hv. cbn [view_size view_capacity view_data].
    rewrite (proj2 (Z.ltb_lt c new_size)) by lia.
    destruct (Allocate_refused (ComputeCapacity c new_size) s (mem s) [] []
                0) as (evs' & t' & Hrun); [by rewrite Nat.add_0_r|].
    eexists. split.
    + apply with_AllocationTransaction_Throw; [done|].
      do 2 (erewrite bind_Throw; [done|]). exact Hrun.
    + by split.
  - unfold Resize. erewrite bind_Ok by apply storage_run. cbv zeta.
    rewrite Hv. cbn [view_size view_capacity view_data].
    rewrite (proj2 (Z.leb_gt new_size (zlen l))) by lia.
    rewrite (proj2 (Z.leb_gt new_size c)) by lia.
    destruct (with_AllocationTransaction_refused
                (ComputeCapacity c new_size)
                (λ allocation_tx new_data,
                   with_ConstructionTransaction (λ construction_tx,
                     ConstructionTransaction_Construct construction_tx
                       (ptr_add new_data (zlen l)) values
                       (sz_sub new_size (zlen l));;
                     ConstructElements new_data
                       (MoveIteratorValueAdapter
                          (Ptr (layout_base self y) 0)) (zlen l);;
                     DestroyElements (Ptr (layout_base self y) 0) (zlen l);;
                     ConstructionTransaction_Commit construction_tx;;
                     DeallocateIfAllocated self;;
                     AcquireAllocatedData self allocation_tx;;
                     SetIsAllocated self)) s Hg Href)
      as (s' & Hrun & Hm & Hg').
    exists s'. split; [|done]. erewrite bind_Throw; [done|]. exact Hrun.
  - intros i values count Hi Hc Hbig Href. unfold Insert.
    erewrite bind_Ok by apply storage_run. cbv zeta. rewrite Hv.
    cbn [view_size view_capacity view_data].
    erewrite bind_Ok by (apply distance_run; lia).
    rewrite Z.sub_0_r.
    rewrite (sz_add_small (zlen l) count) by lia.
    rewrite (proj2 (Z.ltb_lt c (zlen l + count))) by lia.
    destruct (Allocate_refused (ComputeCapacity c (zlen l + count)) s (mem s)
                [no_construction; no_construction] [] 0)
      as (evs' & t' & Hrun); [by rewrite Nat.add_0_r|].
    eexists. split.
    + apply with_AllocationTransaction_Throw; [done|].
      rewrite with_ConstructionTransaction_run. unfold unwind_protect.
      cbn [length app].
      rewrite with_ConstructionTransaction_run. unfold unwind_protect.
      cbn [length app].
      erewrite bind_Throw by exact Hrun.
      rewrite ConstructionTransaction_dtor_idle by done.
      cbn [take].
      by rewrite ConstructionTransaction_dtor_idle by done.
    + by split.
Qed.

(** ** When a move constructor throws *)

(** The storage whose first [j] elements have been moved from. *)
Lemma represents_moved_prefix m self l c y j :
  represents m self l c y → 0 ≤ j ≤ zlen l →
  represents (move_out_range (layout_base self y) 0 j (zlookup l) m) self
    ((moved_from <$> take (Z.to_nat j) l) ++ drop (Z.to_nat j) l) c y ∧
  heap (move_out_range (layout_base self y) 0 j (zlookup l) m)
    !! fresh (dom (heap m)) = None.
Proof.
  intros Hr Hj.
  pose proof (layout_base_fresh _ _ _ _ _ Hr) as Hfresh. split.
  - apply (represents_range_update _ _ l); [done| |].
    + rewrite zlen_app, zlen_fmap, zlen_take, zlen_drop. lia.
    + intros i Hi. rewrite zlookup_app, zlen_fmap, zlen_take, zlookup_fmap.
      rewrite zlookup_take, zlookup_drop.
      repeat case_decide; try lia; try done.
      f_equal. lia.
  - unfold move_out_range. rewrite <- get_buf_heap.
    rewrite get_buf_range_update_ne by done.
    rewrite get_buf_heap. apply fresh_block_None.
Qed.

(** The slots of a well-formed storage, as the source of moves, and the
    slots of a new block, as their destination. *)
Lemma source_slots m self l c y a buf j :
  represents m self l c y → zlen l ≤ c → 0 ≤ j < zlen l →
  a = fresh (dom (heap m)) →
  slot_at (Ptr (layout_base self y) j)
    (set_heap (<[a := buf]> (heap m)) m) = Some (zlookup l j) ∧
  is_Some (zlookup l j).
Proof.
  intros Hr Hlc Hj ->.
  pose proof (layout_base_fresh _ _ _ _ _ Hr) as Hfresh.
  rewrite slot_at_get_buf, get_buf_allocated_ne by done.
  rewrite (represents_buffer _ _ _ _ _ Hr). simpl.
  rewrite zlookup_buffer_of_in by lia. split; [done|].
  apply zlookup_is_Some. lia.
Qed.

Lemma new_block_slots m a c j :
  0 ≤ j < c →
  slot_at (Ptr (HeapBlock a) j)
    (set_heap (<[a := raw_buffer c]> (heap m)) m) = Some None.
Proof.
  intros Hj. rewrite slot_at_get_buf, get_buf_set_heap_heap.
  rewrite lookup_insert_eq. simpl.
  by rewrite zlookup_raw_buffer, decide_True by lia.
Qed.

(** X17: in [Reserve] beyond the capacity, if the allocation succeeds and
    the move of element [j] into the new block is the first to throw, the
    exception propagates after the elements moved so far are destroyed in
    the new block and the block is deallocated. The storage keeps its size,
    capacity, layout and buffer, and no guard is left; the elements from
    [j] on are as they were, but the elements before [j] are left in their
    moved-from state. *)
Theorem Reserve_move_failure self x s l c y j :
  env_ok → represents (mem s) self l c y → no_guards s →
  c < x → ComputeCapacity c x ≤ max_size →
  0 ≤ j < zlen l →
  faults (tick s) = false →
  first_fault (tick s + 1) (Z.to_nat (zlen l)) = Some (Z.to_nat j) →
  let a := fresh (dom (heap (mem s))) in
  let c' := ComputeCapacity c x in
  let new_data := Ptr (HeapBlock a) 0 in
  let old_data := Ptr (layout_base self y) 0 in
  ∃ s', Reserve self x s = Throw element_exception s' ∧
    mem s' = move_out_range (layout_base self y) 0 j (zlookup l) (mem s) ∧
    represents (mem s') self
      ((moved_from <$> take (Z.to_nat j) l) ++ drop (Z.to_nat j) l) c y ∧
    heap (mem s') !! a = None ∧
    no_guards s' ∧
    trace s' = trace s ++
      EvAllocate a c' :: move_construct_events new_data old_data (j + 1) ++
      EvThrow element_exception :: destroy_events new_data j ++
      [EvDeallocate a c'].
Proof.
  intros Henv Hr [Hat Hct] Hx Hfit Hj Hf0 Hff a c' new_data old_data.
  pose proof (view_of_represents _ _ _ _ _ Hr) as Hv.
  destruct (represents_bounds _ _ _ _ _ Henv Hr) as [Hlc [HNc _]].
  pose proof (layout_base_fresh _ _ _ _ _ Hr) as Hfresh. fold a in Hfresh.
  pose proof (ComputeCapacity_ge c x) as Hge. fold c' in Hge, Hfit.
  destruct (represents_moved_prefix _ _ _ _ _ j Hr ltac:(lia))
    as [Hrep Hheap]. fold a in Hheap.
  unfold Reserve. erewrite bind_Ok by apply storage_run.
  cbv zeta. rewrite Hv. cbn [view_size view_capacity view_data].
  rewrite (proj2 (Z.leb_gt x c)) by lia.
  rewrite (run_from (with_AllocationTransaction _)), Hat, Hct.
  rewrite with_AllocationTransaction_run. unfold unwind_protect.
  unfold mbind at 1, M_bind at 1.
  rewrite AllocationTransaction_Allocate_run by done.
  rewrite Nat.add_0_r, Hf0. fold a c'.
  unfold mbind at 1, M_bind at 1.
  rewrite (ConstructElements_move_run (HeapBlock a) 0 (layout_base self y) 0
             (zlen l) (zlookup l)); [|apply zlen_nonneg|done| |]; cycle 1.
  { intros i Hi. cbn [mem mk_state].
    eapply source_slots; [done|lia|lia|done]. }
  { intros i Hi. cbn [mem mk_state]. apply new_block_slots. lia. }
  cbn [tick mk_state]. change (tick s + (0 + 1))%nat with (tick s + 1)%nat.
  rewrite Hff. rewrite state_after_mk_state. cbn [mem mk_state].
  rewrite Z2Nat.id by lia.
  erewrite AllocationTransaction_dtor_armed; cycle 1.
  { rewrite <- get_buf_heap. unfold move_out_range, clear_range.
    rewrite get_buf_range_update_ne by done.
    rewrite get_buf_range_update_eq, get_buf_set_heap_heap.
    rewrite lookup_insert_eq. done. }
  { rewrite zlen_zupdate. apply zlen_raw_buffer. lia. }
  eexists. split; [done|]. cbn [mem mk_state trace].
  assert (forget a
    (move_out_range (layout_base self y) 0 j (zlookup l)
       (clear_range (HeapBlock a) 0 j
          (set_heap (<[a:=raw_buffer c']> (heap (mem s))) (mem s)))) =
    move_out_range (layout_base self y) 0 j (zlookup l) (mem s)) as ->.
  { unfold move_out_range, clear_range.
    rewrite forget_range_update_ne by done.
    rewrite forget_range_update.
    by rewrite forget_allocated by apply fresh_block_None. }
  split; [done|]. split; [exact Hrep|]. split; [exact Hheap|].
  split; [done|].
  f_equal. subst new_data old_data. cbn [app].
  replace (Z.of_nat (S (Z.to_nat j))) with (j + 1) by lia.
  rewrite <- !app_assoc. cbn [app]. done.
Qed.

(** ** When the constructor of a new element throws *)

Lemma heap_range_update_represents m w l c y off n g :
  represents m w l c y →
  represents (range_update (layout_base w y) off n g m) w l c y →
  heap (range_update (layout_base w y) off n g m) = heap m.
Proof.
  intros Hr Hr'. destruct y as [|a]; cbn [layout_base] in *.
  - apply heap_range_update_inlined.
  - inversion Hr as [|? _ _ Hh _ _]; subst.
    inversion Hr' as [|? _ _ Hh' _ _]; subst.
    unfold range_update in *. case_bool_decide; [|done].
    unfold update_buf in *. rewrite get_buf_heap, Hh in *.
    simpl in *. rewrite lookup_insert_eq in Hh'. injection Hh' as ->.
    by apply insert_id.
Qed.

(** The storage after constructions past its last element were rolled
    back. *)
Lemma represents_rolled_back m self l c y i :
  represents m self l c y →
  represents (clear_range (layout_base self y) (zlen l) i m) self l c y.
Proof.
  intros Hr. apply (represents_range_update _ _ l); [done|done|].
  intros k Hk. case_decide; [|done].
  symmetry. apply zlookup_None. lia.
Qed.

(** X18: in [Resize] to a larger size, if the construction of one of the
    new elements throws, the exception propagates with the storage as it
    was: the same elements, size, capacity, layout and buffer, the heap and
    the other storage unchanged, and no guard left. This holds when the new
    elements are constructed in place, and when they are constructed in a
    new block, which is then deallocated. *)
Theorem Resize_construct_failure self values new_size vs values' s l c y i :
  env_ok → represents (mem s) self l c y → no_guards s →
  zlen l < new_size →
  next_values values (Z.to_nat (new_size - zlen l)) = Some (vs, values') →
  0 ≤ i < new_size - zlen l →
  (c < new_size →
   ComputeCapacity c new_size ≤ max_size ∧ faults (tick s) = false) →
  first_fault (if decide (new_size ≤ c) then tick s else S (tick s))
    (Z.to_nat (new_size - zlen l)) = Some (Z.to_nat i) →
  ∃ s', Resize self values new_size s = Throw element_exception s' ∧
    represents (mem s') self l c y ∧
    heap (mem s') = heap (mem s) ∧
    storage_of (other_of self) (mem s') =
      storage_of (other_of self) (mem s) ∧
    no_guards s' ∧
    (c < new_size → mem s' = mem s).
Proof.
  intros Henv Hr [Hat Hct] Hn Hvs Hi Hfit Hff.
  pose proof (view_of_represents _ _ _ _ _ Hr) as Hv.
  destruct (represents_bounds _ _ _ _ _ Henv Hr) as [Hlc [HNc Hcm]].
  pose proof (layout_base_fresh _ _ _ _ _ Hr) as Hfresh.
  pose proof (zlen_nonneg l) as Hl0.
  pose proof (other_of_ne self) as Hoth.
  pose proof Henv as (HN & HNm & Hmax).
  pose proof SizeType_modulus_eq as Hmod.
  unfold Resize. erewrite bind_Ok by apply storage_run. cbv zeta.
  rewrite Hv. cbn [view_size view_capacity view_data ptr_add].
  rewrite Z.add_0_l.
  rewrite (proj2 (Z.leb_gt new_size (zlen l))) by lia.
  destruct (decide (new_size ≤ c)) as [Hin|Hout].
  - rewrite (proj2 (Z.leb_le new_size c)) by done.
    rewrite sz_sub_small by lia.
    pose proof (represents_rolled_back _ _ _ _ _ i Hr) as Hr'.
    eexists. split.
    { erewrite bind_Throw; [done|]. erewrite bind_Throw; [done|].
      rewrite (ConstructElements_ext_run _ _ _ values vs values'); [|done|].
      - by rewrite Hff.
      - intros k Hk. rewrite (slot_at_represents _ _ _ _ _ _ Hr Hlc).
        rewrite zlookup_buffer_of, zlookup_outside by lia.
        by rewrite decide_True by lia. }
    cbn [mem state_after mk_state]. rewrite Z2Nat.id by lia.
    split; [done|]. split; [by apply (heap_range_update_represents _ _ l c)|].
    split; [|split; [done|lia]].
    unfold clear_range. destruct y; cbn [layout_base].
    + apply storage_of_range_update. congruence.
    + by apply storage_of_range_update.
  - rewrite (proj2 (Z.leb_gt new_size c)) by lia.
    destruct (Hfit ltac:(lia)) as [Hcap Hf0].
    pose proof (ComputeCapacity_ge c new_size) as Hge.
    rewrite sz_sub_small by lia.
    set (a := fresh (dom (heap (mem s)))) in *.
    set (c' := ComputeCapacity c new_size) in *.
    eexists. split.
    { erewrite bind_Throw; [done|].
      rewrite (run_from (with_AllocationTransaction _)), Hat, Hct.
      rewrite with_AllocationTransaction_run. unfold unwind_protect.
      unfold mbind at 1, M_bind at 1.
      rewrite AllocationTransaction_Allocate_run by done.
      rewrite Nat.add_0_r, Hf0. fold a c'. cbn [ptr_add].
      rewrite Z.add_0_l.
      rewrite with_ConstructionTransaction_run. unfold unwind_protect.
      cbn [length app].
      erewrite bind_Throw; cycle 1.
      { unfold ConstructionTransaction_Construct. erewrite bind_Throw; [done|].
        rewrite (ConstructElements_ext_run _ _ _ values vs values');
          [|done|].
        - cbn [tick mk_state].
          replace (tick s + (0 + 1))%nat with (S (tick s)) by lia.
          by rewrite Hff.
        - intros k Hk. cbn [mem mk_state]. apply new_block_slots. lia. }
      rewrite state_after_mk_state. cbn [mem mk_state].
      rewrite ConstructionTransaction_dtor_idle by done. cbn [take].
      erewrite AllocationTransaction_dtor_armed; [done| |].
      - rewrite <- get_buf_heap. unfold clear_range.
        rewrite get_buf_range_update_eq, get_buf_set_heap_heap.
        rewrite lookup_insert_eq. done.
      - rewrite zlen_zupdate. apply zlen_raw_buffer. lia. }
    cbn [mem mk_state].
    assert (forget a
      (clear_range (HeapBlock a) (zlen l) (Z.of_nat (Z.to_nat i))
         (set_heap (<[a:=raw_buffer c']> (heap (mem s))) (mem s))) = mem s)
      as ->.
    { unfold clear_range. rewrite forget_range_update.
      by rewrite forget_allocated by apply fresh_block_None. }
    by repeat split.
Qed.

End exceptions.

Section handlers.
Context {T : Type} {VT : ValueType T} {Env : Environment}.
Implicit Types (m : Memory (T:=T)) (st : Storage (T:=T)) (s : State (T:=T))
  (buf : list (option T)) (l : list T) (w : Who) (b : Base) (p : Pointer)
  (d : Data (T:=T)) (h : gmap nat (list (option T)))
  (f : Storage (T:=T) → Storage (T:=T)) (g : Z → option T)
  (ats : list AllocationTransaction) (cts : list ConstructionTransaction)
  (evs : list (Event (T:=T))).

#[local] Arguments write_slot : simpl never.
#[local] Arguments slot_at : simpl never.
#[local] Arguments range_update : simpl never.
#[local] Arguments construct_events : simpl never.
#[local] Arguments move_construct_events : simpl never.
#[local] Arguments destroy_events : simpl never.

(** ** Handlers that restore the allocated member of [data_] *)

(** A storage whose record is the one of a well-formed allocated storage,
    and whose block holds the elements with the first [j] moved from. *)
Lemma represents_restored m m' self l c a0 j :
  represents m self l c (LayoutAllocated a0) → 0 ≤ j ≤ zlen l →
  storage_of self m' = storage_of self m →
  heap m' !! a0 =
    heap (move_out_range (HeapBlock a0) 0 j (zlookup l) m) !! a0 →
  represents m' self
    ((moved_from <$> take (Z.to_nat j) l) ++ drop (Z.to_nat j) l) c
    (LayoutAllocated a0).
Proof.
  intros Hr Hj Hst Hh.
  destruct (represents_moved_prefix _ _ _ _ _ j Hr Hj) as [Hr' _].
  eapply represents_other_frame; [exact Hr'| |].
  - rewrite Hst. unfold move_out_range. cbn [layout_base].
    by rewrite storage_of_range_update.
  - by intros a [= <-].
Qed.

Lemma catch_any_Throw {A} (c : M A) (hd : M unit) s e s1 s2 :
  c s = Throw e s1 → hd s1 = Ok tt s2 → catch_any c hd s = Throw e s2.
Proof. intros Hc Hh. unfold catch_any. by rewrite Hc, Hh. Qed.

Lemma SetAllocatedData_mk self data capacity s m ats cts evs t :
  SetAllocatedData self data capacity (mk_state s m ats cts evs t) =
  Ok tt (mk_state s
           (with_storage self
              (set_data (DataAllocated {| allocated_data := data;
                                          allocated_capacity := capacity |}))
              m) ats cts evs t).
Proof. done. Qed.

Lemma storage_eq st st' :
  metadata_allocator st = metadata_allocator st' →
  metadata_size_and_is_allocated st = metadata_size_and_is_allocated st' →
  data_ st = data_ st' → st = st'.
Proof. destruct st, st'. simpl. by intros -> -> ->. Qed.

(** Writing the allocated member back undoes what writes to the inlined
    region did to the record of the storage. *)
Lemma restored_storage self data off n g m m1 :
  data_ (storage_of self m) = data →
  storage_of self m1 = storage_of self (range_update (InlinedOf self) off n g m) →
  set_data data (storage_of self m1) = storage_of self m.
Proof.
  intros Hd ->. apply storage_eq; simpl.
  - apply metadata_range_update.
  - apply word_range_update.
  - done.
Qed.

Lemma heap_range_update_heap a off n g m buf' :
  heap (range_update (HeapBlock a) off n g m) !! a = Some buf' →
  heap (range_update (HeapBlock a) off n g m) = <[a := buf']> (heap m).
Proof.
  unfold range_update. case_bool_decide.
  - unfold update_buf. destruct (get_buf (HeapBlock a) m) as [buf|] eqn:E.
    + simpl. rewrite lookup_insert_eq. by intros [= ->].
    + intros Hh. symmetry. by apply insert_id.
  - intros Hh. symmetry. by apply insert_id.
Qed.

Lemma other_inlined_ne self : InlinedOf self ≠ InlinedOf (other_of self).
Proof. by destruct self. Qed.

(** X19: in [ShrinkToFit], if the move of element [j] into the inlined
    region or into the new block is the first to throw, the exception
    propagates after the elements moved so far are destroyed where they
    were constructed, the handler has written the pointer and the capacity
    of the block back into [data_] (which constructions in the inlined
    region overwrite), and the new block, if any, is deallocated. The record
    of the storage is as before the call: it is allocated and holds its
    block, in which the elements before [j] are left moved from. *)
Theorem ShrinkToFit_move_failure self s l c a0 j :
  env_ok → represents (mem s) self l c (LayoutAllocated a0) → no_guards s →
  zlen l < c → 0 ≤ j < zlen l →
  (N < zlen l → faults (tick s) = false) →
  first_fault (if decide (zlen l ≤ N) then tick s else S (tick s))
    (Z.to_nat (zlen l)) = Some (Z.to_nat j) →
  let l' := (moved_from <$> take (Z.to_nat j) l) ++ drop (Z.to_nat j) l in
  ∃ s', ShrinkToFit self s = Throw element_exception s' ∧
    storage_of self (mem s') = storage_of self (mem s) ∧
    represents (mem s') self l' c (LayoutAllocated a0) ∧
    heap (mem s') = <[a0 := buffer_of l' c]> (heap (mem s)) ∧
    storage_of (other_of self) (mem s') =
      storage_of (other_of self) (mem s) ∧
    no_guards s'.
Proof.
  intros Henv Hr [Hat Hct] Hlc' Hj Hf0 Hff l'.
  pose proof (view_of_represents _ _ _ _ _ Hr) as Hv.
  destruct (represents_bounds _ _ _ _ _ Henv Hr) as [Hlc [HNc Hcm]].
  destruct (represents_size _ _ _ _ _ Hr) as [Hsize Halloc].
  pose proof (layout_base_fresh _ _ _ _ _ Hr) as Hfresh.
  pose proof (represents_buffer _ _ _ _ _ Hr) as Hbuf.
  pose proof (zlen_nonneg l) as Hl0.
  pose proof (other_of_ne self) as Hoth.
  pose proof Henv as (HN & HNm & Hmax).
  cbn [layout_base] in *.
  assert (GetAllocatedCapacity (storage_of self (mem s)) = c) as Hcap.
  { apply (f_equal view_capacity) in Hv. unfold MakeStorageView in Hv.
    by rewrite Halloc in Hv. }
  assert (GetAllocatedData (storage_of self (mem s)) = Ptr (HeapBlock a0) 0)
    as Hdata.
  { apply (f_equal view_data) in Hv. unfold MakeStorageView in Hv.
    by rewrite Halloc in Hv. }
  unfold ShrinkToFit.
  erewrite bind_Ok by apply storage_run. rewrite Halloc.
  cbn [assert is_allocated_layout].
  unfold mbind at 1, M_bind at 1, mret at 1, M_ret at 1. cbv zeta.
  cbn [view_size view_capacity view_data]. rewrite Hsize, Hcap, Hdata.
  rewrite (proj2 (Z.eqb_neq (zlen l) c)) by lia.
  unfold GetInlinedCapacity.
  rewrite (run_from (with_AllocationTransaction _)), Hat, Hct.
  rewrite with_AllocationTransaction_run. unfold unwind_protect.
  destruct (decide (zlen l ≤ N)) as [Hin|Hout].
  - rewrite (proj2 (Z.ltb_ge N (zlen l))) by lia.
    unfold mbind at 1, M_bind at 1, mret at 1, M_ret at 1.
    erewrite bind_Throw; cycle 1.
    { eapply catch_any_Throw; [|apply SetAllocatedData_mk].
      erewrite bind_Throw; [done|].
      rewrite (ConstructElements_move_run (InlinedOf self) 0 (HeapBlock a0) 0
                 (zlen l) (zlookup l)); [|done|done| |].
      - cbn [tick mk_state]. rewrite Nat.add_0_r, Hff.
        by rewrite state_after_mk_state.
      - intros i Hi. cbn [mem mk_state].
        rewrite slot_at_get_buf, Hbuf. simpl.
        rewrite zlookup_buffer_of_in by lia. split; [done|].
        apply zlookup_is_Some. lia.
      - intros i Hi. cbn [mem mk_state]. rewrite slot_at_get_buf.
        unfold get_buf. inversion Hr as [|? _ Hd _ _ _]; subst.
        rewrite Hd. simpl.
        by rewrite zlookup_raw_buffer, decide_True by lia. }
    rewrite AllocationTransaction_dtor_idle.
    eexists. split; [done|]. cbn [mem mk_state].
    rewrite Z2Nat.id by lia.
    set (m1 := move_out_range (HeapBlock a0) 0 j (zlookup l)
                 (clear_range (InlinedOf self) 0 j (mem s))).
    assert (storage_of self
              (with_storage self
                 (set_data (DataAllocated
                    {| allocated_data := Ptr (HeapBlock a0) 0;
                       allocated_capacity := c |})) m1) =
            storage_of self (mem s)) as Hst.
    { rewrite storage_of_with_storage_eq.
      eapply restored_storage; [by inversion Hr|].
      subst m1. unfold move_out_range, clear_range.
      by rewrite storage_of_range_update. }
    assert (heap (with_storage self
                 (set_data (DataAllocated
                    {| allocated_data := Ptr (HeapBlock a0) 0;
                       allocated_capacity := c |})) m1) !! a0 =
            heap (move_out_range (HeapBlock a0) 0 j (zlookup l) (mem s))
              !! a0) as Hh.
    { rewrite heap_with_storage. subst m1. unfold move_out_range, clear_range.
      rewrite <- !get_buf_heap, !get_buf_range_update_eq.
      by rewrite get_buf_range_update_ne. }
    pose proof (represents_restored _ _ _ _ _ _ j Hr ltac:(lia) Hst Hh)
      as Hr'.
    split; [done|]. split; [done|]. split; [|split; [|done]].
    + rewrite heap_with_storage. subst m1. unfold move_out_range.
      erewrite heap_range_update_heap.
      * unfold clear_range. by rewrite heap_range_update_inlined.
      * inversion Hr' as [|? _ _ Hh' _ _]; subst.
        by rewrite heap_with_storage in Hh'.
    + rewrite storage_of_with_storage_ne by done. subst m1.
      unfold move_out_range, clear_range.
      rewrite storage_of_range_update by done.
      apply storage_of_range_update, other_inlined_ne.
  - rewrite (proj2 (Z.ltb_lt N (zlen l))) by lia.
    specialize (Hf0 ltac:(lia)).
    set (a := fresh (dom (heap (mem s)))) in *.
    unfold mbind at 1, M_bind at 1.
    rewrite AllocationTransaction_Allocate_run by lia.
    rewrite Nat.add_0_r, Hf0. fold a.
    erewrite bind_Throw; cycle 1.
    { eapply catch_any_Throw; [|apply SetAllocatedData_mk].
      erewrite bind_Throw; [done|].
      rewrite (ConstructElements_move_run (HeapBlock a) 0 (HeapBlock a0) 0
                 (zlen l) (zlookup l)); [|done|done| |].
      - cbn [tick mk_state].
        replace (tick s + (0 + 1))%nat with (S (tick s)) by lia.
        rewrite Hff. by rewrite state_after_mk_state.
      - intros i Hi. cbn [mem mk_state].
        eapply (source_slots _ _ _ _ (LayoutAllocated a0));
          [done|lia|lia|done].
      - intros i Hi. cbn [mem mk_state]. apply new_block_slots. lia. }
    cbn [mem mk_state]. rewrite Z2Nat.id by lia.
    erewrite AllocationTransaction_dtor_armed; cycle 1.
    { rewrite heap_with_storage, <- get_buf_heap.
      unfold move_out_range, clear_range.
      rewrite get_buf_range_update_ne by done.
      rewrite get_buf_range_update_eq, get_buf_set_heap_heap.
      rewrite lookup_insert_eq. done. }
    { rewrite zlen_zupdate. apply zlen_raw_buffer. lia. }
    eexists. split; [done|]. cbn [mem mk_state].
    assert (forget a
      (with_storage self
         (set_data (DataAllocated
            {| allocated_data := Ptr (HeapBlock a0) 0;
               allocated_capacity := c |}))
         (move_out_range (HeapBlock a0) 0 j (zlookup l)
            (clear_range (HeapBlock a) 0 j
               (set_heap (<[a:=raw_buffer (zlen l)]> (heap (mem s)))
                  (mem s))))) =
      with_storage self
        (set_data (DataAllocated
           {| allocated_data := Ptr (HeapBlock a0) 0;
              allocated_capacity := c |}))
        (move_out_range (HeapBlock a0) 0 j (zlookup l) (mem s))) as ->.
    { rewrite forget_with_storage. f_equal.
      unfold move_out_range, clear_range.
      rewrite forget_range_update_ne by done.
      rewrite forget_range_update.
      by rewrite forget_allocated by apply fresh_block_None. }
    set (m1 := move_out_range (HeapBlock a0) 0 j (zlookup l) (mem s)).
    assert (storage_of self
              (with_storage self
                 (set_data (DataAllocated
                    {| allocated_data := Ptr (HeapBlock a0) 0;
                       allocated_capacity := c |})) m1) =
            storage_of self (mem s)) as Hst.
    { rewrite storage_of_with_storage_eq.
      eapply (restored_storage _ _ 0 0 (λ _, None)); [by inversion Hr|].
      subst m1. unfold move_out_range.
      rewrite storage_of_range_update by done.
      by rewrite range_update_empty. }
    assert (heap (with_storage self
                 (set_data (DataAllocated
                    {| allocated_data := Ptr (HeapBlock a0) 0;
                       allocated_capacity := c |})) m1) !! a0 =
            heap (move_out_range (HeapBlock a0) 0 j (zlookup l) (mem s))
              !! a0) as Hh
      by (by rewrite heap_with_storage).
    pose proof (represents_restored _ _ _ _ _ _ j Hr ltac:(lia) Hst Hh)
      as Hr'.
    split; [done|]. split; [done|]. split; [|split; [|done]].
    + rewrite heap_with_storage. subst m1. unfold move_out_range.
      erewrite heap_range_update_heap; [done|].
      inversion Hr' as [|? _ _ Hh' _ _]; subst.
      by rewrite heap_with_storage in Hh'.
    + rewrite storage_of_with_storage_ne by done. subst m1.
      unfold move_out_range. by rewrite storage_of_range_update.
Qed.

(** The mixed case of [Swap]: [A] is allocated, [I] is inlined. *)
Lemma swap_mixed_fails A I lA cA a lI s j :
  A ≠ I →
  represents (mem s) A lA cA (LayoutAllocated a) →
  represents (mem s) I lI N LayoutInlined →
  0 ≤ j < zlen lI →
  first_fault (tick s) (Z.to_nat (zlen lI)) = Some (Z.to_nat j) →
  ∃ s',
    (allocated_st ← storage A;
     inlined_st ← storage I;
     let allocated_storage_view :=
       {| view_data := GetAllocatedData allocated_st;
          view_size := GetSize allocated_st;
          view_capacity := GetAllocatedCapacity allocated_st |} in
     let move_values :=
       MoveIteratorValueAdapter (GetInlinedData I) in
     catch_any
       (ConstructElements (GetInlinedData A) move_values
          (GetSize inlined_st);;
        mret tt)
       (SetAllocatedData A
          (view_data allocated_storage_view)
          (view_capacity allocated_storage_view));;
     DestroyElements (GetInlinedData I) (GetSize inlined_st);;
     SetAllocatedData I
       (view_data allocated_storage_view)
       (view_capacity allocated_storage_view)) s =
      Throw element_exception s' ∧
    storage_of A (mem s') = storage_of A (mem s) ∧
    represents (mem s') A lA cA (LayoutAllocated a) ∧
    represents (mem s') I
      ((moved_from <$> take (Z.to_nat j) lI) ++ drop (Z.to_nat j) lI) N
      LayoutInlined ∧
    heap (mem s') = heap (mem s) ∧
    allocation_txs s' = allocation_txs s ∧
    construction_txs s' = construction_txs s.
Proof.
  intros Hne HA HI Hj Hff.
  pose proof (represents_buffer _ _ _ _ _ HI) as HbI.
  pose proof (represents_word _ _ _ _ _ HI) as HwI.
  pose proof (zlen_nonneg lI) as HI0.
  inversion HA as [|a1 HwA HdA HhA HlA HcA]; subst a1.
  assert (zlen lI ≤ N) as HIN by (by inversion HI).
  destruct (represents_moved_prefix _ _ _ _ _ j HI ltac:(lia)) as [HI' _].
  pose proof (represents_buffer _ _ _ _ _ HI') as HbI'.
  cbn [layout_base] in *. rewrite Z.add_0_r in HwI.
  erewrite bind_Ok by apply storage_run.
  erewrite bind_Ok by apply storage_run.
  rewrite (GetSize_even _ _ HwI).
  cbv zeta. unfold GetInlinedData, GetAllocatedData, GetAllocatedCapacity.
  rewrite HdA. cbn [view_data view_capacity allocated_data allocated_capacity].
  rewrite (run_from (_ ≫= _)).
  erewrite bind_Throw; cycle 1.
  { eapply catch_any_Throw; [|apply SetAllocatedData_mk].
    erewrite bind_Throw; [done|].
    rewrite (ConstructElements_move_run (InlinedOf A) 0 (InlinedOf I) 0
               (zlen lI) (zlookup lI)); [|done|congruence| |].
    - cbn [tick mk_state]. rewrite Nat.add_0_r, Hff.
      by rewrite state_after_mk_state.
    - intros i Hi. cbn [mem mk_state]. rewrite slot_at_get_buf, HbI. simpl.
      rewrite zlookup_buffer_of_in by lia. split; [done|].
      apply zlookup_is_Some. lia.
    - intros i Hi. cbn [mem mk_state].
      rewrite slot_at_get_buf. unfold get_buf. rewrite HdA. simpl.
      rewrite zlookup_raw_buffer, decide_True by lia. done. }
  eexists. split; [done|]. cbn [mem mk_state allocation_txs construction_txs].
  rewrite Z2Nat.id by lia.
  set (m1 := move_out_range (InlinedOf I) 0 j (zlookup lI)
               (clear_range (InlinedOf A) 0 j (mem s))).
  assert (heap (with_storage A
                  (set_data (DataAllocated
                     {| allocated_data := Ptr (HeapBlock a) 0;
                        allocated_capacity := cA |})) m1) = heap (mem s))
    as Hheap.
  { rewrite heap_with_storage. subst m1. unfold move_out_range, clear_range.
    by rewrite !heap_range_update_inlined. }
  assert (storage_of A
            (with_storage A
               (set_data (DataAllocated
                  {| allocated_data := Ptr (HeapBlock a) 0;
                     allocated_capacity := cA |})) m1) =
          storage_of A (mem s)) as Hst.
  { rewrite storage_of_with_storage_eq.
    eapply restored_storage; [done|].
    subst m1. unfold move_out_range, clear_range.
    rewrite storage_of_range_update by congruence. done. }
  split; [done|]. split; [|split; [|done]].
  - eapply represents_other_frame; [exact HA|done|].
    intros ? _. by rewrite Hheap.
  - apply represents_inlined; [| | |done].
    + rewrite storage_of_with_storage_ne by done. subst m1.
      unfold move_out_range, clear_range. rewrite !word_range_update.
      rewrite HwI, zlen_app, zlen_fmap, zlen_take, zlen_drop. lia.
    + rewrite get_buf_with_storage_ne by done. subst m1.
      unfold move_out_range, clear_range in *.
      rewrite get_buf_range_update_eq in *.
      rewrite get_buf_range_update_ne by congruence. exact HbI'.
    + rewrite zlen_app, zlen_fmap, zlen_take, zlen_drop. lia.
Qed.

(** X20: in [Swap] of an allocated storage and an inlined one, if the move
    of element [j] of the inlined storage into the inlined region of the
    allocated one is the first to throw, the exception propagates after the
    elements moved so far are destroyed there and the handler has written
    the pointer and the capacity of the block back into the [data_] of the
    allocated storage. Nothing is exchanged: the allocated storage is as
    before the call, the inlined one holds its elements with the ones
    before [j] left moved from, and the heap is unchanged. *)
Theorem Swap_mixed_move_failure self wa s la ca a li j :
  represents (mem s) wa la ca (LayoutAllocated a) →
  represents (mem s) (other_of wa) li N LayoutInlined →
  0 ≤ j < zlen li →
  first_fault (tick s) (Z.to_nat (zlen li)) = Some (Z.to_nat j) →
  ∃ s', Swap self (other_of self) s = Throw element_exception s' ∧
    storage_of wa (mem s') = storage_of wa (mem s) ∧
    represents (mem s') wa la ca (LayoutAllocated a) ∧
    represents (mem s') (other_of wa)
      ((moved_from <$> take (Z.to_nat j) li) ++ drop (Z.to_nat j) li) N
      LayoutInlined ∧
    heap (mem s') = heap (mem s) ∧
    allocation_txs s' = allocation_txs s ∧
    construction_txs s' = construction_txs s.
Proof.
  intros HA HI Hj Hff.
  pose proof (other_of_ne wa) as Hoth.
  assert (wa ≠ other_of wa) as Hne by congruence.
  destruct (swap_mixed_fails wa (other_of wa) la ca a li s j Hne HA HI Hj Hff)
    as (s' & Hrun & Hpost).
  exists s'. split; [|exact Hpost].
  destruct (represents_size _ _ _ _ _ HA) as [_ HaA].
  destruct (represents_size _ _ _ _ _ HI) as [_ HaI].
  cbn [is_allocated_layout] in *.
  unfold Swap.
  rewrite bool_decide_eq_true_2 by (pose proof (other_of_ne self); congruence).
  cbn [assert]. unfold mbind at 1, M_bind at 1, mret at 1, M_ret at 1.
  erewrite bind_Ok by apply storage_run.
  erewrite bind_Ok by apply storage_run.
  erewrite bind_Throw; [done|].
  assert (self = wa ∨ self = other_of wa) as [->| ->]
    by (destruct self, wa; auto).
  - rewrite HaA, HaI. cbn [andb negb]. exact Hrun.
  - rewrite other_of_other, HaA, HaI. cbn [andb negb]. exact Hrun.
Qed.

End handlers.

Section assignments.
Context {T : Type} {VT : ValueType T} {Env : Environment}.
Implicit Types (m : Memory (T:=T)) (st : Storage (T:=T)) (s : State (T:=T))
  (buf : list (option T)) (l : list T) (w : Who) (b : Base) (p : Pointer)
  (d : Data (T:=T)) (h : gmap nat (list (option T)))
  (f : Storage (T:=T) → Storage (T:=T)) (g : Z → option T)
  (ats : list AllocationTransaction) (cts : list ConstructionTransaction)
  (evs : list (Event (T:=T))).

#[local] Arguments write_slot : simpl never.
#[local] Arguments slot_at : simpl never.
#[local] Arguments range_update : simpl never.
#[local] Arguments construct_events : simpl never.
#[local] Arguments move_construct_events : simpl never.
#[local] Arguments destroy_events : simpl never.
#[local] Arguments assign_events : simpl never.

(** ** When an assignment throws *)

Lemma assign_loop_ext_run b off i0 n values vs values' s :
  next_values values n = Some (vs, values') →
  (∀ j, off + i0 ≤ j < off + i0 + Z.of_nat n →
        ∃ v, slot_at (Ptr b j) (mem s) = Some (Some v)) →
  assign_loop (Ptr b off) values i0 n s =
    match first_fault (tick s) n with
    | None =>
        Ok values'
          (state_after (fill_range b (off + i0) vs (mem s))
             (assign_events (Ptr b (off + i0)) vs) n s)
    | Some k =>
        Throw element_exception
          (state_after (fill_range b (off + i0) (take k vs) (mem s))
             (assign_events (Ptr b (off + i0)) (take (S k) vs) ++
              [EvThrow element_exception])
             (S k) s)
    end.
Proof.
  revert i0 values vs s.
  induction n as [|n IH]; intros i0 values vs s Hvs Hlive.
  - simpl in *. injection Hvs as <- <-. unfold fill_range.
    rewrite range_update_empty by done.
    unfold assign_events. simpl. by rewrite state_after_id.
  - simpl in Hvs. destruct (next_value values) as [[v values1]|] eqn:Hnext;
      [|done]. simpl in Hvs.
    destruct (next_values values1 n) as [[vs1 values2]|] eqn:Hrest; [|done].
    simpl in Hvs. injection Hvs as <- <-.
    cbn [assign_loop ptr_add first_fault].
    erewrite AssignNext_ext by exact Hnext.
    destruct (Hlive (off + i0)) as [v0 Hv0]; [lia|].
    unfold mbind at 1, M_bind at 1. unfold mbind at 1, M_bind at 1.
    rewrite (assign_run _ _ v0) by done.
    destruct (faults (tick s)) eqn:Hf.
    + cbn [take]. unfold fill_range. rewrite range_update_empty by done.
      rewrite assign_events_cons. unfold assign_events at 1. simpl. done.
    + unfold mret, M_ret.
      rewrite (IH (i0 + 1) values1 vs1); [|done|]; cycle 1.
      { intros j Hj. cbn [mem state_after mk_state].
        destruct (Hlive j) as [vj Hvj]; [lia|].
        rewrite slot_at_write_slot_ne by (intros [=]; lia). eauto. }
      cbn [tick state_after mk_state mem]. rewrite Nat.add_1_r.
      assert (∀ ws : list T,
        fill_range b (off + (i0 + 1)) ws
          (write_slot (Ptr b (off + i0)) (Some v) (mem s)) =
        fill_range b (off + i0) (v :: ws) (mem s)) as Hfill.
      { intros ws. unfold fill_range.
        replace (off + (i0 + 1)) with (off + i0 + 1) by lia.
        rewrite (range_update_ext _ _ _ _
                   (λ j, zlookup (v :: ws) (j - (off + i0))))
          by (intros j Hj; rewrite zlookup_cons_pos by lia; f_equal; lia).
        rewrite range_update_write_first;
          [|apply zlen_nonneg|by rewrite Z.sub_diag].
        by rewrite zlen_cons. }
      destruct (first_fault (S (tick s)) n) as [k|] eqn:Hk;
        cbn [fmap option_fmap option_map].
      * rewrite state_after_state_after, Hfill.
        rewrite !firstn_cons, assign_events_cons.
        replace (off + (i0 + 1)) with (off + i0 + 1) by lia. done.
      * rewrite state_after_state_after, Hfill, assign_events_cons.
        replace (off + (i0 + 1)) with (off + i0 + 1) by lia. done.
Qed.

Lemma AssignElements_ext_run b off n values vs values' s :
  next_values values (Z.to_nat n) = Some (vs, values') →
  (∀ j, off ≤ j < off + n → ∃ v, slot_at (Ptr b j) (mem s) = Some (Some v)) →
  AssignElements (Ptr b off) values n s =
    match first_fault (tick s) (Z.to_nat n) with
    | None =>
        Ok values'
          (state_after (fill_range b off vs (mem s))
             (assign_events (Ptr b off) vs) (Z.to_nat n) s)
    | Some k =>
        Throw element_exception
          (state_after (fill_range b off (take k vs) (mem s))
             (assign_events (Ptr b off) (take (S k) vs) ++
              [EvThrow element_exception])
             (S k) s)
    end.
Proof.
  intros Hvs Hlive. unfold AssignElements.
  rewrite (assign_loop_ext_run b off 0 _ values vs values' s Hvs).
  - by rewrite Z.add_0_r.
  - intros j Hj. apply Hlive. lia.
Qed.

(** X21: [AssignElements] assigns the values of the source to the
    elements in their order and, unlike [ConstructElements], undoes nothing
    when an assignment throws: if the assignment of element [k] is the first
    to throw, the exception propagates with the elements before [k] holding
    their new values and all the other slots as they were. *)
Theorem AssignElements_failure b off n values vs values' s k :
  next_values values (Z.to_nat n) = Some (vs, values') →
  (∀ j, off ≤ j < off + n → ∃ v, slot_at (Ptr b j) (mem s) = Some (Some v)) →
  first_fault (tick s) (Z.to_nat n) = Some k →
  ∃ s', AssignElements (Ptr b off) values n s = Throw element_exception s' ∧
    (∀ j, off ≤ j < off + Z.of_nat k →
          slot_at (Ptr b j) (mem s') = Some (zlookup vs (j - off))) ∧
    (∀ j, ¬ (off ≤ j < off + Z.of_nat k) →
          slot_at (Ptr b j) (mem s') = slot_at (Ptr b j) (mem s)) ∧
    (∀ b' j, b' ≠ b → slot_at (Ptr b' j) (mem s') = slot_at (Ptr b' j) (mem s)) ∧
    trace s' =
      trace s ++ assign_events (Ptr b off) (take (S k) vs) ++
      [EvThrow element_exception].
Proof.
  intros Hvs Hlive Hff.
  pose proof (first_fault_lt _ _ _ Hff) as Hk.
  pose proof (next_values_length _ _ _ _ Hvs) as Hlen.
  rewrite (AssignElements_ext_run b off n values vs values' s Hvs Hlive), Hff.
  eexists. split; [done|]. cbn [mem trace state_after mk_state].
  assert (zlen (take k vs) = Z.of_nat k) as Hz.
  { unfold zlen. rewrite length_take. lia. }
  unfold fill_range. rewrite Hz. repeat split.
  - intros j Hj. rewrite slot_at_range_update_eq.
    destruct (Hlive j) as [v ->]; [lia|]. simpl.
    rewrite decide_True by done. rewrite zlookup_take.
    by rewrite decide_True by lia.
  - intros j Hj. rewrite slot_at_range_update_eq.
    destruct (slot_at (Ptr b j) (mem s)); [|done]. simpl.
    by rewrite decide_False by done.
  - intros b' j Hb. by rewrite slot_at_range_update_ne.
Qed.

Lemma next_values_take values n vs values' k :
  next_values values n = Some (vs, values') → (k ≤ n)%nat →
  ∃ values1, next_values values k = Some (take k vs, values1).
Proof.
  intros Hvs Hk. replace n with (k + (n - k))%nat in Hvs by lia.
  destruct (next_values_app _ _ _ _ _ Hvs)
    as (vs1 & vs2 & values1 & H1 & _ & ->).
  exists values1. rewrite take_app_length'; [done|].
  by apply next_values_length in H1.
Qed.

(** X22: in [Assign] within the capacity, if the assignment of element
    [i] is the first to throw, the exception propagates with the storage
    holding the new values in its first [i] elements and the old ones in
    the others: its size, capacity, layout and buffer are as before, and
    no guard is left. *)
Theorem Assign_assignment_failure self values new_size vs values' s l c y i :
  env_ok → represents (mem s) self l c y → no_guards s →
  0 ≤ new_size ≤ c →
  next_values values (Z.to_nat new_size) = Some (vs, values') →
  first_fault (tick s) (Z.to_nat (Z.min (zlen l) new_size)) = Some i →
  let l' := take i vs ++ drop i l in
  ∃ s', Assign self values new_size s = Throw element_exception s' ∧
    zlen l' = zlen l ∧
    represents (mem s') self l' c y ∧
    storage_of (other_of self) (mem s') =
      storage_of (other_of self) (mem s) ∧
    (∀ a, y ≠ LayoutAllocated a → heap (mem s') !! a = heap (mem s) !! a) ∧
    no_guards s'.
Proof.
  intros Henv Hr [Hat Hct] Hn Hvs Hff l'.
  pose proof (view_of_represents _ _ _ _ _ Hr) as Hv.
  destruct (represents_bounds _ _ _ _ _ Henv Hr) as [Hlc [HNc Hcm]].
  pose proof (zlen_nonneg l) as Hl0.
  pose proof (other_of_ne self) as Hoth.
  pose proof Henv as (HN & HNm & Hmax).
  pose proof SizeType_modulus_eq as Hmod.
  pose proof (first_fault_lt _ _ _ Hff) as Hi.
  pose proof (next_values_length _ _ _ _ Hvs) as Hlen.
  set (k := Z.min (zlen l) new_size) in *.
  destruct (next_values_take values _ vs values' (Z.to_nat k) Hvs ltac:(lia))
    as (values1 & Hvs1).
  assert (zlen (take i vs) = Z.of_nat i) as Hz.
  { unfold zlen. rewrite length_take. lia. }
  assert (zlen l' = zlen l) as Hl'.
  { subst l'. rewrite zlen_app, Hz, zlen_drop. lia. }
  assert (∃ evs',
      AssignElements (Ptr (layout_base self y) 0) values k
        (mk_state s (mem s) [no_allocation] [] [] 0) =
      Throw element_exception
        (mk_state s (fill_range (layout_base self y) 0 (take i vs) (mem s))
           [no_allocation] [] evs' (0 + S i))) as (evs' & Hrun).
  { eexists.
    rewrite (AssignElements_ext_run _ _ _ values (take (Z.to_nat k) vs)
               values1); [|done|].
    - cbn [tick mk_state]. rewrite Nat.add_0_r, Hff.
      rewrite state_after_mk_state. cbn [mem mk_state].
      rewrite take_take. replace (i `min` Z.to_nat k)%nat with i by lia.
      done.
    - intros j Hj. cbn [mem mk_state].
      eapply represents_live; [done|lia|lia]. }
  exists (mk_state s (fill_range (layout_base self y) 0 (take i vs) (mem s))
            [] [] evs' (0 + S i)).
  split; [|cbn [mem mk_state]; split; [done|split; [|split; [|split]]]].
  - unfold Assign. erewrite bind_Ok by apply storage_run. cbv zeta.
    rewrite Hv. cbn [view_size view_capacity view_data ptr_add].
    rewrite (proj2 (Z.ltb_ge c new_size)) by lia.
    apply with_AllocationTransaction_Throw; [done|].
    destruct (decide (zlen l < new_size)) as [Hgrow|Hshrink].
    + rewrite (proj2 (Z.ltb_lt (zlen l) new_size)) by lia.
      unfold mbind at 1, M_bind at 1, mret at 1, M_ret at 1.
      cbn [span_data span_size].
      erewrite bind_Throw; [done|].
      replace (zlen l) with k at 1 by lia. exact Hrun.
    + rewrite (proj2 (Z.ltb_ge (zlen l) new_size)) by lia.
      unfold mbind at 1, M_bind at 1, mret at 1, M_ret at 1.
      cbn [span_data span_size].
      erewrite bind_Throw; [done|].
      replace new_size with k at 1 by lia. exact Hrun.
  - unfold fill_range. apply (represents_range_update _ _ l); [done|done|].
    intros j Hj. rewrite Hz. subst l'.
    rewrite zlookup_app, Hz, !zlookup_take, zlookup_drop, Z.sub_0_r.
    repeat case_decide; try lia; try done. f_equal. lia.
  - unfold fill_range. destruct y; cbn [layout_base].
    + apply storage_of_range_update. congruence.
    + by apply storage_of_range_update.
  - intros a Ha. unfold fill_range. rewrite <- !get_buf_heap.
    apply get_buf_range_update_ne. destruct y; cbn [layout_base]; congruence.
  - done.
Qed.

(** X23: in [EmplaceBack] with room left, if the construction of the new
    element throws, the exception propagates with the memory exactly as it
    was before the call: the storage holds the same elements, and its size
    is unchanged. *)
Theorem EmplaceBack_in_place_failure self v s l c y :
  env_ok → represents (mem s) self l c y → zlen l < c →
  faults (tick s) = true →
  EmplaceBack self v s =
    Throw element_exception
      (state_after (mem s)
         [EvConstruct (Ptr (layout_base self y) (zlen l)) v;
          EvThrow element_exception] 1 s).
Proof.
  intros Henv Hr Hroom Hf.
  pose proof (view_of_represents _ _ _ _ _ Hr) as Hv.
  destruct (represents_bounds _ _ _ _ _ Henv Hr) as [Hlc _].
  pose proof (zlen_nonneg l) as Hl0.
  unfold EmplaceBack. erewrite bind_Ok by apply storage_run. cbv zeta.
  rewrite Hv. cbn [view_size view_capacity view_data ptr_add].
  rewrite (proj2 (Z.eqb_neq (zlen l) c)) by lia. cbn [negb].
  rewrite Z.add_0_l. erewrite bind_Throw; [done|].
  rewrite construct_run.
  - by rewrite Hf.
  - rewrite (slot_at_represents _ _ _ _ _ _ Hr Hlc).
    rewrite zlookup_buffer_of, zlookup_outside by lia.
    by rewrite decide_True by lia.
Qed.

End assignments.

Section copies.
Context {T : Type} {VT : ValueType T} {Env : Environment}.
Implicit Types (m : Memory (T:=T)) (st : Storage (T:=T)) (s : State (T:=T))
  (buf : list (option T)) (l : list T) (w : Who) (b : Base) (p : Pointer)
  (d : Data (T:=T)) (h : gmap nat (list (option T)))
  (f : Storage (T:=T) → Storage (T:=T)) (g : Z → option T)
  (ats : list AllocationTransaction) (cts : list ConstructionTransaction)
  (evs : list (Event (T:=T))).

#[local] Arguments write_slot : simpl never.
#[local] Arguments slot_at : simpl never.
#[local] Arguments range_update : simpl never.
#[local] Arguments construct_events : simpl never.
#[local] Arguments destroy_events : simpl never.

(** ** Copies of a storage *)

Lemma read_values_run b off vs s :
  (∀ k, 0 ≤ k < zlen vs →
        slot_at (Ptr b (off + k)) (mem s) = Some (zlookup vs k)) →
  read_values (Ptr b off) (length vs) s = Ok vs s.
Proof.
  revert off. induction vs as [|v vs IH]; intros off Hsrc; [done|].
  cbn [read_values length ptr_add].
  unfold mbind at 1, M_bind at 1, load_live.
  unfold mbind at 1, M_bind at 1, load.
  pose proof (zlen_nonneg vs) as Hl0.
  specialize (Hsrc 0) as H0. rewrite Z.add_0_r, zlen_cons in H0.
  rewrite H0 by lia. rewrite zlookup_cons_0.
  unfold mret at 1, M_ret at 1. unfold mbind at 1, M_bind at 1.
  rewrite IH; [done|]. intros k Hk.
  replace (off + 1 + k) with (off + (k + 1)) by lia.
  rewrite Hsrc by (rewrite zlen_cons; lia).
  rewrite zlookup_cons_pos by lia. f_equal. f_equal. lia.
Qed.

Lemma next_values_Iterator vs :
  next_values (IteratorValueAdapter vs) (length vs) =
  Some (vs, IteratorValueAdapter (T:=T) []).
Proof. induction vs as [|v vs IH]; [done|]. simpl. by rewrite IH. Qed.

Lemma memcpy_loop_run bD offD bS offS n (src : Z → option T) s :
  bD ≠ bS →
  (∀ j, offS ≤ j < offS + Z.of_nat n →
        slot_at (Ptr bS j) (mem s) = Some (src j)) →
  (∀ j, offD ≤ j < offD + Z.of_nat n →
        is_Some (slot_at (Ptr bD j) (mem s))) →
  memcpy_loop (Ptr bD offD) (Ptr bS offS) n s =
    Ok tt (state_after
             (move_in_range bD offD (Z.of_nat n) src offS (mem s)) [] 0 s).
Proof.
  intros Hne. revert offD offS s.
  induction n as [|n IH]; intros offD offS s Hsrc Hdst.
  - simpl. unfold move_in_range. rewrite range_update_empty by done.
    by rewrite state_after_id.
  - cbn [memcpy_loop ptr_add].
    unfold mbind at 1, M_bind at 1, load. rewrite Hsrc by lia.
    unfold mbind at 1, M_bind at 1, store.
    destruct (Hdst offD) as [x0 Hx0]; [lia|]. rewrite Hx0.
    rewrite with_mem_after.
    rewrite IH; cycle 1.
    { intros j Hj. cbn [mem state_after mk_state].
      rewrite slot_at_write_slot_ne by congruence. apply Hsrc. lia. }
    { intros j Hj. cbn [mem state_after mk_state].
      rewrite slot_at_write_slot_ne by (intros [=]; lia). apply Hdst. lia. }
    rewrite state_after_state_after. cbn [mem state_after mk_state app].
    f_equal. f_equal. unfold move_in_range.
    rewrite (range_update_ext _ _ _ _ (λ j, src (j - offD + offS)))
      by (intros j Hj; f_equal; lia).
    replace (Z.of_nat (S n)) with (Z.of_nat n + 1) by lia.
    apply range_update_write_first; [lia|]. f_equal. lia.
Qed.

Lemma not_faulty_now t : ¬ faulty t → faults t = false.
Proof.
  intros Hnf. destruct (faults t) eqn:E; [|done].
  destruct Hnf. by apply faulty_now.
Qed.

Lemma not_faulty_first_fault t n : ¬ faulty t → first_fault t n = None.
Proof.
  intros Hnf. destruct (first_fault t n) as [k|] eqn:E; [|done].
  destruct Hnf. by eapply first_fault_faulty.
Qed.

Lemma represents_source m w l c y :
  represents m w l c y →
  ∀ j, 0 ≤ j < zlen l →
       slot_at (Ptr (layout_base w y) j) m = Some (zlookup l j).
Proof.
  intros Hr j Hj. rewrite slot_at_get_buf, (represents_buffer _ _ _ _ _ Hr).
  simpl. destruct Hr as [Hw Hb Hl ->|a Hw Hd Hh Hl Hc];
    apply zlookup_buffer_of_in; lia.
Qed.

Lemma InitFrom_wp self s l c y :
  env_ok → represents (mem s) self [] N LayoutInlined →
  represents (mem s) (other_of self) l c y → l ≠ [] → no_guards s →
  let a := fresh (dom (heap (mem s))) in
  let c' := ComputeCapacity N (zlen l) in
  wp (y ≠ LayoutInlined ∧ max_size < c') (InitFrom self (other_of self)) s
    (λ _ s',
       match y with
       | LayoutInlined => updated self LayoutInlined l N LayoutInlined s s'
       | LayoutAllocated _ =>
           updated self LayoutInlined l c' (LayoutAllocated a) s s'
       end).
Proof.
  intros Henv Hr Hr2 Hne Hg a c'.
  pose proof (layout_base_fresh _ _ _ _ _ Hr2) as Hfresh. fold a in Hfresh.
  pose proof (represents_buffer _ _ _ _ _ Hr) as Hbuf.
  pose proof (represents_word _ _ _ _ _ Hr) as Hword.
  pose proof (represents_word _ _ _ _ _ Hr2) as Hword2.
  pose proof (represents_source _ _ _ _ _ Hr2) as Hsrc.
  pose proof (represents_bounds _ _ _ _ _ Henv Hr2) as (Hlc & HNc & Hcm).
  pose proof (other_of_ne self) as Hoth.
  pose proof (zlen_nonneg l) as Hl0.
  assert (0 < zlen l) as Hpos.
  { destruct l; [done|]. rewrite zlen_cons. pose proof (zlen_nonneg l). lia. }
  cbn [layout_base] in Hbuf. change (zlen []) with 0 in Hword.
  rewrite buffer_of_nil in Hbuf.
  destruct Henv as (HN & HNm & Hmax).
  pose proof SizeType_modulus_eq as Hmod.
  assert (c' = Z.max (2 * N) (zlen l)) as Hc'
    by (apply ComputeCapacity_bounds; lia).
  assert (Z.to_nat (zlen l) = length l) as Hlen
    by (unfold zlen; apply Nat2Z.id).
  apply wp_from; [done|].
  unfold InitFrom. wp_ok storage_run. cbn [mem mk_state]. cbv zeta.
  destruct y as [|a0].
  - rewrite (GetIsAllocated_even _ (zlen l)), (GetSize_even _ (zlen l))
      by (rewrite Hword2; lia).
    rewrite (proj2 (Z.ltb_lt _ _)) by lia. apply wp_assert.
    cbn [negb]. wp_step ltac:(apply runs_ret). cbv beta iota.
    unfold GetInlinedData.
    assert (c = N) as -> by (by inversion Hr2).
    destruct IsMemcpyOk eqn:Hmemcpy.
    + unfold MemcpyIfAllowed.
      wp_step ltac:(
        apply runs_Ok;
        [apply (memcpy_loop_run _ _ _ _ _ (zlookup l)); [congruence| |]
        |simpl; lia]).
      { intros j Hj. cbn [mem mk_state]. apply Hsrc. lia. }
      { intros j Hj. cbn [mem mk_state]. rewrite slot_at_get_buf, Hbuf. simpl.
        rewrite zlookup_raw_buffer, decide_True by lia. eauto. }
      rewrite state_after_mk_state. cbn [mem mk_state].
      wp_ok storage_run. wp_ok update_storage_run.
      apply updated_inlined; cbn [mem mk_state].
      * storage_simpl. cbv beta. unfold GetSizeAndIsAllocated. simpl.
        storage_simpl. rewrite Hword2. lia.
      * get_buf_simpl. rewrite Hbuf. simpl. f_equal.
        apply buffer_of_eq; [|lia|].
        -- rewrite zlen_zupdate. apply zlen_raw_buffer. lia.
        -- intros j Hj. slots_simpl. slots_done.
      * rewrite heap_with_storage. unfold move_in_range.
        by rewrite heap_range_update_inlined.
      * lia.
      * by storage_simpl.
      * done.
    + apply wp_bind_assoc. rewrite Hlen.
      wp_step ltac:(
        apply runs_Ok; [apply (read_values_run _ 0 l)|simpl; lia]).
      { intros j Hj. cbn [mem mk_state]. rewrite Z.add_0_l. by apply Hsrc. }
      apply wp_bind_assoc.
      wp_step ltac:(
        eapply runs_loop;
        [apply (ConstructElements_ext_run _ _ _ _ l (IteratorValueAdapter []));
         [rewrite Hlen; apply next_values_Iterator|]
        |simpl; lia]).
      { intros j Hj. cbn [mem mk_state]. rewrite slot_at_get_buf, Hbuf. simpl.
        rewrite zlookup_raw_buffer, decide_True by lia. done. }
      rewrite state_after_mk_state. cbn [mem mk_state].
      wp_step ltac:(apply runs_ret).
      wp_ok storage_run. wp_ok update_storage_run.
      apply updated_inlined; cbn [mem mk_state].
      * storage_simpl. cbv beta. unfold GetSizeAndIsAllocated. simpl.
        storage_simpl. rewrite Hword2. lia.
      * get_buf_simpl. rewrite Hbuf. simpl. f_equal.
        apply buffer_of_eq; [|lia|].
        -- rewrite zlen_zupdate. apply zlen_raw_buffer. lia.
        -- intros j Hj. slots_simpl. slots_done.
      * rewrite heap_with_storage. unfold fill_range.
        by rewrite heap_range_update_inlined.
      * lia.
      * by storage_simpl.
      * done.
  - assert (data_ (storage_of (other_of self) (mem s)) =
            DataAllocated {| allocated_data := Ptr (HeapBlock a0) 0;
                             allocated_capacity := c |}) as Hd2
      by (by inversion Hr2).
    rewrite (GetIsAllocated_odd _ (zlen l)), (GetSize_odd _ (zlen l))
      by done.
    rewrite (proj2 (Z.ltb_lt _ _)) by lia. apply wp_assert.
    cbn [negb]. unfold GetInlinedCapacity. fold c'.
    apply wp_bind_assoc.
    destruct (decide (c' ≤ max_size)) as [Hfit|Hbig]; cycle 1.
    { eapply wp_Throw; [|split; [done|lia]]. apply bind_Throw.
      apply allocate_too_large. lia. }
    wp_step ltac:(eapply runs_fallible; [by apply allocate_mk|simpl; lia]).
    cbn [mem mk_state]. fold a.
    apply wp_bind_assoc. wp_ok update_storage_run.
    apply wp_bind_assoc. wp_ok storage_run. cbn [mem mk_state].
    wp_step ltac:(apply runs_ret). cbv beta iota.
    rewrite storage_of_with_storage_ne, storage_of_set_heap by done.
    unfold GetAllocatedData at 1 2. rewrite Hd2. cbn [allocated_data].
    assert (a0 ≠ a) as Ha0 by (cbn [layout_base] in Hfresh; congruence).
    assert (∀ j, 0 ≤ j < zlen l →
              slot_at (Ptr (HeapBlock a0) j)
                (with_storage self
                   (set_data
                      (DataAllocated {| allocated_data := Ptr (HeapBlock a) 0;
                                        allocated_capacity := c' |}))
                   (set_heap (<[a:=raw_buffer c']> (heap (mem s))) (mem s))) =
              Some (zlookup l j)) as Hsrc'.
    { intros j Hj. rewrite <- (Hsrc j Hj). rewrite !slot_at_get_buf.
      by get_buf_simpl. }
    assert (∀ j, 0 ≤ j < zlen l →
              slot_at (Ptr (HeapBlock a) j)
                (with_storage self
                   (set_data
                      (DataAllocated {| allocated_data := Ptr (HeapBlock a) 0;
                                        allocated_capacity := c' |}))
                   (set_heap (<[a:=raw_buffer c']> (heap (mem s))) (mem s))) =
              Some None) as Hdst'.
    { intros j Hj. rewrite slot_at_get_buf. get_buf_simpl. simpl.
      rewrite zlookup_raw_buffer, decide_True by lia. done. }
    destruct IsMemcpyOk eqn:Hmemcpy.
    + unfold MemcpyIfAllowed.
      wp_step ltac:(
        apply runs_Ok;
        [apply (memcpy_loop_run _ _ _ _ _ (zlookup l)); [congruence| |]
        |simpl; lia]).
      { intros j Hj. cbn [mem mk_state]. apply Hsrc'. lia. }
      { intros j Hj. cbn [mem mk_state]. rewrite Hdst' by lia. eauto. }
      rewrite state_after_mk_state. cbn [mem mk_state].
      wp_ok storage_run. wp_ok update_storage_run.
      eapply (updated_realloc self LayoutInlined [] N s l c' _ a);
        [done|done|..]; cbn [mem mk_state].
      * storage_simpl. cbv beta. unfold GetSizeAndIsAllocated. simpl.
        storage_simpl. rewrite Hword2. lia.
      * by storage_simpl.
      * get_buf_simpl. simpl. f_equal. apply buffer_of_eq; [|lia|].
        -- rewrite zlen_zupdate. apply zlen_raw_buffer. lia.
        -- intros j Hj. slots_simpl. slots_done.
      * intros k Hk1 Hk2. by get_buf_simpl.
      * done.
      * by storage_simpl.
      * lia.
      * lia.
      * done.
    + apply wp_bind_assoc. rewrite Hlen.
      wp_step ltac:(
        apply runs_Ok; [apply (read_values_run _ 0 l)|simpl; lia]).
      { intros j Hj. cbn [mem mk_state]. rewrite Z.add_0_l. by apply Hsrc'. }
      apply wp_bind_assoc.
      wp_step ltac:(
        eapply runs_loop;
        [apply (ConstructElements_ext_run _ _ _ _ l (IteratorValueAdapter []));
         [rewrite Hlen; apply next_values_Iterator|]
        |simpl; lia]).
      { intros j Hj. cbn [mem mk_state]. apply Hdst'. lia. }
      rewrite state_after_mk_state. cbn [mem mk_state].
      wp_step ltac:(apply runs_ret).
      wp_ok storage_run. wp_ok update_storage_run.
      eapply (updated_realloc self LayoutInlined [] N s l c' _ a);
        [done|done|..]; cbn [mem mk_state].
      * storage_simpl. cbv beta. unfold GetSizeAndIsAllocated. simpl.
        storage_simpl. rewrite Hword2. lia.
      * by storage_simpl.
      * get_buf_simpl. simpl. f_equal. apply buffer_of_eq; [|lia|].
        -- rewrite zlen_zupdate. apply zlen_raw_buffer. lia.
        -- intros j Hj. slots_simpl. slots_done.
      * intros k Hk1 Hk2. by get_buf_simpl.
      * done.
      * by storage_simpl.
      * lia.
      * lia.
      * done.
Qed.

(** X24: [InitFrom] on an empty storage, if no operation throws,
    returns with the storage holding the elements of the other storage, which
    is left as it was. The copy of an inlined storage is inlined; the copy of
    an allocated one holds a new block of capacity
    [ComputeCapacity N size] (so at least [2 * N], also when the elements
    would fit in the inlined region). This holds for both ways of copying,
    [memcpy] and one construction per element. *)
Theorem InitFrom_copies self s l c y :
  env_ok → represents (mem s) self [] N LayoutInlined →
  represents (mem s) (other_of self) l c y → l ≠ [] → no_guards s →
  ¬ faulty (tick s) →
  (y ≠ LayoutInlined → ComputeCapacity N (zlen l) ≤ max_size) →
  ∃ s', InitFrom self (other_of self) s = Ok tt s' ∧
    represents (mem s') (other_of self) l c y ∧
    match y with
    | LayoutInlined => updated self LayoutInlined l N LayoutInlined s s'
    | LayoutAllocated _ =>
        updated self LayoutInlined l (Z.max (2 * N) (zlen l))
          (fresh_layout s) s s'
    end.
Proof.
  intros Henv Hr Hr2 Hne Hg Hnf Hfit.
  destruct (wp_returns _ _ _ _ (InitFrom_wp self s l c y Henv Hr Hr2 Hne Hg)
              Hnf) as ([] & s' & Hrun & Hpost);
    [intros [Hy Hbig]; specialize (Hfit Hy); lia|].
  exists s'. split; [done|].
  assert (ComputeCapacity N (zlen l) = Z.max (2 * N) (zlen l)) as Hc'.
  { destruct Henv as (HN & HNm & Hmax). pose proof SizeType_modulus_eq.
    pose proof (zlen_nonneg l).
    pose proof (represents_bounds _ _ _ _ _ (conj HN (conj HNm Hmax)) Hr2).
    apply ComputeCapacity_bounds; lia. }
  rewrite <- Hc'. split; [|by destruct y].
  destruct y as [|a0].
  - eapply (updated_other s s' self [] N LayoutInlined); eauto.
  - eapply (updated_other s s' self [] N LayoutInlined); eauto.
Qed.

(** X25: when copying one element at a time, if the construction of element
    [k] is the first call of [InitFrom] to throw, the exception propagates
    with both storages as before the call (this one empty and inlined), after
    the elements constructed so far were destroyed, and the destructor of
    this storage then returns at once. For an inlined source the heap is as
    before the call. For an allocated source [InitFrom] does not set the
    allocated bit, and the heap keeps the new block, raw, which no storage
    designates as its own. *)
Theorem InitFrom_construct_failure self s l c y k :
  env_ok → IsMemcpyOk = false →
  represents (mem s) self [] N LayoutInlined →
  represents (mem s) (other_of self) l c y →
  (y ≠ LayoutInlined →
   ComputeCapacity N (zlen l) ≤ max_size ∧ faults (tick s) = false) →
  first_fault (match y with LayoutInlined => tick s | _ => S (tick s) end)
    (length l) = Some k →
  ∃ s', InitFrom self (other_of self) s = Throw element_exception s' ∧
    represents (mem s') self [] N LayoutInlined ∧
    represents (mem s') (other_of self) l c y ∧
    Storage_dtor self s' = Ok tt s' ∧
    match y with
    | LayoutInlined => heap (mem s') = heap (mem s)
    | LayoutAllocated _ =>
        let a := fresh (dom (heap (mem s))) in
        heap (mem s') =
          <[a := raw_buffer (ComputeCapacity N (zlen l))]> (heap (mem s)) ∧
        ∀ w, ¬ owns (mem s') w a
    end.
Proof.
  intros Henv Hmemcpy Hr Hr2 Halloc Hff.
  set (a := fresh (dom (heap (mem s)))).
  set (c' := ComputeCapacity N (zlen l)) in *.
  pose proof (layout_base_fresh _ _ _ _ _ Hr2) as Hfresh. fold a in Hfresh.
  pose proof (represents_buffer _ _ _ _ _ Hr) as Hbuf.
  pose proof (represents_word _ _ _ _ _ Hr) as Hword.
  pose proof (represents_word _ _ _ _ _ Hr2) as Hword2.
  pose proof (represents_source _ _ _ _ _ Hr2) as Hsrc.
  pose proof (represents_bounds _ _ _ _ _ Henv Hr2) as (Hlc & HNc & Hcm).
  pose proof (other_of_ne self) as Hoth.
  pose proof (first_fault_lt _ _ _ Hff) as Hk.
  assert (0 < zlen l) as Hpos by (unfold zlen; lia).
  cbn [layout_base] in Hbuf. change (zlen []) with 0 in Hword.
  rewrite buffer_of_nil in Hbuf.
  destruct Henv as (HN & HNm & Hmax).
  pose proof SizeType_modulus_eq as Hmod.
  assert (c' = Z.max (2 * N) (zlen l)) as Hc'
    by (apply ComputeCapacity_bounds; lia).
  assert (Z.to_nat (zlen l) = length l) as Hlen
    by (unfold zlen; apply Nat2Z.id).
  destruct y as [|a0];
    (eexists; rewrite (run_from (InitFrom self (other_of self)));
     unfold InitFrom; (erewrite bind_Ok by apply storage_run);
     cbn [mem mk_state]; cbv zeta).
  - assert (c = N) as -> by (by inversion Hr2).
    rewrite (GetIsAllocated_even _ (zlen l)), (GetSize_even _ (zlen l))
      by (rewrite Hword2; lia).
    rewrite (proj2 (Z.ltb_lt _ _)) by lia. cbn [assert negb].
    unfold mbind at 1, M_bind at 1. cbn [mret M_ret].
    erewrite bind_Ok by reflexivity. cbv beta iota.
    rewrite Hmemcpy. unfold GetInlinedData.
    erewrite bind_Throw; cycle 1.
    { erewrite bind_Ok; cycle 1.
      { rewrite Hlen. apply (read_values_run _ 0 l). intros j Hj.
        cbn [mem mk_state]. rewrite Z.add_0_l. by apply Hsrc. }
      erewrite bind_Throw; [reflexivity|].
      erewrite ConstructElements_ext_run;
        [|rewrite Hlen; apply next_values_Iterator|]; cycle 1.
      { intros j Hj. cbn [mem mk_state]. rewrite slot_at_get_buf, Hbuf. simpl.
        rewrite zlookup_raw_buffer, decide_True by lia. done. }
      cbn [tick mk_state]. rewrite Hlen, Nat.add_0_r, Hff. reflexivity. }
    rewrite state_after_mk_state. cbn [mem mk_state].
    split; [done|].
    assert (represents (clear_range (InlinedOf self) 0 (Z.of_nat k) (mem s))
              self [] N LayoutInlined) as Hr'
      by apply (represents_rolled_back _ _ [] N LayoutInlined _ Hr).
    split; [done|]. split.
    { eapply represents_other_frame; [exact Hr2| |done].
      cbn [mem mk_state]. by storage_simpl. }
    split.
    { unfold Storage_dtor. erewrite bind_Ok by apply storage_run.
      cbn [mem mk_state]. unfold GetSizeAndIsAllocated.
      by rewrite (represents_word _ _ _ _ _ Hr'). }
    unfold clear_range. apply heap_range_update_inlined.
  - assert (data_ (storage_of (other_of self) (mem s)) =
            DataAllocated {| allocated_data := Ptr (HeapBlock a0) 0;
                             allocated_capacity := c |}) as Hd2
      by (by inversion Hr2).
    assert (a0 ≠ a) as Ha0 by (cbn [layout_base] in Hfresh; congruence).
    rewrite (GetIsAllocated_odd _ (zlen l)), (GetSize_odd _ (zlen l))
      by done.
    rewrite (proj2 (Z.ltb_lt _ _)) by lia. cbn [assert negb].
    unfold mbind at 1, M_bind at 1. cbn [mret M_ret].
    unfold GetInlinedCapacity. fold c'.
    destruct Halloc as [Hfit Halloc]; [done|].
    erewrite bind_Ok; cycle 1.
    { erewrite bind_Ok; cycle 1.
      { rewrite allocate_mk by done. cbn [tick mk_state].
        rewrite Nat.add_0_r, Halloc. reflexivity. }
      fold a. erewrite bind_Ok by apply update_storage_run.
      erewrite bind_Ok by apply storage_run. reflexivity. }
    cbv beta iota. cbn [mem mk_state].
    rewrite storage_of_with_storage_ne, storage_of_set_heap by done.
    unfold GetAllocatedData. rewrite Hd2. cbn [allocated_data].
    rewrite Hmemcpy.
    erewrite bind_Throw; cycle 1.
    { erewrite bind_Ok; cycle 1.
      { rewrite Hlen. apply (read_values_run _ 0 l). intros j Hj.
        cbn [mem mk_state]. rewrite Z.add_0_l, <- (Hsrc j Hj).
        rewrite !slot_at_get_buf. get_buf_simpl. reflexivity. }
      erewrite bind_Throw; [reflexivity|].
      erewrite ConstructElements_ext_run;
        [|rewrite Hlen; apply next_values_Iterator|]; cycle 1.
      { intros j Hj. cbn [mem mk_state]. rewrite slot_at_get_buf.
        get_buf_simpl. simpl.
        rewrite zlookup_raw_buffer, decide_True by lia. done. }
      cbn [tick mk_state]. rewrite Hlen, Nat.add_0_l, Nat.add_1_r, Hff.
      reflexivity. }
    rewrite state_after_mk_state. cbn [mem mk_state].
    erewrite (raw_buffer_cleared _ _ _ _ c'); cycle 1.
    { rewrite !get_buf_with_storage_heap, get_buf_set_heap_heap.
      apply lookup_insert_eq. }
    { apply set_buf_heap_id. rewrite !heap_with_storage. simpl.
      apply lookup_insert_eq. }
    split; [done|]. cbn [mem mk_state].
    assert (metadata_size_and_is_allocated
              (storage_of self
                 (with_storage self
                    (set_data
                       (DataAllocated
                          {| allocated_data := Ptr (HeapBlock a) 0;
                             allocated_capacity := c' |}))
                    (set_heap (<[a:=raw_buffer c']> (heap (mem s))) (mem s))))
            = 2 * 0) as Hw0.
    { rewrite storage_of_with_storage_eq, storage_of_set_heap. simpl.
      by rewrite Hword. }
    split.
    { apply represents_inlined; [exact Hw0| |unfold zlen; simpl; lia|done].
      rewrite buffer_of_nil. simpl. by rewrite storage_of_with_storage_eq. }
    split.
    { eapply represents_other_frame; [exact Hr2|by storage_simpl|].
      intros a1 [= <-]. rewrite heap_with_storage. simpl.
      by rewrite lookup_insert_ne. }
    split.
    { unfold Storage_dtor. erewrite bind_Ok by apply storage_run.
      cbn [mem mk_state]. unfold GetSizeAndIsAllocated. by rewrite Hw0. }
    split; [by rewrite heap_with_storage|].
    intros w [Hwa Hwd].
    assert (w = self ∨ w = other_of self) as [->| ->]
      by (destruct w, self; auto).
    + by rewrite (GetIsAllocated_even _ 0 Hw0) in Hwa.
    + rewrite storage_of_with_storage_ne, storage_of_set_heap in Hwd by done.
      unfold GetAllocatedData in Hwd. rewrite Hd2 in Hwd. simpl in Hwd.
      congruence.
Qed.

(** X26: [MemcpyFrom] an allocated storage copies the size word and the
    [data_] union, whatever the element type: both storages then designate
    the same block. Followed by [SetInlinedSize(0)] on the source, this
    storage holds the elements in the source's block with the source's
    capacity, the source is empty and inlined, and nothing was allocated,
    released, constructed or destroyed: the heap, the trace and the tick are
    as before. *)
Theorem MemcpyFrom_takes_over self s l c a0 :
  env_ok →
  represents (mem s) (other_of self) l c (LayoutAllocated a0) →
  ∃ s1 s',
    MemcpyFrom self (other_of self) s = Ok tt s1 ∧
    owns (mem s1) self a0 ∧ owns (mem s1) (other_of self) a0 ∧
    SetInlinedSize (other_of self) 0 s1 = Ok tt s' ∧
    represents (mem s') self l c (LayoutAllocated a0) ∧
    represents (mem s') (other_of self) [] N LayoutInlined ∧
    heap (mem s') = heap (mem s) ∧ trace s' = trace s ∧ tick s' = tick s.
Proof.
  intros (HN & _ & _) Hr2.
  pose proof (represents_word _ _ _ _ _ Hr2) as Hword2.
  pose proof (other_of_ne self) as Hoth.
  assert (data_ (storage_of (other_of self) (mem s)) =
          DataAllocated {| allocated_data := Ptr (HeapBlock a0) 0;
                           allocated_capacity := c |}) as Hd2
    by (by inversion Hr2).
  do 2 eexists. split.
  { rewrite (run_from (MemcpyFrom self (other_of self))). unfold MemcpyFrom.
    erewrite bind_Ok by apply storage_run. cbn [mem mk_state].
    rewrite (GetIsAllocated_odd _ (zlen l)) by done.
    rewrite orb_true_r. cbn [assert].
    unfold mbind at 1, M_bind at 1. cbn [mret M_ret].
    erewrite bind_Ok by apply update_storage_run.
    erewrite bind_Ok by apply storage_run. cbn [mem mk_state].
    rewrite update_storage_run. reflexivity. }
  cbn [mem mk_state].
  rewrite storage_of_with_storage_ne by done. rewrite Hd2.
  unfold GetSizeAndIsAllocated. rewrite Hword2.
  split.
  { split.
    - apply (GetIsAllocated_odd _ (zlen l)).
      by rewrite !storage_of_with_storage_eq.
    - unfold GetAllocatedData. by rewrite storage_of_with_storage_eq. }
  split.
  { split.
    - apply (GetIsAllocated_odd _ (zlen l)).
      by rewrite !storage_of_with_storage_ne.
    - unfold GetAllocatedData.
      by rewrite !storage_of_with_storage_ne, Hd2 by done. }
  split; [apply update_storage_run|]. cbn [mem mk_state].
  split.
  { inversion Hr2 as [|a1 Hw Hd Hh Hl Hc]; subst.
    apply represents_allocated; [| |by rewrite !heap_with_storage|done|done].
    - by rewrite storage_of_with_storage_ne, !storage_of_with_storage_eq.
    - by rewrite storage_of_with_storage_ne, !storage_of_with_storage_eq. }
  split.
  { apply represents_inlined; [| |unfold zlen; simpl; lia|done].
    - by rewrite storage_of_with_storage_eq.
    - rewrite buffer_of_nil. simpl.
      rewrite storage_of_with_storage_eq, !storage_of_with_storage_ne by done.
      simpl. by rewrite Hd2. }
  split; [by rewrite !heap_with_storage|].
  split; simpl; [by rewrite app_nil_r|lia].
Qed.

End copies.

(** * Concrete runs *)

Import Examples.

(** Closed facts about the concrete states, by evaluation. *)
Ltac by_computation := vm_compute; repeat split; congruence.

Lemma small_env_ok f : env_ok (Env:=small f).
Proof. by_computation. Qed.

Lemma no_faults_not_faulty t : ¬ faulty (Env:=small no_faults) t.
Proof. intros (k & _ & H). discriminate H. Qed.

Lemma state_of_no_guards this other h : no_guards (state_of this other h).
Proof. by split. Qed.

Lemma fresh_state_represents f w :
  represents (Env:=small f) (mem fresh_state) w [] 2
    LayoutInlined.
Proof. destruct w; apply represents_inlined; by_computation. Qed.

Lemma mixed_state_this f :
  represents (Env:=small f) (mem mixed_state) This [10; 20] 2
    LayoutInlined.
Proof. apply represents_inlined; by_computation. Qed.

Lemma mixed_state_other f :
  represents (Env:=small f) (mem mixed_state) Other [1; 2; 3] 4
    (LayoutAllocated 0).
Proof. apply represents_allocated; by_computation. Qed.

Lemma fresh_state_initial f : initial (Env:=small f) fresh_state.
Proof. split; [by intros []|by split]. Qed.

Lemma pushed_state_reachable :
  reachable (VT:=tracked) (Env:=small no_faults) pushed_state.
Proof.
  apply (reachable_step fresh_state This (OpEmplaceBack 5)).
  - apply reachable_initial, fresh_state_initial.
  - exact I.
  - reflexivity.
Qed.

(** ** C1 *)

(** With [N = 2], [Initialize] of three copies of 7 on a fresh storage,
    when the construction of the second one throws: the exception reaches the
    caller with the storage marked allocated and holding the new block of
    capacity 4, and with no guard involved. *)
Lemma Initialize_failure_keeps_block :
  ∃ s',
    Initialize (VT:=tracked) (Env:=small (fault_at 2)) This
      (CopyValueAdapter 7) 3 fresh_state = Throw element_exception s' ∧
    GetSize (storage_of This (mem s')) = 0 ∧
    GetIsAllocated (storage_of This (mem s')) = true ∧
    data_ (storage_of This (mem s')) =
      DataAllocated {| allocated_data := Ptr (HeapBlock 0) 0;
                       allocated_capacity := 4 |} ∧
    heap (mem fresh_state) !! 0%nat = None ∧
    heap (mem s') !! 0%nat = Some [None; None; None; None] ∧
    trace s' =
      [EvAllocate 0 4; EvConstruct (Ptr (HeapBlock 0) 0) 7;
       EvConstruct (Ptr (HeapBlock 0) 1) 7; EvThrow element_exception;
       EvDestroy (Ptr (HeapBlock 0) 0)].
Proof. eexists. split; [vm_compute; reflexivity|]. by_computation. Qed.

Lemma Initialize_failure_witness :
  ∃ s',
    Initialize (VT:=tracked) (Env:=small (fault_at 2)) This
      (CopyValueAdapter 7) 3 fresh_state = Throw element_exception s' ∧
    GetSize (storage_of This (mem s')) = 0 ∧
    allocation_txs s' = [] ∧ construction_txs s' = [] ∧
    GetIsAllocated (storage_of This (mem s')) = true ∧
    data_ (storage_of This (mem s')) =
      DataAllocated {| allocated_data := Ptr (HeapBlock 0) 0;
                       allocated_capacity := 4 |} ∧
    heap (mem s') = <[0%nat := raw_buffer 4]> ∅ ∧
    ∃ s'', Storage_dtor (Env:=small (fault_at 2)) This s' =
             Ok tt s'' ∧ heap (mem s'') = ∅.
Proof.
  apply (Initialize_failure (VT:=tracked) (Env:=small (fault_at 2)) This
           (CopyValueAdapter 7) 3 1 fresh_state).
  - apply small_env_ok.
  - reflexivity.
  - reflexivity.
  - by eexists.
  - lia.
  - by_computation.
  - reflexivity.
  - reflexivity.
Defined.

(** ** C2 *)

Lemma EmplaceBack_construct_failure_witness :
  EmplaceBack (VT:=tracked) (Env:=small (fault_at 1)) This 30 mixed_state =
    EmplaceBackSlow (VT:=tracked) (Env:=small (fault_at 1)) This 30
      mixed_state ∧
  ∃ s',
    EmplaceBack (VT:=tracked) (Env:=small (fault_at 1)) This 30 mixed_state =
      Throw element_exception s' ∧
    mem s' = mem mixed_state ∧ no_guards s' ∧
    trace s' =
      [EvAllocate 1 4; EvConstruct (Ptr (HeapBlock 1) 2) 30;
       EvThrow element_exception; EvDeallocate 1 4].
Proof.
  apply (EmplaceBack_construct_failure (VT:=tracked)
           (Env:=small (fault_at 1)) This 30 mixed_state [10; 20] 2
           LayoutInlined).
  - apply small_env_ok.
  - apply mixed_state_this.
  - reflexivity.
  - apply state_of_no_guards.
  - by_computation.
  - reflexivity.
  - reflexivity.
Defined.

(** ** C4 *)

Lemma ConstructElements_failure_witness :
  ∃ s' evs,
    ConstructElements (VT:=tracked) (Env:=small (fault_at 1))
      (Ptr (InlinedOf This) 0) (CopyValueAdapter 7) 2 fresh_state =
      Throw element_exception s' ∧
    (∀ j, 0 ≤ j < 0 + 2 →
          slot_at (Env:=small (fault_at 1)) (Ptr (InlinedOf This) j) (mem s') =
            Some None) ∧
    trace s' =
      trace fresh_state ++ evs ++
      EvThrow element_exception ::
      destroy_events (Ptr (InlinedOf This) 0) 1 ∧
    length evs = 2%nat ∧
    ∀ k e, evs !! k = Some e →
           constructs_at (ptr_add (Ptr (InlinedOf This) 0) (Z.of_nat k)) e.
Proof.
  apply (ConstructElements_failure (VT:=tracked) (Env:=small (fault_at 1))
           (InlinedOf This) 0 (CopyValueAdapter 7) 2 1 fresh_state).
  - lia.
  - intros j Hj. assert (j = 0 ∨ j = 1) as [-> | ->] by lia; reflexivity.
  - by eexists.
  - reflexivity.
Defined.

(** ** C5 *)

(** With [N = 2], a storage initialised with five copies of 7 holds them in
    a block of capacity 5. [ShrinkToFit] then returns in the state it was
    called in: the elements stay in the block they were in, and nothing is
    allocated, moved or released. *)
Lemma ShrinkToFit_exact_returns_at_once :
  Initialize (VT:=tracked) (Env:=small no_faults) This (CopyValueAdapter 7) 5
    fresh_state = Ok tt exact_state ∧
  GetIsAllocated (storage_of This (mem exact_state)) = true ∧
  GetSize (storage_of This (mem exact_state)) = 5 ∧
  capacity_of (Env:=small no_faults) This (mem exact_state) = 5 ∧
  N (Environment:=small no_faults) < 5 ∧
  ShrinkToFit (VT:=tracked) (Env:=small no_faults) This exact_state =
    Ok tt exact_state.
Proof. by_computation. Qed.

Lemma ShrinkToFit_spec_witness :
  ∃ s',
    ShrinkToFit (VT:=tracked) (Env:=small no_faults) Other mixed_state =
      Ok tt s' ∧
    updated (Env:=small no_faults) Other (LayoutAllocated 0) [1; 2; 3] 3
      (LayoutAllocated 1) mixed_state s' ∧
    heap (mem s') !! 0%nat = None.
Proof.
  destruct (ShrinkToFit_spec (VT:=tracked) (Env:=small no_faults) Other
              mixed_state [1; 2; 3] 4 0) as (s' & Hrun & _ & Hshrink & _).
  - apply small_env_ok.
  - apply mixed_state_other.
  - apply state_of_no_guards.
  - apply no_faults_not_faulty.
  - exists s'. split; [exact Hrun|]. apply Hshrink. by_computation.
Defined.

(** ** C6 *)

(** [Insert] of no element at index 0 of [10; 20], then [Erase] of the
    empty range there: both return, and the elements read [-2; -2], each
    having been move-assigned to itself. *)
Lemma Insert_nothing_Erase_nothing :
  ∃ p s1 s2,
    Insert (VT:=tracked) (Env:=small no_faults) This
      (Ptr (InlinedOf This) 0) (IteratorValueAdapter []) 0 mixed_state =
      Ok p s1 ∧
    Erase (VT:=tracked) (Env:=small no_faults) This p (ptr_add p 0) s1 =
      Ok p s2 ∧
    data_ (storage_of This (mem mixed_state)) =
      DataInlined [Some 10; Some 20] ∧
    data_ (storage_of This (mem s2)) = DataInlined [Some (-2); Some (-2)] ∧
    GetSize (storage_of This (mem s2)) = 2.
Proof.
  do 3 eexists. split; [vm_compute; reflexivity|].
  split; [vm_compute; reflexivity|]. by_computation.
Qed.

Lemma Insert_Erase_witness :
  ∃ p s1 s2,
    Insert (VT:=tracked) (Env:=small no_faults) This
      (Ptr (InlinedOf This) 1) (IteratorValueAdapter [5; 6]) 2 mixed_state =
      Ok p s1 ∧
    p = Ptr (HeapBlock 1) 1 ∧
    represents (Env:=small no_faults) (mem s1) This [10; 5; 6; 20] 4
      (LayoutAllocated 1) ∧
    Erase (VT:=tracked) (Env:=small no_faults) This p (ptr_add p 2) s1 =
      Ok p s2 ∧
    represents (Env:=small no_faults) (mem s2) This [10; 20] 4
      (LayoutAllocated 1).
Proof.
  destruct (Insert_Erase (VT:=tracked) (Env:=small no_faults) This 1
              (IteratorValueAdapter [5; 6]) 2 [5; 6] (IteratorValueAdapter [])
              mixed_state [10; 20] 2 LayoutInlined)
    as (p & s1 & s2 & c' & y' & Hins & Hp & Hr1 & Hers & Hr2 & Hcy).
  - apply small_env_ok.
  - apply mixed_state_this.
  - apply state_of_no_guards.
  - by_computation.
  - by_computation.
  - reflexivity.
  - left. lia.
  - apply no_faults_not_faulty.
  - intros _. by_computation.
  - injection Hcy as -> ->. by exists p, s1, s2.
Defined.

(** ** C7 *)

Lemma Swap_twice_witness :
  ∃ s1 s2,
    Swap (VT:=tracked) (Env:=small no_faults) This Other mixed_state =
      Ok tt s1 ∧
    Swap (VT:=tracked) (Env:=small no_faults) Other This s1 = Ok tt s2 ∧
    represents (Env:=small no_faults) (mem s1) This [1; 2; 3] 4
      (LayoutAllocated 0) ∧
    represents (Env:=small no_faults) (mem s1) Other [10; 20] 2
      LayoutInlined ∧
    represents (Env:=small no_faults) (mem s2) This [10; 20] 2
      LayoutInlined ∧
    represents (Env:=small no_faults) (mem s2) Other [1; 2; 3] 4
      (LayoutAllocated 0) ∧
    heap (mem s2) = heap (mem mixed_state).
Proof.
  destruct (Swap_twice (VT:=tracked) (Env:=small no_faults) This mixed_state
              [10; 20] 2 LayoutInlined [1; 2; 3] 4 (LayoutAllocated 0))
    as (s1 & s2 & H1 & H2 & Ha & Hb & Hc & Hd & He & _).
  - apply small_env_ok.
  - apply mixed_state_this.
  - apply mixed_state_other.
  - apply state_of_no_guards.
  - apply no_faults_not_faulty.
  - by exists s1, s2.
Defined.

(** ** C8 *)

Lemma Reserve_spec_witness :
  Reserve (VT:=tracked) (Env:=small no_faults) This 2 mixed_state =
    Ok tt mixed_state ∧
  ∃ s',
    Reserve (VT:=tracked) (Env:=small no_faults) This 5 mixed_state =
      Ok tt s' ∧
    updated (Env:=small no_faults) This LayoutInlined [10; 20] 5
      (LayoutAllocated 1) mixed_state s' ∧
    trace s' =
      [EvAllocate 1 5;
       EvMoveConstruct (Ptr (HeapBlock 1) 0) (Ptr (InlinedOf This) 0);
       EvMoveConstruct (Ptr (HeapBlock 1) 1) (Ptr (InlinedOf This) 1);
       EvDestroy (Ptr (InlinedOf This) 1);
       EvDestroy (Ptr (InlinedOf This) 0)].
Proof.
  split.
  - apply (Reserve_spec (VT:=tracked) (Env:=small no_faults) This 2
             mixed_state [10; 20] 2 LayoutInlined);
      [apply small_env_ok|apply mixed_state_this|apply state_of_no_guards
      |lia].
  - apply (Reserve_spec (VT:=tracked) (Env:=small no_faults) This 5
             mixed_state [10; 20] 2 LayoutInlined);
      [apply small_env_ok|apply mixed_state_this|apply state_of_no_guards
      |lia|apply no_faults_not_faulty|by_computation].
Defined.

(** ** C9 *)

Lemma reachable_invariant_witness :
  ∃ l c y,
    represents (Env:=small no_faults) (mem pushed_state) This l c y ∧
    l = [5] ∧ c = 2 ∧ y = LayoutInlined ∧
    GetSize (storage_of This (mem pushed_state)) = 1 ∧
    0 ≤ GetSize (storage_of This (mem pushed_state))
      ≤ capacity_of (Env:=small no_faults) This (mem pushed_state) ∧
    GetIsAllocated (storage_of This (mem pushed_state)) = false.
Proof.
  destruct (reachable_invariant (VT:=tracked) (Env:=small no_faults)
              pushed_state This)
    as (l & c & y & Hr & Hsize & Hcap & Hdata & Hle & Halloc & HN & Hblock).
  - apply small_env_ok.
  - apply pushed_state_reachable.
  - exists l, c, y. split; [exact Hr|].
    assert (y = LayoutInlined) as ->
      by (destruct y; [reflexivity|discriminate Halloc]).
    assert (l = [5]) as ->.
    { inversion Hr as [_ Hbuf _ _|]. vm_compute in Hbuf.
      destruct l as [|v [|v' l]]; vm_compute in Hsize; try discriminate.
      vm_compute in Hbuf. congruence. }
    repeat split; try done.
Defined.

(** ** C10 *)

(** [EmplaceBackSlow] on the full inlined storage [10; 20], when the move
    construction of the second element throws: the exception reaches the
    caller with size 2 and the storage inlined, but its first element reads
    [-1]: it was moved from, and stays so. *)
Lemma EmplaceBackSlow_move_failure_moved_from :
  ∃ s',
    EmplaceBackSlow (VT:=tracked) (Env:=small (fault_at 3)) This 30
      mixed_state = Throw element_exception s' ∧
    data_ (storage_of This (mem mixed_state)) =
      DataInlined [Some 10; Some 20] ∧
    data_ (storage_of This (mem s')) = DataInlined [Some (-1); Some 20] ∧
    GetSize (storage_of This (mem s')) = 2 ∧
    GetIsAllocated (storage_of This (mem s')) = false ∧
    trace s' =
      [EvAllocate 1 4; EvConstruct (Ptr (HeapBlock 1) 2) 30;
       EvMoveConstruct (Ptr (HeapBlock 1) 0) (Ptr (InlinedOf This) 0);
       EvMoveConstruct (Ptr (HeapBlock 1) 1) (Ptr (InlinedOf This) 1);
       EvThrow element_exception;
       EvDestroy (Ptr (HeapBlock 1) 0); EvDestroy (Ptr (HeapBlock 1) 2);
       EvDeallocate 1 4].
Proof. eexists. split; [vm_compute; reflexivity|]. by_computation. Qed.

Lemma EmplaceBackSlow_move_failure_witness :
  ∃ s',
    EmplaceBackSlow (VT:=tracked) (Env:=small (fault_at 3)) This 30
      mixed_state = Throw element_exception s' ∧
    represents (Env:=small (fault_at 3)) (mem s') This [-1; 20] 2
      LayoutInlined ∧
    heap (mem s') !! 1%nat = None ∧ no_guards s'.
Proof.
  destruct (EmplaceBackSlow_move_failure (VT:=tracked)
              (Env:=small (fault_at 3)) This 30 mixed_state [10; 20] 2
              LayoutInlined 1)
    as (s' & Hrun & _ & Hr & Hh & Hg & _).
  - apply small_env_ok.
  - apply mixed_state_this.
  - apply state_of_no_guards.
  - by_computation.
  - by_computation.
  - reflexivity.
  - reflexivity.
  - reflexivity.
  - by exists s'.
Defined.

(** ** Further runs *)

Lemma mixed_state_valid f : valid_state (Env:=small f) mixed_state.
Proof.
  split; [|apply state_of_no_guards].
  exists [10; 20], 2, LayoutInlined, [1; 2; 3], 4, (LayoutAllocated 0).
  split; [apply mixed_state_this|]. split; [apply mixed_state_other|done].
Qed.

Lemma mixed_state_leak_free : leak_free (mem mixed_state).
Proof.
  intros a [buf Ha].
  change (heap (mem mixed_state))
    with ({[ 0%nat := buffer_of [1; 2; 3] 4 ]} : gmap nat (list (option Z)))
    in Ha.
  apply lookup_singleton_Some in Ha as [<- _].
  exists Other. by_computation.
Qed.

Lemma copy_state_this f :
  represents (Env:=small f) (mem copy_state) This [] 2 LayoutInlined.
Proof. apply represents_inlined; by_computation. Qed.

Lemma copy_state_other f :
  represents (Env:=small f) (mem copy_state) Other [1; 2; 3] 4
    (LayoutAllocated 0).
Proof. apply represents_allocated; by_computation. Qed.

Lemma Initialize_returns_witness :
  ∃ s',
    Initialize (VT:=tracked) (Env:=small no_faults) This (CopyValueAdapter 7)
      3 fresh_state = Ok tt s' ∧
    updated (Env:=small no_faults) This LayoutInlined [7; 7; 7] 4
      (LayoutAllocated 0) fresh_state s'.
Proof.
  destruct (Initialize_returns (VT:=tracked) (Env:=small no_faults) This
              (CopyValueAdapter 7) 3 [7; 7; 7] (CopyValueAdapter 7)
              fresh_state) as (s' & Hrun & _ & Hupd).
  - apply small_env_ok.
  - apply fresh_state_represents.
  - apply state_of_no_guards.
  - lia.
  - reflexivity.
  - apply no_faults_not_faulty.
  - intros _. by_computation.
  - exists s'. split; [exact Hrun|].
    case_decide as Hd; [simpl in Hd; lia|]. exact Hupd.
Defined.

Lemma Assign_returns_witness :
  ∃ s',
    Assign (VT:=tracked) (Env:=small no_faults) This (CopyValueAdapter 7) 1
      mixed_state = Ok tt s' ∧
    updated (Env:=small no_faults) This LayoutInlined [7] 2 LayoutInlined
      mixed_state s'.
Proof.
  destruct (Assign_returns (VT:=tracked) (Env:=small no_faults) This
              (CopyValueAdapter 7) 1 [7] (CopyValueAdapter 7) mixed_state
              [10; 20] 2 LayoutInlined) as (s' & Hrun & _ & Hupd).
  - apply small_env_ok.
  - apply mixed_state_this.
  - apply state_of_no_guards.
  - lia.
  - reflexivity.
  - apply no_faults_not_faulty.
  - lia.
  - exists s'. split; [exact Hrun|].
    case_decide as Hd; [|lia]. exact Hupd.
Defined.

Lemma Resize_returns_witness :
  ∃ s',
    Resize (VT:=tracked) (Env:=small no_faults) This DefaultValueAdapter 3
      mixed_state = Ok tt s' ∧
    updated (Env:=small no_faults) This LayoutInlined [10; 20; 0] 4
      (LayoutAllocated 1) mixed_state s'.
Proof.
  destruct (Resize_returns (VT:=tracked) (Env:=small no_faults) This
              DefaultValueAdapter 3 [0] DefaultValueAdapter mixed_state
              [10; 20] 2 LayoutInlined) as (s' & Hrun & _ & _ & _ & Hupd).
  - apply small_env_ok.
  - apply mixed_state_this.
  - apply state_of_no_guards.
  - lia.
  - reflexivity.
  - apply no_faults_not_faulty.
  - intros _. by_computation.
  - exists s'. split; [exact Hrun|].
    case_decide as Hd; [lia|]. exact Hupd.
Defined.

Lemma EmplaceBack_returns_witness :
  ∃ s',
    EmplaceBack (VT:=tracked) (Env:=small no_faults) This 30 mixed_state =
      Ok (Ptr (HeapBlock 1) 2) s' ∧
    updated (Env:=small no_faults) This LayoutInlined [10; 20; 30] 4
      (LayoutAllocated 1) mixed_state s'.
Proof.
  destruct (EmplaceBack_returns (VT:=tracked) (Env:=small no_faults) This 30
              mixed_state [10; 20] 2 LayoutInlined) as (r & s' & Hrun & Hupd).
  - apply small_env_ok.
  - apply mixed_state_this.
  - apply state_of_no_guards.
  - apply no_faults_not_faulty.
  - intros _. by_computation.
  - case_decide as Hd; [|exfalso; apply Hd; reflexivity].
    destruct Hupd as [Hupd ->]. exists s'. split; [exact Hrun|exact Hupd].
Defined.

Lemma Erase_returns_witness :
  ∃ s',
    Erase (VT:=tracked) (Env:=small no_faults) Other (Ptr (HeapBlock 0) 1)
      (Ptr (HeapBlock 0) 2) mixed_state = Ok (Ptr (HeapBlock 0) 1) s' ∧
    updated (Env:=small no_faults) Other (LayoutAllocated 0) [1; 3] 4
      (LayoutAllocated 0) mixed_state s'.
Proof.
  destruct (Erase_returns (VT:=tracked) (Env:=small no_faults) Other 1 2
              mixed_state [1; 2; 3] 4 (LayoutAllocated 0))
    as (_ & Hret & Hdoes).
  - apply small_env_ok.
  - apply mixed_state_other.
  - apply state_of_no_guards.
  - lia.
  - by_computation.
  - destruct (Hdoes (no_faults_not_faulty _)) as (s' & Hrun).
    exists s'. split; [exact Hrun|]. exact (proj1 (Hret _ _ Hrun)).
Defined.

Lemma Insert_returns_witness :
  ∃ s',
    Insert (VT:=tracked) (Env:=small no_faults) This (Ptr (InlinedOf This) 1)
      (IteratorValueAdapter [5; 6]) 2 mixed_state =
      Ok (Ptr (HeapBlock 1) 1) s' ∧
    updated (Env:=small no_faults) This LayoutInlined [10; 5; 6; 20] 4
      (LayoutAllocated 1) mixed_state s'.
Proof.
  destruct (Insert_returns (VT:=tracked) (Env:=small no_faults) This 1
              (IteratorValueAdapter [5; 6]) 2 [5; 6] (IteratorValueAdapter [])
              mixed_state [10; 20] 2 LayoutInlined) as (s' & Hrun & _ & Hupd).
  - apply small_env_ok.
  - apply mixed_state_this.
  - apply state_of_no_guards.
  - by_computation.
  - by_computation.
  - reflexivity.
  - apply no_faults_not_faulty.
  - intros _. by_computation.
  - exists s'. split; [exact Hrun|exact Hupd].
Defined.

Lemma other_storage_untouched_witness :
  ∃ s',
    run_operation (VT:=tracked) (Env:=small no_faults) This (OpEmplaceBack 30)
      mixed_state = Ok tt s' ∧
    storage_of Other (mem s') = storage_of Other (mem mixed_state) ∧
    represents (Env:=small no_faults) (mem s') Other [1; 2; 3] 4
      (LayoutAllocated 0).
Proof.
  assert (∃ s', run_operation (VT:=tracked) (Env:=small no_faults) This
                  (OpEmplaceBack 30) mixed_state = Ok tt s') as [s' Hrun]
    by (eexists; vm_compute; reflexivity).
  exists s'. split; [exact Hrun|].
  apply (other_storage_untouched (VT:=tracked) (Env:=small no_faults)
           mixed_state This (OpEmplaceBack 30) s' [1; 2; 3] 4
           (LayoutAllocated 0)).
  - apply small_env_ok.
  - apply mixed_state_valid.
  - exact I.
  - discriminate.
  - apply mixed_state_other.
  - exact Hrun.
Defined.

Lemma operations_leak_free_witness :
  ∃ s',
    run_operation (VT:=tracked) (Env:=small no_faults) This (OpEmplaceBack 30)
      mixed_state = Ok tt s' ∧
    leak_free (mem s').
Proof.
  assert (∃ s', run_operation (VT:=tracked) (Env:=small no_faults) This
                  (OpEmplaceBack 30) mixed_state = Ok tt s') as [s' Hrun]
    by (eexists; vm_compute; reflexivity).
  exists s'. split; [exact Hrun|].
  apply (operations_leak_free (VT:=tracked) (Env:=small no_faults)
           mixed_state This (OpEmplaceBack 30) s').
  - apply small_env_ok.
  - apply mixed_state_valid.
  - apply mixed_state_leak_free.
  - exact I.
  - exact Hrun.
Defined.

Lemma Reserve_ShrinkToFit_witness :
  ∃ s1 s2,
    Reserve (VT:=tracked) (Env:=small no_faults) This 5 mixed_state =
      Ok tt s1 ∧
    represents (Env:=small no_faults) (mem s1) This [10; 20] 5
      (LayoutAllocated 1) ∧
    ShrinkToFit (VT:=tracked) (Env:=small no_faults) This s1 = Ok tt s2 ∧
    represents (Env:=small no_faults) (mem s2) This [10; 20] 2
      LayoutInlined ∧
    heap (mem s2) = heap (mem mixed_state).
Proof.
  destruct (Reserve_ShrinkToFit (VT:=tracked) (Env:=small no_faults) This 5
              mixed_state [10; 20])
    as (s1 & s2 & H1 & Hr1 & H2 & Hr2 & Hh & _).
  - apply small_env_ok.
  - apply mixed_state_this.
  - apply state_of_no_guards.
  - by_computation.
  - by_computation.
  - apply no_faults_not_faulty.
  - by exists s1, s2.
Defined.

Lemma Storage_dtor_releases_witness :
  ∃ s',
    Storage_dtor (Env:=small no_faults) Other mixed_state = Ok tt s' ∧
    heap (mem s') !! 0%nat = None ∧
    trace s' =
      [EvDestroy (Ptr (HeapBlock 0) 2); EvDestroy (Ptr (HeapBlock 0) 1);
       EvDestroy (Ptr (HeapBlock 0) 0); EvDeallocate 0 4].
Proof.
  destruct (Storage_dtor_releases (Env:=small no_faults) Other mixed_state
              [1; 2; 3] 4 (LayoutAllocated 0)) as (Hrun & _ & _).
  - apply small_env_ok.
  - apply mixed_state_other.
  - eexists. split; [exact Hrun|]. by_computation.
Defined.

Lemma size_word_set_witness :
  ∃ s1 s2 s3,
    SetSize This 5 fresh_state = Ok tt s1 ∧
    SetAllocatedSize This 5 fresh_state = Ok tt s2 ∧
    SetInlinedSize This 5 fresh_state = Ok tt s3 ∧
    GetSize (storage_of This (mem s1)) = 5 ∧
    GetIsAllocated (storage_of This (mem s1)) = false ∧
    GetSize (storage_of This (mem s2)) = 5 ∧
    GetIsAllocated (storage_of This (mem s2)) = true ∧
    GetSize (storage_of This (mem s3)) = 5 ∧
    GetIsAllocated (storage_of This (mem s3)) = false.
Proof. apply (size_word_set This 5 fresh_state). lia. Defined.

Lemma size_word_update_witness :
  (∃ s', AddSize Other 1 mixed_state = Ok tt s' ∧
     GetSize (storage_of Other (mem s')) = 4 ∧
     GetIsAllocated (storage_of Other (mem s')) = true) ∧
  (∃ s', SubtractSize Other 3 mixed_state = Ok tt s' ∧
     GetSize (storage_of Other (mem s')) = 0 ∧
     GetIsAllocated (storage_of Other (mem s')) = true).
Proof.
  split.
  - destruct (size_word_update Other 1 mixed_state) as (Hadd & _);
      [by_computation|lia|].
    destruct Hadd as (s' & Hrun & Hsize & Halloc & _); [by_computation|].
    by exists s'.
  - destruct (size_word_update Other 3 mixed_state) as (_ & Hsub & _);
      [by_computation|lia|].
    destruct Hsub as (s' & Hrun & Hsize & Halloc & _); [by_computation|].
    by exists s'.
Defined.

Lemma AllocationTransaction_scope_witness :
  with_AllocationTransaction
    (λ tx, AllocationTransaction_Allocate (Env:=small no_faults) tx 4;;
           mret tt) fresh_state =
    Ok tt (state_after (mem fresh_state) [EvAllocate 0 4; EvDeallocate 0 4]
             1 fresh_state) ∧
  ∃ s',
    with_AllocationTransaction
      (λ tx, AllocationTransaction_Allocate (Env:=small no_faults) tx 4;;
             AcquireAllocatedData This tx) fresh_state = Ok tt s' ∧
    heap (mem s') !! 0%nat = Some (raw_buffer 4) ∧
    trace s' = [EvAllocate 0 4].
Proof.
  destruct (AllocationTransaction_scope (Env:=small no_faults) This 4
              fresh_state) as (Hret & _ & Hacq).
  - apply state_of_no_guards.
  - by_computation.
  - reflexivity.
  - split; [exact Hret|]. eexists. split; [exact Hacq|]. by_computation.
Defined.

Lemma ConstructionTransaction_scope_witness :
  ∃ s',
    with_ConstructionTransaction (Env:=small no_faults)
      (λ tx, ConstructionTransaction_Construct (VT:=tracked)
               (Env:=small no_faults) tx (Ptr (InlinedOf This) 0)
               (CopyValueAdapter 7) 2;;
             throw (A:=unit) element_exception) fresh_state =
      Throw element_exception s' ∧
    (∀ j, 0 ≤ j < 0 + 2 →
          slot_at (Env:=small no_faults) (Ptr (InlinedOf This) j) (mem s') =
            Some None) ∧
    trace s' =
      [EvConstruct (Ptr (InlinedOf This) 0) 7;
       EvConstruct (Ptr (InlinedOf This) 1) 7;
       EvDestroy (Ptr (InlinedOf This) 1); EvDestroy (Ptr (InlinedOf This) 0)].
Proof.
  destruct (ConstructionTransaction_scope (VT:=tracked)
              (Env:=small no_faults) (InlinedOf This) 0 (CopyValueAdapter 7) 2
              [7; 7] (CopyValueAdapter 7) fresh_state) as (_ & Hthrow).
  - apply state_of_no_guards.
  - lia.
  - reflexivity.
  - intros j Hj. assert (j = 0 ∨ j = 1) as [-> | ->] by lia; reflexivity.
  - reflexivity.
  - destruct (Hthrow element_exception) as (Hrun & Hraw).
    eexists. split; [exact Hrun|]. split; [exact Hraw|]. by_computation.
Defined.

Lemma bad_alloc_keeps_storage_witness :
  ∃ s',
    Reserve (VT:=tracked) (Env:=small (fault_at 0)) This 5 mixed_state =
      Throw bad_alloc s' ∧
    mem s' = mem mixed_state ∧ no_guards s'.
Proof.
  destruct (bad_alloc_keeps_storage (VT:=tracked) (Env:=small (fault_at 0))
              This mixed_state [10; 20] 2 LayoutInlined) as (Hreserve & _).
  - apply small_env_ok.
  - apply mixed_state_this.
  - apply state_of_no_guards.
  - apply (Hreserve 5); [lia|]. left. reflexivity.
Defined.

Lemma bad_alloc_keeps_elements_witness :
  ∃ s',
    Resize (VT:=tracked) (Env:=small (fault_at 0)) This DefaultValueAdapter 5
      mixed_state = Throw bad_alloc s' ∧
    mem s' = mem mixed_state ∧ no_guards s'.
Proof.
  destruct (bad_alloc_keeps_elements (VT:=tracked)
              (Env:=small (fault_at 0)) This mixed_state [10; 20] 2
              LayoutInlined) as (Hgrow & _).
  - apply small_env_ok.
  - apply mixed_state_this.
  - apply state_of_no_guards.
  - destruct (Hgrow DefaultValueAdapter 5) as (_ & Hresize); [lia| |].
    + left. reflexivity.
    + exact Hresize.
Defined.

Lemma Reserve_move_failure_witness :
  ∃ s',
    Reserve (VT:=tracked) (Env:=small (fault_at 2)) This 5 mixed_state =
      Throw element_exception s' ∧
    represents (Env:=small (fault_at 2)) (mem s') This [-1; 20] 2
      LayoutInlined ∧
    heap (mem s') !! 1%nat = None ∧ no_guards s'.
Proof.
  destruct (Reserve_move_failure (VT:=tracked) (Env:=small (fault_at 2)) This
              5 mixed_state [10; 20] 2 LayoutInlined 1)
    as (s' & Hrun & _ & Hr & Hh & Hg & _).
  - apply small_env_ok.
  - apply mixed_state_this.
  - apply state_of_no_guards.
  - lia.
  - by_computation.
  - by_computation.
  - reflexivity.
  - reflexivity.
  - by exists s'.
Defined.

Lemma Resize_construct_failure_witness :
  ∃ s',
    Resize (VT:=tracked) (Env:=small (fault_at 1)) This (CopyValueAdapter 7) 3
      mixed_state = Throw element_exception s' ∧
    represents (Env:=small (fault_at 1)) (mem s') This [10; 20] 2
      LayoutInlined ∧
    mem s' = mem mixed_state.
Proof.
  destruct (Resize_construct_failure (VT:=tracked)
              (Env:=small (fault_at 1)) This (CopyValueAdapter 7) 3 [7]
              (CopyValueAdapter 7) mixed_state [10; 20] 2 LayoutInlined 0)
    as (s' & Hrun & Hr & _ & _ & _ & Hmem).
  - apply small_env_ok.
  - apply mixed_state_this.
  - apply state_of_no_guards.
  - by_computation.
  - reflexivity.
  - by_computation.
  - intros _. by_computation.
  - reflexivity.
  - exists s'. split; [exact Hrun|]. split; [exact Hr|]. apply Hmem. lia.
Defined.

Lemma ShrinkToFit_move_failure_witness :
  ∃ s',
    ShrinkToFit (VT:=tracked) (Env:=small (fault_at 2)) Other mixed_state =
      Throw element_exception s' ∧
    storage_of Other (mem s') = storage_of Other (mem mixed_state) ∧
    represents (Env:=small (fault_at 2)) (mem s') Other [-1; 2; 3] 4
      (LayoutAllocated 0).
Proof.
  destruct (ShrinkToFit_move_failure (VT:=tracked)
              (Env:=small (fault_at 2)) Other mixed_state [1; 2; 3] 4 0 1)
    as (s' & Hrun & Hst & Hr & _).
  - apply small_env_ok.
  - apply mixed_state_other.
  - apply state_of_no_guards.
  - by_computation.
  - by_computation.
  - reflexivity.
  - reflexivity.
  - by exists s'.
Defined.

Lemma Swap_mixed_move_failure_witness :
  ∃ s',
    Swap (VT:=tracked) (Env:=small (fault_at 1)) This Other mixed_state =
      Throw element_exception s' ∧
    storage_of Other (mem s') = storage_of Other (mem mixed_state) ∧
    represents (Env:=small (fault_at 1)) (mem s') This [-1; 20] 2
      LayoutInlined ∧
    heap (mem s') = heap (mem mixed_state).
Proof.
  destruct (Swap_mixed_move_failure (VT:=tracked) (Env:=small (fault_at 1))
              This Other mixed_state [1; 2; 3] 4 0 [10; 20] 1)
    as (s' & Hrun & Hst & _ & Hr & Hh & _).
  - apply mixed_state_other.
  - apply mixed_state_this.
  - by_computation.
  - reflexivity.
  - by exists s'.
Defined.

Lemma AssignElements_failure_witness :
  ∃ s',
    AssignElements (VT:=tracked) (Env:=small (fault_at 1))
      (Ptr (InlinedOf This) 0) (CopyValueAdapter 7) 2 mixed_state =
      Throw element_exception s' ∧
    slot_at (Env:=small (fault_at 1)) (Ptr (InlinedOf This) 0) (mem s') =
      Some (Some 7) ∧
    slot_at (Env:=small (fault_at 1)) (Ptr (InlinedOf This) 1) (mem s') =
      Some (Some 20).
Proof.
  destruct (AssignElements_failure (VT:=tracked) (Env:=small (fault_at 1))
              (InlinedOf This) 0 2 (CopyValueAdapter 7) [7; 7]
              (CopyValueAdapter 7) mixed_state 1)
    as (s' & Hrun & Hnew & Hold & _).
  - reflexivity.
  - intros j Hj. assert (j = 0 ∨ j = 1) as [-> | ->] by lia; by eexists.
  - reflexivity.
  - exists s'. split; [exact Hrun|]. split.
    + apply (Hnew 0). lia.
    + rewrite (Hold 1) by lia. reflexivity.
Defined.

Lemma Assign_assignment_failure_witness :
  ∃ s',
    Assign (VT:=tracked) (Env:=small (fault_at 1)) This (CopyValueAdapter 7) 2
      mixed_state = Throw element_exception s' ∧
    represents (Env:=small (fault_at 1)) (mem s') This [7; 20] 2
      LayoutInlined ∧
    no_guards s'.
Proof.
  destruct (Assign_assignment_failure (VT:=tracked)
              (Env:=small (fault_at 1)) This (CopyValueAdapter 7) 2 [7; 7]
              (CopyValueAdapter 7) mixed_state [10; 20] 2 LayoutInlined 1)
    as (s' & Hrun & _ & Hr & _ & _ & Hg).
  - apply small_env_ok.
  - apply mixed_state_this.
  - apply state_of_no_guards.
  - lia.
  - reflexivity.
  - reflexivity.
  - by exists s'.
Defined.

Lemma EmplaceBack_in_place_failure_witness :
  EmplaceBack (VT:=tracked) (Env:=small (fault_at 0)) Other 9 mixed_state =
    Throw element_exception
      (state_after (mem mixed_state)
         [EvConstruct (Ptr (HeapBlock 0) 3) 9; EvThrow element_exception] 1
         mixed_state).
Proof.
  apply (EmplaceBack_in_place_failure (VT:=tracked)
           (Env:=small (fault_at 0)) Other 9 mixed_state [1; 2; 3] 4
           (LayoutAllocated 0)).
  - apply small_env_ok.
  - apply mixed_state_other.
  - by_computation.
  - reflexivity.
Defined.

Lemma InitFrom_copies_witness :
  ∃ s',
    InitFrom (VT:=tracked) (Env:=small no_faults) This Other copy_state =
      Ok tt s' ∧
    represents (Env:=small no_faults) (mem s') Other [1; 2; 3] 4
      (LayoutAllocated 0) ∧
    updated (Env:=small no_faults) This LayoutInlined [1; 2; 3] 4
      (LayoutAllocated 1) copy_state s'.
Proof.
  apply (InitFrom_copies (VT:=tracked) (Env:=small no_faults) This copy_state
           [1; 2; 3] 4 (LayoutAllocated 0)).
  - apply small_env_ok.
  - apply copy_state_this.
  - apply copy_state_other.
  - discriminate.
  - apply state_of_no_guards.
  - apply no_faults_not_faulty.
  - intros _. by_computation.
Defined.

Lemma InitFrom_construct_failure_witness :
  ∃ s',
    InitFrom (VT:=tracked) (Env:=small (fault_at 2)) This Other copy_state =
      Throw element_exception s' ∧
    represents (Env:=small (fault_at 2)) (mem s') This [] 2 LayoutInlined ∧
    Storage_dtor (Env:=small (fault_at 2)) This s' = Ok tt s' ∧
    heap (mem s') =
      <[1%nat := raw_buffer 4]> (heap (mem copy_state)) ∧
    ∀ w, ¬ owns (mem s') w 1.
Proof.
  destruct (InitFrom_construct_failure (VT:=tracked)
              (Env:=small (fault_at 2)) This copy_state [1; 2; 3] 4
              (LayoutAllocated 0) 1)
    as (s' & Hrun & Hr & _ & Hdtor & Hheap & Hown).
  - apply small_env_ok.
  - reflexivity.
  - apply copy_state_this.
  - apply copy_state_other.
  - intros _. by_computation.
  - reflexivity.
  - by exists s'.
Defined.

Lemma MemcpyFrom_takes_over_witness :
  ∃ s1 s',
    MemcpyFrom (Env:=small no_faults) This Other copy_state = Ok tt s1 ∧
    owns (mem s1) This 0 ∧ owns (mem s1) Other 0 ∧
    SetInlinedSize Other 0 s1 = Ok tt s' ∧
    represents (Env:=small no_faults) (mem s') This [1; 2; 3] 4
      (LayoutAllocated 0) ∧
    represents (Env:=small no_faults) (mem s') Other [] 2 LayoutInlined ∧
    heap (mem s') = heap (mem copy_state) ∧
    trace s' = trace copy_state ∧ tick s' = tick copy_state.
Proof.
  apply (MemcpyFrom_takes_over (Env:=small no_faults) This copy_state
           [1; 2; 3] 4 0).
  - apply small_env_ok.
  - apply copy_state_other.
Defined.
